(** * mx-chain-go: auction-list display, status metrics, genesis delegation

    A shallow embedding of

    - the audit projection of the epoch validator auction selector
      ([displayMinRequiredTopUp], [getShortKey],
      [getShortDisplayableBlsKeys], [displayOwnersData],
      [displayOwnersSelectedNodes], [displayAuctionList], [displayTable];
      package [metachain]),
    - the counters of the status metrics map ([Increment], [AddUint64],
      [Decrement]; package [statusHandler]),
    - the constructor [NewStandardDelegationProcessor] (package
      [intermediate]),
    - the rest of the status metrics ([SetInt64Value], [SetUInt64Value],
      [SetStringValue], [StatusMetricsMapWithoutP2P],
      [StatusP2pMetricsMap], [EpochMetrics], [ConfigMetrics],
      [NetworkMetrics] and the two readers),
    - the pending mini blocks and the bodies after a hard fork
      ([GetPendingMiniBlocks], [createNonceToHashMap],
      [computePendingMiniBlocksFromUnFinishedMetaBlocks],
      [getAllMiniBlocksWithDst], [CleanDuplicates], [CreateBody];
      package [update]),
    - the methods of the standard delegation processor
      ([ExecuteDelegation] and what it calls, down to [stake],
      [checkDelegator] and [verifyOneNode]),
    - the results of a transaction for the API
      ([putResultsInTransaction] and what it calls, down to
      [getScrFromStorage] and [adaptSmartContractResult]; package
      [transactionAPI]).

    The display code receives pointers ([*big.Int], [*ownerData]) and
    slices ([[]byte], [[]state.ValidatorInfoHandler]) that alias the
    selector's data, so it is embedded over an explicit Go heap: a Go
    function becomes a computation in the monad [M], which threads the
    heap and the logger's call record and fails on a run-time panic.

    The selector itself (aggregation, threshold search, fair selection)
    is not among the sources; where a property needs its figures or its
    ordering of an owner's keys, these are definitions marked as modelled
    from the specification.

    The first part holds the definitions, the second the properties:
    a small program logic for runs (what a run leaves alone, what it
    returns, that it never looks at the logger's level), the
    specifications of the display functions, concrete runs, and the
    properties of the constructor and of the counters. *)

From Stdlib Require Import ZArith Lia List Strings.String Strings.Byte
  Strings.Ascii DecimalString.
From Stdlib Require HexadecimalString.
From stdpp Require Import base option list gmap strings sorting.

Local Open Scope Z_scope.

(** ** Go values *)

Abbreviation byte := Byte.byte.

(** A heap location; a pointer is a location or [nil]. *)
Definition loc := nat.
Definition ptr := option loc.

(** A slice header: backing array, offset of the first element in it,
    length and capacity.  A nil or empty slice is a header of length and
    capacity 0. *)
Record slice := Slice {
  s_arr : loc;
  s_off : nat;
  s_len : nat;
  s_cap : nat;
}.

(** [state.ValidatorInfoHandler]: the display code only calls
    [GetPublicKey()], which hands out the stored key slice itself (no
    copy), so a validator is the slice header of its key. *)
Record validator := Validator { GetPublicKey : slice }.

(** Modelled from the spec: the declaration of [ownerData] is not part of
    the sources at hand.  The fields are the ones the display code reads;
    by the data model the four node counts are counts (natural numbers),
    the three stake figures are arbitrary-precision integers ([*big.Int])
    and [auctionList] is the owner's slice of auction nodes. *)
Record ownerData := OwnerData {
  numStakedNodes : nat;
  numActiveNodes : nat;
  numAuctionNodes : nat;
  numQualifiedAuctionNodes : nat;
  totalTopUp : ptr;
  topUpPerNode : ptr;
  qualifiedTopUpPerNode : ptr;
  auctionList : slice;
}.

(** ** The heap, the logger and the monad *)

Inductive cell :=
  | CInt (z : Z)                      (* a big.Int *)
  | CBytes (bs : list byte)           (* the backing array of a []byte *)
  | CVals (vs : list validator)       (* the backing array of a []ValidatorInfoHandler *)
  | COwner (o : ownerData).           (* an ownerData struct *)

(** The levels of elrond-go-logger, in its own order. *)
Inductive logLevel := LogTrace | LogDebug | LogInfo | LogWarning | LogError | LogNone.

Definition logLevel_rank (l : logLevel) : nat :=
  match l with
  | LogTrace => 0 | LogDebug => 1 | LogInfo => 2
  | LogWarning => 3 | LogError => 4 | LogNone => 5
  end%nat.

(** One call of [log.Info] or [log.Error]: severity, message and the
    key/value arguments, already rendered. *)
Record logCall := LogCall {
  lc_severity : logLevel;
  lc_message : string;
  lc_args : list (string * string);
}.

(** The state a display function runs in: the heap (allocation appends a
    cell, so a location is an index), the calls received so far by the
    package-level logger, and the level the logger is configured at. *)
Record world := World {
  w_heap : list cell;
  w_log : list logCall;
  w_level : logLevel;
}.

Definition set_heap (h : list cell) (w : world) : world :=
  {| w_heap := h; w_log := w_log w; w_level := w_level w |}.
Definition set_level (lvl : logLevel) (w : world) : world :=
  {| w_heap := w_heap w; w_log := w_log w; w_level := lvl |}.

(** A Go computation: [None] is a run-time panic. *)
Definition M (A : Type) : Type := world -> option (A * world).

Definition ret {A} (a : A) : M A := fun w => Some (a, w).
Definition bind {A B} (m : M A) (f : A -> M B) : M B :=
  fun w => match m w with
           | Some (a, w') => f a w'
           | None => None
           end.
Definition panic {A} : M A := fun _ => None.

Declare Scope go_scope.
Delimit Scope go_scope with go.
Notation "x <- m ;; k" := (bind m (fun x => k))
  (at level 100, m at next level, right associativity) : go_scope.
Notation "m ;;; k" := (bind m (fun _ => k))
  (at level 100, right associativity) : go_scope.
Local Open Scope go_scope.

Fixpoint foldM {A S} (body : A -> S -> M S) (l : list A) (acc : S) : M S :=
  match l with
  | [] => ret acc
  | x :: l' => acc' <- body x acc ;; foldM body l' acc'
  end.

(** *** Memory primitives *)

Definition alloc (c : cell) : M loc :=
  fun w => Some (length (w_heap w), set_heap (w_heap w ++ [c]) w).

Definition load (l : loc) : M cell :=
  fun w => match w_heap w !! l with
           | Some c => Some (c, w)
           | None => None
           end.

Definition store (l : loc) (c : cell) : M unit :=
  fun w => if decide (l < length (w_heap w))%nat
           then Some (tt, set_heap (<[l:=c]> (w_heap w)) w)
           else None.

(** *** The logger *)

Definition log_call (sev : logLevel) (msg : string) (args : list (string * string)) : M unit :=
  fun w => Some (tt, {| w_heap := w_heap w;
                        w_log := w_log w ++ [LogCall sev msg args];
                        w_level := w_level w |}).

Definition log_Info := log_call LogInfo.
Definition log_Error := log_call LogError.

(** What a logger configured at [lvl] writes out of the calls it got:
    those whose severity is at least [lvl]. *)
Definition emitted (lvl : logLevel) (calls : list logCall) : list logCall :=
  filter (fun c => (logLevel_rank lvl <= logLevel_rank (lc_severity c))%nat) calls.

(** *** math/big *)

Definition big_get (p : ptr) : M Z :=
  match p with
  | None => panic
  | Some l =>
      c <- load l ;;
      match c with CInt z => ret z | _ => panic end
  end.

Definition big_set (p : ptr) (v : Z) : M ptr :=
  match p with
  | None => panic
  | Some l => store l (CInt v) ;;; ret p
  end.

Definition big_NewInt (v : Z) : M ptr :=
  l <- alloc (CInt v) ;; ret (Some l).

(** [z.Sub(x, y)]: sets [z] to [x - y] and returns [z]. *)
Definition big_Sub (z x y : ptr) : M ptr :=
  a <- big_get x ;; b <- big_get y ;; big_set z (a - b).

(** Euclidean division, the one [big.Int.Div] implements: the remainder
    is never negative. *)
Definition euclid_div (a b : Z) : Z :=
  if 0 <? b then a / b else - (a / - b).

(** [z.Div(x, y)]: panics for [y = 0]. *)
Definition big_Div (z x y : ptr) : M ptr :=
  a <- big_get x ;; b <- big_get y ;;
  if b =? 0 then panic else big_set z (euclid_div a b).

Definition big_Cmp (x y : ptr) : M Z :=
  a <- big_get x ;; b <- big_get y ;;
  ret (match a ?= b with Lt => -1 | Eq => 0 | Gt => 1 end).

Definition Z_String (z : Z) : string := NilZero.string_of_int (Z.to_int z).

(** [x.String()]: decimal; a nil receiver prints as ["<nil>"]. *)
Definition big_String (x : ptr) : M string :=
  match x with
  | None => ret "<nil>"%string
  | Some _ => a <- big_get x ;; ret (Z_String a)
  end.

(** [strconv.Itoa(int(n))] for a count. *)
Definition Itoa (n : nat) : string := Z_String (Z.of_nat n).

(** *** Slices *)

Definition load_bytes (l : loc) : M (list byte) :=
  c <- load l ;; match c with CBytes bs => ret bs | _ => panic end.

Definition load_vals (l : loc) : M (list validator) :=
  c <- load l ;; match c with CVals vs => ret vs | _ => panic end.

(** The window of a backing array a slice header denotes; a header that
    reaches beyond its array does not occur in a Go program. *)
Definition window {A} (s : slice) (arr : list A) : option (list A) :=
  if decide (s_off s + s_cap s <= length arr /\ s_len s <= s_cap s)%nat
  then Some (take (s_len s) (drop (s_off s) arr))
  else None.

Definition lift_option {A} (o : option A) : M A :=
  match o with Some a => ret a | None => panic end.

(** The elements of a byte slice, as a copy takes them. *)
Definition slice_bytes (s : slice) : M (list byte) :=
  arr <- load_bytes (s_arr s) ;; lift_option (window s arr).

(** [s[i]] on a validator slice: panics for [i >= len(s)]. *)
Definition vals_index (s : slice) (i : nat) : M validator :=
  arr <- load_vals (s_arr s) ;;
  vs <- lift_option (window s arr) ;;
  lift_option (vs !! i).

(** [s[:k]]: the bound is the capacity; beyond it Go panics. *)
Definition slice_to (s : slice) (k : nat) : M slice :=
  if decide (k <= s_cap s)%nat
  then ret {| s_arr := s_arr s; s_off := s_off s; s_len := k; s_cap := s_cap s |}
  else panic.

(** [s[k:]]: the bound is the length. *)
Definition slice_from (s : slice) (k : nat) : M slice :=
  if decide (k <= s_len s)%nat
  then ret {| s_arr := s_arr s; s_off := (s_off s + k)%nat;
              s_len := (s_len s - k)%nat; s_cap := (s_cap s - k)%nat |}
  else panic.

(** [make([]byte, 0)] *)
Definition make_bytes_0 : M slice :=
  l <- alloc (CBytes []) ;; ret {| s_arr := l; s_off := 0; s_len := 0; s_cap := 0 |}%nat.

(** [[]byte(str)]: a fresh array holding the bytes of [str]. *)
Definition bytes_of_string (str : string) : M slice :=
  let bs := list_byte_of_string str in
  l <- alloc (CBytes bs) ;;
  ret {| s_arr := l; s_off := 0; s_len := length bs; s_cap := length bs |}%nat.

(** [string(s)]: a copy of the slice's bytes. *)
Definition string_of_slice (s : slice) : M string :=
  bs <- slice_bytes s ;; ret (string_of_list_byte bs).

Section Append.

(** The capacity the runtime picks when [append] must reallocate
    depends on the Go version: [growslice_cap old needed] is its
    proposal, and the new array holds at least the needed elements. *)
Variable growslice_cap : nat -> nat -> nat.

(** [append(s, xs...)] on bytes: in place when the capacity suffices,
    into a fresh array otherwise. *)
Definition append_bytes (s : slice) (xs : list byte) : M slice :=
  let n := (s_len s + length xs)%nat in
  if decide (n <= s_cap s)%nat then
    arr <- load_bytes (s_arr s) ;;
    store (s_arr s) (CBytes (list_inserts (s_off s + s_len s) xs arr)) ;;;
    ret {| s_arr := s_arr s; s_off := s_off s; s_len := n; s_cap := s_cap s |}
  else
    old <- slice_bytes s ;;
    let newcap := (n `max` growslice_cap (s_cap s) n)%nat in
    l <- alloc (CBytes (old ++ xs ++ replicate (newcap - n) x00)) ;;
    ret {| s_arr := l; s_off := 0; s_len := n; s_cap := newcap |}%nat.

(** [append(s, t...)]: the elements of [t] are read, then appended. *)
Definition append_slice (s t : slice) : M slice :=
  xs <- slice_bytes t ;; append_bytes s xs.

End Append.

(** ** Package metachain: the audit projection *)

Definition maxPubKeyDisplayableLen : nat := 20.

Section Display.

Variable growslice_cap : nat -> nat -> nat.

Definition displayMinRequiredTopUp (topUp min step : ptr) : M unit :=
  c <- big_Cmp topUp min ;;
  topUp <- (if negb (c =? 0)
            then z <- big_NewInt 0 ;; big_Sub z topUp step
            else ret topUp) ;;
  z <- big_NewInt 0 ;;
  iteratedValues <- big_Sub z topUp min ;;
  z <- big_NewInt 0 ;;
  iterations <- big_Div z iteratedValues step ;;
  s_topUp <- big_String topUp ;;
  s_iterations <- big_String iterations ;;
  log_Info "auctionListSelector: found min required"
    [("topUp", s_topUp); ("after num of iterations", s_iterations)]%string.

Definition getShortKey (pubKey : slice) : M string :=
  let displayablePubKey := pubKey in
  let pubKeyLen := s_len pubKey in
  displayablePubKey <-
    (if decide (maxPubKeyDisplayableLen < pubKeyLen)%nat then
       displayablePubKey <- make_bytes_0 ;;
       head <- slice_to pubKey (maxPubKeyDisplayableLen / 2) ;;
       displayablePubKey <- append_slice growslice_cap displayablePubKey head ;;
       dots <- bytes_of_string "..." ;;
       displayablePubKey <- append_slice growslice_cap displayablePubKey dots ;;
       tail <- slice_from pubKey (pubKeyLen - maxPubKeyDisplayableLen / 2) ;;
       append_slice growslice_cap displayablePubKey tail
     else ret displayablePubKey) ;;
  string_of_slice displayablePubKey.

(** [display.LineData] of elrond-go-core: a row of cells and whether a
    horizontal rule follows it. *)
Record LineData := NewLineData {
  HorizontalRuleAfter : bool;
  Values : list string;
}.

(** [display.CreateTableString] belongs to elrond-go-core: a function of
    the header and the rows that yields the table or an error text. *)
Variable CreateTableString : list string -> list LineData -> string + string.

(** [stakingDataProvider.GetBlsKeyOwner]: the owner of a key, or an error
    text; a read-only oracle over the key's bytes. *)
Variable GetBlsKeyOwner : list byte -> string + string.

Definition newline : string := String (ascii_of_nat 10) EmptyString.

Definition displayTable (tableHeader : list string) (lines : list LineData)
    (message : string) : M unit :=
  match CreateTableString tableHeader lines with
  | inr err => log_Error "could not create table" [("error", err)]%string
  | inl table =>
      let msg := (message ++ newline ++ table)%string in
      log_Info msg []
  end.

(** The one call [displayTable] makes to the logger. *)
Definition table_call (tableHeader : list string) (lines : list LineData)
    (message : string) : logCall :=
  match CreateTableString tableHeader lines with
  | inr err => LogCall LogError "could not create table" [("error", err)]%string
  | inl table => LogCall LogInfo (message ++ newline ++ table)%string []
  end.

Definition getShortDisplayableBlsKeys (list : slice) : M string :=
  foldM (fun idx pubKeys =>
           validator <- vals_index list idx ;;
           key <- getShortKey (GetPublicKey validator) ;;
           let pubKeys := (pubKeys ++ key)%string in
           let addDelimiter := negb (Z.of_nat idx =? Z.of_nat (s_len list) - 1) in
           ret (if addDelimiter then (pubKeys ++ ", ")%string else pubKeys))
        (seq 0 (s_len list)) ""%string.

(** [owner.f] for [owner : *ownerData]: a nil pointer panics. *)
Definition field {A} (f : ownerData -> A) (owner : ptr) : M A :=
  match owner with
  | None => panic
  | Some l =>
      c <- load l ;;
      match c with COwner o => ret (f o) | _ => panic end
  end.

(** [range] over the map [ownersData] visits its entries in an order the
    runtime picks; the display functions take the entries in the order
    visited. *)
Definition displayOwnersData (ownersData : list (string * ptr)) : M unit :=
  let tableHeader :=
    ["Owner"; "Num staked nodes"; "Num active nodes"; "Num auction nodes";
     "Total top up"; "Top up per node"; "Auction list nodes"]%string in
  lines <-
    foldM (fun '(ownerPubKey, owner) lines =>
             nStaked <- field numStakedNodes owner ;;
             nActive <- field numActiveNodes owner ;;
             nAuction <- field numAuctionNodes owner ;;
             total <- field totalTopUp owner ;;
             sTotal <- big_String total ;;
             perNode <- field topUpPerNode owner ;;
             sPerNode <- big_String perNode ;;
             nodes <- field auctionList owner ;;
             keys <- getShortDisplayableBlsKeys nodes ;;
             let line := [ownerPubKey; Itoa nStaked; Itoa nActive; Itoa nAuction;
                          sTotal; sPerNode; keys] in
             ret (lines ++ [NewLineData false line]))
          ownersData [] ;;
  displayTable tableHeader lines "Initial nodes config in auction list".

Definition displayOwnersSelectedNodes (ownersData : list (string * ptr)) : M unit :=
  let tableHeader :=
    ["Owner"; "Num staked nodes"; "TopUp per node"; "Total top up";
     "Num auction nodes"; "Num qualified auction nodes"; "Num active nodes";
     "Qualified top up per node"; "Selected auction list nodes"]%string in
  lines <-
    foldM (fun '(ownerPubKey, owner) lines =>
             nStaked <- field numStakedNodes owner ;;
             perNode <- field topUpPerNode owner ;;
             sPerNode <- big_String perNode ;;
             total <- field totalTopUp owner ;;
             sTotal <- big_String total ;;
             nAuction <- field numAuctionNodes owner ;;
             nQualified <- field numQualifiedAuctionNodes owner ;;
             nActive <- field numActiveNodes owner ;;
             qualified <- field qualifiedTopUpPerNode owner ;;
             sQualified <- big_String qualified ;;
             nodes <- field auctionList owner ;;
             k <- field numQualifiedAuctionNodes owner ;;
             selected <- slice_to nodes k ;;
             keys <- getShortDisplayableBlsKeys selected ;;
             let line := [ownerPubKey; Itoa nStaked; sPerNode; sTotal; Itoa nAuction;
                          Itoa nQualified; Itoa nActive; sQualified; keys] in
             ret (lines ++ [NewLineData false line]))
          ownersData [] ;;
  displayTable tableHeader lines "Selected nodes config from auction list".

Definition uint32 (z : Z) : Z := z mod 2 ^ 32.

Definition displayAuctionList (auctionList : slice)
    (ownersData : gmap string ptr) (numOfSelectedNodes : Z) : M unit :=
  let tableHeader := ["Owner"; "Registered key"; "Qualified TopUp per node"]%string in
  lines <-
    foldM (fun idx lines =>
             validator <- vals_index auctionList idx ;;
             let pubKey := GetPublicKey validator in
             keyBytes <- slice_bytes pubKey ;;
             match GetBlsKeyOwner keyBytes with
             | inr err =>
                 log_Error "auctionListSelector.displayAuctionList" [("error", err)]%string ;;;
                 ret lines
             | inl owner =>
                 topUp <- field qualifiedTopUpPerNode (default None (ownersData !! owner)) ;;
                 let horizontalLine :=
                   uint32 (Z.of_nat idx) =? uint32 (numOfSelectedNodes - 1) in
                 sKey <- string_of_slice pubKey ;;
                 sTopUp <- big_String topUp ;;
                 ret (lines ++ [NewLineData horizontalLine [owner; sKey; sTopUp]])
             end)
          (seq 0 (s_len auctionList)) [] ;;
  displayTable tableHeader lines "Final selected nodes from auction list".


(** The calls of the audit projection: the four display functions, on
    any arguments. *)
Inductive display_call : M unit -> Prop :=
  | call_displayMinRequiredTopUp topUp min step :
      display_call (displayMinRequiredTopUp topUp min step)
  | call_displayOwnersData ownersData :
      display_call (displayOwnersData ownersData)
  | call_displayOwnersSelectedNodes ownersData :
      display_call (displayOwnersSelectedNodes ownersData)
  | call_displayAuctionList auctionList ownersData numOfSelectedNodes :
      display_call (displayAuctionList auctionList ownersData numOfSelectedNodes).

End Display.

(** ** The selector's figures and tie-break, from the specification *)

(** Modelled from the spec: the selector that fills in an owner's figures
    is not part of the sources at hand.  [topUpPerNode] is
    [totalTopUp / numStakedNodes] and [qualifiedTopUpPerNode] is
    [totalTopUp / (numActiveNodes + numQualifiedAuctionNodes)], both by
    floor division. *)
Definition spec_topUpPerNode (totalTopUp : Z) (numStakedNodes : nat) : Z :=
  totalTopUp / Z.of_nat numStakedNodes.

Definition spec_qualifiedTopUpPerNode (totalTopUp : Z)
    (numActiveNodes numQualifiedAuctionNodes : nat) : Z :=
  totalTopUp / Z.of_nat (numActiveNodes + numQualifiedAuctionNodes).

(** The byte order of public keys ([bytes.Compare a b <= 0]): the first
    differing byte decides, a proper prefix is smaller. *)
Fixpoint bytes_leb (a b : list byte) : bool :=
  match a, b with
  | [], _ => true
  | _ :: _, [] => false
  | x :: a', y :: b' =>
      if (Byte.to_N x <? Byte.to_N y)%N then true
      else if (Byte.to_N x =? Byte.to_N y)%N then bytes_leb a' b'
      else false
  end.

Definition pubKey_le (a b : list byte) : Prop := bytes_leb a b = true.

#[export] Instance pubKey_le_dec a b : Decision (pubKey_le a b).
Proof. unfold pubKey_le. apply _. Defined.

(** A validator with the bytes of its key, ordered by the key. *)
Definition keyed_le (a b : list byte * validator) : Prop := pubKey_le a.1 b.1.

#[export] Instance keyed_le_dec a b : Decision (keyed_le a b).
Proof. unfold keyed_le. apply _. Defined.

(** Modelled from the spec: the selector's ordering of an owner's auction
    nodes is not in the sources either.  Within an owner the nodes are
    taken by ascending public key byte order, and the promoted ones are
    the first [numQualifiedAuctionNodes] of that order.
    [sortListByPubKey] is that ordering on the heap: it reads the key of
    every validator of the list and puts the validators in ascending
    order of their keys, in place.  The prefix of the ordered list is
    what [displayOwnersSelectedNodes] slices off. *)
Definition sortListByPubKey (list : slice) : M unit :=
  arr <- load_vals (s_arr list) ;;
  validators <- lift_option (window list arr) ;;
  keyed <- foldM (fun validator keyed =>
                    key <- slice_bytes (GetPublicKey validator) ;;
                    ret (keyed ++ [(key, validator)]))
                 validators [] ;;
  let sorted := merge_sort keyed_le keyed in
  store (s_arr list) (CVals (list_inserts (s_off list) sorted.*2 arr)).

(** Modelled from the spec: the ordering, for the auction list of every
    owner of the map. *)
Definition sortOwnersAuctionLists (ownersData : list (string * ptr)) : M unit :=
  foldM (fun '(_, owner) _ =>
           nodes <- field auctionList owner ;;
           sortListByPubKey nodes)
        ownersData tt.

(** ** Package statusHandler: the metrics map *)

(** A value stored under a key of [nodeMetrics] (a [sync.Map] of
    [interface{}]): the setters of [statusMetrics] store an [int64], a
    [uint64] or a [string]. *)
Inductive metric :=
  | MUint64 (v : Z)
  | MInt64 (v : Z)
  | MString (s : string).

(** [uint64] arithmetic wraps around. *)
Definition wrap64 (z : Z) : Z := z mod 2 ^ 64.

Definition Increment (key : string) (nodeMetrics : gmap string metric) : gmap string metric :=
  match nodeMetrics !! key with
  | None => nodeMetrics
  | Some keyValueI =>
      match keyValueI with
      | MUint64 keyValue =>
          let keyValue := wrap64 (keyValue + 1) in
          <[key := MUint64 keyValue]> nodeMetrics
      | _ => nodeMetrics
      end
  end.

Definition AddUint64 (key : string) (val : Z) (nodeMetrics : gmap string metric) : gmap string metric :=
  match nodeMetrics !! key with
  | None => nodeMetrics
  | Some keyValueI =>
      match keyValueI with
      | MUint64 keyValue =>
          let keyValue := wrap64 (keyValue + val) in
          <[key := MUint64 keyValue]> nodeMetrics
      | _ => nodeMetrics
      end
  end.

Definition Decrement (key : string) (nodeMetrics : gmap string metric) : gmap string metric :=
  match nodeMetrics !! key with
  | None => nodeMetrics
  | Some keyValueI =>
      match keyValueI with
      | MUint64 keyValue =>
          if keyValue =? 0 then nodeMetrics
          else
            let keyValue := wrap64 (keyValue - 1) in
            <[key := MUint64 keyValue]> nodeMetrics
      | _ => nodeMetrics
      end
  end.

(** The values a [uint64] cell can hold. *)
Definition uint64_range (m : gmap string metric) : Prop :=
  forall k v, m !! k = Some (MUint64 v) -> 0 <= v < 2 ^ 64.

(** *** The setters and the readers

    [Store] on the [sync.Map] replaces whatever the key held, of any
    type; the readers answer the zero value for a key that is absent or
    holds a value of another type. *)

Definition SetInt64Value (key : string) (value : Z) (nodeMetrics : gmap string metric)
    : gmap string metric :=
  <[key := MInt64 value]> nodeMetrics.

Definition SetUInt64Value (key : string) (value : Z) (nodeMetrics : gmap string metric)
    : gmap string metric :=
  <[key := MUint64 value]> nodeMetrics.

Definition SetStringValue (key : string) (value : string) (nodeMetrics : gmap string metric)
    : gmap string metric :=
  <[key := MString value]> nodeMetrics.

Definition loadUint64Metric (metricName : string) (nodeMetrics : gmap string metric) : Z :=
  match nodeMetrics !! metricName with
  | None => 0
  | Some metricObj =>
      match metricObj with
      | MUint64 metricAsUint64 => metricAsUint64
      | _ => 0
      end
  end.

Definition loadStringMetric (metricName : string) (nodeMetrics : gmap string metric) : string :=
  match nodeMetrics !! metricName with
  | None => EmptyString
  | Some metricObj =>
      match metricObj with
      | MString metricAsString => metricAsString
      | _ => EmptyString
      end
  end.

(** *** The views

    [strings.Contains(s, substr)] of Go's standard library. *)
Fixpoint strings_Contains (s substr : string) : bool :=
  String.prefix substr s ||
  match s with
  | EmptyString => false
  | String _ s' => strings_Contains s' substr
  end.

(** [entries] are the entries of [nodeMetrics] in the order in which
    [Range] hands them to the callback. *)
Definition StatusMetricsMapWithoutP2P (entries : list (string * metric)) : gmap string metric :=
  foldl (fun statusMetricsMap '(keyString, value) =>
           if strings_Contains keyString "_p2p_" then statusMetricsMap
           else <[keyString := value]> statusMetricsMap)
        ∅ entries.

Definition StatusP2pMetricsMap (entries : list (string * metric)) : gmap string metric :=
  foldl (fun statusMetricsMap '(keyString, value) =>
           if negb (strings_Contains keyString "_p2p_") then statusMetricsMap
           else <[keyString := value]> statusMetricsMap)
        ∅ entries.

(** The metric names of package [core] that the views read and report. *)
Record coreMetrics := CoreMetrics {
  MetricCurrentRound : string;
  MetricRoundAtEpochStart : string;
  MetricEpochNumber : string;
  MetricRoundsPerEpoch : string;
  MetricRoundsPassedInCurrentEpoch : string;
  MetricNumShardsWithoutMetacahin : string;
  MetricNumNodesPerShard : string;
  MetricNumMetachainNodes : string;
  MetricShardConsensusGroupSize : string;
  MetricMetaConsensusGroupSize : string;
  MetricMinGasPrice : string;
  MetricMinGasLimit : string;
  MetricGasPerDataByte : string;
  MetricChainId : string;
  MetricRoundDuration : string;
  MetricStartTime : string;
  MetricNonce : string;
}.

Section Views.

Variable core : coreMetrics.

Definition EpochMetrics (nodeMetrics : gmap string metric) : gmap string metric :=
  let epochMetrics : gmap string metric := ∅ in
  let currentRound := loadUint64Metric (MetricCurrentRound core) nodeMetrics in
  let roundNumberAtEpochStart := loadUint64Metric (MetricRoundAtEpochStart core) nodeMetrics in
  let epochMetrics :=
    <[MetricEpochNumber core :=
        MUint64 (loadUint64Metric (MetricEpochNumber core) nodeMetrics)]> epochMetrics in
  let epochMetrics :=
    <[MetricRoundsPerEpoch core :=
        MUint64 (loadUint64Metric (MetricRoundsPerEpoch core) nodeMetrics)]> epochMetrics in
  let epochMetrics := <[MetricCurrentRound core := MUint64 currentRound]> epochMetrics in
  let epochMetrics :=
    <[MetricRoundAtEpochStart core := MUint64 roundNumberAtEpochStart]> epochMetrics in
  let epochMetrics :=
    <[MetricRoundsPassedInCurrentEpoch core :=
        MUint64 (wrap64 (currentRound - roundNumberAtEpochStart))]> epochMetrics in
  epochMetrics.

Definition ConfigMetrics (nodeMetrics : gmap string metric) : gmap string metric :=
  let configMetrics : gmap string metric := ∅ in
  let u64 (name : string) (acc : gmap string metric) :=
    <[name := MUint64 (loadUint64Metric name nodeMetrics)]> acc in
  let configMetrics := u64 (MetricNumShardsWithoutMetacahin core) configMetrics in
  let configMetrics := u64 (MetricNumNodesPerShard core) configMetrics in
  let configMetrics := u64 (MetricNumMetachainNodes core) configMetrics in
  let configMetrics := u64 (MetricShardConsensusGroupSize core) configMetrics in
  let configMetrics := u64 (MetricMetaConsensusGroupSize core) configMetrics in
  let configMetrics := u64 (MetricMinGasPrice core) configMetrics in
  let configMetrics := u64 (MetricMinGasLimit core) configMetrics in
  let configMetrics := u64 (MetricGasPerDataByte core) configMetrics in
  let configMetrics :=
    <[MetricChainId core :=
        MString (loadStringMetric (MetricChainId core) nodeMetrics)]> configMetrics in
  let configMetrics := u64 (MetricRoundDuration core) configMetrics in
  let configMetrics := u64 (MetricStartTime core) configMetrics in
  configMetrics.

Definition NetworkMetrics (nodeMetrics : gmap string metric) : gmap string metric :=
  let networkMetrics : gmap string metric := ∅ in
  let networkMetrics :=
    <[MetricNonce core := MUint64 (loadUint64Metric (MetricNonce core) nodeMetrics)]>
      networkMetrics in
  let networkMetrics :=
    <[MetricCurrentRound core :=
        MUint64 (loadUint64Metric (MetricCurrentRound core) nodeMetrics)]> networkMetrics in
  let networkMetrics :=
    <[MetricEpochNumber core :=
        MUint64 (loadUint64Metric (MetricEpochNumber core) nodeMetrics)]> networkMetrics in
  networkMetrics.

End Views.

(** ** Package intermediate: the standard delegation processor *)

(** The errors of package [genesis] the constructor returns; each is a
    variable of its own there. *)
Inductive genesis_error :=
  | ErrNilTxExecutionProcessor
  | ErrNilShardCoordinator
  | ErrNilAccountsParser
  | ErrNilSmartContractParser
  | ErrNilNodesListSplitter
  | ErrNilQueryService
  | ErrNilInitialNodePrice
  | ErrInvalidInitialNodePrice.

Section Intermediate.

(** The values of interface type, and [check.IfNil] on them.  Package
    [core/check] is not among the sources at hand, so the check is a
    parameter: it is how the constructor decides that a collaborator is
    nil (the nil interface, or a value whose [IsInterfaceNil()] says
    so). *)
Variable iface : Type.
Variable check_IfNil : iface -> bool.

Record ArgStandardDelegationProcessor := {
  Executor : iface;
  ShardCoordinator : iface;
  AccountsParser : iface;
  SmartContractParser : iface;
  NodesListSplitter : iface;
  QueryService : iface;
  NodePrice : option Z;       (* a big.Int pointer; nil is None *)
}.

Record standardDelegationProcessor := {
  TxExecutionProcessor : iface;
  shardCoordinator : iface;
  accuntsParser : iface;
  smartContractsParser : iface;
  nodesListSplitter : iface;
  queryService : iface;
  nodePrice : option Z;
}.

(** The result pair, a processor pointer and an error: [None] is nil in
    either component. *)
Definition NewStandardDelegationProcessor (arg : ArgStandardDelegationProcessor)
    : option standardDelegationProcessor * option genesis_error :=
  if check_IfNil (Executor arg) then (None, Some ErrNilTxExecutionProcessor)
  else if check_IfNil (ShardCoordinator arg) then (None, Some ErrNilShardCoordinator)
  else if check_IfNil (AccountsParser arg) then (None, Some ErrNilAccountsParser)
  else if check_IfNil (SmartContractParser arg) then (None, Some ErrNilSmartContractParser)
  else if check_IfNil (NodesListSplitter arg) then (None, Some ErrNilNodesListSplitter)
  else if check_IfNil (QueryService arg) then (None, Some ErrNilQueryService)
  else match NodePrice arg with
       | None => (None, Some ErrNilInitialNodePrice)
       | Some price =>
           if price <=? 0 then (None, Some ErrInvalidInitialNodePrice)
           else (Some {| TxExecutionProcessor := Executor arg;
                         shardCoordinator := ShardCoordinator arg;
                         accuntsParser := AccountsParser arg;
                         smartContractsParser := SmartContractParser arg;
                         nodesListSplitter := NodesListSplitter arg;
                         queryService := QueryService arg;
                         nodePrice := NodePrice arg |}, None)
       end.

End Intermediate.

Arguments Executor {iface} _.
Arguments ShardCoordinator {iface} _.
Arguments AccountsParser {iface} _.
Arguments SmartContractParser {iface} _.
Arguments NodesListSplitter {iface} _.
Arguments QueryService {iface} _.
Arguments NodePrice {iface} _.
Arguments TxExecutionProcessor {iface} _.
Arguments shardCoordinator {iface} _.
Arguments accuntsParser {iface} _.
Arguments smartContractsParser {iface} _.
Arguments nodesListSplitter {iface} _.
Arguments queryService {iface} _.
Arguments nodePrice {iface} _.
Arguments NewStandardDelegationProcessor {iface} check_IfNil arg.

(** ** Package update: the pending mini blocks

    [GetPendingMiniBlocks] and the functions it calls.  A pointer that the
    code checks against nil is an [option]; the meta blocks stored in the
    map are dereferenced without a check and are values here.  A slice
    built by [make] and [append] inside a function and handed out fresh
    is a list. *)

(** The structs of package [data/block] with the fields that package
    [update] reads; a shard id is a [uint32], a nonce a [uint64]. *)
Module MiniBlockHeader.
Record t := Build {
  Hash : list byte;
  SenderShardID : Z;
  ReceiverShardID : Z;
}.
End MiniBlockHeader.

Module ShardData.
Record t := Build {
  ShardID : Z;
  ShardMiniBlockHeaders : list MiniBlockHeader.t;
}.
End ShardData.

Module EpochStartShardData.
Record t := Build {
  ShardID : Z;
  FirstPendingMetaBlock : list byte;
  PendingMiniBlockHeaders : list MiniBlockHeader.t;
}.
End EpochStartShardData.

Module EpochStart.
Record t := Build {
  LastFinalizedHeaders : list EpochStartShardData.t;
}.
End EpochStart.

Module MetaBlock.
Record t := Build {
  Nonce : Z;
  EpochStart : EpochStart.t;
  ShardInfo : list ShardData.t;
  MiniBlockHeaders : list MiniBlockHeader.t;
}.
(** The getter, on a meta block that is not nil. *)
Definition GetNonce (metaBlock : t) : Z := Nonce metaBlock.
End MetaBlock.

(** The errors of package update that occur here; [ErrCollaborator] is
    an error value of another package, told by its text. *)
Inductive update_error :=
  | ErrNilEpochStartMetaBlock
  | ErrNilUnFinishedMetaBlocksMap
  | ErrWrongUnFinishedMetaHdrsMap
  | ErrNilHardForkBlockProcessor
  | ErrNilBlockBody
  | ErrNilHasher
  | ErrNilMarshalizer
  | ErrCollaborator (msg : string).

(** The inner test of [getAllMiniBlocksWithDst]. *)
Definition hasDst (destShardID : Z) (mbHdr : MiniBlockHeader.t) : bool :=
  (MiniBlockHeader.ReceiverShardID mbHdr =? destShardID) &&
  negb (MiniBlockHeader.SenderShardID mbHdr =? destShardID).

Definition getAllMiniBlocksWithDst (metaBlock : MetaBlock.t) (destShardID : Z)
    : list MiniBlockHeader.t :=
  let mbHdrs : list MiniBlockHeader.t := [] in
  let mbHdrs :=
    foldl (fun mbHdrs shardInfo_i =>
             if ShardData.ShardID shardInfo_i =? destShardID then mbHdrs
             else
               foldl (fun mbHdrs mbHdr =>
                        if hasDst destShardID mbHdr then mbHdrs ++ [mbHdr] else mbHdrs)
                     mbHdrs (ShardData.ShardMiniBlockHeaders shardInfo_i))
          mbHdrs (MetaBlock.ShardInfo metaBlock) in
  foldl (fun mbHdrs mbHdr =>
           if hasDst destShardID mbHdr then mbHdrs ++ [mbHdr] else mbHdrs)
        mbHdrs (MetaBlock.MiniBlockHeaders metaBlock).

Definition createNonceToHashMap (unFinishedMetaBlocks : list (string * MetaBlock.t))
    : gmap Z string :=
  foldl (fun nonceToHashMap '(metaBlockHash, metaBlock) =>
           <[MetaBlock.GetNonce metaBlock := metaBlockHash]> nonceToHashMap)
        ∅ unFinishedMetaBlocks.

(** The loop [for nonce := ...; nonce <= epochStartMetaBlockNonce; nonce++]
    over [uint64]: [nonce++] wraps around, so the loop is bounded by fuel;
    [None] is a run that used it up. *)
Fixpoint pendingMiniBlocks_loop (fuel : nat) (destShardID : Z)
    (unFinishedMetaBlocks : gmap string MetaBlock.t) (nonceToHashMap : gmap Z string)
    (epochStartMetaBlockNonce : Z) (nonce : Z) (pendingMiniBlocks : list MiniBlockHeader.t)
    : option (list MiniBlockHeader.t + update_error) :=
  match fuel with
  | O => None
  | S fuel =>
      if nonce <=? epochStartMetaBlockNonce then
        match nonceToHashMap !! nonce with
        | None => Some (inr ErrWrongUnFinishedMetaHdrsMap)
        | Some metaBlockHash =>
            match unFinishedMetaBlocks !! metaBlockHash with
            | None => Some (inr ErrWrongUnFinishedMetaHdrsMap)
            | Some metaBlock =>
                let pendingMiniBlocksFromMetaBlock :=
                  getAllMiniBlocksWithDst metaBlock destShardID in
                pendingMiniBlocks_loop fuel destShardID unFinishedMetaBlocks nonceToHashMap
                  epochStartMetaBlockNonce (wrap64 (nonce + 1))
                  (pendingMiniBlocks ++ pendingMiniBlocksFromMetaBlock)
            end
        end
      else Some (inl pendingMiniBlocks)
  end.

Definition computePendingMiniBlocksFromUnFinishedMetaBlocks (fuel : nat)
    (epochStartShardData : EpochStartShardData.t)
    (unFinishedMetaBlocks : gmap string MetaBlock.t) (nonceToHashMap : gmap Z string)
    (epochStartMetaBlockNonce : Z)
    : option (list MiniBlockHeader.t + update_error) :=
  let pendingMiniBlocks : list MiniBlockHeader.t := [] in
  let pendingMiniBlocks :=
    pendingMiniBlocks ++ EpochStartShardData.PendingMiniBlockHeaders epochStartShardData in
  match unFinishedMetaBlocks
          !! string_of_list_byte (EpochStartShardData.FirstPendingMetaBlock epochStartShardData) with
  | None => Some (inr ErrWrongUnFinishedMetaHdrsMap)
  | Some firstPendingMetaBlock =>
      let firstUnFinishedMetaBlockNonce := MetaBlock.GetNonce firstPendingMetaBlock in
      pendingMiniBlocks_loop fuel (EpochStartShardData.ShardID epochStartShardData)
        unFinishedMetaBlocks nonceToHashMap epochStartMetaBlockNonce
        (wrap64 (firstUnFinishedMetaBlockNonce + 1)) pendingMiniBlocks
  end.

Fixpoint GetPendingMiniBlocks_loop (fuel : nat)
    (unFinishedMetaBlocksMap : gmap string MetaBlock.t) (nonceToHashMap : gmap Z string)
    (epochStartMetaBlockNonce : Z) (lastFinalizedHeaders : list EpochStartShardData.t)
    (pendingMiniBlocks : list MiniBlockHeader.t)
    : option (list MiniBlockHeader.t + update_error) :=
  match lastFinalizedHeaders with
  | [] => Some (inl pendingMiniBlocks)
  | shardData :: lastFinalizedHeaders =>
      match computePendingMiniBlocksFromUnFinishedMetaBlocks fuel shardData
              unFinishedMetaBlocksMap nonceToHashMap epochStartMetaBlockNonce with
      | None => None
      | Some (inr err) => Some (inr err)
      | Some (inl computedPendingMiniBlocks) =>
          GetPendingMiniBlocks_loop fuel unFinishedMetaBlocksMap nonceToHashMap
            epochStartMetaBlockNonce lastFinalizedHeaders
            (pendingMiniBlocks ++ computedPendingMiniBlocks)
      end
  end.

(** [unFinishedMetaBlocksMap] is [None] for a nil map; [visited] is the
    order in which [createNonceToHashMap] ranges over it. *)
Definition GetPendingMiniBlocks (fuel : nat) (epochStartMetaBlock : option MetaBlock.t)
    (unFinishedMetaBlocksMap : option (gmap string MetaBlock.t))
    (visited : list (string * MetaBlock.t))
    : option (list MiniBlockHeader.t + update_error) :=
  match epochStartMetaBlock with
  | None => Some (inr ErrNilEpochStartMetaBlock)
  | Some epochStartMetaBlock =>
      match unFinishedMetaBlocksMap with
      | None => Some (inr ErrNilUnFinishedMetaBlocksMap)
      | Some unFinishedMetaBlocksMap =>
          let pendingMiniBlocks : list MiniBlockHeader.t := [] in
          let nonceToHashMap := createNonceToHashMap visited in
          GetPendingMiniBlocks_loop fuel unFinishedMetaBlocksMap nonceToHashMap
            (MetaBlock.GetNonce epochStartMetaBlock)
            (EpochStart.LastFinalizedHeaders (MetaBlock.EpochStart epochStartMetaBlock))
            pendingMiniBlocks
      end
  end.

(** ** Package update: block bodies after a hard fork

    [CleanDuplicates] and [CreateBody].  The bodies map and the post mini
    blocks hold pointers, which may be nil: [None].  [CreateBody] stores
    the pointers its processors hand out and [CleanDuplicates] only reads
    through them, so a body is a value here.  [CleanDuplicates] only
    reads the bodies map, and a nil map reads as the empty one;
    [CreateBody] stores into it, which panics on a nil map, so there the
    map is [None] when nil.  ([CreatePostMiniBlocks] writes through the
    body pointers, which the processors may share, and is not
    embedded.) *)

Module TxInfo.
Record t (TransactionHandler : Type) := Build {
  TxHash : list byte;
  Tx : TransactionHandler;
}.
Arguments Build {TransactionHandler} _ _.
Arguments TxHash {TransactionHandler} _.
Arguments Tx {TransactionHandler} _.
End TxInfo.

Module MbInfo.
Record t (TransactionHandler : Type) := Build {
  MbHash : list byte;
  SenderShardID : Z;
  ReceiverShardID : Z;
  Type_ : Z;
  TxsInfo : list (option (TxInfo.t TransactionHandler));
}.
Arguments Build {TransactionHandler} _ _ _ _ _.
Arguments MbHash {TransactionHandler} _.
Arguments SenderShardID {TransactionHandler} _.
Arguments ReceiverShardID {TransactionHandler} _.
Arguments Type_ {TransactionHandler} _.
Arguments TxsInfo {TransactionHandler} _.
End MbInfo.

(** [block.Body]: the mini blocks of a block. *)
Module Body.
Record t (MiniBlock : Type) := Build {
  MiniBlocks : list MiniBlock;
}.
Arguments Build {MiniBlock} _.
Arguments MiniBlocks {MiniBlock} _.
End Body.

(** A key/value argument of a logger call. *)
Inductive logValue :=
  | LogInt (n : Z)
  | LogBytes (bs : list byte)
  | LogString (s : string).

(** One call of the logger, with its arguments as values. *)
Record logLine := LogLine {
  ll_level : logLevel;
  ll_message : string;
  ll_args : list (string * logValue);
}.

Section HardFork.

(** The collaborators, none of them among the sources at hand: the values
    of interface type with [check.IfNil], the mini blocks and
    transactions, [core.CalculateHash] of package core, and the hard fork
    block processors, an interface of this package: their [CreateBody]
    runs on a state of its own and may fail with any error, one of this
    package's included. *)
Variable iface : Type.
Variable check_IfNil : iface -> bool.
Variable MiniBlock : Type.
Variable TransactionHandler : Type.
Variable CalculateHash : iface -> iface -> MiniBlock -> list byte + string.
Variable HardForkBlockProcessor : Type.
Variable processorState : Type.
Variable processor_CreateBody :
  HardForkBlockProcessor -> processorState ->
  (option (Body.t MiniBlock) * list (option (MbInfo.t TransactionHandler)) + update_error)
  * processorState.

Record ArgsHardForkProcessor := {
  Hasher : iface;
  Marshalizer : iface;
  ShardIDs : list Z;
}.

(** The inner loop of [CleanDuplicates] over the mini blocks of one body. *)
Fixpoint hashMiniBlocks (args : ArgsHardForkProcessor) (miniBlocks : list MiniBlock)
    (mapMiniBlocksHashes : gset string) : gset string + update_error :=
  match miniBlocks with
  | [] => inl mapMiniBlocksHashes
  | miniBlock :: miniBlocks =>
      match CalculateHash (Marshalizer args) (Hasher args) miniBlock with
      | inr err => inr (ErrCollaborator err)
      | inl miniBlockHash =>
          hashMiniBlocks args miniBlocks
            ({[string_of_list_byte miniBlockHash]} ∪ mapMiniBlocksHashes)
      end
  end.

(** Its loop over the shard ids; a body pointer that is present and nil
    is dereferenced, which panics ([None]). *)
Fixpoint hashBodies (args : ArgsHardForkProcessor) (shardIDs : list Z)
    (mapBodies : gmap Z (option (Body.t MiniBlock))) (mapMiniBlocksHashes : gset string)
    : option (gset string + update_error) :=
  match shardIDs with
  | [] => Some (inl mapMiniBlocksHashes)
  | shardID :: shardIDs =>
      match mapBodies !! shardID with
      | None => Some (inr ErrNilBlockBody)
      | Some None => None
      | Some (Some currentBody) =>
          match hashMiniBlocks args (Body.MiniBlocks currentBody) mapMiniBlocksHashes with
          | inr err => Some (inr err)
          | inl mapMiniBlocksHashes =>
              hashBodies args shardIDs mapBodies mapMiniBlocksHashes
          end
      end
  end.

Definition duplicate_found (postMb : MbInfo.t TransactionHandler) : logLine :=
  LogLine LogDebug "CleanDuplicates: found duplicated miniBlock"
    [("hash"%string, LogBytes (MbInfo.MbHash postMb))].

(** Its last loop, over the post mini blocks, with the calls of
    [log.Debug] it makes. *)
Fixpoint cleanPostMbs (mapMiniBlocksHashes : gset string)
    (postMbs : list (option (MbInfo.t TransactionHandler)))
    (cleanedPostMbs : list (option (MbInfo.t TransactionHandler))) (calls : list logLine)
    : option (list (option (MbInfo.t TransactionHandler)) * list logLine) :=
  match postMbs with
  | [] => Some (cleanedPostMbs, calls)
  | None :: _ => None
  | Some postMb :: postMbs =>
      if decide (string_of_list_byte (MbInfo.MbHash postMb) ∈ mapMiniBlocksHashes)
      then cleanPostMbs mapMiniBlocksHashes postMbs cleanedPostMbs
             (calls ++ [duplicate_found postMb])
      else cleanPostMbs mapMiniBlocksHashes postMbs (cleanedPostMbs ++ [Some postMb]) calls
  end.

(** The result and the calls of [log.Debug]; [None] is a panic. *)
Definition CleanDuplicates (args : ArgsHardForkProcessor)
    (mapBodies : gmap Z (option (Body.t MiniBlock)))
    (postMbs : list (option (MbInfo.t TransactionHandler)))
    : option ((list (option (MbInfo.t TransactionHandler)) + update_error)
              * list logLine) :=
  if check_IfNil (Hasher args) then Some (inr ErrNilHasher, [])
  else if check_IfNil (Marshalizer args) then Some (inr ErrNilMarshalizer, [])
  else
    match hashBodies args (ShardIDs args) mapBodies ∅ with
    | None => None
    | Some (inr err) => Some (inr err, [])
    | Some (inl mapMiniBlocksHashes) =>
        match cleanPostMbs mapMiniBlocksHashes postMbs [] [] with
        | None => None
        | Some (cleanedPostMbs, calls) => Some (inl cleanedPostMbs, calls)
        end
    end.

(** What [CreateBody] leaves behind besides its result: the bodies map it
    was given (a Go map is shared with the caller; a nil map, [None],
    stays nil), the state of the processors, and the calls of
    [log.Debug]. *)
Record hardForkState := HardForkState {
  hf_bodies : option (gmap Z (option (Body.t MiniBlock)));
  hf_processors : processorState;
  hf_calls : list logLine;
}.

Definition body_created (body : Body.t MiniBlock)
    (postMbs : list (option (MbInfo.t TransactionHandler))) : logLine :=
  LogLine LogDebug "CreateBody"
    [("miniBlocks in body"%string, LogInt (Z.of_nat (length (Body.MiniBlocks body))));
     ("postMbs"%string, LogInt (Z.of_nat (length postMbs)))].

(** The loop of [CreateBody].  A processor in the map may be the nil
    interface ([Some None]), on which the call of [CreateBody] panics; the
    error of a processor is returned as it is; a nil body without an
    error is dereferenced for the log line, and the store into a nil
    bodies map panics. *)
Fixpoint CreateBody_loop (shardIDs : list Z)
    (mapHardForkBlockProcessor : gmap Z (option HardForkBlockProcessor))
    (allPostMbs : list (option (MbInfo.t TransactionHandler))) (st : hardForkState)
    : option ((list (option (MbInfo.t TransactionHandler)) + update_error) * hardForkState) :=
  match shardIDs with
  | [] => Some (inl allPostMbs, st)
  | shardID :: shardIDs =>
      match mapHardForkBlockProcessor !! shardID with
      | None => Some (inr ErrNilHardForkBlockProcessor, st)
      | Some None => None
      | Some (Some hardForkBlockProcessor) =>
          match processor_CreateBody hardForkBlockProcessor (hf_processors st) with
          | (inr err, processors) =>
              Some (inr err, HardForkState (hf_bodies st) processors (hf_calls st))
          | (inl (None, _), _) => None
          | (inl (Some body, postMbs), processors) =>
              match hf_bodies st with
              | None => None
              | Some mapBodies =>
                  CreateBody_loop shardIDs mapHardForkBlockProcessor (allPostMbs ++ postMbs)
                    (HardForkState (Some (<[shardID := Some body]> mapBodies)) processors
                       (hf_calls st ++ [body_created body postMbs]))
              end
          end
      end
  end.

(** What reading finds in a bodies map: nothing in a nil map. *)
Definition bodies_of (mapBodies : option (gmap Z (option (Body.t MiniBlock))))
    : gmap Z (option (Body.t MiniBlock)) :=
  match mapBodies with
  | Some bodies => bodies
  | None => ∅
  end.

Definition CreateBody (args : ArgsHardForkProcessor)
    (mapBodies : option (gmap Z (option (Body.t MiniBlock))))
    (mapHardForkBlockProcessor : gmap Z (option HardForkBlockProcessor))
    (processors : processorState)
    : option ((list (option (MbInfo.t TransactionHandler)) + update_error) * hardForkState) :=
  match CreateBody_loop (ShardIDs args) mapHardForkBlockProcessor []
          (HardForkState mapBodies processors []) with
  | None => None
  | Some (inr err, st) => Some (inr err, st)
  | Some (inl allPostMbs, st) =>
      match CleanDuplicates args (bodies_of (hf_bodies st)) allPostMbs with
      | None => None
      | Some (result, calls) =>
          Some (result, HardForkState (hf_bodies st) (hf_processors st) (hf_calls st ++ calls))
      end
  end.

End HardFork.

Arguments Hasher {iface} _.
Arguments Marshalizer {iface} _.
Arguments ShardIDs {iface} _.
Arguments hf_bodies {MiniBlock processorState} _.
Arguments hf_processors {MiniBlock processorState} _.
Arguments hf_calls {MiniBlock processorState} _.
Arguments HardForkState {MiniBlock processorState} _ _ _.
Arguments duplicate_found {TransactionHandler} _.
Arguments body_created {MiniBlock TransactionHandler} _ _.
Arguments bodies_of {MiniBlock} _.
Arguments cleanPostMbs {TransactionHandler} _ _ _ _.
Arguments hashMiniBlocks {iface MiniBlock} CalculateHash args _ _.
Arguments hashBodies {iface MiniBlock} CalculateHash args _ _ _.
Arguments CleanDuplicates {iface} check_IfNil {MiniBlock TransactionHandler} CalculateHash
  args mapBodies postMbs.
Arguments CreateBody_loop {MiniBlock TransactionHandler HardForkBlockProcessor processorState}
  processor_CreateBody _ _ _ _.
Arguments CreateBody {iface} check_IfNil {MiniBlock TransactionHandler} CalculateHash
  {HardForkBlockProcessor processorState} processor_CreateBody args mapBodies
  mapHardForkBlockProcessor processors.

(** ** Package intermediate: executing the genesis delegation

    The methods of [standardDelegationProcessor].  The collaborators of
    the processor are not among the sources at hand and are parameters:
    the transaction executor and the query service act on a state of
    their own, the parsers, the nodes list splitter and the shard
    coordinator are read.  Every call of the executor, of the query
    service and of the logger is recorded, in order. *)

(** [genesis.InitialSmartContractHandler], by its methods. *)
Module InitialSmartContract.
Record t := Build {
  AddressBytes : list byte;
  OwnerBytes : list byte;
  GetOwner : string;
  Address : string;
  GetType : string;
}.
End InitialSmartContract.

(** [genesis.DelegationDataHandler]: [GetValue()] is a [*big.Int]. *)
Module DelegationData.
Record t := Build {
  GetValue : option Z;
}.
End DelegationData.

(** [genesis.InitialAccountHandler]; a delegation handler for which
    [check.IfNil] answers true is [None]. *)
Module InitialAccount.
Record t := Build {
  AddressBytes : list byte;
  GetAddress : string;
  GetDelegationHandler : option DelegationData.t;
}.
End InitialAccount.

(** [sharding.GenesisNodeInfoHandler]. *)
Module GenesisNodeInfo.
Record t := Build {
  PubKeyBytes : list byte;
}.
End GenesisNodeInfo.

(** [process.SCQuery] with the fields set here, and [vmcommon.VMOutput]
    with the field read. *)
Module SCQuery.
Record t := Build {
  ScAddress : list byte;
  FuncName : string;
  Arguments : list (list byte);
}.
End SCQuery.

Module VMOutput.
Record t := Build {
  ReturnData : list (list byte);
}.
End VMOutput.

(** [genesis.DelegationResult]. *)
Module DelegationResult.
Record t := Build {
  NumTotalStaked : Z;
  NumTotalDelegated : Z;
}.
End DelegationResult.

(** The errors: those of package [genesis] that the methods return, an
    error handed back by a collaborator, and [fmt.Errorf("%w ...")]
    around an error, with the text that follows it. *)
Inductive delegation_error :=
  | ErrNilDelegationHandler
  | ErrInvalidDelegationValue
  | ErrWhileVerifyingDelegation
  | ErrEmptyReturnData
  | ErrSignatureMismatch
  | ErrExternal (msg : string)
  | Errorf (wrapped : delegation_error) (text : string).

Definition stakeFunction : string := "stakeGenesis".
Definition addNodesFunction : string := "addNodes".
Definition activateFunction : string := "activateGenesis".
Definition setStakePerNodeFunction : string := "setStakePerNode".

(** [make([]byte, 32)]. *)
Definition genesisSignature : list byte := replicate 32 "000"%byte.

(** *** encoding/hex, math/big, strings *)

Definition hex_byte (b : byte) : string :=
  let n := Byte.to_N b in
  (HexadecimalString.NilEmpty.string_of_uint (N.to_hex_uint (n / 16)) ++
   HexadecimalString.NilEmpty.string_of_uint (N.to_hex_uint (n mod 16)))%string.

Definition hex_EncodeToString (src : list byte) : string :=
  String.concat "" (hex_byte <$> src).

(** [x.Text(16)], and [%x] of a [*big.Int] that is not nil. *)
Definition big_Text16 (z : Z) : string :=
  HexadecimalString.NilZero.string_of_int (Z.to_hex_int z).

(** [%x] of a [*big.Int]. *)
Definition big_Format_x (x : option Z) : string :=
  match x with
  | None => "<nil>"
  | Some z => big_Text16 z
  end.

(** [z.SetBytes(buf)]: the big-endian unsigned integer. *)
Definition big_SetBytes (buf : list byte) : Z :=
  foldl (fun acc b => acc * 256 + Z.of_N (Byte.to_N b)) 0 buf.

Definition strings_Join (elems : list string) (sep : string) : string :=
  String.concat sep elems.

#[global] Instance byte_eq_decision : EqDecision byte := Byte.byte_eq_dec.

Definition bytes_Equal (a b : list byte) : bool := bool_decide (a = b).

(** *** The calls made *)

Inductive event :=
  | GetNonceCalled (senderBytes : list byte)
  | TransactionExecuted (nonce : Z) (sndAddr rcvAddress : list byte) (value : Z)
      (data : list byte)
  | QueryExecuted (query : SCQuery.t)
  | Logged (level : logLevel) (message : string) (args : list (string * logValue)).

Section Delegation.

Variable iface : Type.
Variable processorState : Type.

(** [genesis.DelegationType], and the methods of the collaborators. *)
Variable DelegationType : string.
Variable executor_GetNonce :
  iface -> list byte -> processorState -> (Z + string) * processorState.
Variable executor_ExecuteTransaction :
  iface -> Z -> list byte -> list byte -> Z -> list byte -> processorState ->
  option string * processorState.
Variable queryService_ExecuteQuery :
  iface -> SCQuery.t -> processorState -> (option VMOutput.t + string) * processorState.
Variable coordinator_SelfId : iface -> Z.
Variable coordinator_SameShard : iface -> list byte -> list byte -> bool.
Variable parser_GetInitialAccountsForDelegated :
  iface -> list byte -> list (option InitialAccount.t).
Variable parser_InitialSmartContractsSplitOnOwnersShards :
  iface -> iface -> gmap Z (list InitialSmartContract.t) + string.
Variable splitter_GetDelegatedNodes : iface -> list byte -> list GenesisNodeInfo.t.

(** The state a method runs in, and a method: [None] is a panic. *)
Record genesisWorld := GenesisWorld {
  gw_state : processorState;
  gw_events : list event;
}.

Definition G (A : Type) : Type := genesisWorld -> option (A * genesisWorld).

Definition gret {A} (a : A) : G A := fun w => Some (a, w).
Definition gbind {A B} (m : G A) (f : A -> G B) : G B :=
  fun w => match m w with
           | Some (a, w') => f a w'
           | None => None
           end.
Definition gpanic {A} : G A := fun _ => None.

Definition record (e : event) : G unit :=
  fun w => Some (tt, GenesisWorld (gw_state w) (gw_events w ++ [e])).

Definition log_Trace (message : string) (args : list (string * logValue)) : G unit :=
  record (Logged LogTrace message args).
Definition log_Debug (message : string) (args : list (string * logValue)) : G unit :=
  record (Logged LogDebug message args).

Implicit Type sdp : standardDelegationProcessor iface.

Definition GetNonce sdp (senderBytes : list byte) : G (Z + string) :=
  fun w =>
    let '(result, state) :=
      executor_GetNonce (TxExecutionProcessor sdp) senderBytes (gw_state w) in
    Some (result, GenesisWorld state (gw_events w ++ [GetNonceCalled senderBytes])).

Definition ExecuteTransaction sdp (nonce : Z) (sndAddr rcvAddress : list byte) (value : Z)
    (data : list byte) : G (option delegation_error) :=
  fun w =>
    let '(err, state) :=
      executor_ExecuteTransaction (TxExecutionProcessor sdp) nonce sndAddr rcvAddress value
        data (gw_state w) in
    Some (ErrExternal <$> err,
          GenesisWorld state
            (gw_events w ++ [TransactionExecuted nonce sndAddr rcvAddress value data])).

Definition ExecuteQuery sdp (query : SCQuery.t) : G (option VMOutput.t + string) :=
  fun w =>
    let '(result, state) :=
      queryService_ExecuteQuery (queryService sdp) query (gw_state w) in
    Some (result, GenesisWorld state (gw_events w ++ [QueryExecuted query])).

(** [var zero = big.NewInt(0)]. *)
Definition zero : Z := 0.

Definition getDelegationScOnCurrentShard sdp
    : G (list InitialSmartContract.t + delegation_error) :=
  match parser_InitialSmartContractsSplitOnOwnersShards (smartContractsParser sdp)
          (shardCoordinator sdp) with
  | inr err => gret (inr (ErrExternal err))
  | inl allSmartContracts =>
      let smartContracts : list InitialSmartContract.t := [] in
      let smartContractsForCurrentShard :=
        default [] (allSmartContracts !! coordinator_SelfId (shardCoordinator sdp)) in
      let smartContracts :=
        foldl (fun smartContracts sc =>
                 if String.eqb (InitialSmartContract.GetType sc) DelegationType
                 then smartContracts ++ [sc] else smartContracts)
              smartContracts smartContractsForCurrentShard in
      gbind (log_Trace "getDelegationScOnCurrentShard"
               [("num delegation SC"%string, LogInt (Z.of_nat (length smartContracts)));
                ("shard ID"%string, LogInt (coordinator_SelfId (shardCoordinator sdp)))])
        (fun _ => gret (inl smartContracts))
  end.

Definition executeSetNodePrice sdp (sc : InitialSmartContract.t) : G (option delegation_error) :=
  let setStakePerNodeTxData :=
    (setStakePerNodeFunction ++ "@" ++ big_Format_x (nodePrice sdp))%string in
  gbind (GetNonce sdp (InitialSmartContract.OwnerBytes sc)) (fun result =>
  match result with
  | inr err => gret (Some (ErrExternal err))
  | inl nonce =>
      ExecuteTransaction sdp nonce (InitialSmartContract.OwnerBytes sc)
        (InitialSmartContract.AddressBytes sc) zero
        (list_byte_of_string setStakePerNodeTxData)
  end).

(** [x.String()] of a [*big.Int]. *)
Definition big_ptr_String (x : option Z) : string :=
  match x with
  | None => "<nil>"
  | Some z => Z_String z
  end.

Fixpoint setDelegationStartParameters sdp (smartContracts : list InitialSmartContract.t)
    : G (option delegation_error) :=
  match smartContracts with
  | [] => gret None
  | sc :: smartContracts =>
      let delegatedNodes :=
        splitter_GetDelegatedNodes (nodesListSplitter sdp)
          (InitialSmartContract.AddressBytes sc) in
      let numNodes := Z.of_nat (length delegatedNodes) in
      gbind (log_Trace "setDelegationStartParameters"
               [("SC owner"%string, LogString (InitialSmartContract.GetOwner sc));
                ("SC address"%string, LogString (InitialSmartContract.Address sc));
                ("num delegated nodes"%string, LogInt numNodes);
                ("node price"%string, LogString (big_ptr_String (nodePrice sdp)));
                ("shard ID"%string, LogInt (coordinator_SelfId (shardCoordinator sdp)))])
        (fun _ =>
      gbind (executeSetNodePrice sdp sc) (fun err =>
      match err with
      | Some err => gret (Some err)
      | None => setDelegationStartParameters sdp smartContracts
      end))
  end.

(** [ac] is [None] for a nil account, whose methods panic. *)
Definition stake sdp (ac : option InitialAccount.t) (sc : InitialSmartContract.t)
    : G (option delegation_error) :=
  match ac with
  | None => gpanic
  | Some ac =>
      let isIntraShardCall :=
        coordinator_SameShard (shardCoordinator sdp) (InitialAccount.AddressBytes ac)
          (InitialSmartContract.AddressBytes sc) in
      match InitialAccount.GetDelegationHandler ac with
      | None => gret (Some ErrNilDelegationHandler)
      | Some dh =>
          match DelegationData.GetValue dh with
          | None => gret (Some ErrInvalidDelegationValue)
          | Some value =>
              gbind (if isIntraShardCall
                     then GetNonce sdp (InitialAccount.AddressBytes ac)
                     else gret (inl 0)) (fun result =>
              match result with
              | inr err => gret (Some (ErrExternal err))
              | inl nonce =>
                  let stakeData := (stakeFunction ++ "@" ++ big_Text16 value)%string in
                  ExecuteTransaction sdp nonce (InitialAccount.AddressBytes ac)
                    (InitialSmartContract.AddressBytes sc) zero
                    (list_byte_of_string stakeData)
              end)
          end
      end
  end.

(** The inner loop of [executeStake] over the accounts of one contract:
    the total delegated, or the error of the first [stake] that fails. *)
Fixpoint stake_accounts sdp (sc : InitialSmartContract.t)
    (accounts : list (option InitialAccount.t)) (totalDelegated : Z)
    : G (Z + delegation_error) :=
  match accounts with
  | [] => gret (inl totalDelegated)
  | ac :: accounts =>
      gbind (stake sdp ac sc) (fun err =>
      match err with
      | Some err =>
          match ac with
          | None => gpanic
          | Some ac =>
              gret (inr (Errorf err (" while calling stake function from account " ++
                                     InitialAccount.GetAddress ac)))
          end
      | None =>
          match ac with
          | Some (InitialAccount.Build _ _ (Some (DelegationData.Build (Some value)))) =>
              stake_accounts sdp sc accounts (totalDelegated + value)
          | _ => gpanic
          end
      end)
  end.

Fixpoint executeStake_loop sdp (smartContracts : list InitialSmartContract.t)
    (stakedOnDelegation : Z) : G (Z * option delegation_error) :=
  match smartContracts with
  | [] => gret (stakedOnDelegation, None)
  | sc :: smartContracts =>
      let accounts :=
        parser_GetInitialAccountsForDelegated (accuntsParser sdp)
          (InitialSmartContract.AddressBytes sc) in
      if decide (length accounts = 0%nat) then
        gbind (log_Debug "genesis delegation SC was not delegated by any account"
                 [("SC owner"%string, LogString (InitialSmartContract.GetOwner sc));
                  ("SC address"%string, LogString (InitialSmartContract.Address sc))])
          (fun _ => executeStake_loop sdp smartContracts stakedOnDelegation)
      else
        gbind (stake_accounts sdp sc accounts 0) (fun result =>
        match result with
        | inr err => gret (0, Some err)
        | inl totalDelegated =>
            gbind (log_Trace "executeStake"
                     [("SC owner"%string, LogString (InitialSmartContract.GetOwner sc));
                      ("SC address"%string, LogString (InitialSmartContract.Address sc));
                      ("num accounts"%string, LogInt (Z.of_nat (length accounts)));
                      ("total delegated"%string, LogInt totalDelegated)])
              (fun _ =>
                 executeStake_loop sdp smartContracts
                   (stakedOnDelegation + Z.of_nat (length accounts)))
        end)
  end.

Definition executeStake sdp (smartContracts : list InitialSmartContract.t)
    : G (Z * option delegation_error) :=
  executeStake_loop sdp smartContracts 0.

(** The arguments of the [addNodes] call for the delegated nodes. *)
Definition addNodes_arguments (delegatedNodes : list GenesisNodeInfo.t) : list string :=
  foldl (fun arguments node =>
           (arguments ++ [hex_EncodeToString (GenesisNodeInfo.PubKeyBytes node)])
             ++ [hex_EncodeToString genesisSignature])
        [addNodesFunction] delegatedNodes.

Fixpoint executeManageBlsKeys_loop sdp (smartContracts : list InitialSmartContract.t)
    (totalDelegated : Z) : G (Z * option delegation_error) :=
  match smartContracts with
  | [] => gret (totalDelegated, None)
  | sc :: smartContracts =>
      let delegatedNodes :=
        splitter_GetDelegatedNodes (nodesListSplitter sdp)
          (InitialSmartContract.AddressBytes sc) in
      let lenDelegated := Z.of_nat (length delegatedNodes) in
      if lenDelegated =? 0 then
        gbind (log_Debug "genesis delegation SC does not have staked nodes"
                 [("SC owner"%string, LogString (InitialSmartContract.GetOwner sc));
                  ("SC address"%string, LogString (InitialSmartContract.Address sc));
                  ("function"%string, LogString addNodesFunction)])
          (fun _ => executeManageBlsKeys_loop sdp smartContracts totalDelegated)
      else
        let totalDelegated := totalDelegated + lenDelegated in
        gbind (log_Trace "executeAddNode"
                 [("SC owner"%string, LogString (InitialSmartContract.GetOwner sc));
                  ("SC address"%string, LogString (InitialSmartContract.Address sc));
                  ("num nodes"%string, LogInt lenDelegated);
                  ("shard ID"%string, LogInt (coordinator_SelfId (shardCoordinator sdp)));
                  ("function"%string, LogString addNodesFunction)])
          (fun _ =>
        let arguments := addNodes_arguments delegatedNodes in
        gbind (GetNonce sdp (InitialSmartContract.OwnerBytes sc)) (fun result =>
        match result with
        | inr err => gret (0, Some (ErrExternal err))
        | inl nonce =>
            gbind (ExecuteTransaction sdp nonce (InitialSmartContract.OwnerBytes sc)
                     (InitialSmartContract.AddressBytes sc) 0
                     (list_byte_of_string (strings_Join arguments "@")))
              (fun err =>
            match err with
            | Some err => gret (0, Some err)
            | None => executeManageBlsKeys_loop sdp smartContracts totalDelegated
            end)
        end))
  end.

Definition executeManageBlsKeys sdp (smartContracts : list InitialSmartContract.t)
    : G (Z * option delegation_error) :=
  gbind (log_Trace "executeManageSetBlsKeys"
           [("num delegation SC"%string, LogInt (Z.of_nat (length smartContracts)));
            ("shard ID"%string, LogInt (coordinator_SelfId (shardCoordinator sdp)));
            ("function"%string, LogString addNodesFunction)])
    (fun _ => executeManageBlsKeys_loop sdp smartContracts 0).

Fixpoint executeActivation_loop sdp (smartContracts : list InitialSmartContract.t)
    : G (option delegation_error) :=
  match smartContracts with
  | [] => gret None
  | sc :: smartContracts =>
      gbind (log_Trace "executeActivation"
               [("SC owner"%string, LogString (InitialSmartContract.GetOwner sc));
                ("SC address"%string, LogString (InitialSmartContract.Address sc));
                ("shard ID"%string, LogInt (coordinator_SelfId (shardCoordinator sdp)));
                ("function"%string, LogString activateFunction)])
        (fun _ =>
      gbind (GetNonce sdp (InitialSmartContract.OwnerBytes sc)) (fun result =>
      match result with
      | inr err => gret (Some (ErrExternal err))
      | inl nonce =>
          gbind (ExecuteTransaction sdp nonce (InitialSmartContract.OwnerBytes sc)
                   (InitialSmartContract.AddressBytes sc) 0
                   (list_byte_of_string activateFunction))
            (fun err =>
          match err with
          | Some err => gret (Some err)
          | None => executeActivation_loop sdp smartContracts
          end)
      end))
  end.

Definition executeActivation sdp (smartContracts : list InitialSmartContract.t)
    : G (option delegation_error) :=
  gbind (log_Trace "executeActivation"
           [("num delegation SC"%string, LogInt (Z.of_nat (length smartContracts)));
            ("shard ID"%string, LogInt (coordinator_SelfId (shardCoordinator sdp)));
            ("function"%string, LogString activateFunction)])
    (fun _ => executeActivation_loop sdp smartContracts).

Definition checkDelegator sdp (delegator : InitialAccount.t) (sc : InitialSmartContract.t)
    : G (option delegation_error) :=
  let scQueryStakeValue :=
    SCQuery.Build (InitialSmartContract.AddressBytes sc) "getUserStake"
      [InitialAccount.AddressBytes delegator] in
  gbind (ExecuteQuery sdp scQueryStakeValue) (fun result =>
  match result with
  | inr err => gret (Some (ErrExternal err))
  | inl None => gpanic
  | inl (Some vmOutputStakeValue) =>
      match VMOutput.ReturnData vmOutputStakeValue with
      | [returnData] =>
          let scStakedValue := big_SetBytes returnData in
          match InitialAccount.GetDelegationHandler delegator with
          | Some (DelegationData.Build (Some value)) =>
              if scStakedValue =? value then gret None
              else
                gret (Some (Errorf ErrWhileVerifyingDelegation
                              (" staked data mismatch: from SC: " ++ Z_String scStakedValue ++
                               ", provided: " ++ Z_String value ++
                               ", account " ++ InitialAccount.GetAddress delegator)))
          | _ => gpanic
          end
      | _ =>
          gret (Some (Errorf ErrWhileVerifyingDelegation
                        " return data should have contained one element"))
      end
  end).

Fixpoint verifyStakedValue_loop sdp (sc : InitialSmartContract.t)
    (providedDelegators : list (option InitialAccount.t)) (providedStakedValue : Z)
    : G (option delegation_error) :=
  match providedDelegators with
  | [] => gret None
  | delegator :: providedDelegators =>
      match delegator with
      | None => verifyStakedValue_loop sdp sc providedDelegators providedStakedValue
      | Some delegator =>
          match InitialAccount.GetDelegationHandler delegator with
          | None => verifyStakedValue_loop sdp sc providedDelegators providedStakedValue
          | Some dh =>
              match DelegationData.GetValue dh with
              | None => verifyStakedValue_loop sdp sc providedDelegators providedStakedValue
              | Some value =>
                  gbind (checkDelegator sdp delegator sc) (fun err =>
                  match err with
                  | Some err => gret (Some err)
                  | None =>
                      verifyStakedValue_loop sdp sc providedDelegators
                        (providedStakedValue + value)
                  end)
              end
          end
      end
  end.

Definition verifyStakedValue sdp (sc : InitialSmartContract.t) : G (option delegation_error) :=
  let providedDelegators :=
    parser_GetInitialAccountsForDelegated (accuntsParser sdp)
      (InitialSmartContract.AddressBytes sc) in
  verifyStakedValue_loop sdp sc providedDelegators 0.

Definition verifyOneNode sdp (sc : InitialSmartContract.t) (node : GenesisNodeInfo.t)
    : G (option delegation_error) :=
  let function : string := "getNodeSignature" in
  let scQueryBlsKeys :=
    SCQuery.Build (InitialSmartContract.AddressBytes sc) function
      [GenesisNodeInfo.PubKeyBytes node] in
  let details :=
    (" for SC " ++ InitialSmartContract.Address sc ++
     ", owner " ++ InitialSmartContract.GetOwner sc ++
     ", function " ++ function ++
     ", node " ++ hex_EncodeToString (GenesisNodeInfo.PubKeyBytes node))%string in
  gbind (ExecuteQuery sdp scQueryBlsKeys) (fun result =>
  match result with
  | inr err => gret (Some (ErrExternal err))
  | inl None => gpanic
  | inl (Some vmOutput) =>
      match VMOutput.ReturnData vmOutput with
      | [] => gret (Some (Errorf ErrEmptyReturnData details))
      | returnData :: _ =>
          if negb (bytes_Equal returnData genesisSignature)
          then gret (Some (Errorf ErrSignatureMismatch details))
          else gret None
      end
  end).

Fixpoint verifyRegisteredNodes_loop sdp (sc : InitialSmartContract.t)
    (delegatedNodes : list GenesisNodeInfo.t) : G (option delegation_error) :=
  match delegatedNodes with
  | [] => gret None
  | node :: delegatedNodes =>
      gbind (verifyOneNode sdp sc node) (fun err =>
      match err with
      | Some err => gret (Some err)
      | None => verifyRegisteredNodes_loop sdp sc delegatedNodes
      end)
  end.

Definition verifyRegisteredNodes sdp (sc : InitialSmartContract.t)
    : G (option delegation_error) :=
  let delegatedNodes :=
    splitter_GetDelegatedNodes (nodesListSplitter sdp)
      (InitialSmartContract.AddressBytes sc) in
  if decide (length delegatedNodes = 0%nat) then
    gbind (log_Debug "genesis delegation SC does not have staked nodes"
             [("SC owner"%string, LogString (InitialSmartContract.GetOwner sc));
              ("SC address"%string, LogString (InitialSmartContract.Address sc));
              ("function"%string, LogString addNodesFunction)])
      (fun _ => gret None)
  else verifyRegisteredNodes_loop sdp sc delegatedNodes.

Definition verify sdp (sc : InitialSmartContract.t) : G (option delegation_error) :=
  gbind (verifyStakedValue sdp sc) (fun err =>
  match err with
  | Some err => gret (Some (Errorf err " for verifyStakedValue"))
  | None =>
      gbind (verifyRegisteredNodes sdp sc) (fun err =>
      match err with
      | Some err => gret (Some (Errorf err " for verifyRegisteredNodes"))
      | None => gret None
      end)
  end).

Fixpoint executeVerify sdp (smartContracts : list InitialSmartContract.t)
    : G (option delegation_error) :=
  match smartContracts with
  | [] => gret None
  | sc :: smartContracts =>
      gbind (verify sdp sc) (fun err =>
      match err with
      | Some err =>
          gret (Some (Errorf err (" for contract " ++ InitialSmartContract.Address sc ++
                                  ", owner " ++ InitialSmartContract.GetOwner sc)))
      | None => executeVerify sdp smartContracts
      end)
  end.

Definition emptyDelegationResult : DelegationResult.t := DelegationResult.Build 0 0.

Definition ExecuteDelegation sdp : G (DelegationResult.t * option delegation_error) :=
  gbind (getDelegationScOnCurrentShard sdp) (fun result =>
  match result with
  | inr err => gret (emptyDelegationResult, Some err)
  | inl smartContracts =>
      if decide (length smartContracts = 0%nat) then gret (emptyDelegationResult, None)
      else
        gbind (setDelegationStartParameters sdp smartContracts) (fun err =>
        match err with
        | Some err => gret (emptyDelegationResult, Some err)
        | None =>
            gbind (executeManageBlsKeys sdp smartContracts) (fun '(numTotalDelegated, err) =>
            match err with
            | Some err => gret (emptyDelegationResult, Some err)
            | None =>
                gbind (executeStake sdp smartContracts) (fun '(numTotalStaked, err) =>
                match err with
                | Some err => gret (emptyDelegationResult, Some err)
                | None =>
                    gbind (executeActivation sdp smartContracts) (fun err =>
                    match err with
                    | Some err => gret (emptyDelegationResult, Some err)
                    | None =>
                        gbind (executeVerify sdp smartContracts) (fun err =>
                        match err with
                        | Some err => gret (emptyDelegationResult, Some err)
                        | None =>
                            gret (DelegationResult.Build numTotalStaked numTotalDelegated,
                                  None)
                        end)
                    end)
                end)
            end)
        end)
  end).

End Delegation.

Arguments gw_state {processorState} _.
Arguments gw_events {processorState} _.
Arguments GenesisWorld {processorState} _ _.
Arguments gret {processorState A} _ _.
Arguments gbind {processorState A B} _ _ _.
Arguments gpanic {processorState A} _.
Arguments record {processorState} _ _.
Arguments log_Trace {processorState} _ _ _.
Arguments log_Debug {processorState} _ _ _.
Arguments GetNonce {iface processorState}.
Arguments ExecuteTransaction {iface processorState}.
Arguments ExecuteQuery {iface processorState}.
Arguments getDelegationScOnCurrentShard {iface processorState}.
Arguments executeSetNodePrice {iface processorState}.
Arguments setDelegationStartParameters {iface processorState}.
Arguments stake {iface processorState}.
Arguments stake_accounts {iface processorState}.
Arguments executeStake_loop {iface processorState}.
Arguments executeStake {iface processorState}.
Arguments executeManageBlsKeys_loop {iface processorState}.
Arguments executeManageBlsKeys {iface processorState}.
Arguments executeActivation_loop {iface processorState}.
Arguments executeActivation {iface processorState}.
Arguments checkDelegator {iface processorState}.
Arguments verifyStakedValue_loop {iface processorState}.
Arguments verifyStakedValue {iface processorState}.
Arguments verifyOneNode {iface processorState}.
Arguments verifyRegisteredNodes_loop {iface processorState}.
Arguments verifyRegisteredNodes {iface processorState}.
Arguments verify {iface processorState}.
Arguments executeVerify {iface processorState}.
Arguments ExecuteDelegation {iface processorState}.

(** ** Package transactionAPI: the results of a transaction

    The methods of [apiTransactionResultsProcessor] that load the logs,
    the receipt and the smart contract results of a transaction into its
    API form.  The transaction is handed over by pointer and written in
    place: a method takes the transaction and returns it as it leaves
    it, whatever error it returns.  [putResultsInTransaction] and
    [loadLogsIntoTransaction], which is the first to write through the
    pointer, take the pointer itself, nil ([None]) or not; the other
    methods are only reached with the pointer that
    [loadLogsIntoTransaction] has written through, and take the
    transaction it points to.  The collaborators (history
    repository, storage, marshalizer, logs facade, converter, data field
    parser, refund detector, status filter) are parameters; storage and
    history are read, and taken as fixed during a call. *)

(** [dblookupext.ScResultsHashesAndEpoch] and
    [dblookupext.ResultsHashesByTxHash], with the fields read. *)
Module ScResultsHashesAndEpoch.
Record t := Build {
  Epoch : Z;
  ScResultsHashes : list (list byte);
}.
End ScResultsHashesAndEpoch.

Module ResultsHashesByTxHash.
Record t := Build {
  ReceiptsHash : list byte;
  ScResultsHashesAndEpoch : list (option ScResultsHashesAndEpoch.t);
}.
End ResultsHashesByTxHash.

(** [smartContractResult.SmartContractResult], with the fields read. *)
Module SmartContractResult.
Record t := Build {
  Nonce : Z;
  Value : option Z;
  RcvAddr : list byte;
  SndAddr : list byte;
  RelayerAddr : list byte;
  RelayedValue : option Z;
  Code : list byte;
  Data : list byte;
  PrevTxHash : list byte;
  OriginalTxHash : list byte;
  GasLimit : Z;
  GasPrice : Z;
  CallType : Z;
  CodeMetadata : list byte;
  ReturnMessage : list byte;
  OriginalSender : list byte;
}.
End SmartContractResult.

(** The input of the refund detector and the answer of the data field
    parser. *)
Module refundDetectorInput.
Record t := Build {
  Value : string;
  Data : list byte;
  ReturnMessage : string;
  GasLimit : Z;
}.
End refundDetectorInput.

Module ResponseParseData.
Record t := Build {
  Operation : string;
  Function : string;
  ESDTValues : list string;
  Tokens : list string;
  Receivers : list (list byte);
  ReceiversShardID : list Z;
  IsRelayed : bool;
}.
End ResponseParseData.

(** [transaction.ApiSmartContractResult], with the fields written. *)
Module ApiSmartContractResult.
Record t (ApiLogs : Type) := Build {
  Hash : string;
  Nonce : Z;
  Value : option Z;
  RcvAddr : string;
  SndAddr : string;
  RelayerAddr : string;
  RelayedValue : option Z;
  Code : string;
  Data : string;
  PrevTxHash : string;
  OriginalTxHash : string;
  GasLimit : Z;
  GasPrice : Z;
  CallType : Z;
  CodeMetadata : string;
  ReturnMessage : string;
  OriginalSender : string;
  IsRefund : bool;
  Logs : option ApiLogs;
  Operation : string;
  Function : string;
  ESDTValues : list string;
  Tokens : list string;
  Receivers : list string;
  ReceiversShardIDs : list Z;
  IsRelayed : bool;
}.
Arguments Build {ApiLogs}.
Arguments Hash {ApiLogs}.
Arguments Nonce {ApiLogs}.
Arguments Value {ApiLogs}.
Arguments RcvAddr {ApiLogs}.
Arguments SndAddr {ApiLogs}.
Arguments RelayerAddr {ApiLogs}.
Arguments RelayedValue {ApiLogs}.
Arguments Code {ApiLogs}.
Arguments Data {ApiLogs}.
Arguments PrevTxHash {ApiLogs}.
Arguments OriginalTxHash {ApiLogs}.
Arguments GasLimit {ApiLogs}.
Arguments GasPrice {ApiLogs}.
Arguments CallType {ApiLogs}.
Arguments CodeMetadata {ApiLogs}.
Arguments ReturnMessage {ApiLogs}.
Arguments OriginalSender {ApiLogs}.
Arguments IsRefund {ApiLogs}.
Arguments Logs {ApiLogs}.
Arguments Operation {ApiLogs}.
Arguments Function {ApiLogs}.
Arguments ESDTValues {ApiLogs}.
Arguments Tokens {ApiLogs}.
Arguments Receivers {ApiLogs}.
Arguments ReceiversShardIDs {ApiLogs}.
Arguments IsRelayed {ApiLogs}.
End ApiSmartContractResult.

(** [transaction.ApiTransactionResult]: the three fields written here, and
    the rest of the transaction, which only the status filter touches. *)
Module ApiTransactionResult.
Record t (ApiLogs ApiReceipt Rest : Type) := Build {
  Logs : option ApiLogs;
  Receipt : option ApiReceipt;
  SmartContractResults : list (ApiSmartContractResult.t ApiLogs);
  rest : Rest;
}.
Arguments Build {ApiLogs ApiReceipt Rest}.
Arguments Logs {ApiLogs ApiReceipt Rest}.
Arguments Receipt {ApiLogs ApiReceipt Rest}.
Arguments SmartContractResults {ApiLogs ApiReceipt Rest}.
Arguments rest {ApiLogs ApiReceipt Rest}.
End ApiTransactionResult.

(** The errors: one handed back by a collaborator, told by its text, and
    the two of the package, [fmt.Errorf("%w: %v, hash = %s", ...)] around
    [errCannotLoadReceipts] and [errCannotLoadContractResults] with the
    text of the cause and the hash in hexadecimal. *)
Inductive api_error :=
  | ApiExternal (msg : string)
  | CannotLoadReceipts (cause : string) (hash : string)
  | CannotLoadContractResults (cause : string) (hash : string).

(** The processor with its collaborators, each one by the methods called
    here.  [GetStorer] is only asked for the unsigned transactions unit;
    [SilentEncode] and the parser are given the package logger and may
    write to it on their own, which is not followed here. *)
Record apiTransactionResultsProcessor (ApiLogs ApiReceipt Storer : Type) := {
  txUnmarshaller_unmarshalReceipt : list byte -> option ApiReceipt * option string;
  addressPubKeyConverter_Len : Z;
  addressPubKeyConverter_SilentEncode : list byte -> string;
  addressPubKeyConverter_EncodeSlice : list (list byte) -> list string * option string;
  historyRepository_GetResultsHashesByTxHash :
    list byte -> Z -> option ResultsHashesByTxHash.t + string;
  storageService_GetStorer_UnsignedTransactionUnit : Storer + string;
  storer_GetFromEpoch : Storer -> list byte -> Z -> list byte + string;
  marshalizer_Unmarshal : list byte -> SmartContractResult.t + string;
  dataFieldParser_Parse : list byte -> list byte -> list byte -> Z -> ResponseParseData.t;
  shardCoordinator_NumberOfShards : Z;
  shardCoordinator_SelfId : Z;
  refundDetector_isRefund : refundDetectorInput.t -> bool;
  logsFacade_GetLog : list byte -> Z -> option ApiLogs * option string;
}.
Arguments txUnmarshaller_unmarshalReceipt {ApiLogs ApiReceipt Storer}.
Arguments addressPubKeyConverter_Len {ApiLogs ApiReceipt Storer}.
Arguments addressPubKeyConverter_SilentEncode {ApiLogs ApiReceipt Storer}.
Arguments addressPubKeyConverter_EncodeSlice {ApiLogs ApiReceipt Storer}.
Arguments historyRepository_GetResultsHashesByTxHash {ApiLogs ApiReceipt Storer}.
Arguments storageService_GetStorer_UnsignedTransactionUnit {ApiLogs ApiReceipt Storer}.
Arguments storer_GetFromEpoch {ApiLogs ApiReceipt Storer}.
Arguments marshalizer_Unmarshal {ApiLogs ApiReceipt Storer}.
Arguments dataFieldParser_Parse {ApiLogs ApiReceipt Storer}.
Arguments shardCoordinator_NumberOfShards {ApiLogs ApiReceipt Storer}.
Arguments shardCoordinator_SelfId {ApiLogs ApiReceipt Storer}.
Arguments refundDetector_isRefund {ApiLogs ApiReceipt Storer}.
Arguments logsFacade_GetLog {ApiLogs ApiReceipt Storer}.

Section TransactionAPI.

Context {ApiLogs ApiReceipt Rest Storer : Type}.

(** [errors.Is(err, dblookupext.ErrNotFoundInStorage)]. *)
Variable is_ErrNotFoundInStorage : string -> bool.
(** [filters.NewStatusFilters(selfId).SetStatusIfIsFailedESDTTransfer(tx)]. *)
Variable SetStatusIfIsFailedESDTTransfer :
  Z -> ApiTransactionResult.t ApiLogs ApiReceipt Rest ->
  ApiTransactionResult.t ApiLogs ApiReceipt Rest.

Variable arp : apiTransactionResultsProcessor ApiLogs ApiReceipt Storer.

Local Abbreviation apiTx := (ApiTransactionResult.t ApiLogs ApiReceipt Rest).
Local Abbreviation apiSCR := (ApiSmartContractResult.t ApiLogs).

Definition set_Logs (logs : option ApiLogs) (tx : apiTx) : apiTx :=
  ApiTransactionResult.Build logs (ApiTransactionResult.Receipt tx)
    (ApiTransactionResult.SmartContractResults tx) (ApiTransactionResult.rest tx).

Definition set_Receipt (rec : option ApiReceipt) (tx : apiTx) : apiTx :=
  ApiTransactionResult.Build (ApiTransactionResult.Logs tx) rec
    (ApiTransactionResult.SmartContractResults tx) (ApiTransactionResult.rest tx).

Definition append_SmartContractResult (scr : apiSCR) (tx : apiTx) : apiTx :=
  ApiTransactionResult.Build (ApiTransactionResult.Logs tx) (ApiTransactionResult.Receipt tx)
    (ApiTransactionResult.SmartContractResults tx ++ [scr]) (ApiTransactionResult.rest tx).

Definition scr_set_Logs (logs : option ApiLogs) (scr : apiSCR) : apiSCR :=
  let (hash, nonce, value, rcvAddr, sndAddr, relayerAddr, relayedValue, code, data,
       prevTxHash, originalTxHash, gasLimit, gasPrice, callType, codeMetadata, returnMessage,
       originalSender, isRefund, _, operation, function, esdtValues, tokens, receivers,
       receiversShardIDs, isRelayed) := scr in
  ApiSmartContractResult.Build hash nonce value rcvAddr sndAddr relayerAddr relayedValue code
    data prevTxHash originalTxHash gasLimit gasPrice callType codeMetadata returnMessage
    originalSender isRefund logs operation function esdtValues tokens receivers
    receiversShardIDs isRelayed.

(** The transaction as the method leaves it, and the logger calls.  The
    assignment to [tx.Logs] goes through the pointer: with a nil [tx] it
    panics ([None]). *)
Definition loadLogsIntoTransaction (hash : list byte) (tx : option apiTx) (epoch : Z)
    : option (apiTx * list logLine) :=
  let '(logs, err) := logsFacade_GetLog arp hash epoch in
  match tx with
  | None => None
  | Some tx =>
      Some (set_Logs logs tx,
            match err with
            | Some err =>
                [LogLine LogTrace "loadLogsIntoTransaction()"
                   [("hash"%string, LogBytes hash); ("epoch"%string, LogInt epoch);
                    ("err"%string, LogString err)]]
            | None => []
            end)
  end.

Definition loadLogsIntoContractResults (scrHash : list byte) (epoch : Z) (scr : apiSCR)
    : apiSCR * list logLine :=
  let '(logs, err) := logsFacade_GetLog arp scrHash epoch in
  (scr_set_Logs logs scr,
   match err with
   | Some err =>
       [LogLine LogTrace "loadLogsIntoContractResults()"
          [("hash"%string, LogBytes scrHash); ("epoch"%string, LogInt epoch);
           ("err"%string, LogString err)]]
   | None => []
   end).

Definition getReceiptFromStorage (hash : list byte) (epoch : Z)
    : option ApiReceipt * option string :=
  match storageService_GetStorer_UnsignedTransactionUnit arp with
  | inr err => (None, Some err)
  | inl receiptsStorer =>
      match storer_GetFromEpoch arp receiptsStorer hash epoch with
      | inr err => (None, Some err)
      | inl receiptBytes => txUnmarshaller_unmarshalReceipt arp receiptBytes
      end
  end.

Definition putReceiptInTransaction (tx : apiTx) (receiptHash : list byte) (epoch : Z)
    : apiTx * option api_error :=
  match getReceiptFromStorage receiptHash epoch with
  | (_, Some err) => (tx, Some (CannotLoadReceipts err (hex_EncodeToString receiptHash)))
  | (rec, None) => (set_Receipt rec tx, None)
  end.

Definition getScrFromStorage (hash : list byte) (epoch : Z)
    : SmartContractResult.t + string :=
  match storageService_GetStorer_UnsignedTransactionUnit arp with
  | inr err => inr err
  | inl unsignedTxsStorer =>
      match storer_GetFromEpoch arp unsignedTxsStorer hash epoch with
      | inr err => inr err
      | inl scrBytes => marshalizer_Unmarshal arp scrBytes
      end
  end.

Definition adaptSmartContractResult (scrHash : list byte) (scr : SmartContractResult.t)
    : apiSCR * list logLine :=
  let isRefund :=
    refundDetector_isRefund arp
      (refundDetectorInput.Build (big_ptr_String (SmartContractResult.Value scr))
         (SmartContractResult.Data scr)
         (string_of_list_byte (SmartContractResult.ReturnMessage scr))
         (SmartContractResult.GasLimit scr)) in
  let encode (address : list byte) : string :=
    if Z.of_nat (length address) =? addressPubKeyConverter_Len arp
    then addressPubKeyConverter_SilentEncode arp address else EmptyString in
  let res :=
    dataFieldParser_Parse arp (SmartContractResult.Data scr) (SmartContractResult.SndAddr scr)
      (SmartContractResult.RcvAddr scr) (shardCoordinator_NumberOfShards arp) in
  let '(receivers, err) :=
    addressPubKeyConverter_EncodeSlice arp (ResponseParseData.Receivers res) in
  (ApiSmartContractResult.Build
     (hex_EncodeToString scrHash)
     (SmartContractResult.Nonce scr)
     (SmartContractResult.Value scr)
     (encode (SmartContractResult.RcvAddr scr))
     (encode (SmartContractResult.SndAddr scr))
     (encode (SmartContractResult.RelayerAddr scr))
     (SmartContractResult.RelayedValue scr)
     (string_of_list_byte (SmartContractResult.Code scr))
     (string_of_list_byte (SmartContractResult.Data scr))
     (hex_EncodeToString (SmartContractResult.PrevTxHash scr))
     (hex_EncodeToString (SmartContractResult.OriginalTxHash scr))
     (SmartContractResult.GasLimit scr)
     (SmartContractResult.GasPrice scr)
     (SmartContractResult.CallType scr)
     (string_of_list_byte (SmartContractResult.CodeMetadata scr))
     (string_of_list_byte (SmartContractResult.ReturnMessage scr))
     (encode (SmartContractResult.OriginalSender scr))
     isRefund
     None
     (ResponseParseData.Operation res)
     (ResponseParseData.Function res)
     (ResponseParseData.ESDTValues res)
     (ResponseParseData.Tokens res)
     receivers
     (ResponseParseData.ReceiversShardID res)
     (ResponseParseData.IsRelayed res),
   match err with
   | Some err =>
       [LogLine LogWarning
          "bech32PubkeyConverter.EncodeSlice() failed while decoding apiSCR.Receivers with"
          [("err"%string, LogString err); ("hash"%string, LogBytes scrHash)]]
   | None => []
   end).

Fixpoint putSmartContractResultsInTransactionByHashesAndEpoch (tx : apiTx)
    (scrsHashes : list (list byte)) (epoch : Z) : apiTx * list logLine * option api_error :=
  match scrsHashes with
  | [] => (tx, [], None)
  | scrHash :: scrsHashes =>
      match getScrFromStorage scrHash epoch with
      | inr err =>
          (tx, [], Some (CannotLoadContractResults err (hex_EncodeToString scrHash)))
      | inl scr =>
          let '(scrAPI, calls1) := adaptSmartContractResult scrHash scr in
          let '(scrAPI, calls2) := loadLogsIntoContractResults scrHash epoch scrAPI in
          let tx := append_SmartContractResult scrAPI tx in
          let '(tx, calls, err) :=
            putSmartContractResultsInTransactionByHashesAndEpoch tx scrsHashes epoch in
          (tx, calls1 ++ calls2 ++ calls, err)
      end
  end.

(** The loop of [putSmartContractResultsInTransaction]; a nil entry of
    [scrHashesEpoch] is dereferenced, which panics ([None]). *)
Fixpoint putSmartContractResults_loop (tx : apiTx)
    (scrHashesEpoch : list (option ScResultsHashesAndEpoch.t))
    : option (apiTx * list logLine * option api_error) :=
  match scrHashesEpoch with
  | [] => Some (tx, [], None)
  | None :: _ => None
  | Some scrHashesE :: scrHashesEpoch =>
      match putSmartContractResultsInTransactionByHashesAndEpoch tx
              (ScResultsHashesAndEpoch.ScResultsHashes scrHashesE)
              (ScResultsHashesAndEpoch.Epoch scrHashesE) with
      | (tx, calls, Some err) => Some (tx, calls, Some err)
      | (tx, calls, None) =>
          match putSmartContractResults_loop tx scrHashesEpoch with
          | Some (tx, calls', err) => Some (tx, calls ++ calls', err)
          | None => None
          end
      end
  end.

Definition putSmartContractResultsInTransaction (tx : apiTx)
    (scrHashesEpoch : list (option ScResultsHashesAndEpoch.t))
    : option (apiTx * list logLine * option api_error) :=
  match putSmartContractResults_loop tx scrHashesEpoch with
  | Some (tx, calls, None) =>
      Some (SetStatusIfIsFailedESDTTransfer (shardCoordinator_SelfId arp) tx, calls, None)
  | other => other
  end.

(** [None] is a panic: a nil [tx], a nil result of the history repository
    without an error, or a nil entry among its hashes. *)
Definition putResultsInTransaction (hash : list byte) (tx : option apiTx) (epoch : Z)
    : option (apiTx * list logLine * option api_error) :=
  match loadLogsIntoTransaction hash tx epoch with
  | None => None
  | Some (tx, calls) =>
      match historyRepository_GetResultsHashesByTxHash arp hash epoch with
      | inr err =>
          if is_ErrNotFoundInStorage err then Some (tx, calls, None)
          else Some (tx, calls, Some (ApiExternal err))
      | inl None => None
      | inl (Some resultsHashes) =>
          if decide (0 < length (ResultsHashesByTxHash.ReceiptsHash resultsHashes))%nat then
            let '(tx, err) :=
              putReceiptInTransaction tx (ResultsHashesByTxHash.ReceiptsHash resultsHashes)
                epoch in
            Some (tx, calls, err)
          else
            match putSmartContractResultsInTransaction tx
                    (ResultsHashesByTxHash.ScResultsHashesAndEpoch resultsHashes) with
            | Some (tx, calls', err) => Some (tx, calls ++ calls', err)
            | None => None
            end
      end
  end.

End TransactionAPI.

(** ** What the display shows, on values *)

(** The bytes [getShortKey] shows of a key. *)
Definition shortKey (pubKey : list byte) : list byte :=
  if decide (maxPubKeyDisplayableLen < length pubKey)%nat
  then take 10 pubKey ++ list_byte_of_string "..." ++ drop (length pubKey - 10) pubKey
  else pubKey.

(** The keys [getShortDisplayableBlsKeys] shows: shortened, separated by
    a comma and a blank. *)
Fixpoint joinKeys (keys : list string) : string :=
  match keys with
  | [] => ""
  | [key] => key
  | key :: rest => key ++ ", " ++ joinKeys rest
  end%string.

Definition shortKeys (keys : list (list byte)) : string :=
  joinKeys (map (fun key => string_of_list_byte (shortKey key)) keys).

(** The two figures [displayMinRequiredTopUp] hands to the logger when
    called with pointers to the three given numbers: the found top-up and
    the number of iterations, as rendered. *)
Definition displayedMinRequiredTopUp (topUp min step : Z) : option (string * string) :=
  let w := {| w_heap := [CInt topUp; CInt min; CInt step]; w_log := []; w_level := LogDebug |} in
  match displayMinRequiredTopUp (Some 0%nat) (Some 1%nat) (Some 2%nat) w with
  | Some (_, w') =>
      match w_log w' with
      | [ {| lc_args := [(_, shown); (_, iterations)] |} ] => Some (shown, iterations)
      | _ => None
      end
  | None => None
  end.

(** The values behind an owner aggregate: the three stake figures and
    the bytes of the keys of its auction nodes. *)
Record ownerView := OwnerView {
  ov_totalTopUp : Z;
  ov_topUpPerNode : Z;
  ov_qualifiedTopUpPerNode : Z;
  ov_keys : list (list byte);
}.

Definition selectedNodesHeader : list string :=
  ["Owner"; "Num staked nodes"; "TopUp per node"; "Total top up";
   "Num auction nodes"; "Num qualified auction nodes"; "Num active nodes";
   "Qualified top up per node"; "Selected auction list nodes"]%string.

(** The row [displayOwnersSelectedNodes] shows for an owner. *)
Definition selectedNodesLine (ownerPubKey : string) (o : ownerData) (v : ownerView) : LineData :=
  NewLineData false
    [ownerPubKey; Itoa (numStakedNodes o); Z_String (ov_topUpPerNode v);
     Z_String (ov_totalTopUp v); Itoa (numAuctionNodes o);
     Itoa (numQualifiedAuctionNodes o); Itoa (numActiveNodes o);
     Z_String (ov_qualifiedTopUpPerNode v);
     shortKeys (take (numQualifiedAuctionNodes o) (ov_keys v))].

Definition ownersDataHeader : list string :=
  ["Owner"; "Num staked nodes"; "Num active nodes"; "Num auction nodes";
   "Total top up"; "Top up per node"; "Auction list nodes"]%string.

(** The row [displayOwnersData] shows for an owner. *)
Definition ownersDataLine (ownerPubKey : string) (o : ownerData) (v : ownerView) : LineData :=
  NewLineData false
    [ownerPubKey; Itoa (numStakedNodes o); Itoa (numActiveNodes o);
     Itoa (numAuctionNodes o); Z_String (ov_totalTopUp v);
     Z_String (ov_topUpPerNode v); shortKeys (ov_keys v)].

(** ** Sample data for concrete runs *)

(** A runtime that doubles the needed capacity when it reallocates, a
    table renderer that joins the cells of all rows, and an owner oracle
    that knows no key. *)
Definition grow_double (old needed : nat) : nat := (2 * needed)%nat.

Definition table_of_cells (header : list string) (lines : list LineData) : string + string :=
  inl (String.concat "|" (header ++ concat (map Values lines))).

Definition no_owner (key : list byte) : string + string := inr "owner not found"%string.

(** A heap with three stake figures and a key of 30 bytes. *)
Definition sample_world : world :=
  {| w_heap := [CInt 800; CInt 100; CInt 100;
                CBytes (list_byte_of_string "0123456789abcdefghijKLMNOPQRST")];
     w_log := [];
     w_level := LogInfo |}.

Definition sample_key : slice := {| s_arr := 3; s_off := 0; s_len := 30; s_cap := 30 |}%nat.

(** One owner with one active node and three auction nodes, two of them
    qualified; the keys of the auction nodes are in ascending order. *)
Definition sample_owner : ownerData :=
  {| numStakedNodes := 4; numActiveNodes := 1; numAuctionNodes := 3;
     numQualifiedAuctionNodes := 2;
     totalTopUp := Some 0%nat; topUpPerNode := Some 1%nat;
     qualifiedTopUpPerNode := Some 2%nat;
     auctionList := {| s_arr := 6; s_off := 0; s_len := 3; s_cap := 3 |} |}%nat.

(** A second owner with one active node and no auction node; its stake
    figures are the first owner's. *)
Definition sample_second_owner : ownerData :=
  {| numStakedNodes := 1; numActiveNodes := 1; numAuctionNodes := 0;
     numQualifiedAuctionNodes := 0;
     totalTopUp := Some 0%nat; topUpPerNode := Some 0%nat;
     qualifiedTopUpPerNode := Some 0%nat;
     auctionList := {| s_arr := 6; s_off := 3; s_len := 0; s_cap := 0 |} |}%nat.

Definition sample_second_view : ownerView :=
  {| ov_totalTopUp := 3000; ov_topUpPerNode := 3000; ov_qualifiedTopUpPerNode := 3000;
     ov_keys := [] |}.

Definition sample_keys : list (list byte) :=
  [list_byte_of_string "aaaaaaaaaaaaaaaaaaaaaaaaaaaaaa";
   list_byte_of_string "bbb"; list_byte_of_string "ccc"].

(** The same keys as the owner registered them, not yet in order. *)
Definition sample_registered_keys : list (list byte) :=
  [list_byte_of_string "ccc";
   list_byte_of_string "aaaaaaaaaaaaaaaaaaaaaaaaaaaaaa";
   list_byte_of_string "bbb"].

Definition sample_registered_view : ownerView :=
  {| ov_totalTopUp := 3000; ov_topUpPerNode := 750; ov_qualifiedTopUpPerNode := 1000;
     ov_keys := sample_registered_keys |}.

(** A third owner with two auction nodes of which one qualifies, its
    keys not in order either, in an array of its own. *)
Definition sample_third_owner : ownerData :=
  {| numStakedNodes := 2; numActiveNodes := 0; numAuctionNodes := 2;
     numQualifiedAuctionNodes := 1;
     totalTopUp := Some 0%nat; topUpPerNode := Some 0%nat;
     qualifiedTopUpPerNode := Some 0%nat;
     auctionList := {| s_arr := 8; s_off := 0; s_len := 2; s_cap := 2 |} |}%nat.

Definition sample_third_view : ownerView :=
  {| ov_totalTopUp := 3000; ov_topUpPerNode := 3000; ov_qualifiedTopUpPerNode := 3000;
     ov_keys := [list_byte_of_string "zz"; list_byte_of_string "yy"] |}.

(** The two owners before the selector has ordered their auction
    lists. *)
Definition sample_unordered_world : world :=
  {| w_heap :=
       [CInt 3000; CInt 750; CInt 1000;
        CBytes (list_byte_of_string "aaaaaaaaaaaaaaaaaaaaaaaaaaaaaa");
        CBytes (list_byte_of_string "bbb");
        CBytes (list_byte_of_string "ccc");
        CVals [Validator {| s_arr := 5; s_off := 0; s_len := 3; s_cap := 3 |};
               Validator {| s_arr := 3; s_off := 0; s_len := 30; s_cap := 30 |};
               Validator {| s_arr := 4; s_off := 0; s_len := 3; s_cap := 3 |}]%nat;
        COwner sample_owner;
        CVals [Validator {| s_arr := 10; s_off := 0; s_len := 2; s_cap := 2 |};
               Validator {| s_arr := 10; s_off := 2; s_len := 2; s_cap := 2 |}]%nat;
        COwner sample_third_owner;
        CBytes (list_byte_of_string "zzyy")];
     w_log := [];
     w_level := LogDebug |}.

Definition sample_unordered_owners : list (string * ptr) :=
  [("owner-1"%string, Some 7%nat); ("owner-3"%string, Some 9%nat)].

Definition sample_view : ownerView :=
  {| ov_totalTopUp := 3000; ov_topUpPerNode := 750; ov_qualifiedTopUpPerNode := 1000;
     ov_keys := sample_keys |}.

Definition sample_owners_world : world :=
  {| w_heap :=
       [CInt 3000; CInt 750; CInt 1000;
        CBytes (list_byte_of_string "aaaaaaaaaaaaaaaaaaaaaaaaaaaaaa");
        CBytes (list_byte_of_string "bbb");
        CBytes (list_byte_of_string "ccc");
        CVals [Validator {| s_arr := 3; s_off := 0; s_len := 30; s_cap := 30 |};
               Validator {| s_arr := 4; s_off := 0; s_len := 3; s_cap := 3 |};
               Validator {| s_arr := 5; s_off := 0; s_len := 3; s_cap := 3 |}]%nat;
        COwner sample_owner;
        COwner sample_second_owner];
     w_log := [];
     w_level := LogError |}.

Definition sample_ownersData : list (string * ptr) := [("owner-1"%string, Some 7%nat)].

(** The owners map with both owners, as [range] may visit it, either
    way round. *)
Definition sample_two_owners : list (string * ptr) :=
  [("owner-1"%string, Some 7%nat); ("owner-2"%string, Some 8%nat)].

Definition sample_two_owners_reversed : list (string * ptr) :=
  [("owner-2"%string, Some 8%nat); ("owner-1"%string, Some 7%nat)].

(** The same owner with four qualified auction nodes recorded, one more
    than its auction list can hold. *)
Definition sample_overqualified_owner : ownerData :=
  {| numStakedNodes := 4; numActiveNodes := 1; numAuctionNodes := 3;
     numQualifiedAuctionNodes := 4;
     totalTopUp := Some 0%nat; topUpPerNode := Some 1%nat;
     qualifiedTopUpPerNode := Some 2%nat;
     auctionList := {| s_arr := 6; s_off := 0; s_len := 3; s_cap := 3 |} |}%nat.

Definition sample_overqualified_world : world :=
  set_heap (<[7%nat := COwner sample_overqualified_owner]> (w_heap sample_owners_world))
    sample_owners_world.

(** Stake figures with a step of 0. *)
Definition sample_zero_step_world : world :=
  {| w_heap := [CInt 800; CInt 100; CInt 0]; w_log := []; w_level := LogDebug |}.

(** Metric names and a metrics map, for concrete runs. *)
Definition sample_core : coreMetrics :=
  {| MetricCurrentRound := "erd_current_round";
     MetricRoundAtEpochStart := "erd_round_at_epoch_start";
     MetricEpochNumber := "erd_epoch_number";
     MetricRoundsPerEpoch := "erd_rounds_per_epoch";
     MetricRoundsPassedInCurrentEpoch := "erd_rounds_passed_in_current_epoch";
     MetricNumShardsWithoutMetacahin := "erd_num_shards_without_meta";
     MetricNumNodesPerShard := "erd_num_nodes_in_shard";
     MetricNumMetachainNodes := "erd_num_metachain_nodes";
     MetricShardConsensusGroupSize := "erd_shard_consensus_group_size";
     MetricMetaConsensusGroupSize := "erd_meta_consensus_group_size";
     MetricMinGasPrice := "erd_min_gas_price";
     MetricMinGasLimit := "erd_min_gas_limit";
     MetricGasPerDataByte := "erd_gas_per_data_byte";
     MetricChainId := "erd_chain_id";
     MetricRoundDuration := "erd_round_duration";
     MetricStartTime := "erd_start_time";
     MetricNonce := "erd_nonce" |}.

Definition sample_metrics : gmap string metric :=
  <["erd_current_round" := MUint64 120]>
  (<["erd_round_at_epoch_start" := MUint64 100]>
  (<["erd_epoch_number" := MUint64 7]>
  (<["erd_num_p2p_peers" := MInt64 12]>
  (<["erd_p2p_peer_info" := MString "peers"]>
  (<["erd_chain_id" := MString "T"]> ∅))))).

(** Sample data: three unfinished meta blocks with nonces 10, 11, 12 and
    an epoch start meta block of nonce 12 for shards 0 and 1. *)
Definition sample_hdr (hash : string) (sender receiver : Z) : MiniBlockHeader.t :=
  MiniBlockHeader.Build (list_byte_of_string hash) sender receiver.

Definition sample_meta (nonce : Z) (shardInfo : list ShardData.t)
    (miniBlockHeaders : list MiniBlockHeader.t) : MetaBlock.t :=
  MetaBlock.Build nonce (EpochStart.Build []) shardInfo miniBlockHeaders.

Definition sample_meta10 : MetaBlock.t :=
  sample_meta 10 [ShardData.Build 1 [sample_hdr "a" 1 0]] [].
Definition sample_meta11 : MetaBlock.t :=
  sample_meta 11
    [ShardData.Build 1 [sample_hdr "b" 1 0; sample_hdr "c" 1 1];
     ShardData.Build 0 [sample_hdr "d" 0 1; sample_hdr "e" 0 0]]
    [sample_hdr "f" 4294967295 0].
Definition sample_meta12 : MetaBlock.t :=
  sample_meta 12
    [ShardData.Build 0 [sample_hdr "g" 1 0]]
    [sample_hdr "h" 4294967295 1; sample_hdr "i" 0 0].
Definition sample_meta11' : MetaBlock.t :=
  sample_meta 11 [] [sample_hdr "z" 4294967295 0].

Definition sample_unFinished : gmap string MetaBlock.t :=
  <["h10" := sample_meta10]> (<["h11" := sample_meta11]> (<["h12" := sample_meta12]> ∅)).

Definition sample_shard0 : EpochStartShardData.t :=
  EpochStartShardData.Build 0 (list_byte_of_string "h10") [sample_hdr "p" 0 0].
Definition sample_shard1 : EpochStartShardData.t :=
  EpochStartShardData.Build 1 (list_byte_of_string "h12") [].

Definition sample_epochStart : MetaBlock.t :=
  MetaBlock.Build 12 (EpochStart.Build [sample_shard0; sample_shard1]) [] [].

(** Two unfinished meta blocks with the same nonce: the one that [range]
    visits last is the one whose mini blocks are collected. *)
Definition sample_twins : gmap string MetaBlock.t :=
  <["h11b" := sample_meta11']> sample_unFinished.

Definition sample_IfNil (i : option string) : bool :=
  match i with None => true | Some _ => false end.

Definition sample_CalculateHash (marshalizer hasher : option string) (miniBlock : string)
    : list byte + string :=
  if decide (miniBlock = EmptyString) then inr "empty mini block"%string
  else inl (list_byte_of_string miniBlock).

Definition sample_processor :=
  (option (Body.t string) * list (option (MbInfo.t unit)) + update_error)%type.

Definition sample_processor_CreateBody (p : sample_processor) (calls : nat)
    : sample_processor * nat :=
  (p, S calls).

Definition sample_postMb (hash : string) : MbInfo.t unit :=
  MbInfo.Build (list_byte_of_string hash) 0 1 0 [].

Definition sample_args : ArgsHardForkProcessor (option string) :=
  {| Hasher := Some "blake2b"%string; Marshalizer := Some "gogo protobuf"%string;
     ShardIDs := [0; 1] |}.

Definition sample_args_nil_hasher : ArgsHardForkProcessor (option string) :=
  {| Hasher := None; Marshalizer := Some "gogo protobuf"%string; ShardIDs := [0; 1] |}.

Definition sample_body0 : Body.t string := Body.Build ["mb1"; "mb2"]%string.
Definition sample_body1 : Body.t string := Body.Build ["mb3"]%string.

Definition sample_bodies : gmap Z (option (Body.t string)) :=
  <[0 := Some sample_body0]> (<[1 := Some sample_body1]> ∅).

Definition sample_processors : gmap Z (option sample_processor) :=
  <[0 := Some (inl (Some sample_body0,
                    [Some (sample_postMb "mb2"); Some (sample_postMb "mb3")]))]>
  (<[1 := Some (inl (Some sample_body1, [Some (sample_postMb "mb4")]))]> ∅).


Definition sample_hashes : gset string := {["mb1"; "mb2"; "mb3"]}%string.

(** A genesis delegation for concrete runs: one delegation contract with
    two nodes and two delegators on shard 0, besides a contract of
    another type; an executor that counts its transactions and hands the
    count out as the nonce; a query service that answers with the stake 5
    and with the genesis signature. *)
Definition sample_sdp : standardDelegationProcessor unit :=
  {| TxExecutionProcessor := tt; shardCoordinator := tt; accuntsParser := tt;
     smartContractsParser := tt; nodesListSplitter := tt; queryService := tt;
     nodePrice := Some 2500 |}.

Definition sample_sc : InitialSmartContract.t :=
  InitialSmartContract.Build (list_byte_of_string "sc") (list_byte_of_string "owner")
    "erd1owner" "erd1sc" "delegation".

Definition sample_dns_sc : InitialSmartContract.t :=
  InitialSmartContract.Build (list_byte_of_string "dns") (list_byte_of_string "owner")
    "erd1owner" "erd1dns" "dns".

Definition sample_delegator (address : string) (value : Z) : option InitialAccount.t :=
  Some (InitialAccount.Build (list_byte_of_string address) address
          (Some (DelegationData.Build (Some value)))).

Definition sample_GetNonce (executor : unit) (senderBytes : list byte) (sent : Z)
    : (Z + string) * Z :=
  (inl sent, sent).

Definition sample_ExecuteTransaction (executor : unit) (nonce : Z)
    (sndAddr rcvAddress : list byte) (value : Z) (data : list byte) (sent : Z)
    : option string * Z :=
  (None, sent + 1).

Definition sample_ExecuteQuery (service : unit) (query : SCQuery.t) (sent : Z)
    : (option VMOutput.t + string) * Z :=
  (inl (Some (VMOutput.Build
                (if String.eqb (SCQuery.FuncName query) "getUserStake"
                 then [["005"%byte]] else [genesisSignature]))),
   sent).

Definition sample_SelfId (coordinator : unit) : Z := 0.

Definition sample_SameShard (coordinator : unit) (a b : list byte) : bool := false.

Definition sample_GetInitialAccountsForDelegated (parser : unit) (address : list byte)
    : list (option InitialAccount.t) :=
  [sample_delegator "erd1alice" 5; sample_delegator "erd1bob" 5].

Definition sample_SplitOnOwnersShards (parser coordinator : unit)
    : gmap Z (list InitialSmartContract.t) + string :=
  inl {[0 := [sample_dns_sc; sample_sc]]}.

Definition sample_GetDelegatedNodes (splitter : unit) (address : list byte)
    : list GenesisNodeInfo.t :=
  [GenesisNodeInfo.Build (list_byte_of_string "k1");
   GenesisNodeInfo.Build (list_byte_of_string "k2")].

Definition sample_genesis : genesisWorld Z := GenesisWorld 7 [].

Definition sample_ExecuteDelegation :=
  ExecuteDelegation "delegation" sample_GetNonce sample_ExecuteTransaction
    sample_ExecuteQuery sample_SelfId sample_SameShard
    sample_GetInitialAccountsForDelegated sample_SplitOnOwnersShards
    sample_GetDelegatedNodes sample_sdp sample_genesis.

(** The world the sample run ends in. *)
Definition sample_genesis_end : genesisWorld Z :=
  Eval vm_compute in
    match sample_ExecuteDelegation with
    | Some (_, w') => w'
    | None => sample_genesis
    end.

(** A processor over a storage that holds every hash but [0d], a history
    that knows the transactions [01] (two entries of results) and [02]
    (a receipt, and results besides), and a logs facade that has no logs
    for [0b]. *)
Definition sample_scr (bs : list byte) : SmartContractResult.t :=
  SmartContractResult.Build (Z.of_nat (length bs)) (Some 5) (bs ++ bs) bs [] None []
    (list_byte_of_string "transfer") bs bs 50000 1000000000 0 [] [] (bs ++ bs).

Definition sample_history (hash : list byte) (epoch : Z)
    : option ResultsHashesByTxHash.t + string :=
  if decide (hash = ["001"%byte]) then
    inl (Some (ResultsHashesByTxHash.Build []
      [Some (ScResultsHashesAndEpoch.Build 3 [["010"%byte]; ["011"%byte]]);
       Some (ScResultsHashesAndEpoch.Build 4 [["012"%byte]; ["013"%byte]; ["014"%byte]])]))
  else if decide (hash = ["002"%byte]) then
    inl (Some (ResultsHashesByTxHash.Build ["015"%byte]
      [Some (ScResultsHashesAndEpoch.Build 3 [["010"%byte]])]))
  else inr "not found in storage"%string.

Definition sample_arp : apiTransactionResultsProcessor string string unit := {|
  txUnmarshaller_unmarshalReceipt := fun bs => (Some (hex_EncodeToString bs), None);
  addressPubKeyConverter_Len := 2;
  addressPubKeyConverter_SilentEncode := hex_EncodeToString;
  addressPubKeyConverter_EncodeSlice := fun l => (hex_EncodeToString <$> l, None);
  historyRepository_GetResultsHashesByTxHash := sample_history;
  storageService_GetStorer_UnsignedTransactionUnit := inl tt;
  storer_GetFromEpoch := fun _ hash _ =>
    if decide (hash = ["013"%byte]) then inr "key not found"%string else inl hash;
  marshalizer_Unmarshal := fun bs => inl (sample_scr bs);
  dataFieldParser_Parse := fun _ _ rcv _ =>
    ResponseParseData.Build "transfer" "" [] [] [rcv] [1] false;
  shardCoordinator_NumberOfShards := 2;
  shardCoordinator_SelfId := 1;
  refundDetector_isRefund := fun _ => false;
  logsFacade_GetLog := fun hash _ =>
    if decide (hash = ["011"%byte]) then (None, Some "no logs"%string)
    else (Some "logs"%string, None);
|}.

Definition sample_is_ErrNotFoundInStorage (err : string) : bool :=
  bool_decide (err = "not found in storage"%string).

(** A status filter that marks the transactions it has seen. *)
Definition sample_SetStatus (selfId : Z)
    (tx : ApiTransactionResult.t string string string)
    : ApiTransactionResult.t string string string :=
  ApiTransactionResult.Build (ApiTransactionResult.Logs tx)
    (ApiTransactionResult.Receipt tx) (ApiTransactionResult.SmartContractResults tx)
    "filtered".

Definition sample_tx : ApiTransactionResult.t string string string :=
  ApiTransactionResult.Build (Some "old logs"%string) None [] "pending".

(** ** Assertions about runs *)

(** Partial and total postconditions of a run of [m] from [w]. *)
Definition wp {A} (m : M A) (w : world) (Q : A -> world -> Prop) : Prop :=
  forall a w', m w = Some (a, w') -> Q a w'.

Definition twp {A} (m : M A) (w : world) (Q : A -> world -> Prop) : Prop :=
  exists a w', m w = Some (a, w') /\ Q a w'.

(** [w'] agrees with [w] on the locations below [n], has lost no cell,
    has only gained logger calls and has the logger's level unchanged. *)
Record stable (n : nat) (w w' : world) : Prop := Stable {
  st_heap : take n (w_heap w') = take n (w_heap w);
  st_length : (length (w_heap w) <= length (w_heap w'))%nat;
  st_log : w_log w `prefix_of` w_log w';
  st_level : w_level w' = w_level w;
}.

(** [frames n m Q]: from any heap of at least [n] cells, a run of [m] that
    returns leaves the first [n] cells alone, calls the logger not at
    all, and its result satisfies [Q]. *)
Definition frames {A} (n : nat) (m : M A) (Q : A -> Prop) : Prop :=
  forall w, (n <= length (w_heap w))%nat ->
    wp m w (fun a w' => stable n w w' /\ w_log w' = w_log w /\ Q a).

(** [frames_logging n m Q]: the same for a computation that may call the
    logger; [Q] also speaks about the calls the run has added. *)
Definition frames_logging {A} (n : nat) (m : M A) (Q : A -> list logCall -> Prop) : Prop :=
  forall w, (n <= length (w_heap w))%nat ->
    wp m w (fun a w' => stable n w w' /\
                        exists calls, w_log w' = w_log w ++ calls /\ Q a calls).

Definition fresh_ptr (n : nat) (p : ptr) : Prop :=
  match p with Some l => (n <= l)%nat | None => True end.

Definition fresh_slice (n : nat) (s : slice) : Prop := (n <= s_arr s)%nat.

(** Total postconditions with a frame: from a heap of at least [n] cells
    the run returns, leaves the first [n] cells alone, calls the logger
    not at all, and [Q] holds. *)
Definition tframe {A} (n : nat) (m : M A) (w : world) (Q : A -> world -> Prop) : Prop :=
  (n <= length (w_heap w))%nat ->
  twp m w (fun a w' => stable n w w' /\ w_log w' = w_log w /\ Q a w').

(** What a pointer or a slice denotes in a world. *)
Definition int_at (w : world) (p : ptr) (z : Z) : Prop :=
  exists l, p = Some l /\ w_heap w !! l = Some (CInt z).

Definition owner_at (w : world) (p : ptr) (o : ownerData) : Prop :=
  exists l, p = Some l /\ w_heap w !! l = Some (COwner o).

Definition bytes_at (w : world) (s : slice) (bs : list byte) : Prop :=
  exists arr, w_heap w !! s_arr s = Some (CBytes arr) /\ window s arr = Some bs.

Definition vals_at (w : world) (s : slice) (vs : list validator) : Prop :=
  exists arr, w_heap w !! s_arr s = Some (CVals arr) /\ window s arr = Some vs.

(** The bytes of the keys of a slice of validators. *)
Definition keys_at (w : world) (s : slice) (keys : list (list byte)) : Prop :=
  exists vs, vals_at w s vs /\
    Forall2 (fun v key => bytes_at w (GetPublicKey v) key) vs keys.

(** An owner aggregate in the heap, with the values behind it. *)
Definition owner_view (w : world) (owner : ptr) (o : ownerData) (v : ownerView) : Prop :=
  owner_at w owner o /\
  int_at w (totalTopUp o) (ov_totalTopUp v) /\
  int_at w (topUpPerNode o) (ov_topUpPerNode v) /\
  int_at w (qualifiedTopUpPerNode o) (ov_qualifiedTopUpPerNode v) /\
  keys_at w (auctionList o) (ov_keys v).

(** The invariant of an owner aggregate that the selector hands over:
    the qualified auction nodes are among the auction nodes, and those
    are the nodes of the auction list. *)
Definition qualified_in_bounds (o : ownerData) : Prop :=
  (numQualifiedAuctionNodes o <= numAuctionNodes o)%nat /\
  numAuctionNodes o = s_len (auctionList o).

(** [promoted] are [k] of the keys [keys], in ascending order, and none
    of the other keys is below any of them: the [k] smallest keys. *)
Definition smallest_keys (k : nat) (keys promoted : list (list byte)) : Prop :=
  length promoted = k /\
  Sorted pubKey_le promoted /\
  exists remaining,
    promoted ++ remaining ≡ₚ keys /\
    forall p r, p ∈ promoted -> r ∈ remaining -> pubKey_le p r.

(** The view [ov'] is the one of [ov] with the keys of the auction list
    in ascending order. *)
Definition ordered_view (ov ov' : ownerData * ownerView) : Prop :=
  ov'.1 = ov.1 /\
  ov_totalTopUp ov'.2 = ov_totalTopUp ov.2 /\
  ov_topUpPerNode ov'.2 = ov_topUpPerNode ov.2 /\
  ov_qualifiedTopUpPerNode ov'.2 = ov_qualifiedTopUpPerNode ov.2 /\
  Sorted pubKey_le (ov_keys ov'.2) /\
  ov_keys ov'.2 ≡ₚ ov_keys ov.2.

(** [w'] is [w] with another array of validators in the cell [a]. *)
Definition vals_stored (a : loc) (w w' : world) : Prop :=
  exists arr arr',
    w_heap w !! a = Some (CVals arr) /\
    w_heap w' = <[a := CVals arr']> (w_heap w) /\
    w_log w' = w_log w /\ w_level w' = w_level w.

(** A computation that never consults the logger's level: run at another
    level it does the same, and leaves that level in place. *)
Definition lvl_indep {A} (m : M A) : Prop :=
  forall lvl w,
    m (set_level lvl w) = (fun '(a, w') => (a, set_level lvl w')) <$> m w.

(** The order in which [range] (or [sync.Map.Range]) visits a Go map:
    each entry once, in an order the language leaves open. *)
Definition range_order {V} (m : gmap string V) (entries : list (string * V)) : Prop :=
  entries ≡ₚ map_to_list m.

Definition distinct_nonces (unFinishedMetaBlocks : gmap string MetaBlock.t) : Prop :=
  forall hash1 hash2 metaBlock1 metaBlock2,
    unFinishedMetaBlocks !! hash1 = Some metaBlock1 ->
    unFinishedMetaBlocks !! hash2 = Some metaBlock2 ->
    MetaBlock.GetNonce metaBlock1 = MetaBlock.GetNonce metaBlock2 ->
    hash1 = hash2.

(** The two lookups of one iteration of the loop over nonces. *)
Definition resolve_nonce (unFinishedMetaBlocks : gmap string MetaBlock.t)
    (nonceToHashMap : gmap Z string) (nonce : Z) : option MetaBlock.t :=
  match nonceToHashMap !! nonce with
  | Some metaBlockHash => unFinishedMetaBlocks !! metaBlockHash
  | None => None
  end.

(** [blocks] are the unfinished meta blocks after the first pending one
    of [epochStartShardData], one for every nonce up to that of the epoch
    start meta block. *)
Definition pending_chain (unFinishedMetaBlocks : gmap string MetaBlock.t)
    (nonceToHashMap : gmap Z string) (epochStartMetaBlockNonce : Z)
    (epochStartShardData : EpochStartShardData.t) (blocks : list MetaBlock.t) : Prop :=
  exists firstPendingMetaBlock,
    unFinishedMetaBlocks
      !! string_of_list_byte (EpochStartShardData.FirstPendingMetaBlock epochStartShardData)
      = Some firstPendingMetaBlock /\
    0 <= MetaBlock.GetNonce firstPendingMetaBlock < 2 ^ 64 - 1 /\
    length blocks = Z.to_nat (epochStartMetaBlockNonce - MetaBlock.GetNonce firstPendingMetaBlock) /\
    forall (i : nat) metaBlock, blocks !! i = Some metaBlock ->
      resolve_nonce unFinishedMetaBlocks nonceToHashMap
        (MetaBlock.GetNonce firstPendingMetaBlock + 1 + Z.of_nat i) = Some metaBlock.

(** What [computePendingMiniBlocksFromUnFinishedMetaBlocks] collects
    along such a chain. *)
Definition pending_along (epochStartShardData : EpochStartShardData.t)
    (blocks : list MetaBlock.t) : list MiniBlockHeader.t :=
  EpochStartShardData.PendingMiniBlockHeaders epochStartShardData ++
  concat ((fun metaBlock =>
             getAllMiniBlocksWithDst metaBlock
               (EpochStartShardData.ShardID epochStartShardData)) <$> blocks).

(** Every nonce of the map is a [uint64] below the largest one, so that
    [nonce + 1] does not wrap around. *)
Definition nonces_in_range (unFinishedMetaBlocks : gmap string MetaBlock.t) : Prop :=
  forall hash metaBlock, unFinishedMetaBlocks !! hash = Some metaBlock ->
    0 <= MetaBlock.GetNonce metaBlock < 2 ^ 64 - 1.

(** The map lacks what [epochStartShardData] needs: its first pending
    meta block, or a meta block for some nonce after that one and up to
    the nonce of the epoch start meta block. *)
Definition wrong_for (unFinishedMetaBlocks : gmap string MetaBlock.t)
    (epochStartMetaBlockNonce : Z) (epochStartShardData : EpochStartShardData.t) : Prop :=
  match unFinishedMetaBlocks
          !! string_of_list_byte (EpochStartShardData.FirstPendingMetaBlock epochStartShardData) with
  | None => True
  | Some firstPendingMetaBlock =>
      exists nonce,
        MetaBlock.GetNonce firstPendingMetaBlock < nonce <= epochStartMetaBlockNonce /\
        forall hash metaBlock, unFinishedMetaBlocks !! hash = Some metaBlock ->
          MetaBlock.GetNonce metaBlock <> nonce
  end.

(** [blocks] are unfinished meta blocks with the consecutive nonces after
    that of the first pending meta block of [epochStartShardData], up to
    the nonce of the epoch start meta block. *)
Definition unfinished_chain (unFinishedMetaBlocks : gmap string MetaBlock.t)
    (epochStartMetaBlockNonce : Z) (epochStartShardData : EpochStartShardData.t)
    (blocks : list MetaBlock.t) : Prop :=
  exists firstPendingMetaBlock,
    unFinishedMetaBlocks
      !! string_of_list_byte (EpochStartShardData.FirstPendingMetaBlock epochStartShardData)
      = Some firstPendingMetaBlock /\
    length blocks = Z.to_nat (epochStartMetaBlockNonce - MetaBlock.GetNonce firstPendingMetaBlock) /\
    forall (i : nat) metaBlock, blocks !! i = Some metaBlock ->
      MetaBlock.GetNonce metaBlock = MetaBlock.GetNonce firstPendingMetaBlock + 1 + Z.of_nat i /\
      exists hash, unFinishedMetaBlocks !! hash = Some metaBlock.

Section HardForkAssertions.

Context {iface MiniBlock : Type}.
Variable CalculateHash : iface -> iface -> MiniBlock -> list byte + string.

(** [hashes] are the hashes of the mini blocks of the bodies of
    [shardIDs], all of them present, not nil and hashed without error. *)
Definition bodies_hashed (args : ArgsHardForkProcessor iface) (shardIDs : list Z)
    (mapBodies : gmap Z (option (Body.t MiniBlock))) (hashes : gset string) : Prop :=
  (forall shardID, shardID ∈ shardIDs ->
     exists body,
       mapBodies !! shardID = Some (Some body) /\
       forall miniBlock, miniBlock ∈ Body.MiniBlocks body ->
         exists miniBlockHash,
           CalculateHash (Marshalizer args) (Hasher args) miniBlock = inl miniBlockHash) /\
  (forall s, s ∈ hashes <->
     exists shardID body miniBlock miniBlockHash,
       shardID ∈ shardIDs /\
       mapBodies !! shardID = Some (Some body) /\
       miniBlock ∈ Body.MiniBlocks body /\
       CalculateHash (Marshalizer args) (Hasher args) miniBlock = inl miniBlockHash /\
       s = string_of_list_byte miniBlockHash).

End HardForkAssertions.

Section CreateBodyAssertions.

Context {MiniBlock TransactionHandler HardForkBlockProcessor processorState : Type}.
Variable processor_CreateBody :
  HardForkBlockProcessor -> processorState ->
  (option (Body.t MiniBlock) * list (option (MbInfo.t TransactionHandler)) + update_error)
  * processorState.



End CreateBodyAssertions.

Definition transaction_of (e : event) : option (list byte * list byte * Z * list byte) :=
  match e with
  | TransactionExecuted _ sndAddr rcvAddress value data =>
      Some (sndAddr, rcvAddress, value, data)
  | _ => None
  end.

Definition query_of (e : event) : option SCQuery.t :=
  match e with
  | QueryExecuted query => Some query
  | _ => None
  end.

(** The transactions among the calls made, without their nonces: sender,
    receiver, value and data. *)
Definition transactions (events : list event)
    : list (list byte * list byte * Z * list byte) :=
  omap transaction_of events.

(** The queries among the calls made. *)
Definition queries (events : list event) : list SCQuery.t :=
  omap query_of events.

Section DelegationAssertions.

Variable iface : Type.
Variable DelegationType : string.
Variable coordinator_SelfId : iface -> Z.
Variable parser_GetInitialAccountsForDelegated :
  iface -> list byte -> list (option InitialAccount.t).
Variable splitter_GetDelegatedNodes : iface -> list byte -> list GenesisNodeInfo.t.

Implicit Type sdp : standardDelegationProcessor iface.

(** The delegation contracts among [allSmartContracts] for the shard of
    the processor. *)
Definition delegation_contracts sdp
    (allSmartContracts : gmap Z (list InitialSmartContract.t))
    : list InitialSmartContract.t :=
  filter (fun sc => InitialSmartContract.GetType sc = DelegationType)
    (default [] (allSmartContracts !! coordinator_SelfId (shardCoordinator sdp))).

Definition delegated_nodes sdp (sc : InitialSmartContract.t) : list GenesisNodeInfo.t :=
  splitter_GetDelegatedNodes (nodesListSplitter sdp) (InitialSmartContract.AddressBytes sc).

Definition delegators sdp (sc : InitialSmartContract.t) : list (option InitialAccount.t) :=
  parser_GetInitialAccountsForDelegated (accuntsParser sdp)
    (InitialSmartContract.AddressBytes sc).

(** The transactions of the four phases, as [ExecuteDelegation] sends
    them when nothing fails. *)
Definition setStakePerNode_transaction sdp (sc : InitialSmartContract.t)
    : list byte * list byte * Z * list byte :=
  (InitialSmartContract.OwnerBytes sc, InitialSmartContract.AddressBytes sc, 0,
   list_byte_of_string ("setStakePerNode@" ++ big_Format_x (nodePrice sdp))).

Definition addNodes_data (nodes : list GenesisNodeInfo.t) : string :=
  ("addNodes" ++
   String.concat ""
     ((fun node =>
         "@" ++ hex_EncodeToString (GenesisNodeInfo.PubKeyBytes node) ++
         "@" ++ hex_EncodeToString genesisSignature) <$> nodes))%string.

Definition addNodes_transactions sdp (sc : InitialSmartContract.t)
    : list (list byte * list byte * Z * list byte) :=
  match delegated_nodes sdp sc with
  | [] => []
  | nodes =>
      [(InitialSmartContract.OwnerBytes sc, InitialSmartContract.AddressBytes sc, 0,
        list_byte_of_string (addNodes_data nodes))]
  end.

(** The value an account delegates, when the account, its delegation
    handler and the value are not nil. *)
Definition delegated_value (ac : option InitialAccount.t) : option Z :=
  match ac with
  | Some account =>
      match InitialAccount.GetDelegationHandler account with
      | Some dh => DelegationData.GetValue dh
      | None => None
      end
  | None => None
  end.

Definition stake_transactions sdp (sc : InitialSmartContract.t)
    : list (list byte * list byte * Z * list byte) :=
  omap (fun ac =>
          match ac with
          | Some account =>
              (fun value =>
                 (InitialAccount.AddressBytes account, InitialSmartContract.AddressBytes sc, 0,
                  list_byte_of_string ("stakeGenesis@" ++ big_Text16 value)))
              <$> delegated_value ac
          | None => None
          end) (delegators sdp sc).

Definition activate_transaction (sc : InitialSmartContract.t)
    : list byte * list byte * Z * list byte :=
  (InitialSmartContract.OwnerBytes sc, InitialSmartContract.AddressBytes sc, 0,
   list_byte_of_string "activateGenesis").

(** The queries of the verification of one contract: the stake of every
    delegator that delegates a value, then the signature of every
    delegated node. *)
Definition verify_queries sdp (sc : InitialSmartContract.t) : list SCQuery.t :=
  omap (fun delegator =>
          match delegator with
          | Some account =>
              (fun _ =>
                 SCQuery.Build (InitialSmartContract.AddressBytes sc) "getUserStake"
                   [InitialAccount.AddressBytes account])
              <$> delegated_value delegator
          | None => None
          end) (delegators sdp sc) ++
  ((fun node =>
      SCQuery.Build (InitialSmartContract.AddressBytes sc) "getNodeSignature"
        [GenesisNodeInfo.PubKeyBytes node]) <$> delegated_nodes sdp sc).

End DelegationAssertions.

Arguments delegation_contracts {iface}.
Arguments delegated_nodes {iface}.
Arguments delegators {iface}.
Arguments setStakePerNode_transaction {iface}.
Arguments addNodes_transactions {iface}.
Arguments stake_transactions {iface}.
Arguments verify_queries {iface}.

(** What a method adds to the calls made, seen through a projection of
    the events: every run that returns has added [xs], with [Q] of the
    result and [xs]. *)
Definition emits {processorState A X} (proj : event -> option X)
    (m : genesisWorld processorState -> option (A * genesisWorld processorState))
    (Q : A -> list X -> Prop) : Prop :=
  forall w r w', m w = Some (r, w') ->
    exists xs, omap proj (gw_events w') = omap proj (gw_events w) ++ xs /\ Q r xs.

Section TransactionAPIAssertions.

Context {ApiLogs ApiReceipt Rest Storer : Type}.
Variable arp : apiTransactionResultsProcessor ApiLogs ApiReceipt Storer.

(** The hashes of one entry of the history, each with the epoch of the
    entry, and those of all entries, in the order they are visited. *)
Definition group_pairs (g : ScResultsHashesAndEpoch.t) : list (list byte * Z) :=
  (fun scrHash => (scrHash, ScResultsHashesAndEpoch.Epoch g))
    <$> ScResultsHashesAndEpoch.ScResultsHashes g.

Definition history_pairs (groups : list ScResultsHashesAndEpoch.t) : list (list byte * Z) :=
  concat (group_pairs <$> groups).

(** The storage holds a smart contract result under the hash. *)
Definition loads (p : list byte * Z) : Prop :=
  exists scr, getScrFromStorage arp p.1 p.2 = inl scr.

(** [r] is the result stored under the hash, adapted, with the logs the
    facade has for the hash. *)
Definition result_of (p : list byte * Z) (r : ApiSmartContractResult.t ApiLogs) : Prop :=
  exists scr,
    getScrFromStorage arp p.1 p.2 = inl scr /\
    r = (loadLogsIntoContractResults arp p.1 p.2
           (adaptSmartContractResult arp p.1 scr).1).1.

(** The visit stopped at the head of [rest], which the storage does not
    hold, with the error [e]. *)
Definition stopped_at (rest : list (list byte * Z)) (e : api_error) : Prop :=
  exists scrHash epoch rest' cause,
    rest = (scrHash, epoch) :: rest' /\
    getScrFromStorage arp scrHash epoch = inr cause /\
    e = CannotLoadContractResults cause (hex_EncodeToString scrHash).

(** The transaction with more results after its own, and nothing else
    changed. *)
Definition with_results (results : list (ApiSmartContractResult.t ApiLogs))
    (tx : ApiTransactionResult.t ApiLogs ApiReceipt Rest)
    : ApiTransactionResult.t ApiLogs ApiReceipt Rest :=
  ApiTransactionResult.Build (ApiTransactionResult.Logs tx)
    (ApiTransactionResult.Receipt tx)
    (ApiTransactionResult.SmartContractResults tx ++ results)
    (ApiTransactionResult.rest tx).

End TransactionAPIAssertions.

(** * Properties *)

(** ** Reasoning about runs *)

(** *** Partial and total postconditions *)

Lemma twp_ret {A} (a : A) w Q : Q a w -> twp (ret a) w Q.
Proof. intros HQ. exists a, w. done. Qed.

Lemma twp_bind {A B} (m : M A) (f : A -> M B) w Q :
  twp m w (fun a w' => twp (f a) w' Q) -> twp (bind m f) w Q.
Proof.
  intros (a & w' & Hm & b & w'' & Hf & HQ).
  exists b, w''. unfold bind. rewrite Hm. done.
Qed.

Lemma twp_mono {A} (m : M A) w (Q Q' : A -> world -> Prop) :
  twp m w Q -> (forall a w', Q a w' -> Q' a w') -> twp m w Q'.
Proof. intros (a & w' & Hm & HQ) HQQ. exists a, w'. auto. Qed.

Lemma twp_wp {A} (m : M A) w (P Q : A -> world -> Prop) :
  wp m w P -> twp m w Q -> twp m w (fun a w' => P a w' /\ Q a w').
Proof. intros HP (a & w' & Hm & HQ). exists a, w'. auto. Qed.

Lemma twp_run {A} (m : M A) w Q a w' :
  m w = Some (a, w') -> Q a w' -> twp m w Q.
Proof. intros. exists a, w'. done. Qed.

Lemma twp_alloc c w Q :
  Q (length (w_heap w)) (set_heap (w_heap w ++ [c]) w) -> twp (alloc c) w Q.
Proof. intros HQ. eexists _, _. split; [reflexivity | done]. Qed.

Lemma twp_load l c w Q :
  w_heap w !! l = Some c -> Q c w -> twp (load l) w Q.
Proof. intros Hl HQ. exists c, w. unfold load. rewrite Hl. done. Qed.

Lemma twp_store l c w Q :
  (l < length (w_heap w))%nat ->
  Q tt (set_heap (<[l:=c]> (w_heap w)) w) -> twp (store l c) w Q.
Proof.
  intros Hl HQ. eexists _, _. unfold store.
  rewrite decide_True by done. done.
Qed.

Lemma twp_lift_option {A} (o : option A) a w Q :
  o = Some a -> Q a w -> twp (lift_option o) w Q.
Proof. intros -> HQ. by apply twp_ret. Qed.

Lemma twp_log_call sev msg args w Q :
  Q tt {| w_heap := w_heap w; w_log := w_log w ++ [LogCall sev msg args];
          w_level := w_level w |} ->
  twp (log_call sev msg args) w Q.
Proof. intros HQ. eexists _, _. split; [reflexivity | done]. Qed.

(** *** Frames: what a run leaves alone *)

Lemma stable_refl n w : stable n w w.
Proof. by split. Qed.

Lemma stable_trans n w1 w2 w3 : stable n w1 w2 -> stable n w2 w3 -> stable n w1 w3.
Proof.
  intros [H1 L1 P1 V1] [H2 L2 P2 V2]. split.
  - congruence.
  - lia.
  - by etrans.
  - congruence.
Qed.

Lemma stable_lookup n w w' l :
  stable n w w' -> (l < n)%nat -> w_heap w' !! l = w_heap w !! l.
Proof.
  intros [H _ _ _] Hl.
  rewrite <- (lookup_take_lt (w_heap w') n l), <- (lookup_take_lt (w_heap w) n l) by done.
  by rewrite H.
Qed.

Lemma stable_le n k w w' : (k <= n)%nat -> stable n w w' -> stable k w w'.
Proof.
  intros Hk [H L P V]. split; try done.
  replace k with (k `min` n)%nat by lia.
  by rewrite <- !take_take, H.
Qed.

(** A whole-heap frame: the heap of [w] is an initial segment of the one
    of [w']. *)
Lemma stable_prefix w w' :
  stable (length (w_heap w)) w w' -> w_heap w `prefix_of` w_heap w'.
Proof.
  intros [H _ _ _]. rewrite firstn_all in H.
  exists (drop (length (w_heap w)) (w_heap w')).
  rewrite <- (take_drop (length (w_heap w)) (w_heap w')) at 1.
  by rewrite H.
Qed.

Lemma frames_ret {A} n (a : A) (Q : A -> Prop) : Q a -> frames n (ret a) Q.
Proof. intros HQ w Hn a' w' [= <- <-]. split; [apply stable_refl | done]. Qed.

Lemma frames_panic {A} n (Q : A -> Prop) : frames n panic Q.
Proof. intros w Hn a w' [=]. Qed.

Lemma frames_bind {A B} n (m : M A) (f : A -> M B) (P : A -> Prop) (Q : B -> Prop) :
  frames n m P -> (forall a, P a -> frames n (f a) Q) -> frames n (bind m f) Q.
Proof.
  intros Hm Hf w Hn b w''. unfold bind.
  destruct (m w) as [[a w']|] eqn:E; [|done].
  intros Hb. destruct (Hm w Hn a w' E) as (S1 & L1 & HP).
  destruct (Hf a HP w' ltac:(destruct S1; lia) b w'' Hb) as (S2 & L2 & HQ).
  split_and!; [by eapply stable_trans | congruence | done].
Qed.

Lemma frames_mono {A} n (m : M A) (P Q : A -> Prop) :
  frames n m P -> (forall a, P a -> Q a) -> frames n m Q.
Proof. intros Hm HPQ w Hn a w' E. destruct (Hm w Hn a w' E) as (? & ? & ?). auto. Qed.

Lemma frames_alloc n c : frames n (alloc c) (fun l => (n <= l)%nat).
Proof.
  intros w Hn l w' [= <- <-]. split; [|done].
  split; simpl; try done.
  - by rewrite take_app_le.
  - rewrite length_app. lia.
Qed.

Lemma frames_load n l : frames n (load l) (fun _ => True).
Proof.
  intros w Hn c w'. unfold load. destruct (w_heap w !! l); [|done].
  intros [= <- <-]. split; [apply stable_refl | done].
Qed.

Lemma frames_store n l c : (n <= l)%nat -> frames n (store l c) (fun _ => True).
Proof.
  intros Hl w Hn [] w'. unfold store. case_decide; [|done].
  intros [= <-]. split; [|done]. split; simpl; try done.
  - by apply take_insert_ge.
  - by rewrite length_insert.
Qed.

Lemma frames_lift_option {A} n (o : option A) : frames n (lift_option o) (fun _ => True).
Proof. destruct o; [by apply frames_ret | apply frames_panic]. Qed.

Lemma frames_foldM {A S} n (body : A -> S -> M S) (P : S -> Prop) l acc :
  P acc ->
  (forall x acc, P acc -> frames n (body x acc) P) ->
  frames n (foldM body l acc) P.
Proof.
  intros Hacc Hbody. revert acc Hacc.
  induction l as [|x l IH]; intros acc Hacc; simpl.
  - by apply frames_ret.
  - eapply frames_bind; [by apply Hbody | auto].
Qed.

(** *** Frames of computations that log *)

Lemma frames_logging_quiet {A} n (m : M A) (P : A -> Prop) :
  frames n m P -> frames_logging n m (fun a calls => calls = [] /\ P a).
Proof.
  intros Hm w Hn a w' E. destruct (Hm w Hn a w' E) as (St & L & HP).
  split; [done|]. exists []. by rewrite app_nil_r.
Qed.

Lemma frames_logging_call n sev msg args :
  frames_logging n (log_call sev msg args) (fun _ calls => calls = [LogCall sev msg args]).
Proof.
  intros w Hn [] w' [= <-]. split.
  - split; simpl; try done. by apply prefix_app_r.
  - by eexists.
Qed.

Lemma frames_logging_bind {A B} n (m : M A) (f : A -> M B)
    (P : A -> list logCall -> Prop) (Q : B -> list logCall -> Prop) :
  frames_logging n m P ->
  (forall a c1, P a c1 -> frames_logging n (f a) (fun b c2 => Q b (c1 ++ c2))) ->
  frames_logging n (bind m f) Q.
Proof.
  intros Hm Hf w Hn b w''. unfold bind.
  destruct (m w) as [[a w']|] eqn:E; [|done].
  intros Hb. destruct (Hm w Hn a w' E) as (S1 & c1 & L1 & HP).
  destruct (Hf a c1 HP w' ltac:(destruct S1; lia) b w'' Hb) as (S2 & c2 & L2 & HQ).
  split; [by eapply stable_trans|].
  exists (c1 ++ c2). split; [|done]. by rewrite L2, L1, app_assoc.
Qed.

(** The usual case: a part that does not log, then one that does. *)
Lemma frames_logging_after {A B} n (m : M A) (f : A -> M B)
    (P : A -> Prop) (Q : B -> list logCall -> Prop) :
  frames n m P ->
  (forall a, P a -> frames_logging n (f a) Q) ->
  frames_logging n (bind m f) Q.
Proof.
  intros Hm Hf. eapply frames_logging_bind; [by apply frames_logging_quiet|].
  intros a c1 [-> HP]. by apply Hf.
Qed.

Lemma frames_logging_mono {A} n (m : M A) (P Q : A -> list logCall -> Prop) :
  frames_logging n m P -> (forall a calls, P a calls -> Q a calls) ->
  frames_logging n m Q.
Proof.
  intros Hm HPQ w Hn a w' E. destruct (Hm w Hn a w' E) as (St & c & L & HP).
  split; [done|]. exists c. auto.
Qed.

(** A loop whose rounds each add calls of a kind [R] that is closed under
    concatenation. *)
Lemma frames_logging_foldM {A S} n (body : A -> S -> M S) (R : list logCall -> Prop) l acc :
  R [] -> (forall c1 c2, R c1 -> R c2 -> R (c1 ++ c2)) ->
  (forall x acc, frames_logging n (body x acc) (fun _ calls => R calls)) ->
  frames_logging n (foldM body l acc) (fun _ calls => R calls).
Proof.
  intros Hnil Happ Hbody. revert acc.
  induction l as [|x l IH]; intros acc; simpl.
  - eapply frames_logging_mono; [apply frames_logging_quiet, (frames_ret _ _ (fun _ => True)); done|].
    by intros ? ? [-> _].
  - eapply frames_logging_bind; [apply Hbody|]. intros acc' c1 Hc1.
    eapply frames_logging_mono; [apply IH|]. intros ? c2 Hc2. by apply Happ.
Qed.

(** *** Frames of the library operations *)

Create HintDb frames discriminated.

#[export] Hint Resolve frames_panic frames_alloc frames_load frames_lift_option : frames.

(** One step through a computation: split a bind, leave a result to its
    postcondition, or take a branch apart. *)
Ltac frames_step :=
  lazymatch goal with
  | |- frames _ (bind _ _) _ => eapply frames_bind; [ | intros ? ? ]
  | |- frames _ (ret _) _ => apply frames_ret
  | |- frames _ (match ?x with _ => _ end) _ => destruct x
  | |- frames _ (if ?b then _ else _) _ => destruct b
  end.

Ltac frames_auto :=
  repeat first
    [ solve [eauto with frames]
    | solve [eapply frames_mono; [eauto with frames | done]]
    | frames_step ].

Lemma frames_big_get n p : frames n (big_get p) (fun _ => True).
Proof. unfold big_get. frames_auto. Qed.

Lemma frames_big_set n p v :
  fresh_ptr n p -> frames n (big_set p v) (fresh_ptr n).
Proof.
  intros Hp. unfold big_set. destruct p as [l|]; [|apply frames_panic].
  eapply frames_bind; [by apply frames_store | intros; by apply frames_ret].
Qed.

Lemma frames_big_NewInt n v : frames n (big_NewInt v) (fresh_ptr n).
Proof.
  unfold big_NewInt. eapply frames_bind; [apply frames_alloc|].
  intros l Hl. by apply frames_ret.
Qed.

#[export] Hint Resolve frames_big_get frames_big_set frames_big_NewInt : frames.

Lemma frames_big_Sub n z x y :
  fresh_ptr n z -> frames n (big_Sub z x y) (fresh_ptr n).
Proof. intros Hz. unfold big_Sub. frames_auto. Qed.

Lemma frames_big_Div n z x y :
  fresh_ptr n z -> frames n (big_Div z x y) (fresh_ptr n).
Proof. intros Hz. unfold big_Div. frames_auto. Qed.

Lemma frames_big_Cmp n x y : frames n (big_Cmp x y) (fun _ => True).
Proof. unfold big_Cmp. frames_auto. Qed.

Lemma frames_big_String n x : frames n (big_String x) (fun _ => True).
Proof. unfold big_String. frames_auto. Qed.

Lemma frames_load_bytes n l : frames n (load_bytes l) (fun _ => True).
Proof. unfold load_bytes. frames_auto. Qed.

Lemma frames_load_vals n l : frames n (load_vals l) (fun _ => True).
Proof. unfold load_vals. frames_auto. Qed.

#[export] Hint Resolve frames_big_Sub frames_big_Div frames_big_Cmp
  frames_big_String frames_load_bytes frames_load_vals : frames.

Lemma frames_slice_bytes n s : frames n (slice_bytes s) (fun _ => True).
Proof. unfold slice_bytes. frames_auto. Qed.

Lemma frames_vals_index n s i : frames n (vals_index s i) (fun _ => True).
Proof. unfold vals_index. frames_auto. Qed.

Lemma frames_slice_to n s k : frames n (slice_to s k) (fun _ => True).
Proof. unfold slice_to. frames_auto. Qed.

Lemma frames_slice_from n s k : frames n (slice_from s k) (fun _ => True).
Proof. unfold slice_from. frames_auto. Qed.

Lemma frames_make_bytes_0 n : frames n make_bytes_0 (fresh_slice n).
Proof.
  unfold make_bytes_0. eapply frames_bind; [apply frames_alloc|].
  intros l Hl. by apply frames_ret.
Qed.

Lemma frames_bytes_of_string n str : frames n (bytes_of_string str) (fresh_slice n).
Proof.
  unfold bytes_of_string. eapply frames_bind; [apply frames_alloc|].
  intros l Hl. by apply frames_ret.
Qed.

#[export] Hint Resolve frames_slice_bytes frames_vals_index frames_slice_to
  frames_slice_from frames_make_bytes_0 frames_bytes_of_string : frames.

Lemma frames_string_of_slice n s : frames n (string_of_slice s) (fun _ => True).
Proof. unfold string_of_slice. frames_auto. Qed.

(** [append] writes into the array of its first argument or into a fresh
    one: when that array was allocated above [n], so is the result's. *)
Lemma frames_append_bytes grow n s xs :
  fresh_slice n s -> frames n (append_bytes grow s xs) (fresh_slice n).
Proof.
  intros Hs. unfold append_bytes. case_decide.
  - eapply frames_bind; [apply frames_load_bytes|]. intros arr _.
    eapply frames_bind; [by apply frames_store|]. intros _ _.
    by apply frames_ret.
  - eapply frames_bind; [apply frames_slice_bytes|]. intros old _.
    eapply frames_bind; [apply frames_alloc|]. intros l Hl.
    by apply frames_ret.
Qed.

Lemma frames_append_slice grow n s t :
  fresh_slice n s -> frames n (append_slice grow s t) (fresh_slice n).
Proof.
  intros Hs. unfold append_slice.
  eapply frames_bind; [apply frames_slice_bytes|]. intros xs _.
  by apply frames_append_bytes.
Qed.

#[export] Hint Resolve frames_string_of_slice frames_append_bytes
  frames_append_slice : frames.

(** *** Total specifications with a frame *)

Lemma tframe_ret {A} n (a : A) w (Q : A -> world -> Prop) :
  Q a w -> tframe n (ret a) w Q.
Proof. intros HQ _. apply twp_ret. split; [apply stable_refl | done]. Qed.

Lemma tframe_bind {A B} n (m : M A) (f : A -> M B) w
    (P : A -> world -> Prop) (Q : B -> world -> Prop) :
  tframe n m w P ->
  (forall a w', stable n w w' -> P a w' -> tframe n (f a) w' Q) ->
  tframe n (bind m f) w Q.
Proof.
  intros Hm Hf Hn. apply twp_bind.
  eapply twp_mono; [by apply Hm|]. intros a w' (S1 & L1 & HP). simpl.
  eapply twp_mono; [apply (Hf a w' S1 HP); destruct S1; lia|].
  intros b w'' (S2 & L2 & HQ).
  split_and!; [by eapply stable_trans | congruence | done].
Qed.

Lemma tframe_bind_ret {A B} n (a : A) (f : A -> M B) w (Q : B -> world -> Prop) :
  tframe n (f a) w Q -> tframe n (bind (ret a) f) w Q.
Proof. intros H. exact H. Qed.

Lemma tframe_mono {A} n (m : M A) w (P Q : A -> world -> Prop) :
  tframe n m w P -> (forall a w', stable n w w' -> P a w' -> Q a w') ->
  tframe n m w Q.
Proof.
  intros Hm HPQ Hn. eapply twp_mono; [by apply Hm|].
  intros a w' (St & L & HP). auto.
Qed.

(** A run that only reads. *)
Lemma tframe_run {A} n (m : M A) w a (Q : A -> world -> Prop) :
  m w = Some (a, w) -> Q a w -> tframe n m w Q.
Proof.
  intros Hm HQ _. eapply twp_run; [done|]. split; [apply stable_refl | done].
Qed.

Lemma tframe_frames {A} n (m : M A) w (P : A -> Prop) (Q : A -> world -> Prop) :
  frames n m P -> twp m w Q -> tframe n m w (fun a w' => P a /\ Q a w').
Proof.
  intros Hf Ht Hn. eapply twp_mono; [apply (twp_wp _ _ _ _ (Hf w Hn) Ht)|].
  intros a w' [(St & L & HP) HQ]. auto.
Qed.

(** *** What pointers and slices denote, and its stability *)

Lemma window_Some {A} (s : slice) (arr bs : list A) :
  window s arr = Some bs <->
  (s_off s + s_cap s <= length arr)%nat /\ (s_len s <= s_cap s)%nat /\
  bs = take (s_len s) (drop (s_off s) arr).
Proof.
  unfold window. case_decide as H.
  - split; [intros [= <-]; tauto | intros (_ & _ & ->); done].
  - split; [done | intros (? & ? & _); tauto].
Qed.

Lemma window_length {A} (s : slice) (arr bs : list A) :
  window s arr = Some bs -> length bs = s_len s.
Proof.
  intros (H1 & H2 & ->)%window_Some. rewrite length_take, length_drop. lia.
Qed.

Lemma bytes_at_length w s bs : bytes_at w s bs -> length bs = s_len s.
Proof. intros (arr & _ & H). by eapply window_length. Qed.

Lemma bytes_at_lt w s bs : bytes_at w s bs -> (s_arr s < length (w_heap w))%nat.
Proof. intros (arr & H & _). by eapply lookup_lt_Some. Qed.

Lemma int_at_lt w p z : int_at w p z -> exists l, p = Some l /\ (l < length (w_heap w))%nat.
Proof. intros (l & -> & H). exists l. split; [done | by eapply lookup_lt_Some]. Qed.

Lemma vals_at_lt w s vs : vals_at w s vs -> (s_arr s < length (w_heap w))%nat.
Proof. intros (arr & H & _). by eapply lookup_lt_Some. Qed.

(** A run that is stable above the heap it started from keeps what the
    pointers and slices of that heap denote. *)
Lemma bytes_at_stable n w w' s bs :
  stable n w w' -> (s_arr s < n)%nat -> bytes_at w s bs -> bytes_at w' s bs.
Proof.
  intros S Hn (arr & H & Hw). exists arr. split; [|done].
  by rewrite (stable_lookup _ _ _ _ S).
Qed.

Lemma vals_at_stable n w w' s vs :
  stable n w w' -> (s_arr s < n)%nat -> vals_at w s vs -> vals_at w' s vs.
Proof.
  intros S Hn (arr & H & Hw). exists arr. split; [|done].
  by rewrite (stable_lookup _ _ _ _ S).
Qed.

Lemma int_at_stable n w w' l z :
  stable n w w' -> (l < n)%nat -> int_at w (Some l) z -> int_at w' (Some l) z.
Proof.
  intros S Hn (l' & [= <-] & H). exists l. split; [done|].
  by rewrite (stable_lookup _ _ _ _ S).
Qed.

Lemma owner_at_stable n w w' l o :
  stable n w w' -> (l < n)%nat -> owner_at w (Some l) o -> owner_at w' (Some l) o.
Proof.
  intros S Hn (l' & [= <-] & H). exists l. split; [done|].
  by rewrite (stable_lookup _ _ _ _ S).
Qed.

(** The same, for what the heap held when the display was entered. *)
Lemma bytes_at_kept w0 w s bs :
  stable (length (w_heap w0)) w0 w -> bytes_at w0 s bs -> bytes_at w s bs.
Proof. intros St H. eapply bytes_at_stable; [done | by eapply bytes_at_lt | done]. Qed.

Lemma vals_at_kept w0 w s vs :
  stable (length (w_heap w0)) w0 w -> vals_at w0 s vs -> vals_at w s vs.
Proof. intros St H. eapply vals_at_stable; [done | by eapply vals_at_lt | done]. Qed.

Lemma int_at_kept w0 w p z :
  stable (length (w_heap w0)) w0 w -> int_at w0 p z -> int_at w p z.
Proof.
  intros St H. destruct (int_at_lt _ _ _ H) as (l & -> & Hl).
  by eapply int_at_stable.
Qed.

Lemma owner_at_kept w0 w p o :
  stable (length (w_heap w0)) w0 w -> owner_at w0 p o -> owner_at w p o.
Proof.
  intros St H. pose proof H as (l & -> & Hl%lookup_lt_Some).
  by eapply owner_at_stable.
Qed.

Lemma keys_at_kept w0 w s keys :
  stable (length (w_heap w0)) w0 w -> keys_at w0 s keys -> keys_at w s keys.
Proof.
  intros St (vs & Hvs & Hkeys). exists vs. split; [by eapply vals_at_kept|].
  eapply Forall2_impl; [done|]. intros v key. by apply bytes_at_kept.
Qed.

Lemma keys_at_length w s keys : keys_at w s keys -> length keys = s_len s.
Proof.
  intros (vs & (arr & _ & Hw) & Hkeys).
  rewrite <- (Forall2_length _ _ _ Hkeys). by eapply window_length.
Qed.

Lemma keys_at_slice_to w s keys k :
  keys_at w s keys -> (k <= s_len s)%nat ->
  keys_at w {| s_arr := s_arr s; s_off := s_off s; s_len := k; s_cap := s_cap s |}
    (take k keys).
Proof.
  intros (vs & (arr & H & (H1 & H2 & ->)%window_Some) & Hkeys) Hk.
  exists (take k (take (s_len s) (drop (s_off s) arr))). split.
  - exists arr. split; [done|]. apply window_Some; simpl. split_and!; [done | lia |].
    rewrite take_take. f_equal. lia.
  - by apply Forall2_take.
Qed.

(** *** Runs of the readers *)

Lemma big_get_run w p z : int_at w p z -> big_get p w = Some (z, w).
Proof. intros (l & -> & H). unfold big_get, bind, load. by rewrite H. Qed.

Lemma big_String_run w p z : int_at w p z -> big_String p w = Some (Z_String z, w).
Proof.
  intros H. pose proof (big_get_run _ _ _ H) as E. destruct H as (l & -> & H).
  unfold big_String, bind. by rewrite E.
Qed.

Lemma big_Cmp_run w x y a b :
  int_at w x a -> int_at w y b ->
  big_Cmp x y w = Some (match a ?= b with Lt => -1 | Eq => 0 | Gt => 1 end, w).
Proof.
  intros Ha Hb. unfold big_Cmp, bind.
  by rewrite (big_get_run _ _ _ Ha), (big_get_run _ _ _ Hb).
Qed.

Lemma slice_bytes_run w s bs : bytes_at w s bs -> slice_bytes s w = Some (bs, w).
Proof.
  intros (arr & H & Hw). unfold slice_bytes, load_bytes, bind, load.
  by rewrite H; simpl; rewrite Hw.
Qed.

Lemma string_of_slice_run w s bs :
  bytes_at w s bs -> string_of_slice s w = Some (string_of_list_byte bs, w).
Proof.
  intros H. unfold string_of_slice, bind. by rewrite (slice_bytes_run _ _ _ H).
Qed.

Lemma vals_index_run w s vs i v :
  vals_at w s vs -> vs !! i = Some v -> vals_index s i w = Some (v, w).
Proof.
  intros (arr & H & Hw) Hi. unfold vals_index, load_vals, bind, load.
  by rewrite H; simpl; rewrite Hw; simpl; rewrite Hi.
Qed.

(** *** Runs of [big.NewInt(0).Sub] and [big.NewInt(0).Div] *)

Lemma bind_run {A B} (m : M A) (f : A -> M B) w a w' :
  m w = Some (a, w') -> bind m f w = f a w'.
Proof. intros H. unfold bind. by rewrite H. Qed.

Lemma int_at_alloc w p v c :
  int_at w p v -> int_at (set_heap (w_heap w ++ [c]) w) p v.
Proof.
  intros (l & -> & H). exists l. split; [done|]. simpl.
  rewrite lookup_app_l; [done | by eapply lookup_lt_Some].
Qed.

Lemma int_at_new w v :
  int_at (set_heap (w_heap w ++ [CInt v]) w) (Some (length (w_heap w))) v.
Proof.
  eexists. split; [done|]. simpl. by rewrite lookup_app_r, Nat.sub_diag.
Qed.

Lemma insert_new_cell (h : list cell) (c c' : cell) :
  <[length h := c']> (h ++ [c]) = h ++ [c'].
Proof.
  rewrite insert_app_r_alt by done. by rewrite Nat.sub_diag.
Qed.

Lemma new_Sub_run w x y a b :
  int_at w x a -> int_at w y b ->
  (z <- big_NewInt 0 ;; big_Sub z x y) w =
  Some (Some (length (w_heap w)), set_heap (w_heap w ++ [CInt (a - b)]) w).
Proof.
  intros Ha Hb. unfold big_NewInt, alloc, big_Sub, big_set, store, bind, ret.
  rewrite (big_get_run _ _ _ (int_at_alloc _ _ _ (CInt 0) Ha)).
  rewrite (big_get_run _ _ _ (int_at_alloc _ _ _ (CInt 0) Hb)).
  simpl. rewrite decide_True by (rewrite length_app; simpl; lia).
  by rewrite insert_new_cell.
Qed.

Lemma new_Div_run w x y a b :
  int_at w x a -> int_at w y b -> b <> 0 ->
  (z <- big_NewInt 0 ;; big_Div z x y) w =
  Some (Some (length (w_heap w)), set_heap (w_heap w ++ [CInt (euclid_div a b)]) w).
Proof.
  intros Ha Hb Hne. unfold big_NewInt, alloc, big_Div, big_set, store, bind, ret.
  rewrite (big_get_run _ _ _ (int_at_alloc _ _ _ (CInt 0) Ha)).
  rewrite (big_get_run _ _ _ (int_at_alloc _ _ _ (CInt 0) Hb)).
  destruct (Z.eqb_spec b 0) as [|_]; [done|].
  simpl. rewrite decide_True by (rewrite length_app; simpl; lia).
  by rewrite insert_new_cell.
Qed.

Lemma bind_assoc_run {A B C} (m : M A) (f : A -> M B) (g : B -> M C) w :
  bind m (fun a => bind (f a) g) w = bind (bind m f) g w.
Proof. unfold bind. by destruct (m w) as [[a w']|]. Qed.

Lemma euclid_div_pos a b : 0 < b -> euclid_div a b = a / b.
Proof. intros Hb. unfold euclid_div. by destruct (Z.ltb_spec 0 b); [|lia]. Qed.

(** Euclidean division: the remainder lies in [0, |b|). *)
Lemma euclid_div_spec a b :
  b <> 0 -> 0 <= a - b * euclid_div a b < Z.abs b.
Proof.
  intros Hb. unfold euclid_div. destruct (Z.ltb_spec 0 b).
  - pose proof (Z.mod_pos_bound a b ltac:(lia)). rewrite Z.mod_eq in * by lia. lia.
  - pose proof (Z.mod_pos_bound a (- b) ltac:(lia)). rewrite Z.mod_eq in * by lia. lia.
Qed.

Lemma field_run {A} (f : ownerData -> A) w p o :
  owner_at w p o -> field f p w = Some (f o, w).
Proof. intros (l & -> & H). unfold field, bind, load. by rewrite H. Qed.

Lemma tframe_bind_run {A B} n (m : M A) (f : A -> M B) w a (Q : B -> world -> Prop) :
  m w = Some (a, w) -> tframe n (f a) w Q -> tframe n (bind m f) w Q.
Proof.
  intros Hm Hf. eapply (tframe_bind _ _ _ _ (fun a' w' => a' = a /\ w' = w)).
  - by eapply tframe_run.
  - by intros ? ? _ [-> ->].
Qed.

(** *** Slices of bytes: sub-slices, allocation and [append] *)

Lemma bytes_at_slice_to w s bs k :
  bytes_at w s bs -> (k <= s_len s)%nat ->
  bytes_at w {| s_arr := s_arr s; s_off := s_off s; s_len := k; s_cap := s_cap s |}
    (take k bs).
Proof.
  intros (arr & H & (H1 & H2 & ->)%window_Some) Hk. exists arr. split; [done|].
  apply window_Some; simpl. split_and!; [done | lia |].
  rewrite take_take. f_equal. lia.
Qed.

Lemma bytes_at_slice_from w s bs k :
  bytes_at w s bs -> (k <= s_len s)%nat ->
  bytes_at w {| s_arr := s_arr s; s_off := s_off s + k; s_len := s_len s - k;
                s_cap := s_cap s - k |}
    (drop k bs).
Proof.
  intros (arr & H & (H1 & H2 & ->)%window_Some) Hk. exists arr. split; [done|].
  apply window_Some; simpl. split_and!; [lia | lia |].
  rewrite skipn_firstn_comm, drop_drop. done.
Qed.

Lemma list_inserts_take_drop {A} (i : nat) (k l : list A) :
  (i + length k <= length l)%nat ->
  list_inserts i k l = take i l ++ k ++ drop (i + length k) l.
Proof.
  intros Hl.
  rewrite <- (take_drop i l) at 1.
  assert (length (take i l) = i) as Hi by (rewrite length_take; lia).
  rewrite <- (Nat.add_0_r i) at 1. rewrite <- Hi at 1.
  rewrite list_inserts_app_r. f_equal.
  rewrite <- (take_drop (length k) (drop i l)) at 1.
  rewrite list_inserts_0_r, drop_drop; [done|].
  rewrite length_take, length_drop. lia.
Qed.

Lemma window_append {A} (s : slice) (arr xs ys : list A) :
  window s arr = Some ys -> (s_len s + length xs <= s_cap s)%nat ->
  window {| s_arr := s_arr s; s_off := s_off s; s_len := s_len s + length xs;
            s_cap := s_cap s |}
    (list_inserts (s_off s + s_len s) xs arr) = Some (ys ++ xs).
Proof.
  intros (H1 & H2 & ->)%window_Some Hn. apply window_Some; simpl.
  rewrite length_inserts. split_and!; [done | done |].
  rewrite list_inserts_take_drop by lia.
  rewrite drop_app_le by (rewrite length_take; lia).
  rewrite skipn_firstn_comm.
  replace (s_off s + s_len s - s_off s)%nat with (s_len s) by lia.
  rewrite take_app_add'; [|rewrite length_take, length_drop; lia].
  by rewrite take_app_length.
Qed.

Lemma tframe_make_bytes_0 n w :
  tframe n make_bytes_0 w (fun d w' => fresh_slice n d /\ bytes_at w' d []).
Proof.
  intros Hn. unfold make_bytes_0. apply twp_bind, twp_alloc, twp_ret.
  split_and!.
  - split; simpl; try done; [by rewrite take_app_le | rewrite length_app; lia].
  - done.
  - done.
  - exists []. simpl. split; [|done].
    by rewrite lookup_app_r, Nat.sub_diag.
Qed.

Lemma tframe_bytes_of_string n w str :
  tframe n (bytes_of_string str) w
    (fun d w' => fresh_slice n d /\ bytes_at w' d (list_byte_of_string str) /\
                 stable (length (w_heap w)) w w').
Proof.
  intros Hn. unfold bytes_of_string. apply twp_bind, twp_alloc, twp_ret.
  assert (forall k, (k <= length (w_heap w))%nat ->
            stable k w (set_heap (w_heap w ++ [CBytes (list_byte_of_string str)]) w)) as S.
  { intros k Hk. split; simpl; try done; [by rewrite take_app_le | rewrite length_app; lia]. }
  split_and!; [by apply S | done | done | | by apply S].
  exists (list_byte_of_string str). simpl. split.
  - by rewrite lookup_app_r, Nat.sub_diag.
  - apply window_Some; simpl. split_and!; [done | done |].
    by rewrite drop_0, firstn_all.
Qed.

Lemma tframe_append_bytes grow n w d ys xs :
  fresh_slice n d -> bytes_at w d ys ->
  tframe n (append_bytes grow d xs) w
    (fun d' w' => fresh_slice n d' /\ bytes_at w' d' (ys ++ xs)).
Proof.
  intros Hd Hys. apply tframe_frames; [by apply frames_append_bytes|].
  pose proof (slice_bytes_run _ _ _ Hys) as Hrun.
  destruct Hys as (arr & Harr & Hw).
  unfold append_bytes. case_decide as Hcap.
  - apply twp_bind. eapply twp_run.
    { unfold load_bytes, bind, load. by rewrite Harr. }
    apply twp_bind, twp_store; [by eapply lookup_lt_Some|]. apply twp_ret.
    exists (list_inserts (s_off d + s_len d) xs arr). simpl. split.
    + apply list_lookup_insert_eq. by eapply lookup_lt_Some.
    + by apply window_append.
  - apply twp_bind. eapply twp_run; [done|].
    apply twp_bind, twp_alloc, twp_ret.
    eexists. simpl. split.
    + by rewrite lookup_app_r, Nat.sub_diag.
    + apply window_Some; simpl.
      pose proof (window_length _ _ _ Hw) as Hlen.
      rewrite !length_app, length_replicate. split_and!; [lia | lia |].
      rewrite drop_0, app_assoc.
      rewrite take_app_length'; [done|]. rewrite length_app. lia.
Qed.

Lemma tframe_append_slice grow n w d t ys xs :
  fresh_slice n d -> bytes_at w d ys -> bytes_at w t xs ->
  tframe n (append_slice grow d t) w
    (fun d' w' => fresh_slice n d' /\ bytes_at w' d' (ys ++ xs)).
Proof.
  intros Hd Hys Hxs. unfold append_slice.
  eapply (tframe_bind _ _ _ _ (fun a w' => a = xs /\ w' = w)).
  - by eapply tframe_run; [apply slice_bytes_run|].
  - intros a w' _ [-> ->]. by apply tframe_append_bytes.
Qed.

(** *** Independence of the logger's level *)

Lemma lvl_indep_ret {A} (a : A) : lvl_indep (ret a).
Proof. by intros lvl w. Qed.

Lemma lvl_indep_panic {A} : lvl_indep (@panic A).
Proof. by intros lvl w. Qed.

Lemma lvl_indep_bind {A B} (m : M A) (f : A -> M B) :
  lvl_indep m -> (forall a, lvl_indep (f a)) -> lvl_indep (bind m f).
Proof.
  intros Hm Hf lvl w. unfold bind. rewrite (Hm lvl w).
  destruct (m w) as [[a w']|]; simpl; [apply Hf | done].
Qed.

Lemma lvl_indep_alloc c : lvl_indep (alloc c).
Proof. by intros lvl w. Qed.

Lemma lvl_indep_load l : lvl_indep (load l).
Proof. intros lvl w. unfold load. simpl. by destruct (w_heap w !! l). Qed.

Lemma lvl_indep_store l c : lvl_indep (store l c).
Proof. intros lvl w. unfold store. simpl. by case_decide. Qed.

Lemma lvl_indep_log_call sev msg args : lvl_indep (log_call sev msg args).
Proof. by intros lvl w. Qed.

Lemma lvl_indep_lift_option {A} (o : option A) : lvl_indep (lift_option o).
Proof. destruct o; [apply lvl_indep_ret | apply lvl_indep_panic]. Qed.

Lemma lvl_indep_foldM {A S} (body : A -> S -> M S) l acc :
  (forall x acc, lvl_indep (body x acc)) -> lvl_indep (foldM body l acc).
Proof.
  intros Hbody. revert acc. induction l as [|x l IH]; intros acc; simpl.
  - apply lvl_indep_ret.
  - by apply lvl_indep_bind.
Qed.

Create HintDb lvl discriminated.

#[export] Hint Resolve lvl_indep_ret lvl_indep_panic lvl_indep_alloc lvl_indep_load
  lvl_indep_store lvl_indep_log_call lvl_indep_lift_option : lvl.

(** Walks through a computation built from binds, branches and loops,
    leaving its calls to the lemmas of the database. *)
Ltac lvl_walk :=
  repeat first
    [ solve [eauto with lvl]
    | lazymatch goal with
      | |- lvl_indep (bind _ _) => apply lvl_indep_bind; [|intros ?]
      | |- lvl_indep (foldM _ _ _) => apply lvl_indep_foldM; intros ? ?; cbv beta
      | |- lvl_indep (match ?x with _ => _ end) => destruct x
      | |- lvl_indep ((match ?x with _ => _ end) _) => destruct x
      end ].

Lemma lvl_indep_big_get p : lvl_indep (big_get p).
Proof. unfold big_get. lvl_walk. Qed.

Lemma lvl_indep_big_set p v : lvl_indep (big_set p v).
Proof. unfold big_set. lvl_walk. Qed.

Lemma lvl_indep_big_NewInt v : lvl_indep (big_NewInt v).
Proof. unfold big_NewInt. lvl_walk. Qed.

#[export] Hint Resolve lvl_indep_big_get lvl_indep_big_set lvl_indep_big_NewInt : lvl.

Lemma lvl_indep_big_Sub z x y : lvl_indep (big_Sub z x y).
Proof. unfold big_Sub. lvl_walk. Qed.

Lemma lvl_indep_big_Div z x y : lvl_indep (big_Div z x y).
Proof. unfold big_Div. lvl_walk. Qed.

Lemma lvl_indep_big_Cmp x y : lvl_indep (big_Cmp x y).
Proof. unfold big_Cmp. lvl_walk. Qed.

Lemma lvl_indep_big_String x : lvl_indep (big_String x).
Proof. unfold big_String. lvl_walk. Qed.

Lemma lvl_indep_load_bytes l : lvl_indep (load_bytes l).
Proof. unfold load_bytes. lvl_walk. Qed.

Lemma lvl_indep_load_vals l : lvl_indep (load_vals l).
Proof. unfold load_vals. lvl_walk. Qed.

#[export] Hint Resolve lvl_indep_big_Sub lvl_indep_big_Div lvl_indep_big_Cmp
  lvl_indep_big_String lvl_indep_load_bytes lvl_indep_load_vals : lvl.

Lemma lvl_indep_slice_bytes s : lvl_indep (slice_bytes s).
Proof. unfold slice_bytes. lvl_walk. Qed.

Lemma lvl_indep_vals_index s i : lvl_indep (vals_index s i).
Proof. unfold vals_index. lvl_walk. Qed.

Lemma lvl_indep_slice_to s k : lvl_indep (slice_to s k).
Proof. unfold slice_to. lvl_walk. Qed.

Lemma lvl_indep_slice_from s k : lvl_indep (slice_from s k).
Proof. unfold slice_from. lvl_walk. Qed.

Lemma lvl_indep_make_bytes_0 : lvl_indep make_bytes_0.
Proof. unfold make_bytes_0. lvl_walk. Qed.

Lemma lvl_indep_bytes_of_string str : lvl_indep (bytes_of_string str).
Proof. unfold bytes_of_string. lvl_walk. Qed.

#[export] Hint Resolve lvl_indep_slice_bytes lvl_indep_vals_index lvl_indep_slice_to
  lvl_indep_slice_from lvl_indep_make_bytes_0 lvl_indep_bytes_of_string : lvl.

Lemma lvl_indep_string_of_slice s : lvl_indep (string_of_slice s).
Proof. unfold string_of_slice. lvl_walk. Qed.

Lemma lvl_indep_append_bytes grow s xs : lvl_indep (append_bytes grow s xs).
Proof. unfold append_bytes. lvl_walk. Qed.

#[export] Hint Resolve lvl_indep_string_of_slice lvl_indep_append_bytes : lvl.

Lemma lvl_indep_append_slice grow s t : lvl_indep (append_slice grow s t).
Proof. unfold append_slice. lvl_walk. Qed.

Lemma lvl_indep_field {A} (f : ownerData -> A) owner : lvl_indep (field f owner).
Proof. unfold field. lvl_walk. Qed.

#[export] Hint Resolve lvl_indep_append_slice lvl_indep_field : lvl.

(** ** The order of public keys *)

Lemma bytes_leb_total a b : bytes_leb a b = true \/ bytes_leb b a = true.
Proof.
  revert b. induction a as [|x a IH]; intros [|y b]; simpl; auto.
  destruct (N.ltb_spec (Byte.to_N x) (Byte.to_N y)); [auto|].
  destruct (N.ltb_spec (Byte.to_N y) (Byte.to_N x)); [auto|].
  assert (Byte.to_N x = Byte.to_N y) as Heq by lia.
  rewrite Heq, N.eqb_refl. apply IH.
Qed.

Lemma bytes_leb_trans a b c :
  bytes_leb a b = true -> bytes_leb b c = true -> bytes_leb a c = true.
Proof.
  revert b c. induction a as [|x a IH]; intros [|y b] [|z c]; simpl; try done.
  destruct (N.ltb_spec (Byte.to_N x) (Byte.to_N y)) as [Hxy|Hxy];
    destruct (N.ltb_spec (Byte.to_N y) (Byte.to_N z)) as [Hyz|Hyz];
    destruct (N.ltb_spec (Byte.to_N x) (Byte.to_N z)) as [Hxz|Hxz];
    try done; try lia;
    destruct (N.eqb_spec (Byte.to_N x) (Byte.to_N y)) as [Exy|Exy];
    destruct (N.eqb_spec (Byte.to_N y) (Byte.to_N z)) as [Eyz|Eyz];
    destruct (N.eqb_spec (Byte.to_N x) (Byte.to_N z)) as [Exz|Exz];
    try done; try lia.
  apply IH.
Qed.

#[export] Instance pubKey_le_total : Total pubKey_le.
Proof. intros a b. apply bytes_leb_total. Qed.

#[export] Instance pubKey_le_trans : Transitive pubKey_le.
Proof. intros a b c. apply bytes_leb_trans. Qed.

#[export] Instance keyed_le_total : Total keyed_le.
Proof. intros a b. apply bytes_leb_total. Qed.

#[export] Instance keyed_le_trans : Transitive keyed_le.
Proof. intros a b c. apply bytes_leb_trans. Qed.

(** The first [k] keys of a list in ascending order are the [k] smallest
    of any arrangement of its keys. *)
Lemma take_sorted_smallest (keys ordered : list (list byte)) (k : nat) :
  Sorted pubKey_le ordered -> ordered ≡ₚ keys -> (k <= length keys)%nat ->
  smallest_keys k keys (take k ordered).
Proof.
  intros Hsorted Hperm Hk. split_and!.
  - rewrite length_take, Hperm. lia.
  - apply (Sorted_StronglySorted pubKey_le) in Hsorted.
    rewrite <- (take_drop k ordered) in Hsorted.
    apply StronglySorted_app_1_l in Hsorted. by apply StronglySorted_Sorted.
  - exists (drop k ordered). split; [by rewrite take_drop|].
    intros p r Hp Hr.
    apply (Sorted_StronglySorted pubKey_le) in Hsorted.
    rewrite <- (take_drop k ordered) in Hsorted.
    by eapply StronglySorted_app_1_elem_of.
Qed.

(** ** The audit projection *)

Section DisplayProperties.

Variable growslice_cap : nat -> nat -> nat.
Variable CreateTableString : list string -> list LineData -> string + string.
Variable GetBlsKeyOwner : list byte -> string + string.

(** *** [getShortKey] *)

Lemma frames_getShortKey n pubKey :
  frames n (getShortKey growslice_cap pubKey) (fun _ => True).
Proof.
  unfold getShortKey.
  eapply frames_bind with (P := fun _ => True); [|intros; apply frames_string_of_slice].
  case_decide; [|by apply frames_ret].
  eapply frames_bind; [apply frames_make_bytes_0|]. intros d0 F0.
  eapply frames_bind; [apply frames_slice_to|]. intros head _.
  eapply frames_bind; [by apply frames_append_slice|]. intros d1 F1.
  eapply frames_bind; [apply frames_bytes_of_string|]. intros dots _.
  eapply frames_bind; [by apply frames_append_slice|]. intros d2 F2.
  eapply frames_bind; [apply frames_slice_from|]. intros tail _.
  eapply frames_mono; [by apply frames_append_slice | done].
Qed.

Lemma tframe_getShortKey n w pubKey bs :
  (s_arr pubKey < n)%nat -> bytes_at w pubKey bs ->
  tframe n (getShortKey growslice_cap pubKey) w
    (fun str _ => str = string_of_list_byte (shortKey bs)).
Proof.
  intros Hlt Hpk. unfold getShortKey, shortKey.
  pose proof (bytes_at_length _ _ _ Hpk) as Hlen. rewrite Hlen.
  eapply (tframe_bind _ _ _ _
            (fun d w' => bytes_at w' d
               (if decide (maxPubKeyDisplayableLen < s_len pubKey)%nat
                then take 10 bs ++ list_byte_of_string "..." ++ drop (s_len pubKey - 10) bs
                else bs))).
  2: { intros d w' _ Hd. eapply tframe_run; [by apply string_of_slice_run | done]. }
  case_decide as Hlong; [|by apply tframe_ret].
  unfold maxPubKeyDisplayableLen in *.
  change (20 / 2)%nat with 10%nat.
  eapply tframe_bind; [apply tframe_make_bytes_0|]. intros d0 w1 S1 [F0 B0].
  pose proof (bytes_at_stable _ _ _ _ _ S1 Hlt Hpk) as Hpk1.
  assert (10 <= s_cap pubKey)%nat as Hcap.
  { destruct Hpk as (arr & _ & (? & ? & _)%window_Some). lia. }
  unfold slice_to. rewrite decide_True by done.
  apply tframe_bind_ret.
  eapply tframe_bind.
  { apply (tframe_append_slice _ _ _ _ _ [] (take 10 bs)); [done | done |].
    apply bytes_at_slice_to; [done | lia]. }
  intros d1 w2 S2 [F1 B1].
  pose proof (bytes_at_stable _ _ _ _ _ S2 Hlt Hpk1) as Hpk2.
  eapply tframe_bind; [apply tframe_bytes_of_string|].
  intros dots w3 S3 (Fd & Bd & S3').
  pose proof (bytes_at_stable _ _ _ _ _ S3 Hlt Hpk2) as Hpk3.
  pose proof (bytes_at_stable _ _ _ _ _ S3' (bytes_at_lt _ _ _ B1) B1) as B1'.
  eapply tframe_bind; [by eapply tframe_append_slice|].
  intros d2 w4 S4 [F2 B2].
  pose proof (bytes_at_stable _ _ _ _ _ S4 Hlt Hpk3) as Hpk4.
  unfold slice_from. rewrite decide_True by lia.
  apply tframe_bind_ret.
  eapply tframe_mono.
  { eapply tframe_append_slice; [done | done |].
    apply bytes_at_slice_from; [done | lia]. }
  intros d3 w5 _ [_ B3]. simpl in B3. by rewrite <- !app_assoc in B3.
Qed.

(** C8.  On a key of at most 20 bytes [getShortKey] returns the key in
    full; on a longer one it returns the first 10 bytes, three dots and
    the last 10 bytes (23 bytes in all).  Either way the key's own bytes
    are the same after the call, as is every cell the heap had before
    it: the shortened text is built in fresh arrays. *)
Theorem getShortKey_spec (w : world) (pubKey : slice) (bs : list byte) :
  bytes_at w pubKey bs ->
  exists str w',
    getShortKey growslice_cap pubKey w = Some (str, w') /\
    ((length bs <= 20)%nat -> str = string_of_list_byte bs) /\
    ((20 < length bs)%nat ->
       str = string_of_list_byte
               (take 10 bs ++ list_byte_of_string "..." ++ drop (length bs - 10) bs) /\
       length (list_byte_of_string str) = 23%nat) /\
    bytes_at w' pubKey bs /\
    w_heap w `prefix_of` w_heap w'.
Proof.
  intros Hpk.
  destruct (tframe_getShortKey (length (w_heap w)) w pubKey bs) as (str & w' & Hrun & St & Hlog & ->);
    [by eapply bytes_at_lt | done | done |].
  exists (string_of_list_byte (shortKey bs)), w'. unfold shortKey, maxPubKeyDisplayableLen.
  split_and!.
  - done.
  - intros Hle. by rewrite decide_False by lia.
  - intros Hlt. rewrite decide_True by lia. split; [done|].
    rewrite list_byte_of_string_of_list_byte, !length_app, length_take, length_drop.
    change (length (list_byte_of_string "...")) with 3%nat. lia.
  - eapply bytes_at_stable; [done | by eapply bytes_at_lt | done].
  - by apply stable_prefix.
Qed.

(** *** [displayMinRequiredTopUp] *)

Lemma displayMinRequiredTopUp_run w topUp min step (t m s : Z) :
  int_at w topUp t -> int_at w min m -> int_at w step s -> s <> 0 ->
  exists w',
    displayMinRequiredTopUp topUp min step w = Some (tt, w') /\
    w_log w' =
      w_log w ++
      [LogCall LogInfo "auctionListSelector: found min required"
         [("topUp"%string, Z_String (if t =? m then t else t - s));
          ("after num of iterations"%string,
           Z_String (euclid_div ((if t =? m then t else t - s) - m) s))]] /\
    w_heap w `prefix_of` w_heap w' /\
    w_level w' = w_level w.
Proof.
  intros Ht Hm Hs Hne. unfold displayMinRequiredTopUp.
  rewrite (bind_run _ _ _ _ _ (big_Cmp_run _ _ _ _ _ Ht Hm)).
  assert (exists topUp' w1,
    (if negb ((match t ?= m with Lt => -1 | Eq => 0 | Gt => 1 end) =? 0)
     then z <- big_NewInt 0 ;; big_Sub z topUp step else ret topUp) w = Some (topUp', w1) /\
    int_at w1 topUp' (if t =? m then t else t - s) /\
    int_at w1 min m /\ int_at w1 step s /\
    w_heap w `prefix_of` w_heap w1 /\ w_log w1 = w_log w /\ w_level w1 = w_level w)
    as (topUp' & w1 & Hrun & Ht' & Hm1 & Hs1 & Hpre1 & Hlog1 & Hlvl1).
  { destruct (Z.compare_spec t m) as [->|Hlt|Hgt]; simpl.
    - rewrite Z.eqb_refl. by exists topUp, w.
    - rewrite (proj2 (Z.eqb_neq t m)) by lia.
      eexists _, _. split; [by apply new_Sub_run|].
      split_and!; try done; try by apply int_at_alloc.
      + apply int_at_new.
      + by apply prefix_app_r.
    - rewrite (proj2 (Z.eqb_neq t m)) by lia.
      eexists _, _. split; [by apply new_Sub_run|].
      split_and!; try done; try by apply int_at_alloc.
      + apply int_at_new.
      + by apply prefix_app_r. }
  rewrite (bind_run _ _ _ _ _ Hrun).
  rewrite bind_assoc_run.
  rewrite (bind_run _ _ _ _ _ (new_Sub_run _ _ _ _ _ Ht' Hm1)).
  rewrite bind_assoc_run.
  erewrite bind_run;
    [|apply new_Div_run; [apply int_at_new | by apply int_at_alloc | done]].
  erewrite bind_run; [|by apply big_String_run, int_at_alloc, int_at_alloc].
  erewrite bind_run; [|apply big_String_run, int_at_new].
  eexists. split; [reflexivity|]. simpl. split_and!.
  - by rewrite Hlog1.
  - etrans; [done|]. by apply prefix_app_r, prefix_app_r.
  - done.
Qed.

(** C4, as the code has it.  [displayMinRequiredTopUp] is given the
    top-up the search stopped at, the minimum it started from and the
    step; it is not given a maximum and does not count down from one.
    With a positive step it reports the top-up [shown], which is [topUp]
    itself when that equals [min] and one step below [topUp] otherwise,
    and the count [(shown - min) / step].  For a search that starts at
    [min] and goes up by exactly one step per iteration to
    [topUp = min + k * step], the reported count is [k - 1] and the
    reported top-up [min + (k - 1) * step] when [k >= 1]; for [k = 0],
    where [topUp = min], the reported count is 0 and the reported top-up
    is [min]. *)
Theorem displayMinRequiredTopUp_reports w topUp min step (t m s : Z) :
  int_at w topUp t -> int_at w min m -> int_at w step s -> 0 < s ->
  let shown := if t =? m then t else t - s in
  (exists w',
     displayMinRequiredTopUp topUp min step w = Some (tt, w') /\
     w_log w' =
       w_log w ++
       [LogCall LogInfo "auctionListSelector: found min required"
          [("topUp"%string, Z_String shown);
           ("after num of iterations"%string, Z_String ((shown - m) / s))]]) /\
  (forall k, 0 <= k -> t = m + k * s ->
     shown = m + Z.max 0 (k - 1) * s /\ (shown - m) / s = Z.max 0 (k - 1)).
Proof.
  intros Ht Hm Hs Hpos shown. split.
  - destruct (displayMinRequiredTopUp_run w topUp min step t m s)
      as (w' & Hrun & Hlog & _); [done | done | done | lia |].
    exists w'. split; [done|]. rewrite Hlog. subst shown.
    by rewrite euclid_div_pos.
  - intros k Hk ->. subst shown.
    destruct (Z.eqb_spec (m + k * s) m) as [Heq|Hne].
    + assert (k = 0) as -> by nia.
      replace (m + 0 * s - m) with 0 by lia. by rewrite Z.div_0_l by lia.
    + assert (1 <= k) by (destruct (decide (k = 0)) as [->|]; [lia | lia]).
      rewrite Z.max_r by lia.
      replace (m + k * s - s - m) with ((k - 1) * s) by lia.
      rewrite Z.div_mul by lia. lia.
Qed.

(** *** [getShortDisplayableBlsKeys] *)

Lemma string_app_nil_r (s : string) : (s ++ "")%string = s.
Proof.
  induction s as [|c s IH]; [done|].
  change (String c (s ++ "") = String c s). by rewrite IH.
Qed.

Lemma string_app_assoc (s1 s2 s3 : string) :
  ((s1 ++ s2) ++ s3)%string = (s1 ++ s2 ++ s3)%string.
Proof.
  induction s1 as [|c s1 IH]; [done|].
  change (String c ((s1 ++ s2) ++ s3) = String c (s1 ++ s2 ++ s3)). by rewrite IH.
Qed.

Lemma joinKeys_cons (key : string) (rest : list string) :
  joinKeys (key :: rest) =
  (key ++ (if decide (rest = []) then "" else ", ") ++ joinKeys rest)%string.
Proof.
  destruct rest as [|r rest].
  - rewrite decide_True by done. simpl. by rewrite string_app_nil_r.
  - by rewrite decide_False.
Qed.

Lemma tframe_getShortDisplayableBlsKeys w0 w list keys :
  stable (length (w_heap w0)) w0 w -> keys_at w0 list keys ->
  tframe (length (w_heap w0)) (getShortDisplayableBlsKeys growslice_cap list) w
    (fun str _ => str = shortKeys keys).
Proof.
  intros S0 (vs & Hvs & Hkeys). unfold getShortDisplayableBlsKeys, shortKeys.
  set (n := length (w_heap w0)) in *.
  set (str := fun key => string_of_list_byte (shortKey key)).
  assert (length vs = s_len list) as Hlen.
  { destruct Hvs as (arr & _ & H). by eapply window_length. }
  pose proof (Forall2_length _ _ _ Hkeys) as Hlen'.
  match goal with |- tframe _ (foldM ?b _ _) _ _ => set (body := b) end.
  assert (forall k i acc w,
            (i + k = s_len list)%nat -> stable n w0 w ->
            tframe n (foldM body (seq i k) acc) w
              (fun r _ => r = (acc ++ joinKeys (map str (drop i keys)))%string)) as Hloop.
  { clear w S0. induction k as [|k IH]; intros i acc w Hik S; simpl.
    - apply tframe_ret. rewrite drop_ge by lia. simpl. by rewrite string_app_nil_r.
    - destruct (lookup_lt_is_Some_2 vs i) as [v Hv]; [lia|].
      destruct (lookup_lt_is_Some_2 keys i) as [key Hkey]; [lia|].
      pose proof (Forall2_lookup_lr _ _ _ _ _ _ Hkeys Hv Hkey) as Hbytes.
      simpl in Hbytes.
      eapply (tframe_bind _ _ _ _
                (fun r _ => r = if negb (Z.of_nat i =? Z.of_nat (s_len list) - 1)
                                then ((acc ++ str key) ++ ", ")%string
                                else (acc ++ str key)%string)).
      + unfold body at 1.
        eapply (tframe_bind _ _ _ _ (fun a w' => a = v /\ w' = w)).
        { eapply tframe_run; [|done]. eapply vals_index_run; [|done].
          eapply vals_at_stable; [done | by eapply vals_at_lt | done]. }
        intros ? ? _ [-> ->].
        eapply (tframe_bind _ _ _ _ (fun r _ => r = str key)).
        { apply tframe_getShortKey; [by eapply bytes_at_lt|].
          eapply bytes_at_stable; [done | by eapply bytes_at_lt | done]. }
        intros ? w' S' ->. by apply tframe_ret.
      + intros acc' w' S' ->.
        eapply tframe_mono; [apply IH; [lia | by eapply stable_trans]|].
        intros r w'' _ ->.
        rewrite (drop_S _ _ _ Hkey). simpl map. rewrite joinKeys_cons.
        destruct (Z.eqb_spec (Z.of_nat i) (Z.of_nat (s_len list) - 1)) as [Hi|Hi]; simpl.
        * rewrite (drop_ge keys) by lia. simpl.
          by rewrite !string_app_nil_r.
        * rewrite decide_False.
          { by rewrite !string_app_assoc. }
          intros Hnil%(f_equal length). rewrite length_map, length_drop in Hnil.
          simpl in Hnil. lia. }
  eapply tframe_mono; [apply Hloop; [lia | done]|].
  intros r w' _ ->. by rewrite drop_0.
Qed.

(** *** Frames of the display functions *)

Lemma frames_field {A} n (f : ownerData -> A) owner :
  frames n (field f owner) (fun _ => True).
Proof. unfold field. frames_auto. Qed.

Lemma displayTable_run tableHeader lines message w :
  displayTable CreateTableString tableHeader lines message w =
  Some (tt, {| w_heap := w_heap w;
               w_log := w_log w ++ [table_call CreateTableString tableHeader lines message];
               w_level := w_level w |}).
Proof.
  unfold displayTable, table_call.
  by destruct (CreateTableString tableHeader lines).
Qed.

Lemma frames_displayTable n tableHeader lines message :
  frames_logging n (displayTable CreateTableString tableHeader lines message)
    (fun _ calls => calls = [table_call CreateTableString tableHeader lines message]).
Proof.
  unfold displayTable, table_call, log_Info, log_Error.
  destruct (CreateTableString tableHeader lines); apply frames_logging_call.
Qed.

Lemma frames_getShortDisplayableBlsKeys n list :
  frames n (getShortDisplayableBlsKeys growslice_cap list) (fun _ => True).
Proof.
  unfold getShortDisplayableBlsKeys. apply frames_foldM; [done|].
  intros idx pubKeys _.
  eapply frames_bind; [apply frames_vals_index|]. intros validator _.
  eapply frames_bind; [apply frames_getShortKey|]. intros key _.
  by apply frames_ret.
Qed.

Lemma frames_displayMinRequiredTopUp n topUp min step :
  frames_logging n (displayMinRequiredTopUp topUp min step)
    (fun _ calls => exists shown iterations,
       calls = [LogCall LogInfo "auctionListSelector: found min required"
                  [("topUp"%string, shown);
                   ("after num of iterations"%string, iterations)]]).
Proof.
  unfold displayMinRequiredTopUp, log_Info.
  eapply frames_logging_after; [apply frames_big_Cmp|]. intros c _.
  eapply frames_logging_after with (P := fun _ => True).
  { destruct (negb (c =? 0)); [|by apply frames_ret].
    eapply frames_bind; [apply frames_big_NewInt|]. intros z Hz.
    eapply frames_mono; [by apply frames_big_Sub | done]. }
  intros topUp' _.
  eapply frames_logging_after; [apply frames_big_NewInt|]. intros z1 Hz1.
  eapply frames_logging_after; [by apply frames_big_Sub|]. intros iteratedValues _.
  eapply frames_logging_after; [apply frames_big_NewInt|]. intros z2 Hz2.
  eapply frames_logging_after; [by apply frames_big_Div|]. intros iterations _.
  eapply frames_logging_after; [apply frames_big_String|]. intros s1 _.
  eapply frames_logging_after; [apply frames_big_String|]. intros s2 _.
  eapply frames_logging_mono; [apply frames_logging_call|].
  intros _ calls ->. by eexists _, _.
Qed.

Lemma frames_displayOwnersData n ownersData :
  frames_logging n (displayOwnersData growslice_cap CreateTableString ownersData)
    (fun _ calls => exists tableHeader lines message,
       calls = [table_call CreateTableString tableHeader lines message]).
Proof.
  unfold displayOwnersData.
  eapply frames_logging_after with (P := fun _ => True).
  2: { intros lines _. eapply frames_logging_mono; [apply frames_displayTable|].
       intros _ calls ->. by eexists _, _, _. }
  apply frames_foldM; [done|]. intros [ownerPubKey owner] lines _.
  repeat (eapply frames_bind;
          [ first [ apply frames_field | apply frames_big_String
                  | apply frames_getShortDisplayableBlsKeys ] | intros ? _ ]).
  by apply frames_ret.
Qed.

Lemma frames_displayOwnersSelectedNodes n ownersData :
  frames_logging n (displayOwnersSelectedNodes growslice_cap CreateTableString ownersData)
    (fun _ calls => exists tableHeader lines message,
       calls = [table_call CreateTableString tableHeader lines message]).
Proof.
  unfold displayOwnersSelectedNodes.
  eapply frames_logging_after with (P := fun _ => True).
  2: { intros lines _. eapply frames_logging_mono; [apply frames_displayTable|].
       intros _ calls ->. by eexists _, _, _. }
  apply frames_foldM; [done|]. intros [ownerPubKey owner] lines _.
  repeat (eapply frames_bind;
          [ first [ apply frames_field | apply frames_big_String | apply frames_slice_to
                  | apply frames_getShortDisplayableBlsKeys ] | intros ? _ ]).
  by apply frames_ret.
Qed.

Lemma frames_displayAuctionList n auctionList ownersData numOfSelectedNodes :
  frames_logging n
    (displayAuctionList CreateTableString GetBlsKeyOwner auctionList ownersData
       numOfSelectedNodes)
    (fun _ calls => exists errors tableHeader lines message,
       calls = errors ++ [table_call CreateTableString tableHeader lines message] /\
       Forall (fun call => lc_severity call = LogError) errors).
Proof.
  unfold displayAuctionList.
  eapply frames_logging_bind.
  { apply (frames_logging_foldM _ _ (Forall (fun call => lc_severity call = LogError)));
      [done | by intros; apply Forall_app |].
    intros idx lines.
    eapply frames_logging_after; [apply frames_vals_index|]. intros validator _.
    eapply frames_logging_after; [apply frames_slice_bytes|]. intros keyBytes _.
    destruct (GetBlsKeyOwner keyBytes) as [owner|err].
    - eapply frames_logging_mono.
      { apply frames_logging_quiet with (P := fun _ => True).
        eapply frames_bind; [apply frames_field|]. intros topUp _.
        eapply frames_bind; [apply frames_string_of_slice|]. intros sKey _.
        eapply frames_bind; [apply frames_big_String|]. intros sTopUp _.
        by apply frames_ret. }
      by intros ? ? [-> _].
    - eapply frames_logging_bind; [apply frames_logging_call|]. intros _ c1 ->.
      eapply frames_logging_mono.
      { apply frames_logging_quiet, (frames_ret _ _ (fun _ => True)). done. }
      intros ? ? [-> _]. by repeat constructor. }
  intros lines errors Herrors.
  eapply frames_logging_mono; [apply frames_displayTable|].
  intros _ calls ->. by eexists _, _, _, _.
Qed.

(** *** [displayOwnersSelectedNodes] *)

Lemma displayOwnersSelectedNodes_run w (ownersData : list (string * ptr))
    (owners : list (ownerData * ownerView)) :
  Forall2 (fun e ov => owner_view w e.2 ov.1 ov.2 /\ qualified_in_bounds ov.1)
    ownersData owners ->
  exists w',
    displayOwnersSelectedNodes growslice_cap CreateTableString ownersData w = Some (tt, w') /\
    w_log w' =
      w_log w ++
      [table_call CreateTableString selectedNodesHeader
         (zip_with (fun e ov => selectedNodesLine e.1 ov.1 ov.2) ownersData owners)
         "Selected nodes config from auction list"] /\
    stable (length (w_heap w)) w w'.
Proof.
  intros Hall. unfold displayOwnersSelectedNodes.
  set (n := length (w_heap w)).
  match goal with |- context [foldM ?b _ _] => set (body := b) end.
  assert (forall lines w1, stable n w w1 ->
            tframe n (foldM body ownersData lines) w1
              (fun r _ => r = lines ++
                 zip_with (fun e ov => selectedNodesLine e.1 ov.1 ov.2) ownersData owners))
    as Hloop.
  { induction Hall as [|[ownerPubKey owner] [o v] ownersData owners [Hview Hinv] _ IH];
      intros lines w1 St; simpl.
    - apply tframe_ret. by rewrite app_nil_r.
    - simpl in Hview, Hinv.
      destruct Hview as (Ho & Htotal & HperNode & Hqualified & Hkeys).
      destruct Hinv as [Hq Hlen].
      eapply (tframe_bind _ _ _ _
                (fun r _ => r = lines ++ [selectedNodesLine ownerPubKey o v])).
      2: { intros ? w2 St2 ->.
           eapply tframe_mono; [apply IH; by eapply stable_trans|].
           intros r ? _ ->. by rewrite <- app_assoc. }
      pose proof (owner_at_kept _ _ _ _ St Ho) as Ho1.
      eapply tframe_bind_run; [by apply field_run|].
      eapply tframe_bind_run; [by apply field_run|].
      eapply tframe_bind_run; [by eapply big_String_run, int_at_kept|].
      eapply tframe_bind_run; [by apply field_run|].
      eapply tframe_bind_run; [by eapply big_String_run, int_at_kept|].
      eapply tframe_bind_run; [by apply field_run|].
      eapply tframe_bind_run; [by apply field_run|].
      eapply tframe_bind_run; [by apply field_run|].
      eapply tframe_bind_run; [by apply field_run|].
      eapply tframe_bind_run; [by eapply big_String_run, int_at_kept|].
      eapply tframe_bind_run; [by apply field_run|].
      eapply tframe_bind_run; [by apply field_run|].
      assert (s_len (auctionList o) <= s_cap (auctionList o))%nat as Hcap.
      { destruct Hkeys as (vs & (arr & _ & (_ & ? & _)%window_Some) & _). done. }
      unfold slice_to. rewrite decide_True by lia. apply tframe_bind_ret.
      eapply (tframe_bind _ _ _ _
                (fun r _ => r = shortKeys (take (numQualifiedAuctionNodes o) (ov_keys v)))).
      { apply tframe_getShortDisplayableBlsKeys; [done|].
        apply keys_at_slice_to; [done | lia]. }
      intros ? w2 _ ->. by apply tframe_ret. }
  destruct (Hloop [] w (stable_refl _ _) ltac:(done)) as (lines & w1 & Hrun & St & Hlog & ->).
  rewrite (bind_run _ _ _ _ _ Hrun), displayTable_run.
  eexists. split; [done|]. simpl. split; [by rewrite Hlog|].
  destruct St as [? ? ? ?]. split; simpl; try done.
  rewrite Hlog. by apply prefix_app_r.
Qed.

(** *** The display functions never look at the logger's level *)

Lemma lvl_indep_getShortKey pubKey : lvl_indep (getShortKey growslice_cap pubKey).
Proof. unfold getShortKey. lvl_walk. Qed.

Lemma lvl_indep_displayTable tableHeader lines message :
  lvl_indep (displayTable CreateTableString tableHeader lines message).
Proof. unfold displayTable, log_Info, log_Error. lvl_walk. Qed.

Lemma lvl_indep_getShortDisplayableBlsKeys list :
  lvl_indep (getShortDisplayableBlsKeys growslice_cap list).
Proof.
  pose proof lvl_indep_getShortKey.
  unfold getShortDisplayableBlsKeys. lvl_walk.
Qed.

Lemma lvl_indep_displayMinRequiredTopUp topUp min step :
  lvl_indep (displayMinRequiredTopUp topUp min step).
Proof. unfold displayMinRequiredTopUp, log_Info. lvl_walk. Qed.

Lemma lvl_indep_displayOwnersData ownersData :
  lvl_indep (displayOwnersData growslice_cap CreateTableString ownersData).
Proof.
  pose proof lvl_indep_getShortDisplayableBlsKeys. pose proof lvl_indep_displayTable.
  unfold displayOwnersData. lvl_walk.
Qed.

Lemma lvl_indep_displayOwnersSelectedNodes ownersData :
  lvl_indep (displayOwnersSelectedNodes growslice_cap CreateTableString ownersData).
Proof.
  pose proof lvl_indep_getShortDisplayableBlsKeys. pose proof lvl_indep_displayTable.
  unfold displayOwnersSelectedNodes. lvl_walk.
Qed.

Lemma lvl_indep_displayAuctionList auctionList ownersData numOfSelectedNodes :
  lvl_indep (displayAuctionList CreateTableString GetBlsKeyOwner auctionList ownersData
               numOfSelectedNodes).
Proof.
  pose proof lvl_indep_displayTable.
  unfold displayAuctionList, log_Error. lvl_walk.
Qed.

(** *** What every call of the projection does and leaves alone *)

Lemma display_call_frames n m :
  display_call growslice_cap CreateTableString GetBlsKeyOwner m ->
  frames_logging n m (fun _ calls => exists earlier call, calls = earlier ++ [call]).
Proof.
  intros [topUp min step|ownersData|ownersData|auctionList ownersData numOfSelectedNodes].
  - eapply frames_logging_mono; [apply frames_displayMinRequiredTopUp|].
    intros _ calls (? & ? & ->). by eexists [], _.
  - eapply frames_logging_mono; [apply frames_displayOwnersData|].
    intros _ calls (? & ? & ? & ->). by eexists [], _.
  - eapply frames_logging_mono; [apply frames_displayOwnersSelectedNodes|].
    intros _ calls (? & ? & ? & ->). by eexists [], _.
  - eapply frames_logging_mono; [apply frames_displayAuctionList|].
    intros _ calls (errors & ? & ? & ? & -> & _). by eexists _, _.
Qed.

Lemma display_call_lvl_indep m :
  display_call growslice_cap CreateTableString GetBlsKeyOwner m -> lvl_indep m.
Proof.
  intros [topUp min step|ownersData|ownersData|auctionList ownersData numOfSelectedNodes].
  - apply lvl_indep_displayMinRequiredTopUp.
  - apply lvl_indep_displayOwnersData.
  - apply lvl_indep_displayOwnersSelectedNodes.
  - apply lvl_indep_displayAuctionList.
Qed.

(** C6.  A run of any of the four display functions that returns leaves
    every cell of the heap it was entered with as it was: each owner
    aggregate (its counts and its auction list), each stake figure, each
    array of validators and each key holds what it held before; it
    returns nothing (the unit value) and leaves the logger's level
    alone. *)
Theorem display_leaves_inputs_unchanged (m : M unit) (w w' : world) (u : unit) :
  display_call growslice_cap CreateTableString GetBlsKeyOwner m ->
  m w = Some (u, w') ->
  u = tt /\
  w_heap w `prefix_of` w_heap w' /\
  w_level w' = w_level w /\
  (forall owner o, owner_at w owner o -> owner_at w' owner o) /\
  (forall p z, int_at w p z -> int_at w' p z) /\
  (forall s vs, vals_at w s vs -> vals_at w' s vs) /\
  (forall s bs, bytes_at w s bs -> bytes_at w' s bs) /\
  (forall owner o v, owner_view w owner o v -> owner_view w' owner o v).
Proof.
  intros Hm Hrun.
  destruct (display_call_frames (length (w_heap w)) m Hm w ltac:(done) u w' Hrun)
    as (St & _).
  split_and!.
  - by destruct u.
  - by apply stable_prefix.
  - by destruct St.
  - intros owner o. by apply owner_at_kept.
  - intros p z. by apply int_at_kept.
  - intros s vs. by apply vals_at_kept.
  - intros s bs. by apply bytes_at_kept.
  - intros owner o v (? & ? & ? & ? & ?).
    split_and!; eauto using owner_at_kept, int_at_kept, keys_at_kept.
Qed.

(** C7, as the code has it.  The display functions have no guard on the
    logger's level (the four checks are commented out): a call behaves
    the same at every level, with the same result, heap and calls to the
    logger, and a call that returns has handed the logger at least one
    more call, the rendered line or table (or the table's error).  What
    is written out of these calls is the logger's business.  The call
    changes no cell of the heap it was entered with. *)
Theorem display_runs_at_every_level (m : M unit) (lvl : logLevel) (w : world) :
  display_call growslice_cap CreateTableString GetBlsKeyOwner m ->
  m (set_level lvl w) = (fun '(u, w') => (u, set_level lvl w')) <$> m w /\
  (forall u w', m w = Some (u, w') ->
     (exists earlier call, w_log w' = w_log w ++ earlier ++ [call]) /\
     w_heap w `prefix_of` w_heap w').
Proof.
  intros Hm. split.
  - by apply display_call_lvl_indep.
  - intros u w' Hrun.
    destruct (display_call_frames (length (w_heap w)) m Hm w ltac:(done) u w' Hrun)
      as (St & calls & Hlog & earlier & call & ->).
    split; [by eexists _, _ | by apply stable_prefix].
Qed.

(** C5.  When every owner aggregate handed to
    [displayOwnersSelectedNodes] has its qualified auction nodes among
    its auction nodes, and as many auction nodes as its auction list is
    long, each prefix slice [auctionList[:numQualifiedAuctionNodes]] is
    within bounds and holds the first [numQualifiedAuctionNodes] nodes;
    the function does not panic, and logs the table of the owners'
    rows. *)
Theorem displayOwnersSelectedNodes_in_bounds (w : world)
    (ownersData : list (string * ptr)) (owners : list (ownerData * ownerView)) :
  Forall2 (fun e ov => owner_view w e.2 ov.1 ov.2) ownersData owners ->
  Forall (fun ov => qualified_in_bounds ov.1) owners ->
  Forall (fun ov =>
            exists selected,
              slice_to (auctionList ov.1) (numQualifiedAuctionNodes ov.1) w
                = Some (selected, w) /\
              keys_at w selected (take (numQualifiedAuctionNodes ov.1) (ov_keys ov.2)))
    owners /\
  exists w',
    displayOwnersSelectedNodes growslice_cap CreateTableString ownersData w = Some (tt, w') /\
    w_log w' =
      w_log w ++
      [table_call CreateTableString selectedNodesHeader
         (zip_with (fun e ov => selectedNodesLine e.1 ov.1 ov.2) ownersData owners)
         "Selected nodes config from auction list"].
Proof.
  intros Hviews Hinv. split.
  - apply Forall_forall. intros [o v] Hin. simpl.
    rewrite Forall_forall in Hinv. destruct (Hinv _ Hin) as [Hq Hlen]. simpl in *.
    apply list_elem_of_lookup in Hin as [i Hi].
    destruct (Forall2_lookup_r _ _ _ _ _ Hviews Hi) as (e & _ & Hview).
    destruct Hview as (_ & _ & _ & _ & Hkeys). simpl in Hkeys.
    assert (s_len (auctionList o) <= s_cap (auctionList o))%nat as Hcap.
    { destruct Hkeys as (vs & (arr & _ & (_ & ? & _)%window_Some) & _). done. }
    eexists. split.
    + unfold slice_to. rewrite decide_True by lia. reflexivity.
    + apply keys_at_slice_to; [done | lia].
  - destruct (displayOwnersSelectedNodes_run w ownersData owners) as (w' & ? & ? & _).
    + clear -Hviews Hinv. induction Hviews as [|e ov es ovs Hv _ IH]; [done|].
      apply Forall_cons in Hinv as [? ?]. constructor; [done | by apply IH].
    + by exists w'.
Qed.

(** X1.  Beyond the capacity of its auction list an owner's prefix slice
    panics, and with it the display, whatever other owners the map holds
    and in whatever order it is visited: the bound of
    [auctionList[:numQualifiedAuctionNodes]] is what keeps
    [displayOwnersSelectedNodes] from panicking. *)
Theorem displayOwnersSelectedNodes_out_of_range w (ownersData : list (string * ptr))
    ownerPubKey owner o v :
  (ownerPubKey, owner) ∈ ownersData ->
  owner_view w owner o v ->
  (s_cap (auctionList o) < numQualifiedAuctionNodes o)%nat ->
  displayOwnersSelectedNodes growslice_cap CreateTableString ownersData w = None.
Proof.
  intros Hin (Ho & Htotal & HperNode & Hqualified & Hkeys) Hcap.
  unfold displayOwnersSelectedNodes.
  set (n := length (w_heap w)).
  match goal with |- context [foldM ?b _ _] => set (body := b) end.
  assert (forall lines w1, stable n w w1 -> body (ownerPubKey, owner) lines w1 = None)
    as Hpanic.
  { intros lines w1 St. subst body. cbv beta iota.
    pose proof (owner_at_kept _ _ _ _ St Ho) as Ho1.
    pose proof (int_at_kept _ _ _ _ St Htotal) as Htotal1.
    pose proof (int_at_kept _ _ _ _ St HperNode) as HperNode1.
    pose proof (int_at_kept _ _ _ _ St Hqualified) as Hqualified1.
    repeat first
      [ rewrite (bind_run _ _ _ _ _ (field_run _ _ _ _ Ho1))
      | rewrite (bind_run _ _ _ _ _ (big_String_run _ _ _ Htotal1))
      | rewrite (bind_run _ _ _ _ _ (big_String_run _ _ _ HperNode1))
      | rewrite (bind_run _ _ _ _ _ (big_String_run _ _ _ Hqualified1)) ].
    unfold bind, slice_to. by rewrite decide_False by lia. }
  assert (forall e lines, frames n (body e lines) (fun _ => True)) as Hframe.
  { intros [ownerPubKey' owner'] lines. subst body. cbv beta iota.
    repeat (eapply frames_bind;
            [ first [ apply frames_field | apply frames_big_String | apply frames_slice_to
                    | apply frames_getShortDisplayableBlsKeys ] | intros ? _ ]).
    by apply frames_ret. }
  assert (forall lines w1, stable n w w1 -> foldM body ownersData lines w1 = None) as Hloop.
  { clearbody body. induction ownersData as [|e ownersData IH]; intros lines w1 St.
    - by apply elem_of_nil in Hin.
    - cbn [foldM]. unfold bind.
      apply elem_of_cons in Hin as [<-|Hin]; [by rewrite Hpanic|].
      destruct (body e lines w1) as [[lines' w2]|] eqn:Hrun; [|done].
      apply (IH Hin). eapply stable_trans; [done|].
      destruct (Hframe e lines w1 ltac:(destruct St; lia) lines' w2 Hrun) as [St2 _].
      exact St2. }
  unfold bind. by rewrite (Hloop [] w (stable_refl _ _)).
Qed.

(** X2.  [displayOwnersData] on well-formed owner aggregates returns,
    having logged one table: a row per owner, in the order in which the map was
    visited, with the owner's counts and stake figures and all the keys
    of its auction list, shortened. *)
Theorem displayOwnersData_spec (w : world)
    (ownersData : list (string * ptr)) (owners : list (ownerData * ownerView)) :
  Forall2 (fun e ov => owner_view w e.2 ov.1 ov.2) ownersData owners ->
  exists w',
    displayOwnersData growslice_cap CreateTableString ownersData w = Some (tt, w') /\
    w_log w' =
      w_log w ++
      [table_call CreateTableString ownersDataHeader
         (zip_with (fun e ov => ownersDataLine e.1 ov.1 ov.2) ownersData owners)
         "Initial nodes config in auction list"] /\
    w_heap w `prefix_of` w_heap w'.
Proof.
  intros Hall. unfold displayOwnersData.
  set (n := length (w_heap w)).
  match goal with |- context [foldM ?b _ _] => set (body := b) end.
  assert (forall lines w1, stable n w w1 ->
            tframe n (foldM body ownersData lines) w1
              (fun r _ => r = lines ++
                 zip_with (fun e ov => ownersDataLine e.1 ov.1 ov.2) ownersData owners))
    as Hloop.
  { induction Hall as [|[ownerPubKey owner] [o v] ownersData owners Hview _ IH];
      intros lines w1 St; simpl.
    - apply tframe_ret. by rewrite app_nil_r.
    - simpl in Hview.
      destruct Hview as (Ho & Htotal & HperNode & Hqualified & Hkeys).
      eapply (tframe_bind _ _ _ _
                (fun r _ => r = lines ++ [ownersDataLine ownerPubKey o v])).
      2: { intros ? w2 St2 ->.
           eapply tframe_mono; [apply IH; by eapply stable_trans|].
           intros r ? _ ->. by rewrite <- app_assoc. }
      pose proof (owner_at_kept _ _ _ _ St Ho) as Ho1.
      eapply tframe_bind_run; [by apply field_run|].
      eapply tframe_bind_run; [by apply field_run|].
      eapply tframe_bind_run; [by apply field_run|].
      eapply tframe_bind_run; [by apply field_run|].
      eapply tframe_bind_run; [by eapply big_String_run, int_at_kept|].
      eapply tframe_bind_run; [by apply field_run|].
      eapply tframe_bind_run; [by eapply big_String_run, int_at_kept|].
      eapply tframe_bind_run; [by apply field_run|].
      eapply (tframe_bind _ _ _ _ (fun r _ => r = shortKeys (ov_keys v))).
      { by apply tframe_getShortDisplayableBlsKeys. }
      intros ? w2 _ ->. by apply tframe_ret. }
  destruct (Hloop [] w (stable_refl _ _) ltac:(done)) as (lines & w1 & Hrun & St & Hlog & ->).
  rewrite (bind_run _ _ _ _ _ Hrun), displayTable_run.
  eexists. split; [done|]. simpl. split; [by rewrite Hlog | by apply stable_prefix].
Qed.

(** X3.  With a step of 0 the division of [displayMinRequiredTopUp]
    panics. *)
Theorem displayMinRequiredTopUp_zero_step w topUp min step (t m : Z) :
  int_at w topUp t -> int_at w min m -> int_at w step 0 ->
  displayMinRequiredTopUp topUp min step w = None.
Proof.
  intros Ht Hm Hs. unfold displayMinRequiredTopUp.
  rewrite (bind_run _ _ _ _ _ (big_Cmp_run _ _ _ _ _ Ht Hm)).
  assert (exists topUp' w1 t',
    (if negb ((match t ?= m with Lt => -1 | Eq => 0 | Gt => 1 end) =? 0)
     then z <- big_NewInt 0 ;; big_Sub z topUp step else ret topUp) w = Some (topUp', w1) /\
    int_at w1 topUp' t' /\ int_at w1 min m /\ int_at w1 step 0)
    as (topUp' & w1 & t' & Hrun & Ht' & Hm1 & Hs1).
  { destruct (negb _).
    - eexists _, _, _. split; [by apply new_Sub_run|].
      split_and!; [apply int_at_new | by apply int_at_alloc | by apply int_at_alloc].
    - by exists topUp, w, t. }
  rewrite (bind_run _ _ _ _ _ Hrun).
  rewrite bind_assoc_run.
  rewrite (bind_run _ _ _ _ _ (new_Sub_run _ _ _ _ _ Ht' Hm1)).
  unfold bind at 1. unfold big_NewInt at 1, alloc, bind at 1, ret.
  unfold bind at 1. unfold big_Div, bind at 1.
  rewrite (big_get_run _ _ (t' - m)).
  2: { eexists. split; [done|]. simpl.
       rewrite lookup_app_l by (rewrite length_app; simpl; lia).
       by rewrite lookup_app_r, Nat.sub_diag. }
  unfold bind at 1.
  by rewrite (big_get_run _ _ _ (int_at_alloc _ _ _ _ (int_at_alloc _ _ _ _ Hs1))).
Qed.

Lemma Forall2_Permutation_zip_with {A B C} (R : A -> B -> Prop) (f : A -> B -> C)
    (es es' : list A) (os : list B) :
  es ≡ₚ es' -> Forall2 R es os ->
  exists os', Forall2 R es' os' /\ zip_with f es' os' ≡ₚ zip_with f es os.
Proof.
  intros Hperm. revert os.
  induction Hperm as [|e es es' _ IH|e1 e2 es|es1 es2 es3 _ IH1 _ IH2]; intros os Hall.
  - apply Forall2_nil_inv_l in Hall as ->. by exists [].
  - apply Forall2_cons_inv_l in Hall as (o & os0 & HR & Hall & ->).
    destruct (IH os0 Hall) as (os' & Hall' & Hzip).
    exists (o :: os'). split; [by constructor|]. simpl. by rewrite Hzip.
  - apply Forall2_cons_inv_l in Hall as (o1 & os0 & HR1 & Hall & ->).
    apply Forall2_cons_inv_l in Hall as (o2 & os1 & HR2 & Hall & ->).
    exists (o2 :: o1 :: os1). split; [by repeat constructor|]. simpl. apply perm_swap.
  - destruct (IH1 os Hall) as (os2 & Hall2 & Hzip2).
    destruct (IH2 os2 Hall2) as (os3 & Hall3 & Hzip3).
    exists os3. split; [done|]. by rewrite Hzip3.
Qed.

(** X4.  The rows of the table follow the order in which [range] visits
    the owners map: two runs of [displayOwnersSelectedNodes] over the same
    owners, visited in different orders, log tables whose rows are a
    permutation of one another. *)
Theorem displayOwnersSelectedNodes_rows_permuted (w : world)
    (ownersData ownersData' : list (string * ptr)) (owners : list (ownerData * ownerView)) :
  ownersData ≡ₚ ownersData' ->
  Forall2 (fun e ov => owner_view w e.2 ov.1 ov.2 /\ qualified_in_bounds ov.1)
    ownersData owners ->
  exists lines lines' w1 w2,
    displayOwnersSelectedNodes growslice_cap CreateTableString ownersData w = Some (tt, w1) /\
    w_log w1 =
      w_log w ++ [table_call CreateTableString selectedNodesHeader lines
                    "Selected nodes config from auction list"] /\
    displayOwnersSelectedNodes growslice_cap CreateTableString ownersData' w = Some (tt, w2) /\
    w_log w2 =
      w_log w ++ [table_call CreateTableString selectedNodesHeader lines'
                    "Selected nodes config from auction list"] /\
    lines = zip_with (fun e ov => selectedNodesLine e.1 ov.1 ov.2) ownersData owners /\
    lines' ≡ₚ lines.
Proof.
  intros Hperm Hall.
  destruct (Forall2_Permutation_zip_with _
              (fun e ov => selectedNodesLine e.1 ov.1 ov.2) _ _ _ Hperm Hall)
    as (owners' & Hall' & Hzip).
  destruct (displayOwnersSelectedNodes_run w ownersData owners Hall) as (w1 & ? & ? & _).
  destruct (displayOwnersSelectedNodes_run w ownersData' owners' Hall') as (w2 & ? & ? & _).
  by eexists _, _, w1, w2.
Qed.

(** *** The ordering of the auction lists *)

Lemma window_inserts {A} (s : slice) (arr xs ys : list A) :
  window s arr = Some ys -> length xs = s_len s ->
  window s (list_inserts (s_off s) xs arr) = Some xs.
Proof.
  intros (H1 & H2 & ->)%window_Some Hlen. apply window_Some.
  rewrite length_inserts. split_and!; [done | done |].
  rewrite list_inserts_take_drop by lia.
  rewrite drop_app_length' by (rewrite length_take; lia).
  by rewrite <- Hlen, take_app_length.
Qed.

Lemma sortListByPubKey_keys_run w (validators : list validator) (keys : list (list byte))
    (keyed : list (list byte * validator)) :
  Forall2 (fun v key => bytes_at w (GetPublicKey v) key) validators keys ->
  foldM (fun validator keyed =>
           key <- slice_bytes (GetPublicKey validator) ;;
           ret (keyed ++ [(key, validator)]))
        validators keyed w
  = Some (keyed ++ zip keys validators, w).
Proof.
  intros Hkeys. revert keyed.
  induction Hkeys as [|v key vs keys Hkey _ IH]; intros keyed; cbn [foldM].
  - unfold ret. by rewrite app_nil_r.
  - rewrite (bind_run _ _ w (keyed ++ [(key, v)]) w).
    + rewrite IH. by rewrite <- app_assoc.
    + by rewrite (bind_run _ _ _ _ _ (slice_bytes_run _ _ _ Hkey)).
Qed.

Lemma vals_stored_lookup a w w' l c :
  vals_stored a w w' -> (forall arr, c <> CVals arr) ->
  w_heap w !! l = Some c -> w_heap w' !! l = Some c.
Proof.
  intros (arr & arr' & Ha & -> & _) Hc Hl.
  rewrite list_lookup_insert_ne; [done|]. intros Heq. subst a.
  apply (Hc arr). assert (Some c = Some (CVals arr)) as [= ->]; [|done].
  rewrite <- Hl. exact Ha.
Qed.

Lemma vals_stored_int_at a w w' p z : vals_stored a w w' -> int_at w p z -> int_at w' p z.
Proof.
  intros Hst (l & -> & Hl). exists l. split; [done|]. by eapply vals_stored_lookup.
Qed.

Lemma vals_stored_owner_at a w w' p o :
  vals_stored a w w' -> owner_at w p o -> owner_at w' p o.
Proof.
  intros Hst (l & -> & Hl). exists l. split; [done|]. by eapply vals_stored_lookup.
Qed.

Lemma vals_stored_bytes_at a w w' s bs :
  vals_stored a w w' -> bytes_at w s bs -> bytes_at w' s bs.
Proof.
  intros Hst (arr & Hl & Hw). exists arr. split; [|done]. by eapply vals_stored_lookup.
Qed.

Lemma vals_stored_keys_at a w w' s keys :
  vals_stored a w w' -> s_arr s <> a -> keys_at w s keys -> keys_at w' s keys.
Proof.
  intros Hst Hne (vs & (arr & Hl & Hw) & Hkeys). exists vs. split.
  - exists arr. split; [|done]. destruct Hst as (? & ? & _ & -> & _).
    by rewrite list_lookup_insert_ne.
  - eapply Forall2_impl; [done|]. intros v key. by apply (vals_stored_bytes_at a).
Qed.

Lemma vals_stored_owner_view a w w' p o v :
  vals_stored a w w' -> s_arr (auctionList o) <> a ->
  owner_view w p o v -> owner_view w' p o v.
Proof.
  intros Hst Hne (Ho & Htotal & HperNode & Hqualified & Hkeys).
  split_and!; eauto using vals_stored_int_at, vals_stored_owner_at, vals_stored_keys_at.
Qed.

(** One list: the run stores the validators in ascending order of their
    keys in the place of the list, and touches nothing else. *)
Lemma sortListByPubKey_run w (nodes : slice) (keys : list (list byte)) :
  keys_at w nodes keys ->
  exists w' ordered,
    sortListByPubKey nodes w = Some (tt, w') /\
    vals_stored (s_arr nodes) w w' /\
    keys_at w' nodes ordered /\
    Sorted pubKey_le ordered /\ ordered ≡ₚ keys.
Proof.
  intros (vs & (arr & Hl & Hw) & Hkeys).
  set (sorted := merge_sort keyed_le (zip keys vs)).
  pose proof (merge_sort_Permutation keyed_le (zip keys vs)) as Hperm. fold sorted in Hperm.
  pose proof (Forall2_length _ _ _ Hkeys) as Hlen.
  pose proof (window_length _ _ _ Hw) as Hlen'.
  set (w' := set_heap (<[s_arr nodes := CVals (list_inserts (s_off nodes) sorted.*2 arr)]>
                         (w_heap w)) w).
  assert (vals_stored (s_arr nodes) w w') as Hst by (by eexists _, _).
  exists w', sorted.*1. split_and!.
  - unfold sortListByPubKey, load_vals.
    rewrite <- !bind_assoc_run.
    unfold bind at 1. unfold load at 1. rewrite Hl.
    unfold bind at 1, ret at 1. rewrite (bind_run _ _ w vs w) by (by rewrite Hw).
    rewrite (bind_run _ _ _ _ _ (sortListByPubKey_keys_run w vs keys [] Hkeys)).
    cbn [app]. fold sorted. unfold store.
    rewrite decide_True by (by eapply lookup_lt_Some). done.
  - done.
  - exists sorted.*2. split.
    + exists (list_inserts (s_off nodes) sorted.*2 arr). split.
      * subst w'. cbn [w_heap set_heap]. apply list_lookup_insert_eq.
        by eapply lookup_lt_Some.
      * eapply window_inserts; [done|].
        rewrite length_fmap, Hperm, length_zip. lia.
    + apply Forall2_fmap, Forall_Forall2_diag.
      assert (Forall (fun kv => bytes_at w (GetPublicKey kv.2) kv.1) (zip keys vs)) as Hall.
      { clear -Hkeys. induction Hkeys; constructor; auto. }
      rewrite <- Hperm in Hall. eapply Forall_impl; [done|].
      intros [key v]. by apply (vals_stored_bytes_at (s_arr nodes)).
  - apply (Sorted_fmap _ keyed_le); [done|]. apply Sorted_merge_sort, _.
  - rewrite Hperm. rewrite fst_zip by lia. done.
Qed.

Lemma Forall2_and_Forall_r {A B} (P : A -> B -> Prop) (Q : B -> Prop) l k :
  Forall2 P l k -> Forall Q k -> Forall2 (fun x y => P x y /\ Q y) l k.
Proof. induction 1; inv 1; constructor; auto. Qed.

(** All lists: every owner's auction list is put in order, and the rest
    of each owner aggregate is as it was. *)
Lemma sortOwnersAuctionLists_run (ownersData : list (string * ptr))
    (owners : list (ownerData * ownerView)) (w : world) :
  Forall2 (fun e ov => owner_view w e.2 ov.1 ov.2) ownersData owners ->
  NoDup ((fun ov => s_arr (auctionList ov.1)) <$> owners) ->
  exists w' owners',
    sortOwnersAuctionLists ownersData w = Some (tt, w') /\
    w_log w' = w_log w /\
    Forall2 (fun e ov' => owner_view w' e.2 ov'.1 ov'.2) ownersData owners' /\
    Forall2 ordered_view owners owners' /\
    (forall p o v,
       owner_view w p o v ->
       s_arr (auctionList o) ∉ (fun ov => s_arr (auctionList ov.1)) <$> owners ->
       owner_view w' p o v).
Proof.
  unfold sortOwnersAuctionLists. revert ownersData w.
  induction owners as [|[o v] owners IH]; intros ownersData w Hall Hnd.
  - apply Forall2_nil_inv_r in Hall as ->. exists w, []. by split_and!.
  - apply Forall2_cons_inv_r in Hall
      as ([ownerPubKey owner] & ownersData' & Hview & Hall & ->).
    rewrite fmap_cons in Hnd. apply NoDup_cons in Hnd as [Hnotin Hnd].
    cbn [fst snd] in Hview, Hnotin.
    destruct Hview as (Ho & Htotal & HperNode & Hqualified & Hkeys).
    destruct (sortListByPubKey_run w (auctionList o) (ov_keys v) Hkeys)
      as (w1 & ordered & Hrun & Hst & Hkeys1 & Hsorted & Hperm).
    cbn [foldM].
    rewrite (bind_run _ _ w tt w1)
      by (by rewrite (bind_run _ _ _ _ _ (field_run _ _ _ _ Ho))).
    assert (Forall2 (fun e ov => owner_view w1 e.2 ov.1 ov.2) ownersData' owners) as Hall1.
    { assert (Forall (fun ov => s_arr (auctionList ov.1) <> s_arr (auctionList o)) owners)
        as Hothers.
      { apply Forall_forall. intros ov Hin Heq. apply Hnotin. rewrite <- Heq.
        apply list_elem_of_fmap. by exists ov. }
      eapply Forall2_impl; [exact (Forall2_and_Forall_r _ _ _ _ Hall Hothers)|].
      intros e ov [Hv Hne]. by apply (vals_stored_owner_view (s_arr (auctionList o)) w). }
    destruct (IH ownersData' w1 Hall1 Hnd)
      as (w' & owners' & Hrun' & Hlog' & Hviews' & Hord' & Hframe').
    exists w', ((o, {| ov_totalTopUp := ov_totalTopUp v;
                       ov_topUpPerNode := ov_topUpPerNode v;
                       ov_qualifiedTopUpPerNode := ov_qualifiedTopUpPerNode v;
                       ov_keys := ordered |}) :: owners').
    split_and!.
    + exact Hrun'.
    + rewrite Hlog'. by destruct Hst as (? & ? & _ & _ & ? & _).
    + constructor; [|done]. cbn [fst snd]. apply Hframe'; [|done].
      split_and!; cbn [ov_totalTopUp ov_topUpPerNode ov_qualifiedTopUpPerNode ov_keys];
        eauto using vals_stored_int_at, vals_stored_owner_at.
    + constructor; [|done]. by split_and!.
    + intros p o0 v0 Hv Hn. rewrite fmap_cons in Hn.
      apply not_elem_of_cons in Hn as [Hne Hn]. apply Hframe'; [|done].
      by apply (vals_stored_owner_view (s_arr (auctionList o)) w).
Qed.

Lemma Forall2_and_Forall_l {A B} (P : A -> B -> Prop) (Q : A -> Prop) l k :
  Forall2 P l k -> Forall Q l -> Forall2 (fun x y => P x y /\ Q x) l k.
Proof. induction 1; inv 1; constructor; auto. Qed.

(** C2.  When the auction list of every owner has been put in ascending
    order of the public keys, whatever order the keys were registered in,
    the row that [displayOwnersSelectedNodes] renders for an owner with
    [k = numQualifiedAuctionNodes] of its [n] auction nodes promoted
    shows, as the selected nodes, the prefix of [k] nodes of the ordered
    list, and these are exactly the [k] smallest of the owner's keys:
    [k] of its keys, in ascending order, none of its other keys being
    below any of them.  The ordering keeps the owner's counts and stake
    figures and the keys themselves. *)
Theorem promoted_are_smallest (w : world) (ownersData : list (string * ptr))
    (owners : list (ownerData * ownerView)) :
  Forall2 (fun e ov => owner_view w e.2 ov.1 ov.2) ownersData owners ->
  Forall (fun ov => qualified_in_bounds ov.1) owners ->
  NoDup ((fun ov => s_arr (auctionList ov.1)) <$> owners) ->
  exists w' owners',
    (sortOwnersAuctionLists ownersData ;;;
     displayOwnersSelectedNodes growslice_cap CreateTableString ownersData) w
      = Some (tt, w') /\
    Forall2 ordered_view owners owners' /\
    Forall2 (fun ov ov' =>
               smallest_keys (numQualifiedAuctionNodes ov.1) (ov_keys ov.2)
                 (take (numQualifiedAuctionNodes ov.1) (ov_keys ov'.2)))
      owners owners' /\
    w_log w' =
      w_log w ++
      [table_call CreateTableString selectedNodesHeader
         (zip_with (fun e ov' => selectedNodesLine e.1 ov'.1 ov'.2) ownersData owners')
         "Selected nodes config from auction list"].
Proof.
  intros Hviews Hinv Hnd.
  destruct (sortOwnersAuctionLists_run ownersData owners w Hviews Hnd)
    as (w1 & owners' & Hsort & Hlog1 & Hviews1 & Hord & _).
  assert (Forall (fun ov' => qualified_in_bounds ov'.1) owners') as Hinv'.
  { eapply Forall2_Forall_r; [exact Hord|].
    eapply Forall_impl; [exact Hinv|]. intros ov Hq ov' (Heq & _). by rewrite Heq. }
  destruct (displayOwnersSelectedNodes_run w1 ownersData owners'
              (Forall2_and_Forall_r _ _ _ _ Hviews1 Hinv'))
    as (w' & Hrun & Hlog & _).
  exists w', owners'. split_and!.
  - by rewrite (bind_run _ _ _ _ _ Hsort).
  - done.
  - assert (Forall (fun ov => (numQualifiedAuctionNodes ov.1 <= length (ov_keys ov.2))%nat)
              owners) as Hk.
    { assert (Forall (fun ov => length (ov_keys ov.2) = s_len (auctionList ov.1)) owners)
        as Hlen.
      { eapply Forall2_Forall_r; [exact Hviews|]. apply Forall_forall.
        intros e _ ov (_ & _ & _ & _ & Hkeys). by eapply keys_at_length. }
      apply Forall_forall. intros ov Hin.
      rewrite Forall_forall in Hinv. rewrite Forall_forall in Hlen.
      destruct (Hinv ov Hin) as [Hq Hn]. specialize (Hlen ov Hin). cbv beta in Hlen. lia. }
    eapply Forall2_impl; [exact (Forall2_and_Forall_l _ _ _ _ Hord Hk)|].
    intros ov ov' [(_ & _ & _ & _ & Hsorted & Hperm) Hle].
    by apply take_sorted_smallest.
  - by rewrite Hlog, Hlog1.
Qed.

End DisplayProperties.

(** ** Concrete runs *)

Lemma getShortKey_spec_witness :
  exists str w',
    getShortKey grow_double sample_key sample_world = Some (str, w') /\
    ((length (list_byte_of_string "0123456789abcdefghijKLMNOPQRST") <= 20)%nat ->
       str = "0123456789abcdefghijKLMNOPQRST"%string) /\
    ((20 < length (list_byte_of_string "0123456789abcdefghijKLMNOPQRST"))%nat ->
       str = "0123456789...KLMNOPQRST"%string /\
       length (list_byte_of_string str) = 23%nat) /\
    bytes_at w' sample_key (list_byte_of_string "0123456789abcdefghijKLMNOPQRST") /\
    w_heap sample_world `prefix_of` w_heap w'.
Proof.
  apply (getShortKey_spec grow_double sample_world sample_key
           (list_byte_of_string "0123456789abcdefghijKLMNOPQRST")).
  eexists. split; [reflexivity | vm_compute; reflexivity].
Defined.

Lemma sample_ints :
  int_at sample_world (Some 0%nat) 800 /\
  int_at sample_world (Some 1%nat) 100 /\
  int_at sample_world (Some 2%nat) 100.
Proof. split_and!; by eexists. Qed.

Lemma displayMinRequiredTopUp_reports_witness :
  (exists w',
     displayMinRequiredTopUp (Some 0%nat) (Some 1%nat) (Some 2%nat) sample_world
       = Some (tt, w') /\
     w_log w' =
       w_log sample_world ++
       [LogCall LogInfo "auctionListSelector: found min required"
          [("topUp"%string, Z_String (if 800 =? 100 then 800 else 800 - 100));
           ("after num of iterations"%string,
            Z_String (((if 800 =? 100 then 800 else 800 - 100) - 100) / 100))]]) /\
  (forall k, 0 <= k -> 800 = 100 + k * 100 ->
     (if 800 =? 100 then 800 else 800 - 100) = 100 + Z.max 0 (k - 1) * 100 /\
     ((if 800 =? 100 then 800 else 800 - 100) - 100) / 100 = Z.max 0 (k - 1)).
Proof.
  apply (displayMinRequiredTopUp_reports sample_world (Some 0%nat) (Some 1%nat) (Some 2%nat)
           800 100 100); [apply sample_ints | apply sample_ints | apply sample_ints | lia].
Defined.

(** The claim as the specification has it fails.  A search from the
    maximum 1000 down to the threshold 800 in steps of 100 makes
    [(1000 - 800) / 100 = 2] iterations; the display, called with the
    top-up found, the floor 100 and the step, reports 6 iterations (and
    the top-up 700), and called with the maximum in the place of the
    minimum it reports -3. *)
Lemma displayMinRequiredTopUp_not_from_max :
  displayedMinRequiredTopUp 800 100 100 = Some ("700", "6")%string /\
  displayedMinRequiredTopUp 800 1000 100 = Some ("700", "-3")%string /\
  Z_String ((1000 - 800) / 100) = "2"%string.
Proof. by vm_compute. Qed.

Lemma sample_keys_at :
  keys_at sample_owners_world (auctionList sample_owner) sample_keys.
Proof.
  eexists. split.
  - eexists. split; [reflexivity | vm_compute; reflexivity].
  - repeat constructor; (eexists; split; [reflexivity | vm_compute; reflexivity]).
Qed.

Lemma sample_owner_view :
  owner_view sample_owners_world (Some 7%nat) sample_owner sample_view.
Proof.
  split_and!; try by eexists. apply sample_keys_at.
Qed.

Lemma displayOwnersSelectedNodes_in_bounds_witness :
  Forall (fun ov =>
            exists selected,
              slice_to (auctionList ov.1) (numQualifiedAuctionNodes ov.1) sample_owners_world
                = Some (selected, sample_owners_world) /\
              keys_at sample_owners_world selected
                (take (numQualifiedAuctionNodes ov.1) (ov_keys ov.2)))
    [(sample_owner, sample_view)] /\
  exists w',
    displayOwnersSelectedNodes grow_double table_of_cells sample_ownersData
      sample_owners_world = Some (tt, w') /\
    w_log w' =
      w_log sample_owners_world ++
      [table_call table_of_cells selectedNodesHeader
         (zip_with (fun e ov => selectedNodesLine e.1 ov.1 ov.2) sample_ownersData
            [(sample_owner, sample_view)])
         "Selected nodes config from auction list"].
Proof.
  apply (displayOwnersSelectedNodes_in_bounds grow_double table_of_cells sample_owners_world
           sample_ownersData [(sample_owner, sample_view)]).
  - repeat constructor; apply sample_owner_view.
  - repeat constructor.
Defined.

Lemma sample_unordered_views :
  Forall2 (fun e ov => owner_view sample_unordered_world e.2 ov.1 ov.2)
    sample_unordered_owners
    [(sample_owner, sample_registered_view); (sample_third_owner, sample_third_view)].
Proof.
  repeat constructor; cbn [fst snd]; try by eexists.
  - eexists. split.
    + eexists. split; [reflexivity | vm_compute; reflexivity].
    + repeat constructor; (eexists; split; [reflexivity | vm_compute; reflexivity]).
  - eexists. split.
    + eexists. split; [reflexivity | vm_compute; reflexivity].
    + repeat constructor; (eexists; split; [reflexivity | vm_compute; reflexivity]).
Qed.

Lemma promoted_are_smallest_witness :
  exists w' owners',
    (sortOwnersAuctionLists sample_unordered_owners ;;;
     displayOwnersSelectedNodes grow_double table_of_cells sample_unordered_owners)
      sample_unordered_world = Some (tt, w') /\
    Forall2 ordered_view
      [(sample_owner, sample_registered_view); (sample_third_owner, sample_third_view)]
      owners' /\
    Forall2 (fun ov ov' =>
               smallest_keys (numQualifiedAuctionNodes ov.1) (ov_keys ov.2)
                 (take (numQualifiedAuctionNodes ov.1) (ov_keys ov'.2)))
      [(sample_owner, sample_registered_view); (sample_third_owner, sample_third_view)]
      owners' /\
    w_log w' =
      w_log sample_unordered_world ++
      [table_call table_of_cells selectedNodesHeader
         (zip_with (fun e ov' => selectedNodesLine e.1 ov'.1 ov'.2)
            sample_unordered_owners owners')
         "Selected nodes config from auction list"].
Proof.
  apply (promoted_are_smallest grow_double table_of_cells sample_unordered_world
           sample_unordered_owners
           [(sample_owner, sample_registered_view); (sample_third_owner, sample_third_view)]).
  - apply sample_unordered_views.
  - repeat constructor.
  - compute_done.
Defined.

(** The sample run: the keys were registered as ccc, aaa..., bbb and as
    zz, yy; the table shows the two smallest of the first owner and the
    smallest of the other. *)
Lemma sample_promoted_run :
  (w_log <$> (snd <$> (sortOwnersAuctionLists sample_unordered_owners ;;;
                       displayOwnersSelectedNodes grow_double table_of_cells
                         sample_unordered_owners) sample_unordered_world)) =
    Some [LogCall LogInfo
            ("Selected nodes config from auction list" ++ newline ++
             "Owner|Num staked nodes|TopUp per node|Total top up|Num auction nodes|Num qualified auction nodes|Num active nodes|Qualified top up per node|Selected auction list nodes|owner-1|4|750|3000|3|2|1|1000|aaaaaaaaaa...aaaaaaaaaa, bbb|owner-3|2|3000|3000|2|1|0|3000|yy")%string
            []].
Proof. vm_compute. reflexivity. Qed.

Lemma display_leaves_inputs_unchanged_witness :
  exists w',
    displayOwnersSelectedNodes grow_double table_of_cells sample_ownersData
      sample_owners_world = Some (tt, w') /\
    (tt = tt /\
     w_heap sample_owners_world `prefix_of` w_heap w' /\
     w_level w' = w_level sample_owners_world /\
     (forall owner o, owner_at sample_owners_world owner o -> owner_at w' owner o) /\
     (forall p z, int_at sample_owners_world p z -> int_at w' p z) /\
     (forall s vs, vals_at sample_owners_world s vs -> vals_at w' s vs) /\
     (forall s bs, bytes_at sample_owners_world s bs -> bytes_at w' s bs) /\
     (forall owner o v, owner_view sample_owners_world owner o v -> owner_view w' owner o v)).
Proof.
  eexists. split; [vm_compute; reflexivity|].
  apply (display_leaves_inputs_unchanged grow_double table_of_cells no_owner
           (displayOwnersSelectedNodes grow_double table_of_cells sample_ownersData)).
  - constructor.
  - vm_compute; reflexivity.
Defined.

(** The claim as the specification has it fails.  With the logger at
    [LogInfo], a level above debug, [displayMinRequiredTopUp] does not
    return at once: it allocates its three results, renders the two
    figures and hands them to the logger, which writes them at that
    level.  With the logger at [LogNone] the function does the same; only
    the logger drops the call. *)
Lemma display_not_disabled_above_debug :
  (logLevel_rank LogDebug < logLevel_rank (w_level sample_world))%nat /\
  (exists w',
     displayMinRequiredTopUp (Some 0%nat) (Some 1%nat) (Some 2%nat) sample_world
       = Some (tt, w') /\
     length (w_heap w') = (length (w_heap sample_world) + 3)%nat /\
     emitted (w_level w') (w_log w') =
       [LogCall LogInfo "auctionListSelector: found min required"
          [("topUp", "700"); ("after num of iterations", "6")]%string]) /\
  (exists w',
     displayMinRequiredTopUp (Some 0%nat) (Some 1%nat) (Some 2%nat)
       (set_level LogNone sample_world) = Some (tt, w') /\
     length (w_heap w') = (length (w_heap sample_world) + 3)%nat /\
     w_log w' =
       [LogCall LogInfo "auctionListSelector: found min required"
          [("topUp", "700"); ("after num of iterations", "6")]%string] /\
     emitted (w_level w') (w_log w') = []).
Proof.
  split_and!.
  - simpl. lia.
  - eexists. split; [vm_compute; reflexivity|]. split; reflexivity.
  - eexists. split; [vm_compute; reflexivity|]. split_and!; reflexivity.
Qed.

Lemma display_runs_at_every_level_witness :
  displayMinRequiredTopUp (Some 0%nat) (Some 1%nat) (Some 2%nat)
    (set_level LogNone sample_world) =
  (fun '(u, w') => (u, set_level LogNone w')) <$>
    displayMinRequiredTopUp (Some 0%nat) (Some 1%nat) (Some 2%nat) sample_world /\
  (forall u w',
     displayMinRequiredTopUp (Some 0%nat) (Some 1%nat) (Some 2%nat) sample_world
       = Some (u, w') ->
     (exists earlier call, w_log w' = w_log sample_world ++ earlier ++ [call]) /\
     w_heap sample_world `prefix_of` w_heap w').
Proof.
  apply (display_runs_at_every_level grow_double table_of_cells no_owner
           (displayMinRequiredTopUp (Some 0%nat) (Some 1%nat) (Some 2%nat))
           LogNone sample_world).
  constructor.
Defined.

Lemma sample_overqualified_view :
  owner_view sample_overqualified_world (Some 7%nat) sample_overqualified_owner sample_view.
Proof.
  split_and!; try by eexists.
  eexists. split.
  - eexists. split; [reflexivity | vm_compute; reflexivity].
  - repeat constructor; (eexists; split; [reflexivity | vm_compute; reflexivity]).
Qed.

Lemma displayOwnersSelectedNodes_out_of_range_witness :
  displayOwnersSelectedNodes grow_double table_of_cells sample_two_owners_reversed
    sample_overqualified_world = None.
Proof.
  apply (displayOwnersSelectedNodes_out_of_range grow_double table_of_cells
           sample_overqualified_world sample_two_owners_reversed
           "owner-1" (Some 7%nat) sample_overqualified_owner sample_view).
  - apply list_elem_of_further, list_elem_of_here.
  - apply sample_overqualified_view.
  - simpl. lia.
Defined.

Lemma displayOwnersData_spec_witness :
  exists w',
    displayOwnersData grow_double table_of_cells sample_ownersData sample_owners_world
      = Some (tt, w') /\
    w_log w' =
      w_log sample_owners_world ++
      [table_call table_of_cells ownersDataHeader
         (zip_with (fun e ov => ownersDataLine e.1 ov.1 ov.2) sample_ownersData
            [(sample_owner, sample_view)])
         "Initial nodes config in auction list"] /\
    w_heap sample_owners_world `prefix_of` w_heap w'.
Proof.
  apply (displayOwnersData_spec grow_double table_of_cells sample_owners_world
           sample_ownersData [(sample_owner, sample_view)]).
  repeat constructor; apply sample_owner_view.
Defined.

Lemma displayMinRequiredTopUp_zero_step_witness :
  displayMinRequiredTopUp (Some 0%nat) (Some 1%nat) (Some 2%nat) sample_zero_step_world = None.
Proof.
  apply (displayMinRequiredTopUp_zero_step sample_zero_step_world
           (Some 0%nat) (Some 1%nat) (Some 2%nat) 800 100); by eexists.
Defined.

Lemma sample_second_owner_view :
  owner_view sample_owners_world (Some 8%nat) sample_second_owner sample_second_view.
Proof.
  split_and!; try by eexists.
  exists []. split; [|constructor].
  eexists. split; [reflexivity | vm_compute; reflexivity].
Qed.

Lemma displayOwnersSelectedNodes_rows_permuted_witness :
  exists lines lines' w1 w2,
    displayOwnersSelectedNodes grow_double table_of_cells sample_two_owners
      sample_owners_world = Some (tt, w1) /\
    w_log w1 =
      w_log sample_owners_world ++
      [table_call table_of_cells selectedNodesHeader lines
         "Selected nodes config from auction list"] /\
    displayOwnersSelectedNodes grow_double table_of_cells sample_two_owners_reversed
      sample_owners_world = Some (tt, w2) /\
    w_log w2 =
      w_log sample_owners_world ++
      [table_call table_of_cells selectedNodesHeader lines'
         "Selected nodes config from auction list"] /\
    lines = zip_with (fun e ov => selectedNodesLine e.1 ov.1 ov.2) sample_two_owners
              [(sample_owner, sample_view); (sample_second_owner, sample_second_view)] /\
    lines' ≡ₚ lines.
Proof.
  apply (displayOwnersSelectedNodes_rows_permuted grow_double table_of_cells
           sample_owners_world sample_two_owners sample_two_owners_reversed
           [(sample_owner, sample_view); (sample_second_owner, sample_second_view)]).
  - apply perm_swap.
  - repeat constructor;
      first [apply sample_owner_view | apply sample_second_owner_view | simpl; lia].
Defined.

(** The two visiting orders of the sample map give two different
    tables. *)
Lemma sample_tables_differ :
  (w_log <$> (snd <$> displayOwnersSelectedNodes grow_double table_of_cells
                        sample_two_owners sample_owners_world)) =
    Some [LogCall LogInfo
            ("Selected nodes config from auction list" ++ newline ++
             "Owner|Num staked nodes|TopUp per node|Total top up|Num auction nodes|Num qualified auction nodes|Num active nodes|Qualified top up per node|Selected auction list nodes|owner-1|4|750|3000|3|2|1|1000|aaaaaaaaaa...aaaaaaaaaa, bbb|owner-2|1|3000|3000|0|0|1|3000|")%string
            []] /\
  (w_log <$> (snd <$> displayOwnersSelectedNodes grow_double table_of_cells
                        sample_two_owners_reversed sample_owners_world)) =
    Some [LogCall LogInfo
            ("Selected nodes config from auction list" ++ newline ++
             "Owner|Num staked nodes|TopUp per node|Total top up|Num auction nodes|Num qualified auction nodes|Num active nodes|Qualified top up per node|Selected auction list nodes|owner-2|1|3000|3000|0|0|1|3000||owner-1|4|750|3000|3|2|1|1000|aaaaaaaaaa...aaaaaaaaaa, bbb")%string
            []].
Proof. split; vm_compute; reflexivity. Qed.

(** ** The standard delegation processor *)

(** C10.  [NewStandardDelegationProcessor] returns a nil processor with a
    non-nil error exactly when one of the six collaborators is nil (in
    the sense of [check.IfNil]), or the node price is nil, or it is not
    positive; every check has an error of its own, reported for the
    first check that fails; otherwise the processor is not nil, holds
    exactly the supplied arguments, and the error is nil. *)
Theorem NewStandardDelegationProcessor_spec {iface : Type} (check_IfNil : iface -> bool)
    (arg : ArgStandardDelegationProcessor iface) :
  let invalid :=
    check_IfNil (Executor arg) = true \/
    check_IfNil (ShardCoordinator arg) = true \/
    check_IfNil (AccountsParser arg) = true \/
    check_IfNil (SmartContractParser arg) = true \/
    check_IfNil (NodesListSplitter arg) = true \/
    check_IfNil (QueryService arg) = true \/
    NodePrice arg = None \/
    (exists price, NodePrice arg = Some price /\ price <= 0) in
  let res := NewStandardDelegationProcessor check_IfNil arg in
  ((exists err, res = (None, Some err)) <-> invalid) /\
  ((exists sdp, res = (Some sdp, None)) <-> ~ invalid) /\
  (forall sdp err, res = (sdp, err) ->
     match sdp with
     | Some sdp =>
         err = None /\
         TxExecutionProcessor sdp = Executor arg /\
         shardCoordinator sdp = ShardCoordinator arg /\
         accuntsParser sdp = AccountsParser arg /\
         smartContractsParser sdp = SmartContractParser arg /\
         nodesListSplitter sdp = NodesListSplitter arg /\
         queryService sdp = QueryService arg /\
         nodePrice sdp = NodePrice arg
     | None =>
         err = Some
           (if check_IfNil (Executor arg) then ErrNilTxExecutionProcessor
            else if check_IfNil (ShardCoordinator arg) then ErrNilShardCoordinator
            else if check_IfNil (AccountsParser arg) then ErrNilAccountsParser
            else if check_IfNil (SmartContractParser arg) then ErrNilSmartContractParser
            else if check_IfNil (NodesListSplitter arg) then ErrNilNodesListSplitter
            else if check_IfNil (QueryService arg) then ErrNilQueryService
            else if NodePrice arg is None then ErrNilInitialNodePrice
            else ErrInvalidInitialNodePrice)
     end).
Proof.
  intros invalid res. subst invalid res.
  unfold NewStandardDelegationProcessor.
  destruct (check_IfNil (Executor arg)) eqn:E1;
    [ split_and!; [ split; [tauto | eauto] | split; [intros [? [=]] | tauto ]
                  | by intros ? ? [= <- <-] ] | ].
  destruct (check_IfNil (ShardCoordinator arg)) eqn:E2;
    [ split_and!; [ split; [tauto | eauto] | split; [intros [? [=]] | tauto ]
                  | by intros ? ? [= <- <-] ] | ].
  destruct (check_IfNil (AccountsParser arg)) eqn:E3;
    [ split_and!; [ split; [tauto | eauto] | split; [intros [? [=]] | tauto ]
                  | by intros ? ? [= <- <-] ] | ].
  destruct (check_IfNil (SmartContractParser arg)) eqn:E4;
    [ split_and!; [ split; [tauto | eauto] | split; [intros [? [=]] | tauto ]
                  | by intros ? ? [= <- <-] ] | ].
  destruct (check_IfNil (NodesListSplitter arg)) eqn:E5;
    [ split_and!; [ split; [tauto | eauto] | split; [intros [? [=]] | tauto ]
                  | by intros ? ? [= <- <-] ] | ].
  destruct (check_IfNil (QueryService arg)) eqn:E6;
    [ split_and!; [ split; [tauto | eauto] | split; [intros [? [=]] | tauto ]
                  | by intros ? ? [= <- <-] ] | ].
  destruct (NodePrice arg) as [price|] eqn:E7;
    [ | split_and!; [ split; [tauto | eauto] | split; [intros [? [=]] | tauto ]
                    | by intros ? ? [= <- <-] ] ].
  destruct (Z.leb_spec price 0) as [Hle|Hgt].
  - split_and!.
    + split; [intros _ | eauto]. do 7 right. eauto.
    + split; [intros [? [=]] | intros Hn]. exfalso. apply Hn. do 7 right. eauto.
    + by intros ? ? [= <- <-].
  - split_and!.
    + split; [intros [? [=]] | ].
      intros [?|[?|[?|[?|[?|[?|[?|(q & [= <-] & ?)]]]]]]]; try congruence. lia.
    + split; [intros _ | eauto].
      intros [?|[?|[?|[?|[?|[?|[?|(q & [= <-] & ?)]]]]]]]; try congruence. lia.
    + by intros ? ? [= <- <-].
Qed.

(** ** The metrics counters *)

Lemma counter_insert_dom (key : string) (x y : metric) (m : gmap string metric) :
  m !! key = Some x -> dom (<[key := y]> m) = dom m.
Proof. intros H. apply dom_insert_lookup_L. by rewrite H. Qed.

Lemma wrap64_range z : 0 <= wrap64 z < 2 ^ 64.
Proof. unfold wrap64. apply Z.mod_pos_bound. lia. Qed.

Lemma uint64_range_insert (key : string) (v : Z) (m : gmap string metric) :
  uint64_range m -> 0 <= v < 2 ^ 64 -> uint64_range (<[key := MUint64 v]> m).
Proof.
  intros Hm Hv k v'. rewrite lookup_insert. case_decide.
  - by intros [= <-].
  - apply Hm.
Qed.

(** C9.  The three counters never create a key, leave every other key
    alone, and change the map only when the key holds a [uint64]: the
    value then becomes the wrapped sum, or the predecessor for
    [Decrement], which leaves a stored 0 as it is, so that the result is
    never below zero (and never above the value before). *)
Theorem counters_spec (key : string) (val : Z) (m : gmap string metric) :
  (dom (Increment key m) = dom m /\
   dom (AddUint64 key val m) = dom m /\
   dom (Decrement key m) = dom m) /\
  (forall k, k <> key ->
     Increment key m !! k = m !! k /\
     AddUint64 key val m !! k = m !! k /\
     Decrement key m !! k = m !! k) /\
  ((forall v, m !! key <> Some (MUint64 v)) ->
     Increment key m = m /\ AddUint64 key val m = m /\ Decrement key m = m) /\
  (forall v, m !! key = Some (MUint64 v) ->
     Increment key m = <[key := MUint64 (wrap64 (v + 1))]> m /\
     AddUint64 key val m = <[key := MUint64 (wrap64 (v + val))]> m /\
     Decrement key m = (if v =? 0 then m else <[key := MUint64 (wrap64 (v - 1))]> m)) /\
  (m !! key = Some (MUint64 0) -> Decrement key m = m) /\
  (forall v, m !! key = Some (MUint64 v) -> 0 <= v < 2 ^ 64 ->
     Decrement key m !! key = Some (MUint64 (Z.max 0 (v - 1))) /\
     0 <= Z.max 0 (v - 1) <= v) /\
  (uint64_range m ->
     uint64_range (Increment key m) /\
     uint64_range (AddUint64 key val m) /\
     uint64_range (Decrement key m)).
Proof.
  unfold Increment, AddUint64, Decrement.
  destruct (m !! key) as [[v| |]|] eqn:E.
  - split_and!.
    + by eapply counter_insert_dom.
    + by eapply counter_insert_dom.
    + destruct (v =? 0); [done | by eapply counter_insert_dom].
    + intros k Hk. rewrite !lookup_insert_ne by done.
      destruct (v =? 0); by rewrite ?lookup_insert_ne.
    + intros H. by destruct (H v).
    + by intros ? [= <-].
    + by intros [= ->].
    + intros ? [= <-] Hv. destruct (Z.eqb_spec v 0) as [->|Hne].
      * by rewrite E.
      * rewrite lookup_insert_eq. unfold wrap64.
        rewrite Z.mod_small by lia. split; [f_equal; f_equal|]; lia.
    + intros Hm. split_and!; try (apply uint64_range_insert; [done | apply wrap64_range]).
      destruct (v =? 0); [done|].
      apply uint64_range_insert; [done | apply wrap64_range].
  - by split_and!.
  - by split_and!.
  - by split_and!.
Qed.

(** ** The owner's figures *)

(** C3, as the formulas have it.  With a non-negative total top-up and
    at least one node counted on either side, an owner whose qualified
    auction nodes are fewer than its auction nodes has a
    [qualifiedTopUpPerNode] of at least its [topUpPerNode], and a greater
    one as soon as its [topUpPerNode] is at least
    [numActiveNodes + numQualifiedAuctionNodes], the number of nodes the
    top-up is then spread over.  Below that the two floor divisions can
    give the same figure. *)
Theorem qualifiedTopUpPerNode_ge (total : Z) (nActive nAuction nQualified : nat) :
  0 <= total ->
  (1 <= nActive + nAuction)%nat ->
  (1 <= nActive + nQualified)%nat ->
  (nQualified < nAuction)%nat ->
  spec_topUpPerNode total (nActive + nAuction)
    <= spec_qualifiedTopUpPerNode total nActive nQualified /\
  (Z.of_nat (nActive + nQualified) <= spec_topUpPerNode total (nActive + nAuction) ->
   spec_topUpPerNode total (nActive + nAuction)
     < spec_qualifiedTopUpPerNode total nActive nQualified).
Proof.
  intros Ht Hs Hq Hlt. unfold spec_topUpPerNode, spec_qualifiedTopUpPerNode. split.
  - apply Z.div_le_compat_l; lia.
  - set (n := Z.of_nat (nActive + nAuction)).
    set (m := Z.of_nat (nActive + nQualified)).
    assert (0 < m < n) as Hmn by lia.
    intros Hq'. set (q := total / n) in *.
    assert (n * q <= total) as Hlow by (apply Z.mul_div_le; lia).
    assert (q + 1 <= total / m); [|lia].
    apply Z.div_le_lower_bound; [lia | nia].
Qed.

Lemma qualifiedTopUpPerNode_ge_witness :
  spec_topUpPerNode 100 (1 + 3) <= spec_qualifiedTopUpPerNode 100 1 1 /\
  (Z.of_nat (1 + 1) <= spec_topUpPerNode 100 (1 + 3) ->
   spec_topUpPerNode 100 (1 + 3) < spec_qualifiedTopUpPerNode 100 1 1).
Proof. apply (qualifiedTopUpPerNode_ge 100 1 3 1); lia. Defined.

(** The claim as the specification has it fails: the inequality is not
    strict.  An owner with a total top-up of 10, two active nodes and
    three auction nodes of which two qualify has 10 / 5 = 2 per node and
    10 / 4 = 2 per qualified node; and without top-up both figures are
    0. *)
Lemma qualifiedTopUpPerNode_not_strict :
  (0 <= 10 /\ (1 <= 2 + 3)%nat /\ (1 <= 2 + 2)%nat /\ (2 < 3)%nat) /\
  spec_topUpPerNode 10 (2 + 3) = 2 /\
  spec_qualifiedTopUpPerNode 10 2 2 = 2 /\
  spec_topUpPerNode 0 (1 + 3) = spec_qualifiedTopUpPerNode 0 1 1.
Proof. split; [lia|]. by vm_compute. Qed.

Lemma prefix_spec (p s : string) :
  String.prefix p s = true <-> exists b, s = (p ++ b)%string.
Proof.
  revert s. induction p as [|c p IH]; intros s.
  - split; [intros _; by exists s | intros _; by destruct s].
  - destruct s as [|d s]; simpl; [split; [done | by intros [b [=]]]|].
    destruct (Ascii.ascii_dec c d) as [->|Hne].
    + rewrite IH. split; intros [b Hb]; exists b.
      * by rewrite Hb.
      * by injection Hb.
    + split; [done | intros [b [= <- _]]; done].
Qed.

Lemma strings_Contains_spec (s substr : string) :
  strings_Contains s substr = true <-> exists a b, s = (a ++ substr ++ b)%string.
Proof.
  induction s as [|c s IH].
  - destruct substr as [|d substr]; simpl.
    + split; [intros _; by exists EmptyString, EmptyString | done].
    + split; [done | intros (a & b & H); by destruct a].
  - change (strings_Contains (String c s) substr)
      with (String.prefix substr (String c s) || strings_Contains s substr).
    rewrite orb_true_iff, IH, prefix_spec. split.
    + intros [[b Hb]|(a & b & Hab)].
      * by exists EmptyString, b.
      * exists (String c a), b. by rewrite Hab.
    + intros (a & b & H). destruct a as [|c' a].
      * left. by exists b.
      * right. injection H as _ H. by exists a, b.
Qed.

Lemma setter_lookup_ne (key k : string) (x : metric) (m : gmap string metric) :
  k <> key -> <[key := x]> m !! k = m !! k.
Proof. intros. by rewrite lookup_insert_ne. Qed.

(** X5.  The setters and the readers round-trip: a value read back with
    the reader of its own type is the value stored; read with the reader
    of another type, or under a key that is absent, it is the zero value
    (0 or the empty string); a setter leaves the readings of every other
    key alone, and the last store under a key wins, whatever the type
    stored before. *)
Theorem set_load_round_trip (key : string) (u i : Z) (s : string) (m : gmap string metric) :
  (loadUint64Metric key (SetUInt64Value key u m) = u /\
   loadStringMetric key (SetStringValue key s m) = s) /\
  (loadUint64Metric key (SetInt64Value key i m) = 0 /\
   loadUint64Metric key (SetStringValue key s m) = 0 /\
   loadStringMetric key (SetUInt64Value key u m) = EmptyString /\
   loadStringMetric key (SetInt64Value key i m) = EmptyString) /\
  (m !! key = None ->
     loadUint64Metric key m = 0 /\ loadStringMetric key m = EmptyString) /\
  (forall k, k <> key ->
     (loadUint64Metric k (SetUInt64Value key u m) = loadUint64Metric k m /\
      loadUint64Metric k (SetInt64Value key i m) = loadUint64Metric k m /\
      loadUint64Metric k (SetStringValue key s m) = loadUint64Metric k m) /\
     (loadStringMetric k (SetUInt64Value key u m) = loadStringMetric k m /\
      loadStringMetric k (SetInt64Value key i m) = loadStringMetric k m /\
      loadStringMetric k (SetStringValue key s m) = loadStringMetric k m)) /\
  (SetUInt64Value key u (SetStringValue key s m) = SetUInt64Value key u m /\
   SetStringValue key s (SetInt64Value key i m) = SetStringValue key s m /\
   SetInt64Value key i (SetUInt64Value key u m) = SetInt64Value key i m).
Proof.
  unfold loadUint64Metric, loadStringMetric, SetUInt64Value, SetInt64Value, SetStringValue.
  split; [|split; [|split; [|split]]].
  - by rewrite !lookup_insert_eq.
  - by rewrite !lookup_insert_eq.
  - by intros ->.
  - intros k Hk. by rewrite !setter_lookup_ne.
  - split_and!; apply insert_insert_eq.
Qed.

Lemma wrap64_add_l (a b : Z) : wrap64 (wrap64 a + b) = wrap64 (a + b).
Proof. unfold wrap64. by rewrite Zplus_mod_idemp_l. Qed.

Lemma wrap64_small (v : Z) : 0 <= v < 2 ^ 64 -> wrap64 v = v.
Proof. intros. unfold wrap64. by rewrite Z.mod_small. Qed.

Lemma iter_Increment (key : string) (v : Z) (m : gmap string metric) (n : nat) :
  m !! key = Some (MUint64 v) -> 0 <= v < 2 ^ 64 ->
  Nat.iter n (Increment key) m = <[key := MUint64 (wrap64 (v + Z.of_nat n))]> m.
Proof.
  intros Hm Hv. induction n as [|n IH].
  - simpl. rewrite Z.add_0_r, wrap64_small by done. by rewrite insert_id.
  - rewrite Nat.iter_succ, IH. unfold Increment.
    rewrite lookup_insert_eq, insert_insert_eq, wrap64_add_l.
    do 3 f_equal. lia.
Qed.

(** X6.  How the counters compose: [Increment] is [AddUint64] of 1; two
    [AddUint64] add up (modulo 2^64); a counter set to 0 and incremented
    [n] times reads [n] modulo 2^64; and after [SetInt64Value] or
    [SetStringValue] under the key the three counters change nothing. *)
Theorem counters_compose (key : string) (a b i : Z) (s : string) (n : nat)
    (m : gmap string metric) :
  Increment key m = AddUint64 key 1 m /\
  AddUint64 key a (AddUint64 key b m) = AddUint64 key (a + b) m /\
  loadUint64Metric key (Nat.iter n (Increment key) (SetUInt64Value key 0 m))
    = wrap64 (Z.of_nat n) /\
  Increment key (SetInt64Value key i m) = SetInt64Value key i m /\
  AddUint64 key a (SetInt64Value key i m) = SetInt64Value key i m /\
  Decrement key (SetInt64Value key i m) = SetInt64Value key i m /\
  Increment key (SetStringValue key s m) = SetStringValue key s m /\
  AddUint64 key a (SetStringValue key s m) = SetStringValue key s m /\
  Decrement key (SetStringValue key s m) = SetStringValue key s m.
Proof.
  split; [done|]. split.
  { unfold AddUint64. destruct (m !! key) as [[v| |]|] eqn:E; rewrite ?E; try done.
    rewrite lookup_insert_eq, insert_insert_eq, wrap64_add_l.
    do 3 f_equal. lia. }
  split.
  { rewrite (iter_Increment key 0) by (by apply lookup_insert_eq || lia).
    unfold loadUint64Metric. by rewrite lookup_insert_eq. }
  unfold Increment, AddUint64, Decrement, SetInt64Value, SetStringValue.
  by rewrite !lookup_insert_eq.
Qed.

(** X7.  [Decrement] undoes [Increment] and [Increment] undoes
    [Decrement], except at the two ends of [uint64]: incrementing the
    largest value wraps to 0, which [Decrement] leaves at 0; decrementing
    0 does nothing, so that the increment after it gives 1. *)
Theorem Increment_Decrement_inverse (key : string) (v : Z) (m : gmap string metric) :
  m !! key = Some (MUint64 v) -> 0 <= v < 2 ^ 64 ->
  Decrement key (Increment key m)
    = (if v =? 2 ^ 64 - 1 then <[key := MUint64 0]> m else m) /\
  Increment key (Decrement key m)
    = (if v =? 0 then <[key := MUint64 1]> m else m).
Proof.
  intros Hm Hv. unfold Increment, Decrement. rewrite Hm. split.
  - rewrite lookup_insert_eq. destruct (Z.eqb_spec v (2 ^ 64 - 1)) as [->|Hne].
    + by vm_compute (wrap64 _).
    + rewrite (wrap64_small (v + 1)) by lia.
      destruct (Z.eqb_spec (v + 1) 0); [lia|].
      rewrite insert_insert_eq, wrap64_small by lia.
      replace (v + 1 - 1) with v by lia. by apply insert_id.
  - destruct (Z.eqb_spec v 0) as [->|Hne].
    + rewrite Hm. by vm_compute (wrap64 _).
    + rewrite lookup_insert_eq, insert_insert_eq, wrap64_add_l.
      replace (v - 1 + 1) with v by lia. rewrite wrap64_small by done.
      by apply insert_id.
Qed.

Lemma Increment_Decrement_inverse_witness :
  Decrement "erd_current_round" (Increment "erd_current_round" sample_metrics)
    = (if 120 =? 2 ^ 64 - 1 then <["erd_current_round" := MUint64 0]> sample_metrics
       else sample_metrics) /\
  Increment "erd_current_round" (Decrement "erd_current_round" sample_metrics)
    = (if 120 =? 0 then <["erd_current_round" := MUint64 1]> sample_metrics
       else sample_metrics).
Proof.
  apply (Increment_Decrement_inverse "erd_current_round" 120 sample_metrics);
    [reflexivity | lia].
Defined.

(** *** The two views by name *)

Lemma Range_fold (skip : string -> bool) (entries : list (string * metric))
    (acc : gmap string metric) :
  NoDup entries.*1 ->
  foldl (fun statusMetricsMap '(keyString, value) =>
           if skip keyString then statusMetricsMap
           else <[keyString := value]> statusMetricsMap) acc entries
  = list_to_map (filter (fun kv => skip kv.1 = false) entries) ∪ acc.
Proof.
  revert acc. induction entries as [|[k v] entries IH]; intros acc Hnd.
  - simpl. by rewrite (left_id_L ∅ (∪)).
  - apply NoDup_cons in Hnd as [Hk Hnd]. cbn [foldl].
    rewrite filter_cons. cbn [fst]. destruct (skip k) eqn:Hs.
    + rewrite decide_False by done. by apply IH.
    + rewrite decide_True by done. rewrite IH by done.
      cbn [list_to_map foldr uncurry]. rewrite <- insert_union_l.
      apply symmetry, insert_union_r, not_elem_of_list_to_map_1.
      intros Hin. apply Hk. apply list_elem_of_fmap in Hin as ([k' v'] & -> & Hin).
      apply list_elem_of_filter in Hin as [_ Hin].
      apply list_elem_of_fmap. by exists (k', v').
Qed.

Lemma Range_view (skip : string -> bool) (nodeMetrics : gmap string metric)
    (entries : list (string * metric)) (k : string) (v : metric) :
  range_order nodeMetrics entries ->
  foldl (fun statusMetricsMap '(keyString, value) =>
           if skip keyString then statusMetricsMap
           else <[keyString := value]> statusMetricsMap)
        (∅ : gmap string metric) entries !! k = Some v
  <-> nodeMetrics !! k = Some v /\ skip k = false.
Proof.
  intros Hperm. unfold range_order in Hperm.
  assert (NoDup entries.*1) as Hnd.
  { rewrite Hperm. apply NoDup_fst_map_to_list. }
  rewrite Range_fold, (right_id_L ∅ (∪)) by done.
  rewrite <- elem_of_list_to_map.
  - rewrite list_elem_of_filter, Hperm, elem_of_map_to_list. cbn [fst]. tauto.

  - eapply sublist_NoDup; [exact Hnd | apply fmap_sublist, sublist_filter].
Qed.

(** X8.  [StatusMetricsMapWithoutP2P] and [StatusP2pMetricsMap] split the
    metrics map in two: whatever the orders in which the two calls of
    [Range] visit the entries, the first holds exactly the entries whose
    key does not contain "_p2p_", the second exactly those whose key
    does, with the values stored; the two are disjoint and together they
    are the metrics map. *)
Theorem status_maps_partition (nodeMetrics : gmap string metric)
    (entries1 entries2 : list (string * metric)) :
  range_order nodeMetrics entries1 ->
  range_order nodeMetrics entries2 ->
  let withoutP2P := StatusMetricsMapWithoutP2P entries1 in
  let p2p := StatusP2pMetricsMap entries2 in
  (forall k v, withoutP2P !! k = Some v <->
     nodeMetrics !! k = Some v /\ strings_Contains k "_p2p_" = false) /\
  (forall k v, p2p !! k = Some v <->
     nodeMetrics !! k = Some v /\ strings_Contains k "_p2p_" = true) /\
  withoutP2P ##ₘ p2p /\
  withoutP2P ∪ p2p = nodeMetrics.
Proof.
  intros H1 H2 withoutP2P p2p.
  assert (forall k v, withoutP2P !! k = Some v <->
            nodeMetrics !! k = Some v /\ strings_Contains k "_p2p_" = false) as Hw.
  { intros k v. by apply (Range_view (fun k => strings_Contains k "_p2p_")). }
  assert (forall k v, p2p !! k = Some v <->
            nodeMetrics !! k = Some v /\ strings_Contains k "_p2p_" = true) as Hp.
  { intros k v. subst p2p. unfold StatusP2pMetricsMap.
    rewrite (Range_view (fun k => negb (strings_Contains k "_p2p_")) nodeMetrics) by done.
    by rewrite negb_false_iff. }
  split_and!; [done | done | |].
  - apply map_disjoint_spec. intros k x y Hx%Hw Hy%Hp. destruct Hx, Hy. congruence.
  - apply map_eq. intros k. apply option_eq. intros v.
    rewrite lookup_union_Some_raw, Hw, Hp. split.
    + intros [[? _]|[_ [? _]]]; done.
    + intros Hk. destruct (strings_Contains k "_p2p_") eqn:E; [right | by left].
      split; [|done]. destruct (withoutP2P !! k) as [x|] eqn:Ex; [|done].
      apply Hw in Ex as [_ ?]. congruence.
Qed.

Lemma status_maps_partition_witness :
  let withoutP2P := StatusMetricsMapWithoutP2P (map_to_list sample_metrics) in
  let p2p := StatusP2pMetricsMap (reverse (map_to_list sample_metrics)) in
  (forall k v, withoutP2P !! k = Some v <->
     sample_metrics !! k = Some v /\ strings_Contains k "_p2p_" = false) /\
  (forall k v, p2p !! k = Some v <->
     sample_metrics !! k = Some v /\ strings_Contains k "_p2p_" = true) /\
  withoutP2P ##ₘ p2p /\
  withoutP2P ∪ p2p = sample_metrics.
Proof.
  apply (status_maps_partition sample_metrics).
  - unfold range_order. reflexivity.
  - unfold range_order. apply reverse_Permutation.
Defined.

(** *** The views by topic *)

Lemma loadUint64Metric_range (k : string) (m : gmap string metric) :
  uint64_range m -> 0 <= loadUint64Metric k m < 2 ^ 64.
Proof.
  intros Hm. unfold loadUint64Metric.
  destruct (m !! k) as [[v| |]|] eqn:E; try lia. by apply (Hm k).
Qed.

(** X9.  [EpochMetrics], for pairwise different metric names and a map
    whose [uint64] values are in range: the four metrics read are
    reported as read (0 when absent or of another type), and the rounds
    passed in the current epoch are the [uint64] difference of the
    current round and the round at epoch start, which is the difference
    when the epoch start is not ahead and wraps to 2^64 minus the
    distance when it is (a current round that was never set reads 0). *)
Theorem EpochMetrics_rounds_passed (core : coreMetrics) (nodeMetrics : gmap string metric) :
  NoDup [MetricEpochNumber core; MetricRoundsPerEpoch core; MetricCurrentRound core;
         MetricRoundAtEpochStart core; MetricRoundsPassedInCurrentEpoch core] ->
  uint64_range nodeMetrics ->
  let currentRound := loadUint64Metric (MetricCurrentRound core) nodeMetrics in
  let roundNumberAtEpochStart := loadUint64Metric (MetricRoundAtEpochStart core) nodeMetrics in
  let epochMetrics := EpochMetrics core nodeMetrics in
  epochMetrics !! MetricEpochNumber core
    = Some (MUint64 (loadUint64Metric (MetricEpochNumber core) nodeMetrics)) /\
  epochMetrics !! MetricRoundsPerEpoch core
    = Some (MUint64 (loadUint64Metric (MetricRoundsPerEpoch core) nodeMetrics)) /\
  epochMetrics !! MetricCurrentRound core = Some (MUint64 currentRound) /\
  epochMetrics !! MetricRoundAtEpochStart core = Some (MUint64 roundNumberAtEpochStart) /\
  epochMetrics !! MetricRoundsPassedInCurrentEpoch core
    = Some (MUint64 (if roundNumberAtEpochStart <=? currentRound
                     then currentRound - roundNumberAtEpochStart
                     else 2 ^ 64 - (roundNumberAtEpochStart - currentRound))) /\
  uint64_range epochMetrics.
Proof.
  intros Hnd Hm currentRound roundNumberAtEpochStart epochMetrics.
  pose proof (loadUint64Metric_range (MetricCurrentRound core) _ Hm) as [??].
  pose proof (loadUint64Metric_range (MetricRoundAtEpochStart core) _ Hm) as [??].
  assert (wrap64 (currentRound - roundNumberAtEpochStart)
          = if roundNumberAtEpochStart <=? currentRound
            then currentRound - roundNumberAtEpochStart
            else 2 ^ 64 - (roundNumberAtEpochStart - currentRound)) as Hw.
  { unfold wrap64. destruct (Z.leb_spec roundNumberAtEpochStart currentRound).
    - apply Z.mod_small. lia.
    - symmetry. apply (Z.mod_unique _ _ (-1)); lia. }
  subst epochMetrics. unfold EpochMetrics. cbv zeta.
  fold currentRound roundNumberAtEpochStart. rewrite Hw.
  rewrite !NoDup_cons, !not_elem_of_cons in Hnd. destruct_and!.
  split_and!.
  - rewrite !lookup_insert_ne by congruence. apply lookup_insert_eq.
  - rewrite !lookup_insert_ne by congruence. apply lookup_insert_eq.
  - rewrite !lookup_insert_ne by congruence. apply lookup_insert_eq.
  - rewrite !lookup_insert_ne by congruence. apply lookup_insert_eq.
  - apply lookup_insert_eq.
  - intros k v Hk.
    repeat (apply lookup_insert_Some in Hk as [[_ [= <-]]|[_ Hk]]);
      [..| by rewrite lookup_empty in Hk]; try by apply loadUint64Metric_range.
    destruct (Z.leb_spec roundNumberAtEpochStart currentRound); lia.
Qed.

Lemma sample_metrics_range : uint64_range sample_metrics.
Proof.
  intros k v Hk. unfold sample_metrics in Hk.
  repeat (apply lookup_insert_Some in Hk as [[_ Hk]|[_ Hk]];
          [first [discriminate Hk | injection Hk as <-; lia]|]).
  by rewrite lookup_empty in Hk.
Qed.

Lemma EpochMetrics_rounds_passed_witness :
  let currentRound := loadUint64Metric (MetricCurrentRound sample_core) sample_metrics in
  let roundNumberAtEpochStart :=
    loadUint64Metric (MetricRoundAtEpochStart sample_core) sample_metrics in
  let epochMetrics := EpochMetrics sample_core sample_metrics in
  epochMetrics !! MetricEpochNumber sample_core
    = Some (MUint64 (loadUint64Metric (MetricEpochNumber sample_core) sample_metrics)) /\
  epochMetrics !! MetricRoundsPerEpoch sample_core
    = Some (MUint64 (loadUint64Metric (MetricRoundsPerEpoch sample_core) sample_metrics)) /\
  epochMetrics !! MetricCurrentRound sample_core = Some (MUint64 currentRound) /\
  epochMetrics !! MetricRoundAtEpochStart sample_core = Some (MUint64 roundNumberAtEpochStart) /\
  epochMetrics !! MetricRoundsPassedInCurrentEpoch sample_core
    = Some (MUint64 (if roundNumberAtEpochStart <=? currentRound
                     then currentRound - roundNumberAtEpochStart
                     else 2 ^ 64 - (roundNumberAtEpochStart - currentRound))) /\
  uint64_range epochMetrics.
Proof.
  apply (EpochMetrics_rounds_passed sample_core sample_metrics).
  - compute_done.
  - apply sample_metrics_range.
Defined.

(** X10.  The three views by topic always report all of their keys and
    nothing else, with values of the type the reader gives ([uint64]
    everywhere, a string for the chain id), whatever the node metrics
    hold under those keys; on an empty metrics map every value reported
    is 0 or the empty string. *)
Theorem views_report_zero_values (core : coreMetrics) (nodeMetrics : gmap string metric) :
  (dom (EpochMetrics core nodeMetrics)
     = list_to_set [MetricEpochNumber core; MetricRoundsPerEpoch core;
                    MetricCurrentRound core; MetricRoundAtEpochStart core;
                    MetricRoundsPassedInCurrentEpoch core] /\
   dom (ConfigMetrics core nodeMetrics)
     = list_to_set [MetricNumShardsWithoutMetacahin core; MetricNumNodesPerShard core;
                    MetricNumMetachainNodes core; MetricShardConsensusGroupSize core;
                    MetricMetaConsensusGroupSize core; MetricMinGasPrice core;
                    MetricMinGasLimit core; MetricGasPerDataByte core;
                    MetricChainId core; MetricRoundDuration core; MetricStartTime core] /\
   dom (NetworkMetrics core nodeMetrics)
     = list_to_set [MetricNonce core; MetricCurrentRound core; MetricEpochNumber core]) /\
  (forall k x,
     EpochMetrics core nodeMetrics !! k = Some x \/
     NetworkMetrics core nodeMetrics !! k = Some x ->
     exists z, x = MUint64 z) /\
  (forall k x,
     ConfigMetrics core nodeMetrics !! k = Some x ->
     (exists z, x = MUint64 z) \/
     (k = MetricChainId core /\ x = MString (loadStringMetric k nodeMetrics))) /\
  (forall k x,
     EpochMetrics core ∅ !! k = Some x \/ NetworkMetrics core ∅ !! k = Some x ->
     x = MUint64 0) /\
  (forall k x,
     ConfigMetrics core ∅ !! k = Some x -> x = MUint64 0 \/ x = MString EmptyString).
Proof.
  unfold EpochMetrics, ConfigMetrics, NetworkMetrics. cbv zeta.
  split; [|split; [|split; [|split]]].
  - rewrite !dom_insert_L, !dom_empty_L. cbn [list_to_set foldr].
    split_and!; apply set_eq; intros k;
      rewrite !elem_of_union, !elem_of_singleton, !elem_of_empty; tauto.
  - intros k x [Hk|Hk];
      repeat (apply lookup_insert_Some in Hk as [[_ <-]|[_ Hk]]; [by eexists|]);
      by rewrite lookup_empty in Hk.
  - intros k x Hk.
    repeat (apply lookup_insert_Some in Hk as [[<- <-]|[_ Hk]];
            [first [by left; eexists | by right]|]).
    by rewrite lookup_empty in Hk.
  - intros k x [Hk|Hk];
      repeat (apply lookup_insert_Some in Hk as [[_ <-]|[_ Hk]]; [done|]);
      by rewrite lookup_empty in Hk.
  - intros k x Hk.
    repeat (apply lookup_insert_Some in Hk as [[_ <-]|[_ Hk]];
            [first [by left | by right]|]).
    by rewrite lookup_empty in Hk.
Qed.

Lemma hasDst_spec (dest : Z) (h : MiniBlockHeader.t) :
  hasDst dest h = true <->
  MiniBlockHeader.ReceiverShardID h = dest /\ MiniBlockHeader.SenderShardID h <> dest.
Proof.
  unfold hasDst. rewrite andb_true_iff, negb_true_iff, Z.eqb_eq, Z.eqb_neq. tauto.
Qed.

Lemma foldl_hasDst (dest : Z) (l acc : list MiniBlockHeader.t) :
  foldl (fun mbHdrs mbHdr => if hasDst dest mbHdr then mbHdrs ++ [mbHdr] else mbHdrs) acc l
  = acc ++ filter (fun h => MiniBlockHeader.ReceiverShardID h = dest /\
                            MiniBlockHeader.SenderShardID h <> dest) l.
Proof.
  revert acc. induction l as [|h l IH]; intros acc; cbn [foldl].
  - by rewrite filter_nil, app_nil_r.
  - rewrite IH, filter_cons. destruct (hasDst dest h) eqn:E.
    + rewrite decide_True by by apply hasDst_spec. by rewrite <- app_assoc.
    + rewrite decide_False; [done|]. rewrite <- hasDst_spec. congruence.
Qed.

Lemma foldl_ShardInfo (dest : Z) (infos : list ShardData.t) (acc : list MiniBlockHeader.t) :
  foldl (fun mbHdrs shardInfo_i =>
           if ShardData.ShardID shardInfo_i =? dest then mbHdrs
           else
             foldl (fun mbHdrs mbHdr =>
                      if hasDst dest mbHdr then mbHdrs ++ [mbHdr] else mbHdrs)
                   mbHdrs (ShardData.ShardMiniBlockHeaders shardInfo_i))
        acc infos
  = acc ++ filter (fun h => MiniBlockHeader.ReceiverShardID h = dest /\
                            MiniBlockHeader.SenderShardID h <> dest)
             (concat (ShardData.ShardMiniBlockHeaders <$>
                        filter (fun shardData => ShardData.ShardID shardData <> dest) infos)).
Proof.
  revert acc. induction infos as [|sd infos IH]; intros acc; cbn [foldl].
  - by rewrite app_nil_r.
  - rewrite filter_cons. destruct (Z.eqb_spec (ShardData.ShardID sd) dest) as [He|Hne].
    + rewrite decide_False by (intros ?; done). by rewrite IH.
    + rewrite decide_True by done. rewrite foldl_hasDst, IH.
      cbn [fmap list_fmap concat]. by rewrite filter_app, <- app_assoc.
Qed.

(** X11.  [getAllMiniBlocksWithDst] returns, in the order of the meta
    block, the mini block headers received by the destination shard and
    not sent by it, out of the headers of the shard data of the other
    shards followed by the meta block's own headers; the headers listed
    under the shard data of the destination shard itself are skipped
    altogether. *)
Theorem getAllMiniBlocksWithDst_spec (metaBlock : MetaBlock.t) (destShardID : Z) :
  let wanted mbHdr :=
    MiniBlockHeader.ReceiverShardID mbHdr = destShardID /\
    MiniBlockHeader.SenderShardID mbHdr <> destShardID in
  getAllMiniBlocksWithDst metaBlock destShardID
  = filter wanted
      (concat (ShardData.ShardMiniBlockHeaders <$>
                 filter (fun shardData => ShardData.ShardID shardData <> destShardID)
                        (MetaBlock.ShardInfo metaBlock))
       ++ MetaBlock.MiniBlockHeaders metaBlock) /\
  Forall wanted (getAllMiniBlocksWithDst metaBlock destShardID).
Proof.
  intros wanted.
  assert (getAllMiniBlocksWithDst metaBlock destShardID
          = filter wanted
              (concat (ShardData.ShardMiniBlockHeaders <$>
                 filter (fun shardData => ShardData.ShardID shardData <> destShardID)
                        (MetaBlock.ShardInfo metaBlock))
               ++ MetaBlock.MiniBlockHeaders metaBlock)) as ->.
  { unfold getAllMiniBlocksWithDst.
    by rewrite foldl_hasDst, foldl_ShardInfo, filter_app. }
  split; [done|]. apply Forall_forall. intros h Hh.
  by apply list_elem_of_filter in Hh as [? _].
Qed.

Lemma nonceToHash_fold_Some (entries : list (string * MetaBlock.t)) (acc : gmap Z string)
    (nonce : Z) (hash : string) :
  foldl (fun nonceToHashMap '(metaBlockHash, metaBlock) =>
           <[MetaBlock.GetNonce metaBlock := metaBlockHash]> nonceToHashMap)
        acc entries !! nonce = Some hash ->
  (exists metaBlock, (hash, metaBlock) ∈ entries /\ MetaBlock.GetNonce metaBlock = nonce) \/
  acc !! nonce = Some hash.
Proof.
  revert acc. induction entries as [|[h mb] entries IH]; intros acc; cbn [foldl].
  - by right.
  - intros [(mb' & Hin & Hn)|Hacc]%IH.
    + left. exists mb'. split; [by apply list_elem_of_further | done].
    + apply lookup_insert_Some in Hacc as [[<- <-]|[_ Hacc]]; [|by right].
      left. exists mb. split; [apply list_elem_of_here | done].
Qed.

Lemma nonceToHash_fold_is_Some (entries : list (string * MetaBlock.t)) (acc : gmap Z string)
    (nonce : Z) :
  (exists hash metaBlock,
     (hash, metaBlock) ∈ entries /\ MetaBlock.GetNonce metaBlock = nonce) \/
  is_Some (acc !! nonce) ->
  is_Some (foldl (fun nonceToHashMap '(metaBlockHash, metaBlock) =>
                    <[MetaBlock.GetNonce metaBlock := metaBlockHash]> nonceToHashMap)
                 acc entries !! nonce).
Proof.
  revert acc. induction entries as [|[h mb] entries IH]; intros acc; cbn [foldl].
  - intros [(? & ? & Hin & _)|?]; [by apply elem_of_nil in Hin | done].
  - intros [(h' & mb' & Hin & Hn)|Hacc]; apply IH.
    + apply elem_of_cons in Hin as [[= -> ->]|Hin].
      * right. rewrite <- Hn, lookup_insert_eq. by eexists.
      * left. by exists h', mb'.
    + right. apply lookup_insert_is_Some'. by right.
Qed.

Lemma createNonceToHashMap_sound (unFinishedMetaBlocks : gmap string MetaBlock.t)
    (visited : list (string * MetaBlock.t)) (nonce : Z) (hash : string) :
  range_order unFinishedMetaBlocks visited ->
  createNonceToHashMap visited !! nonce = Some hash ->
  exists metaBlock,
    unFinishedMetaBlocks !! hash = Some metaBlock /\ MetaBlock.GetNonce metaBlock = nonce.
Proof.
  intros Hv [(mb & Hin & Hn)|Hn]%nonceToHash_fold_Some.
  - exists mb. split; [|done]. apply elem_of_map_to_list. by rewrite <- Hv.
  - by rewrite lookup_empty in Hn.
Qed.

Lemma createNonceToHashMap_complete (unFinishedMetaBlocks : gmap string MetaBlock.t)
    (visited : list (string * MetaBlock.t)) (hash : string) (metaBlock : MetaBlock.t) :
  range_order unFinishedMetaBlocks visited ->
  unFinishedMetaBlocks !! hash = Some metaBlock ->
  is_Some (createNonceToHashMap visited !! MetaBlock.GetNonce metaBlock).
Proof.
  intros Hv Hm. apply nonceToHash_fold_is_Some. left. exists hash, metaBlock.
  split; [|done]. rewrite Hv. by apply elem_of_map_to_list.
Qed.

Lemma createNonceToHashMap_distinct (unFinishedMetaBlocks : gmap string MetaBlock.t)
    (visited : list (string * MetaBlock.t)) (hash : string) (metaBlock : MetaBlock.t) :
  distinct_nonces unFinishedMetaBlocks ->
  range_order unFinishedMetaBlocks visited ->
  unFinishedMetaBlocks !! hash = Some metaBlock ->
  createNonceToHashMap visited !! MetaBlock.GetNonce metaBlock = Some hash.
Proof.
  intros Hd Hv Hm.
  destruct (createNonceToHashMap_complete _ _ _ _ Hv Hm) as [h' Hh'].
  destruct (createNonceToHashMap_sound _ _ _ _ Hv Hh') as (mb' & Hm' & Hn').
  by rewrite Hh', (Hd h' hash mb' metaBlock Hm' Hm Hn').
Qed.

Lemma createNonceToHashMap_order (unFinishedMetaBlocks : gmap string MetaBlock.t)
    (visited visited' : list (string * MetaBlock.t)) :
  distinct_nonces unFinishedMetaBlocks ->
  range_order unFinishedMetaBlocks visited ->
  range_order unFinishedMetaBlocks visited' ->
  createNonceToHashMap visited' = createNonceToHashMap visited.
Proof.
  intros Hd Hv Hv'. apply map_eq. intros nonce. apply option_eq. intros hash. split.
  - intros (mb & Hm & <-)%(createNonceToHashMap_sound _ _ _ _ Hv').
    by apply (createNonceToHashMap_distinct unFinishedMetaBlocks).
  - intros (mb & Hm & <-)%(createNonceToHashMap_sound _ _ _ _ Hv).
    by apply (createNonceToHashMap_distinct unFinishedMetaBlocks).
Qed.

(** X12.  [createNonceToHashMap], for any order in which [range] visits
    the map: every hash in the result is the key of a meta block of the
    map with that nonce (so that the second lookup in
    [computePendingMiniBlocksFromUnFinishedMetaBlocks] finds a block),
    every nonce of the map is a key of the result, and when no two meta
    blocks of the map share a nonce each nonce is mapped to the hash of
    its block. *)
Theorem createNonceToHashMap_spec (unFinishedMetaBlocks : gmap string MetaBlock.t)
    (visited : list (string * MetaBlock.t)) :
  range_order unFinishedMetaBlocks visited ->
  let nonceToHashMap := createNonceToHashMap visited in
  (forall nonce hash, nonceToHashMap !! nonce = Some hash ->
     exists metaBlock,
       unFinishedMetaBlocks !! hash = Some metaBlock /\
       MetaBlock.GetNonce metaBlock = nonce) /\
  (forall hash metaBlock, unFinishedMetaBlocks !! hash = Some metaBlock ->
     is_Some (nonceToHashMap !! MetaBlock.GetNonce metaBlock)) /\
  (distinct_nonces unFinishedMetaBlocks ->
     forall hash metaBlock, unFinishedMetaBlocks !! hash = Some metaBlock ->
       nonceToHashMap !! MetaBlock.GetNonce metaBlock = Some hash).
Proof.
  intros Hord nonceToHashMap. split_and!.
  - intros nonce hash. by apply createNonceToHashMap_sound.
  - intros hash mb. by apply createNonceToHashMap_complete.
  - intros Hd hash mb. by apply (createNonceToHashMap_distinct unFinishedMetaBlocks).
Qed.

Section PendingLoop.

Variable destShardID : Z.
Variable unFinishedMetaBlocks : gmap string MetaBlock.t.
Variable nonceToHashMap : gmap Z string.
Variable epochStartMetaBlockNonce : Z.
Hypothesis Hend : epochStartMetaBlockNonce < 2 ^ 64 - 1.

Let loop (fuel : nat) := pendingMiniBlocks_loop fuel destShardID unFinishedMetaBlocks
  nonceToHashMap epochStartMetaBlockNonce.

Lemma pendingMiniBlocks_loop_step (fuel : nat) (nonce : Z) (acc : list MiniBlockHeader.t) :
  0 <= nonce <= epochStartMetaBlockNonce ->
  loop (S fuel) nonce acc
  = match resolve_nonce unFinishedMetaBlocks nonceToHashMap nonce with
    | Some metaBlock =>
        loop fuel (nonce + 1) (acc ++ getAllMiniBlocksWithDst metaBlock destShardID)
    | None => Some (inr ErrWrongUnFinishedMetaHdrsMap)
    end.
Proof.
  intros Hn. unfold loop, resolve_nonce. cbn [pendingMiniBlocks_loop].
  rewrite (proj2 (Z.leb_le _ _)) by lia.
  rewrite (wrap64_small (nonce + 1)) by lia.
  destruct (nonceToHashMap !! nonce) as [h|]; [|done].
  by destruct (unFinishedMetaBlocks !! h).
Qed.

Lemma pendingMiniBlocks_loop_done (fuel : nat) (nonce : Z) (acc : list MiniBlockHeader.t) :
  epochStartMetaBlockNonce < nonce ->
  loop (S fuel) nonce acc = Some (inl acc).
Proof.
  intros Hn. unfold loop. cbn [pendingMiniBlocks_loop].
  by rewrite (proj2 (Z.leb_gt _ _)) by lia.
Qed.

Lemma pendingMiniBlocks_loop_chain (fuel : nat) (nonce : Z) (acc : list MiniBlockHeader.t)
    (blocks : list MetaBlock.t) :
  0 <= nonce ->
  length blocks = Z.to_nat (epochStartMetaBlockNonce + 1 - nonce) ->
  (forall (i : nat) metaBlock, blocks !! i = Some metaBlock ->
     resolve_nonce unFinishedMetaBlocks nonceToHashMap (nonce + Z.of_nat i) = Some metaBlock) ->
  (length blocks < fuel)%nat ->
  loop fuel nonce acc
  = Some (inl (acc ++ concat ((fun metaBlock =>
                                 getAllMiniBlocksWithDst metaBlock destShardID) <$> blocks))).
Proof.
  revert fuel nonce acc. induction blocks as [|b blocks IH]; intros fuel nonce acc Hn Hlen Hch Hf.
  - destruct fuel as [|fuel]; [simpl in Hf; lia|].
    rewrite pendingMiniBlocks_loop_done by (simpl in Hlen; lia).
    by rewrite app_nil_r.
  - destruct fuel as [|fuel]; [simpl in Hf; lia|]. cbn [length] in Hlen, Hf.
    rewrite pendingMiniBlocks_loop_step by lia.
    specialize (Hch 0%nat b eq_refl) as H0. rewrite Z.add_0_r in H0. rewrite H0.
    rewrite IH; [| lia | lia | | lia].
    + cbn [fmap list_fmap concat]. by rewrite <- app_assoc.
    + intros i mb Hi. replace (nonce + 1 + Z.of_nat i) with (nonce + Z.of_nat (S i)) by lia.
      by apply Hch.
Qed.

Lemma pendingMiniBlocks_loop_total (fuel : nat) (nonce : Z) (acc : list MiniBlockHeader.t) :
  0 <= nonce ->
  (Z.to_nat (epochStartMetaBlockNonce + 1 - nonce) < fuel)%nat ->
  (exists pendingMiniBlocks, loop fuel nonce acc = Some (inl pendingMiniBlocks)) \/
  loop fuel nonce acc = Some (inr ErrWrongUnFinishedMetaHdrsMap).
Proof.
  revert nonce acc. induction fuel as [|fuel IH]; intros nonce acc Hn Hf; [lia|].
  destruct (Z_lt_le_dec epochStartMetaBlockNonce nonce) as [Hgt|Hle].
  - left. eexists. by apply pendingMiniBlocks_loop_done.
  - rewrite pendingMiniBlocks_loop_step by lia.
    destruct (resolve_nonce _ _ _); [|by right]. apply IH; lia.
Qed.

Lemma pendingMiniBlocks_loop_gap (fuel : nat) (nonce missing : Z)
    (acc : list MiniBlockHeader.t) :
  0 <= nonce <= missing ->
  missing <= epochStartMetaBlockNonce ->
  resolve_nonce unFinishedMetaBlocks nonceToHashMap missing = None ->
  (Z.to_nat (missing - nonce) < fuel)%nat ->
  loop fuel nonce acc = Some (inr ErrWrongUnFinishedMetaHdrsMap).
Proof.
  revert nonce acc. induction fuel as [|fuel IH]; intros nonce acc Hn Hm Hr Hf; [lia|].
  rewrite pendingMiniBlocks_loop_step by lia.
  destruct (Z.eq_dec nonce missing) as [->|Hne]; [by rewrite Hr|].
  destruct (resolve_nonce _ _ nonce); [|done]. apply IH; [lia | done | done | lia].
Qed.

End PendingLoop.

(** X13.  [computePendingMiniBlocksFromUnFinishedMetaBlocks] along a
    chain: when the first pending meta block is in the map and every
    nonce after its own, up to the nonce of the epoch start meta block,
    resolves to a meta block, the result (given fuel for the iterations)
    is the pending headers of the epoch start shard data, unfiltered,
    followed by the headers for that shard of the chain's meta blocks in
    the order of their nonces; without such a nonce it is the pending
    headers alone. *)
Theorem computePendingMiniBlocks_along_chain (fuel : nat)
    (epochStartShardData : EpochStartShardData.t)
    (unFinishedMetaBlocks : gmap string MetaBlock.t) (nonceToHashMap : gmap Z string)
    (epochStartMetaBlockNonce : Z) (blocks : list MetaBlock.t) :
  epochStartMetaBlockNonce < 2 ^ 64 - 1 ->
  pending_chain unFinishedMetaBlocks nonceToHashMap epochStartMetaBlockNonce
    epochStartShardData blocks ->
  (length blocks < fuel)%nat ->
  computePendingMiniBlocksFromUnFinishedMetaBlocks fuel epochStartShardData
    unFinishedMetaBlocks nonceToHashMap epochStartMetaBlockNonce
  = Some (inl (pending_along epochStartShardData blocks)).
Proof.
  intros He (first & Hfirst & Hrange & Hlen & Hch) Hf.
  unfold computePendingMiniBlocksFromUnFinishedMetaBlocks, pending_along.
  rewrite Hfirst. cbv zeta. rewrite wrap64_small by lia. cbn [app].
  apply pendingMiniBlocks_loop_chain; [done | lia | | | done].
  - rewrite Hlen. f_equal. lia.
  - intros i mb Hi. rewrite <- (Hch i mb Hi). f_equal.
Qed.

Lemma computePendingMiniBlocks_along_chain_witness :
  computePendingMiniBlocksFromUnFinishedMetaBlocks 3 sample_shard0
    sample_unFinished (createNonceToHashMap (map_to_list sample_unFinished)) 12
  = Some (inl (pending_along sample_shard0 [sample_meta11; sample_meta12])).
Proof.
  apply (computePendingMiniBlocks_along_chain 3 sample_shard0 sample_unFinished
           (createNonceToHashMap (map_to_list sample_unFinished)) 12
           [sample_meta11; sample_meta12]).
  - lia.
  - exists sample_meta10. split_and!; [reflexivity | done | done | reflexivity |].
    intros [|[|i]] mb [= <-]; vm_compute; reflexivity.
  - simpl. lia.
Defined.

(** X14.  [computePendingMiniBlocksFromUnFinishedMetaBlocks] fails with
    [ErrWrongUnFinishedMetaHdrsMap] when the first pending meta block is
    not in the map, and when some nonce after its own and up to that of
    the epoch start meta block resolves to no meta block (no hash for
    the nonce, or no block for the hash); nothing it had collected is
    returned. *)
Theorem computePendingMiniBlocks_wrong_map (fuel : nat)
    (epochStartShardData : EpochStartShardData.t)
    (unFinishedMetaBlocks : gmap string MetaBlock.t) (nonceToHashMap : gmap Z string)
    (epochStartMetaBlockNonce : Z) :
  let firstHash :=
    string_of_list_byte (EpochStartShardData.FirstPendingMetaBlock epochStartShardData) in
  unFinishedMetaBlocks !! firstHash = None \/
  (exists firstPendingMetaBlock missing,
     unFinishedMetaBlocks !! firstHash = Some firstPendingMetaBlock /\
     0 <= MetaBlock.GetNonce firstPendingMetaBlock < 2 ^ 64 - 1 /\
     epochStartMetaBlockNonce < 2 ^ 64 - 1 /\
     MetaBlock.GetNonce firstPendingMetaBlock < missing <= epochStartMetaBlockNonce /\
     resolve_nonce unFinishedMetaBlocks nonceToHashMap missing = None /\
     (Z.to_nat (missing - MetaBlock.GetNonce firstPendingMetaBlock) <= fuel)%nat) ->
  computePendingMiniBlocksFromUnFinishedMetaBlocks fuel epochStartShardData
    unFinishedMetaBlocks nonceToHashMap epochStartMetaBlockNonce
  = Some (inr ErrWrongUnFinishedMetaHdrsMap).
Proof.
  intros firstHash [Hnone|(first & missing & Hfirst & Hrange & He & Hm & Hres & Hf)];
    unfold computePendingMiniBlocksFromUnFinishedMetaBlocks; fold firstHash.
  - by rewrite Hnone.
  - rewrite Hfirst. cbv zeta. rewrite wrap64_small by lia.
    apply (pendingMiniBlocks_loop_gap _ _ _ _ He _ _ missing); [lia | lia | done | lia].
Qed.

Lemma computePendingMiniBlocks_wrong_map_witness :
  computePendingMiniBlocksFromUnFinishedMetaBlocks 2 sample_shard0
    (delete "h12" sample_unFinished)
    (createNonceToHashMap (map_to_list sample_unFinished)) 12
  = Some (inr ErrWrongUnFinishedMetaHdrsMap).
Proof.
  apply (computePendingMiniBlocks_wrong_map 2 sample_shard0 (delete "h12" sample_unFinished)
           (createNonceToHashMap (map_to_list sample_unFinished)) 12).
  right. exists sample_meta10, 12.
  split_and!; [reflexivity | done | done | done | done | done | vm_compute; reflexivity
               | simpl; lia].
Defined.

Lemma pendingMiniBlocks_loop_decides (destShardID : Z)
    (unFinishedMetaBlocks : gmap string MetaBlock.t) (nonceToHashMap : gmap Z string)
    (epochStartMetaBlockNonce : Z) (fuel : nat) (nonce : Z) (acc : list MiniBlockHeader.t) :
  epochStartMetaBlockNonce < 2 ^ 64 - 1 ->
  0 <= nonce ->
  (Z.to_nat (epochStartMetaBlockNonce + 1 - nonce) < fuel)%nat ->
  let result := pendingMiniBlocks_loop fuel destShardID unFinishedMetaBlocks nonceToHashMap
                  epochStartMetaBlockNonce nonce acc in
  ((exists pendingMiniBlocks, result = Some (inl pendingMiniBlocks)) /\
   forall n, nonce <= n <= epochStartMetaBlockNonce ->
     is_Some (resolve_nonce unFinishedMetaBlocks nonceToHashMap n)) \/
  (result = Some (inr ErrWrongUnFinishedMetaHdrsMap) /\
   exists n, nonce <= n <= epochStartMetaBlockNonce /\
     resolve_nonce unFinishedMetaBlocks nonceToHashMap n = None).
Proof.
  intros He. revert nonce acc. induction fuel as [|fuel IH]; intros nonce acc Hn Hf; [lia|].
  cbv zeta. destruct (Z_lt_le_dec epochStartMetaBlockNonce nonce) as [Hgt|Hle].
  - left. rewrite pendingMiniBlocks_loop_done by done. split; [by eexists | intros; lia].
  - rewrite pendingMiniBlocks_loop_step by (done || lia).
    destruct (resolve_nonce _ _ nonce) as [mb|] eqn:Hres.
    + destruct (IH (nonce + 1) (acc ++ getAllMiniBlocksWithDst mb destShardID))
        as [[Hok Hall]|[Herr (n & Hn' & Hnone)]]; [lia | lia | left | right].
      * split; [done|]. intros n Hn'. destruct (Z.eq_dec n nonce) as [->|?].
        -- by rewrite Hres.
        -- apply Hall. lia.
      * split; [done|]. exists n. split; [lia | done].
    + right. split; [done|]. exists nonce. split; [lia | done].
Qed.

Lemma resolve_created (unFinishedMetaBlocks : gmap string MetaBlock.t)
    (visited : list (string * MetaBlock.t)) (nonce : Z) :
  range_order unFinishedMetaBlocks visited ->
  (forall metaBlock,
     resolve_nonce unFinishedMetaBlocks (createNonceToHashMap visited) nonce = Some metaBlock ->
     MetaBlock.GetNonce metaBlock = nonce /\
     exists hash, unFinishedMetaBlocks !! hash = Some metaBlock) /\
  (resolve_nonce unFinishedMetaBlocks (createNonceToHashMap visited) nonce = None <->
   forall hash metaBlock, unFinishedMetaBlocks !! hash = Some metaBlock ->
     MetaBlock.GetNonce metaBlock <> nonce).
Proof.
  intros Hv. unfold resolve_nonce.
  destruct (createNonceToHashMap visited !! nonce) as [h|] eqn:Hh.
  - destruct (createNonceToHashMap_sound _ _ _ _ Hv Hh) as (mb & Hm & Hn).
    rewrite Hm. split.
    + intros ? [= <-]. split; [done | by exists h].
    + split; [done|]. intros Hno. by destruct (Hno h mb Hm).
  - split; [done|]. split; [|done]. intros _ hash mb Hm <-.
    destruct (createNonceToHashMap_complete _ _ _ _ Hv Hm) as [? Hs]. congruence.
Qed.

Lemma resolve_created_distinct (unFinishedMetaBlocks : gmap string MetaBlock.t)
    (visited : list (string * MetaBlock.t)) (hash : string) (metaBlock : MetaBlock.t) :
  distinct_nonces unFinishedMetaBlocks ->
  range_order unFinishedMetaBlocks visited ->
  unFinishedMetaBlocks !! hash = Some metaBlock ->
  resolve_nonce unFinishedMetaBlocks (createNonceToHashMap visited)
    (MetaBlock.GetNonce metaBlock) = Some metaBlock.
Proof.
  intros Hd Hv Hm. unfold resolve_nonce.
  by rewrite (createNonceToHashMap_distinct _ _ _ _ Hd Hv Hm).
Qed.

Lemma unfinished_chain_pending (unFinishedMetaBlocks : gmap string MetaBlock.t)
    (visited : list (string * MetaBlock.t)) (epochStartMetaBlockNonce : Z)
    (epochStartShardData : EpochStartShardData.t) (blocks : list MetaBlock.t) :
  distinct_nonces unFinishedMetaBlocks ->
  nonces_in_range unFinishedMetaBlocks ->
  range_order unFinishedMetaBlocks visited ->
  unfinished_chain unFinishedMetaBlocks epochStartMetaBlockNonce epochStartShardData blocks ->
  pending_chain unFinishedMetaBlocks (createNonceToHashMap visited) epochStartMetaBlockNonce
    epochStartShardData blocks.
Proof.
  intros Hd Hr Hv (first & Hfirst & Hlen & Hch). exists first.
  split_and!; [done | by apply (Hr _ _ Hfirst).. | done |].
  intros i mb Hi. destruct (Hch i mb Hi) as [<- [h Hm]].
  by apply (resolve_created_distinct _ _ h).
Qed.

Lemma GetPendingMiniBlocks_loop_chains (fuel : nat)
    (unFinishedMetaBlocksMap : gmap string MetaBlock.t) (nonceToHashMap : gmap Z string)
    (epochStartMetaBlockNonce : Z) (lastFinalizedHeaders : list EpochStartShardData.t)
    (blockss : list (list MetaBlock.t)) (acc : list MiniBlockHeader.t) :
  epochStartMetaBlockNonce < 2 ^ 64 - 1 ->
  Forall2 (pending_chain unFinishedMetaBlocksMap nonceToHashMap epochStartMetaBlockNonce)
    lastFinalizedHeaders blockss ->
  Forall (fun blocks => (length blocks < fuel)%nat) blockss ->
  GetPendingMiniBlocks_loop fuel unFinishedMetaBlocksMap nonceToHashMap
    epochStartMetaBlockNonce lastFinalizedHeaders acc
  = Some (inl (acc ++ concat (zip_with pending_along lastFinalizedHeaders blockss))).
Proof.
  intros He Hch. revert acc. induction Hch as [|d blocks ds blockss Hd Hch IH]; intros acc Hf.
  - simpl. by rewrite app_nil_r.
  - apply Forall_cons in Hf as [Hf Hfs]. cbn [GetPendingMiniBlocks_loop].
    destruct Hd as (first & Hfirst & Hrange & Hlen & Hd).
    unfold computePendingMiniBlocksFromUnFinishedMetaBlocks.
    rewrite Hfirst. cbv zeta. rewrite wrap64_small by lia. cbn [app].
    rewrite (pendingMiniBlocks_loop_chain _ _ _ _ He _ _ _ blocks); [| lia | | | done].
    + rewrite IH by done. cbn [zip_with concat]. unfold pending_along at 2.
      by rewrite <- !app_assoc.
    + rewrite Hlen. f_equal. lia.
    + intros i mb Hi. rewrite <- (Hd i mb Hi). f_equal.
Qed.

(** X15.  [GetPendingMiniBlocks] on a map without two blocks of the same
    nonce: when every shard of the epoch start meta block has its chain
    of unfinished meta blocks with consecutive nonces, the result is the
    concatenation, in the order of the shards, of what each shard
    collects along its chain. *)
Theorem GetPendingMiniBlocks_spec (fuel : nat) (epochStartMetaBlock : MetaBlock.t)
    (unFinishedMetaBlocksMap : gmap string MetaBlock.t)
    (visited : list (string * MetaBlock.t)) (blockss : list (list MetaBlock.t)) :
  let lastFinalizedHeaders :=
    EpochStart.LastFinalizedHeaders (MetaBlock.EpochStart epochStartMetaBlock) in
  range_order unFinishedMetaBlocksMap visited ->
  distinct_nonces unFinishedMetaBlocksMap ->
  nonces_in_range unFinishedMetaBlocksMap ->
  MetaBlock.GetNonce epochStartMetaBlock < 2 ^ 64 - 1 ->
  Forall2 (unfinished_chain unFinishedMetaBlocksMap (MetaBlock.GetNonce epochStartMetaBlock))
    lastFinalizedHeaders blockss ->
  Forall (fun blocks => (length blocks < fuel)%nat) blockss ->
  GetPendingMiniBlocks fuel (Some epochStartMetaBlock) (Some unFinishedMetaBlocksMap) visited
  = Some (inl (concat (zip_with pending_along lastFinalizedHeaders blockss))).
Proof.
  intros shards Hv Hd Hr He Hch Hf. unfold GetPendingMiniBlocks. cbv zeta.
  fold shards. rewrite (GetPendingMiniBlocks_loop_chains _ _ _ _ _ blockss); [done..| | done].
  eapply Forall2_impl; [exact Hch|]. intros d blocks. by apply unfinished_chain_pending.
Qed.

Lemma sample_unFinished_distinct : distinct_nonces sample_unFinished.
Proof.
  intros h1 h2 mb1 mb2 H1 H2. unfold sample_unFinished in H1, H2.
  repeat (apply lookup_insert_Some in H1 as [[<- <-]|[_ H1]]);
    [..| by rewrite lookup_empty in H1];
    repeat (apply lookup_insert_Some in H2 as [[<- <-]|[_ H2]]);
    try (by rewrite lookup_empty in H2); done.
Qed.

Lemma sample_unFinished_range : nonces_in_range sample_unFinished.
Proof.
  intros h mb H. unfold sample_unFinished in H.
  repeat (apply lookup_insert_Some in H as [[_ <-]|[_ H]]; [done|]).
  by rewrite lookup_empty in H.
Qed.

Lemma sample_chain0 :
  unfinished_chain sample_unFinished 12 sample_shard0 [sample_meta11; sample_meta12].
Proof.
  exists sample_meta10. split_and!; [reflexivity | reflexivity |].
  intros [|[|i]] mb [= <-].
  - split; [done | by exists "h11"%string].
  - split; [done | by exists "h12"%string].
Qed.

Lemma sample_chain1 : unfinished_chain sample_unFinished 12 sample_shard1 [].
Proof. exists sample_meta12. split_and!; [reflexivity | reflexivity |]. by intros i mb. Qed.

Lemma GetPendingMiniBlocks_spec_witness :
  GetPendingMiniBlocks 3 (Some sample_epochStart) (Some sample_unFinished)
    (map_to_list sample_unFinished)
  = Some (inl (concat (zip_with pending_along [sample_shard0; sample_shard1]
                         [[sample_meta11; sample_meta12]; []]))).
Proof.
  apply (GetPendingMiniBlocks_spec 3 sample_epochStart sample_unFinished
           (map_to_list sample_unFinished) [[sample_meta11; sample_meta12]; []]).
  - unfold range_order. reflexivity.
  - apply sample_unFinished_distinct.
  - apply sample_unFinished_range.
  - reflexivity.
  - repeat constructor; [apply sample_chain0 | apply sample_chain1].
  - repeat constructor; simpl; lia.
Defined.

(** What the sample run returns: the pending header of shard 0, then the
    headers for shard 0 of the meta blocks 11 and 12. *)
Lemma sample_pending :
  GetPendingMiniBlocks 3 (Some sample_epochStart) (Some sample_unFinished)
    (map_to_list sample_unFinished)
  = Some (inl [sample_hdr "p" 0 0; sample_hdr "b" 1 0; sample_hdr "f" 4294967295 0]).
Proof. vm_compute. reflexivity. Qed.

Lemma computePending_decides (fuel : nat) (epochStartShardData : EpochStartShardData.t)
    (unFinishedMetaBlocks : gmap string MetaBlock.t) (visited : list (string * MetaBlock.t))
    (epochStartMetaBlockNonce : Z) :
  range_order unFinishedMetaBlocks visited ->
  nonces_in_range unFinishedMetaBlocks ->
  epochStartMetaBlockNonce < 2 ^ 64 - 1 ->
  (Z.to_nat epochStartMetaBlockNonce < fuel)%nat ->
  let result := computePendingMiniBlocksFromUnFinishedMetaBlocks fuel epochStartShardData
                  unFinishedMetaBlocks (createNonceToHashMap visited)
                  epochStartMetaBlockNonce in
  ((exists pendingMiniBlocks, result = Some (inl pendingMiniBlocks)) /\
   ~ wrong_for unFinishedMetaBlocks epochStartMetaBlockNonce epochStartShardData) \/
  (result = Some (inr ErrWrongUnFinishedMetaHdrsMap) /\
   wrong_for unFinishedMetaBlocks epochStartMetaBlockNonce epochStartShardData).
Proof.
  intros Hv Hr He Hf. unfold computePendingMiniBlocksFromUnFinishedMetaBlocks, wrong_for.
  cbv zeta. destruct (unFinishedMetaBlocks !! _) as [first|] eqn:Hfirst; [|by right].
  pose proof (Hr _ _ Hfirst) as Hn. rewrite wrap64_small by lia.
  edestruct (pendingMiniBlocks_loop_decides (EpochStartShardData.ShardID epochStartShardData)
               unFinishedMetaBlocks (createNonceToHashMap visited) epochStartMetaBlockNonce
               fuel (MetaBlock.GetNonce first + 1)) as [[Hok Hall]|[Herr (n & Hn' & Hnone)]];
    [done | lia | lia | left | right].
  - split; [exact Hok|]. intros (n & Hn' & Hno).
    destruct (Hall n) as [mb Hmb]; [lia|].
    apply (resolve_created _ _ _ Hv) in Hno. congruence.
  - split; [exact Herr|]. exists n. split; [lia|]. by apply (resolve_created _ _ _ Hv).
Qed.

(** X16.  [GetPendingMiniBlocks] with a meta block and a map that are not
    nil returns (given fuel for the nonces up to that of the epoch start
    meta block), and its only error is [ErrWrongUnFinishedMetaHdrsMap]:
    it fails exactly when, for some shard of the epoch start meta block,
    the first pending meta block is missing from the map or some nonce
    after it is the nonce of no block of the map. *)
Theorem GetPendingMiniBlocks_fails_iff (fuel : nat) (epochStartMetaBlock : MetaBlock.t)
    (unFinishedMetaBlocksMap : gmap string MetaBlock.t)
    (visited : list (string * MetaBlock.t)) :
  let lastFinalizedHeaders :=
    EpochStart.LastFinalizedHeaders (MetaBlock.EpochStart epochStartMetaBlock) in
  let result :=
    GetPendingMiniBlocks fuel (Some epochStartMetaBlock) (Some unFinishedMetaBlocksMap)
      visited in
  range_order unFinishedMetaBlocksMap visited ->
  nonces_in_range unFinishedMetaBlocksMap ->
  MetaBlock.GetNonce epochStartMetaBlock < 2 ^ 64 - 1 ->
  (Z.to_nat (MetaBlock.GetNonce epochStartMetaBlock) < fuel)%nat ->
  ((exists pendingMiniBlocks, result = Some (inl pendingMiniBlocks)) \/
   result = Some (inr ErrWrongUnFinishedMetaHdrsMap)) /\
  (result = Some (inr ErrWrongUnFinishedMetaHdrsMap) <->
   exists shardData,
     shardData ∈ lastFinalizedHeaders /\
     wrong_for unFinishedMetaBlocksMap (MetaBlock.GetNonce epochStartMetaBlock) shardData).
Proof.
  intros shards result Hv Hr He Hf. subst result. unfold GetPendingMiniBlocks. cbv zeta.
  fold shards. generalize (@nil MiniBlockHeader.t) as acc.
  induction shards as [|d ds IH]; intros acc.
  - cbn [GetPendingMiniBlocks_loop]. split; [left; by eexists|].
    split; [done|]. intros (d & Hd & _). by apply elem_of_nil in Hd.
  - cbn [GetPendingMiniBlocks_loop].
    destruct (computePending_decides fuel d unFinishedMetaBlocksMap visited
                (MetaBlock.GetNonce epochStartMetaBlock) Hv Hr He Hf)
      as [[[l Hok] Hnw]|[Herr Hw]].
    + rewrite Hok. destruct (IH (acc ++ l)) as [IH1 IH2]. split; [exact IH1|].
      rewrite IH2. split.
      * intros (d' & Hd' & Hw'). exists d'. split; [by apply list_elem_of_further | done].
      * intros (d' & [->|Hd']%elem_of_cons & Hw'); [done|]. by exists d'.
    + rewrite Herr. split; [by right|]. split; [|done].
      intros _. exists d. split; [apply list_elem_of_here | done].
Qed.

Lemma GetPendingMiniBlocks_fails_iff_witness :
  let result :=
    GetPendingMiniBlocks 13 (Some sample_epochStart) (Some sample_unFinished)
      (map_to_list sample_unFinished) in
  ((exists pendingMiniBlocks, result = Some (inl pendingMiniBlocks)) \/
   result = Some (inr ErrWrongUnFinishedMetaHdrsMap)) /\
  (result = Some (inr ErrWrongUnFinishedMetaHdrsMap) <->
   exists shardData,
     shardData ∈ [sample_shard0; sample_shard1] /\
     wrong_for sample_unFinished 12 shardData).
Proof.
  apply (GetPendingMiniBlocks_fails_iff 13 sample_epochStart sample_unFinished
           (map_to_list sample_unFinished)).
  - unfold range_order. reflexivity.
  - apply sample_unFinished_range.
  - reflexivity.
  - simpl. lia.
Defined.

Lemma createNonceToHashMap_spec_witness :
  let nonceToHashMap := createNonceToHashMap (map_to_list sample_unFinished) in
  (forall nonce hash, nonceToHashMap !! nonce = Some hash ->
     exists metaBlock,
       sample_unFinished !! hash = Some metaBlock /\
       MetaBlock.GetNonce metaBlock = nonce) /\
  (forall hash metaBlock, sample_unFinished !! hash = Some metaBlock ->
     is_Some (nonceToHashMap !! MetaBlock.GetNonce metaBlock)) /\
  (distinct_nonces sample_unFinished ->
     forall hash metaBlock, sample_unFinished !! hash = Some metaBlock ->
       nonceToHashMap !! MetaBlock.GetNonce metaBlock = Some hash).
Proof.
  apply (createNonceToHashMap_spec sample_unFinished (map_to_list sample_unFinished)).
  unfold range_order. reflexivity.
Defined.

(** X17.  The nil checks of [GetPendingMiniBlocks] and its empty cases: a
    nil epoch start meta block is reported first, whatever the map; then
    a nil map; without shard data the result is the empty list, whatever
    the map holds and with no fuel; and with shard data and an empty map
    the first pending meta block cannot be found. *)
Theorem GetPendingMiniBlocks_nil_arguments (fuel : nat) (epochStartMetaBlock : MetaBlock.t)
    (unFinishedMetaBlocksMap : option (gmap string MetaBlock.t))
    (visited : list (string * MetaBlock.t)) :
  GetPendingMiniBlocks fuel None unFinishedMetaBlocksMap visited
    = Some (inr ErrNilEpochStartMetaBlock) /\
  GetPendingMiniBlocks fuel (Some epochStartMetaBlock) None visited
    = Some (inr ErrNilUnFinishedMetaBlocksMap) /\
  (EpochStart.LastFinalizedHeaders (MetaBlock.EpochStart epochStartMetaBlock) = [] ->
   forall unFinished,
     GetPendingMiniBlocks fuel (Some epochStartMetaBlock) (Some unFinished) visited
     = Some (inl [])) /\
  (EpochStart.LastFinalizedHeaders (MetaBlock.EpochStart epochStartMetaBlock) <> [] ->
   GetPendingMiniBlocks fuel (Some epochStartMetaBlock) (Some ∅) visited
   = Some (inr ErrWrongUnFinishedMetaHdrsMap)).
Proof.
  unfold GetPendingMiniBlocks. cbv zeta. split; [done|]. split; [done|]. split.
  - by intros ->.
  - destruct (EpochStart.LastFinalizedHeaders _) as [|d ds]; [done|]. intros _.
    cbn [GetPendingMiniBlocks_loop]. unfold computePendingMiniBlocksFromUnFinishedMetaBlocks.
    by rewrite lookup_empty.
Qed.

(** X18.  When no two unfinished meta blocks share a nonce, the result of
    [GetPendingMiniBlocks] does not depend on the order in which [range]
    visits the map in [createNonceToHashMap].  (With two blocks of the
    same nonce it does: [sample_order_matters].) *)
Theorem GetPendingMiniBlocks_any_order (fuel : nat) (epochStartMetaBlock : option MetaBlock.t)
    (unFinishedMetaBlocksMap : gmap string MetaBlock.t)
    (visited visited' : list (string * MetaBlock.t)) :
  distinct_nonces unFinishedMetaBlocksMap ->
  range_order unFinishedMetaBlocksMap visited ->
  range_order unFinishedMetaBlocksMap visited' ->
  GetPendingMiniBlocks fuel epochStartMetaBlock (Some unFinishedMetaBlocksMap) visited'
  = GetPendingMiniBlocks fuel epochStartMetaBlock (Some unFinishedMetaBlocksMap) visited.
Proof.
  intros Hd Hv Hv'. unfold GetPendingMiniBlocks. destruct epochStartMetaBlock; [|done].
  cbv zeta. by rewrite (createNonceToHashMap_order unFinishedMetaBlocksMap visited visited').
Qed.

Lemma GetPendingMiniBlocks_any_order_witness :
  GetPendingMiniBlocks 3 (Some sample_epochStart) (Some sample_unFinished)
    (reverse (map_to_list sample_unFinished))
  = GetPendingMiniBlocks 3 (Some sample_epochStart) (Some sample_unFinished)
      (map_to_list sample_unFinished).
Proof.
  apply (GetPendingMiniBlocks_any_order 3 (Some sample_epochStart) sample_unFinished).
  - apply sample_unFinished_distinct.
  - unfold range_order. reflexivity.
  - unfold range_order. apply reverse_Permutation.
Defined.

Lemma sample_order_matters :
  GetPendingMiniBlocks 3 (Some sample_epochStart) (Some sample_twins)
    (map_to_list sample_twins)
  = Some (inl [sample_hdr "p" 0 0; sample_hdr "b" 1 0; sample_hdr "f" 4294967295 0]) /\
  GetPendingMiniBlocks 3 (Some sample_epochStart) (Some sample_twins)
    (reverse (map_to_list sample_twins))
  = Some (inl [sample_hdr "p" 0 0; sample_hdr "z" 4294967295 0]).
Proof. split; vm_compute; reflexivity. Qed.

Section HardForkProperties.

Context {iface MiniBlock TransactionHandler HardForkBlockProcessor processorState : Type}.
Variable check_IfNil : iface -> bool.
Variable CalculateHash : iface -> iface -> MiniBlock -> list byte + string.
Variable processor_CreateBody :
  HardForkBlockProcessor -> processorState ->
  (option (Body.t MiniBlock) * list (option (MbInfo.t TransactionHandler)) + update_error)
  * processorState.

Implicit Types (args : ArgsHardForkProcessor iface)
  (mapBodies : gmap Z (option (Body.t MiniBlock)))
  (postMb : MbInfo.t TransactionHandler) (hashes : gset string).

Lemma hashMiniBlocks_ok args (miniBlocks : list MiniBlock) hashes :
  (forall miniBlock, miniBlock ∈ miniBlocks ->
     exists h, CalculateHash (Marshalizer args) (Hasher args) miniBlock = inl h) ->
  exists hashes',
    hashMiniBlocks CalculateHash args miniBlocks hashes = inl hashes' /\
    forall s, s ∈ hashes' <->
      s ∈ hashes \/
      exists miniBlock h,
        miniBlock ∈ miniBlocks /\
        CalculateHash (Marshalizer args) (Hasher args) miniBlock = inl h /\
        s = string_of_list_byte h.
Proof.
  revert hashes. induction miniBlocks as [|mb mbs IH]; intros hashes Hok.
  - exists hashes. split; [done|]. intros s. split; [by left|].
    intros [?|(? & ? & Hin & _)]; [done | by apply elem_of_nil in Hin].
  - destruct (Hok mb) as [h Hh]; [apply list_elem_of_here|].
    destruct (IH ({[string_of_list_byte h]} ∪ hashes)) as (hashes' & Hrun & Hchar).
    { intros mb' Hin. apply Hok. by apply list_elem_of_further. }
    exists hashes'. cbn [hashMiniBlocks]. rewrite Hh. split; [done|].
    intros s. rewrite Hchar, elem_of_union, elem_of_singleton. split.
    + intros [[->|?]|(mb' & h' & Hin & Hh' & ->)].
      * right. exists mb, h. split; [apply list_elem_of_here | done].
      * by left.
      * right. exists mb', h'. split; [by apply list_elem_of_further | done].
    + intros [?|(mb' & h' & [->|Hin]%elem_of_cons & Hh' & ->)].
      * left. by right.
      * left. left. congruence.
      * right. by exists mb', h'.
Qed.

Lemma hashBodies_ok args (shardIDs : list Z) mapBodies hashes :
  (forall shardID, shardID ∈ shardIDs ->
     exists body,
       mapBodies !! shardID = Some (Some body) /\
       forall miniBlock, miniBlock ∈ Body.MiniBlocks body ->
         exists h, CalculateHash (Marshalizer args) (Hasher args) miniBlock = inl h) ->
  exists hashes',
    hashBodies CalculateHash args shardIDs mapBodies hashes = Some (inl hashes') /\
    forall s, s ∈ hashes' <->
      s ∈ hashes \/
      exists shardID body miniBlock h,
        shardID ∈ shardIDs /\
        mapBodies !! shardID = Some (Some body) /\
        miniBlock ∈ Body.MiniBlocks body /\
        CalculateHash (Marshalizer args) (Hasher args) miniBlock = inl h /\
        s = string_of_list_byte h.
Proof.
  revert hashes. induction shardIDs as [|sid sids IH]; intros hashes Hok.
  - exists hashes. split; [done|]. intros s. split; [by left|].
    intros [?|(? & ? & ? & ? & Hin & _)]; [done | by apply elem_of_nil in Hin].
  - destruct (Hok sid) as (body & Hbody & Hmbs); [apply list_elem_of_here|].
    destruct (hashMiniBlocks_ok args (Body.MiniBlocks body) hashes Hmbs)
      as (hashes1 & Hrun1 & Hchar1).
    destruct (IH hashes1) as (hashes' & Hrun & Hchar).
    { intros sid' Hin. apply Hok. by apply list_elem_of_further. }
    exists hashes'. cbn [hashBodies]. rewrite Hbody, Hrun1. split; [done|].
    intros s. rewrite Hchar, Hchar1. split.
    + intros [[?|(mb & h & Hin & Hh & ->)]|(sid' & body' & mb & h & Hin & Hb & Hmb & Hh & ->)].
      * by left.
      * right. exists sid, body, mb, h. split; [apply list_elem_of_here | done].
      * right. exists sid', body', mb, h. split; [by apply list_elem_of_further | done].
    + intros [?|(sid' & body' & mb & h & [->|Hin]%elem_of_cons & Hb & Hmb & Hh & ->)].
      * left. by left.
      * left. right. exists mb, h. rewrite Hbody in Hb. by injection Hb as <-.
      * right. by exists sid', body', mb, h.
Qed.

Lemma hashBodies_hashed args (shardIDs : list Z) mapBodies hashes :
  bodies_hashed CalculateHash args shardIDs mapBodies hashes ->
  hashBodies CalculateHash args shardIDs mapBodies ∅ = Some (inl hashes).
Proof.
  intros [Hok Hchar]. destruct (hashBodies_ok args shardIDs mapBodies ∅ Hok)
    as (hashes' & -> & Hchar'). do 2 f_equal. apply set_eq. intros s.
  rewrite Hchar, Hchar'. split; [|by right]. intros [Hin|?]; [|done].
  by apply elem_of_empty in Hin.
Qed.

Lemma cleanPostMbs_run hashes (infos : list (MbInfo.t TransactionHandler))
    (cleaned : list (option (MbInfo.t TransactionHandler))) (calls : list logLine) :
  cleanPostMbs hashes (Some <$> infos) cleaned calls
  = Some (cleaned ++ (Some <$> filter (fun postMb =>
                         string_of_list_byte (MbInfo.MbHash postMb) ∉ hashes) infos),
          calls ++ (duplicate_found <$> filter (fun postMb =>
                         string_of_list_byte (MbInfo.MbHash postMb) ∈ hashes) infos)).
Proof.
  revert cleaned calls. induction infos as [|info infos IH]; intros cleaned calls.
  - simpl. by rewrite !app_nil_r.
  - cbn [fmap list_fmap cleanPostMbs]. rewrite !filter_cons. case_decide as Hin.
    + rewrite decide_False by (intros Hn; by apply Hn).
      rewrite (IH cleaned). cbn [fmap list_fmap]. by rewrite <- app_assoc.
    + rewrite decide_True by done.
      rewrite (IH (cleaned ++ [Some info])). cbn [fmap list_fmap]. by rewrite <- app_assoc.
Qed.

Lemma filter_kept_kept hashes (infos : list (MbInfo.t TransactionHandler)) :
  filter (fun postMb => string_of_list_byte (MbInfo.MbHash postMb) ∉ hashes)
    (filter (fun postMb => string_of_list_byte (MbInfo.MbHash postMb) ∉ hashes) infos)
  = filter (fun postMb => string_of_list_byte (MbInfo.MbHash postMb) ∉ hashes) infos.
Proof.
  induction infos as [|info infos IH]; [done|]. rewrite filter_cons. case_decide.
  - rewrite filter_cons, decide_True by done. by rewrite IH.
  - done.
Qed.

Lemma filter_kept_dropped hashes (infos : list (MbInfo.t TransactionHandler)) :
  filter (fun postMb => string_of_list_byte (MbInfo.MbHash postMb) ∈ hashes)
    (filter (fun postMb => string_of_list_byte (MbInfo.MbHash postMb) ∉ hashes) infos)
  = [].
Proof.
  induction infos as [|info infos IH]; [done|]. rewrite filter_cons. case_decide.
  - rewrite filter_cons, decide_False by done. by rewrite IH.
  - done.
Qed.

Lemma CleanDuplicates_run args mapBodies hashes (infos : list (MbInfo.t TransactionHandler)) :
  check_IfNil (Hasher args) = false ->
  check_IfNil (Marshalizer args) = false ->
  bodies_hashed CalculateHash args (ShardIDs args) mapBodies hashes ->
  CleanDuplicates check_IfNil CalculateHash args mapBodies (Some <$> infos)
  = Some (inl (Some <$> filter (fun postMb =>
                  string_of_list_byte (MbInfo.MbHash postMb) ∉ hashes) infos),
          duplicate_found <$> filter (fun postMb =>
                  string_of_list_byte (MbInfo.MbHash postMb) ∈ hashes) infos).
Proof.
  intros Hh Hm Hb. unfold CleanDuplicates.
  by rewrite Hh, Hm, (hashBodies_hashed _ _ _ _ Hb), cleanPostMbs_run.
Qed.

(** X19.  [CleanDuplicates] with a hasher and a marshalizer that are not
    nil, bodies that are present, not nil and hashed without error for
    every shard id, and post mini blocks that are not nil: the result is
    the post mini blocks whose hash is the hash of no mini block of these
    bodies, in their order; one call of [log.Debug] is made for each one
    dropped; and cleaning the result again changes nothing and logs
    nothing. *)
Theorem CleanDuplicates_spec args mapBodies hashes
    (infos : list (MbInfo.t TransactionHandler)) :
  check_IfNil (Hasher args) = false ->
  check_IfNil (Marshalizer args) = false ->
  bodies_hashed CalculateHash args (ShardIDs args) mapBodies hashes ->
  let kept :=
    filter (fun postMb => string_of_list_byte (MbInfo.MbHash postMb) ∉ hashes) infos in
  let dropped :=
    filter (fun postMb => string_of_list_byte (MbInfo.MbHash postMb) ∈ hashes) infos in
  CleanDuplicates check_IfNil CalculateHash args mapBodies (Some <$> infos)
    = Some (inl (Some <$> kept), duplicate_found <$> dropped) /\
  CleanDuplicates check_IfNil CalculateHash args mapBodies (Some <$> kept)
    = Some (inl (Some <$> kept), []).
Proof.
  intros Hh Hm Hb kept dropped. split; [by apply CleanDuplicates_run|].
  rewrite (CleanDuplicates_run _ _ hashes) by done. subst kept.
  by rewrite filter_kept_kept, filter_kept_dropped.
Qed.

Lemma hashMiniBlocks_failure args (hashed more : list MiniBlock) (miniBlock : MiniBlock)
    (err : string) hashes :
  (forall mb, mb ∈ hashed ->
     exists h, CalculateHash (Marshalizer args) (Hasher args) mb = inl h) ->
  CalculateHash (Marshalizer args) (Hasher args) miniBlock = inr err ->
  hashMiniBlocks CalculateHash args (hashed ++ miniBlock :: more) hashes
  = inr (ErrCollaborator err).
Proof.
  revert hashes. induction hashed as [|mb mbs IH]; intros hashes Hok Herr.
  - cbn [app hashMiniBlocks]. by rewrite Herr.
  - destruct (Hok mb) as [h Hh]; [apply list_elem_of_here|].
    cbn [app hashMiniBlocks]. rewrite Hh. apply IH; [|done].
    intros mb' Hin. apply Hok. by apply list_elem_of_further.
Qed.

Lemma hashBodies_app args (l1 l2 : list Z) mapBodies hashes :
  hashBodies CalculateHash args (l1 ++ l2) mapBodies hashes
  = match hashBodies CalculateHash args l1 mapBodies hashes with
    | Some (inl hashes') => hashBodies CalculateHash args l2 mapBodies hashes'
    | other => other
    end.
Proof.
  revert hashes. induction l1 as [|s l1 IH]; intros hashes; [done|].
  cbn [app hashBodies]. destruct (mapBodies !! s) as [[body|]|]; [|done..].
  destruct (hashMiniBlocks _ _ _ _); [apply IH | done].
Qed.

Lemma cleanPostMbs_nil hashes (postMbs cleaned : list (option (MbInfo.t TransactionHandler)))
    (calls : list logLine) :
  None ∈ postMbs -> cleanPostMbs hashes postMbs cleaned calls = None.
Proof.
  revert cleaned calls. induction postMbs as [|[info|] postMbs IH]; intros cleaned calls.
  - by intros ?%elem_of_nil.
  - intros [[=]|Hin]%elem_of_cons. cbn [cleanPostMbs]. case_decide; by apply IH.
  - done.
Qed.

(** X20.  The errors of [CleanDuplicates], in the order of its checks: a
    nil hasher, then a nil marshalizer, whatever the other arguments;
    then, at the first shard id that has no body in the map,
    [ErrNilBlockBody] (a body that is present but nil panics instead),
    or the error of [core.CalculateHash] at the first mini block it
    fails on; no call of [log.Debug] is made in these cases.  With
    bodies that are fine, a nil post mini block panics. *)
Theorem CleanDuplicates_errors args mapBodies
    (postMbs : list (option (MbInfo.t TransactionHandler))) :
  let result := CleanDuplicates check_IfNil CalculateHash args mapBodies postMbs in
  (check_IfNil (Hasher args) = true -> result = Some (inr ErrNilHasher, [])) /\
  (check_IfNil (Hasher args) = false -> check_IfNil (Marshalizer args) = true ->
   result = Some (inr ErrNilMarshalizer, [])) /\
  (check_IfNil (Hasher args) = false -> check_IfNil (Marshalizer args) = false ->
   forall (earlier : list Z) (shardID : Z) (rest : list Z) hashes,
     ShardIDs args = earlier ++ shardID :: rest ->
     bodies_hashed CalculateHash args earlier mapBodies hashes ->
     (mapBodies !! shardID = None -> result = Some (inr ErrNilBlockBody, [])) /\
     (mapBodies !! shardID = Some None -> result = None) /\
     (forall body (hashed : list MiniBlock) miniBlock (more : list MiniBlock) err,
        mapBodies !! shardID = Some (Some body) ->
        Body.MiniBlocks body = hashed ++ miniBlock :: more ->
        (forall mb, mb ∈ hashed ->
           exists h, CalculateHash (Marshalizer args) (Hasher args) mb = inl h) ->
        CalculateHash (Marshalizer args) (Hasher args) miniBlock = inr err ->
        result = Some (inr (ErrCollaborator err), []))) /\
  (check_IfNil (Hasher args) = false -> check_IfNil (Marshalizer args) = false ->
   forall hashes,
     bodies_hashed CalculateHash args (ShardIDs args) mapBodies hashes ->
     None ∈ postMbs -> result = None).
Proof.
  intros result. subst result. unfold CleanDuplicates.
  split; [by intros ->|]. split; [by intros -> ->|]. split.
  - intros -> -> earlier shardID rest hashes -> Hb.
    rewrite hashBodies_app, (hashBodies_hashed _ _ _ _ Hb). cbn [hashBodies].
    split; [by intros ->|]. split; [by intros ->|].
    intros body hashed mb more err -> -> Hok Herr.
    by rewrite (hashMiniBlocks_failure _ _ _ _ _ _ Hok Herr).
  - intros -> -> hashes Hb Hnil.
    by rewrite (hashBodies_hashed _ _ _ _ Hb), cleanPostMbs_nil.
Qed.




Implicit Types (mapHardForkBlockProcessor : gmap Z (option HardForkBlockProcessor)).



(** X22.  The edges of [CreateBody].  When the first shard id has no
    processor it fails with the map, the processors and the logger
    untouched, and when the first processor fails its error is returned
    with the map and the logger untouched; a nil processor makes it
    panic, and so does a processor that hands out a nil body without an
    error, and so does a body to be stored into a nil bodies map.  With a
    bodies map that is not nil, a nil hasher and one shard id, the
    processor has run, its body is stored and the call logged when
    [ErrNilHasher] is returned.  Without shard ids it returns no post
    mini blocks, whatever the bodies map, nil included. *)
Theorem CreateBody_edges args
    (mapBodies : option (gmap Z (option (Body.t MiniBlock)))) mapHardForkBlockProcessor
    (processors : processorState) :
  let result :=
    CreateBody check_IfNil CalculateHash processor_CreateBody args mapBodies
      mapHardForkBlockProcessor processors in
  (forall shardID rest,
     ShardIDs args = shardID :: rest ->
     mapHardForkBlockProcessor !! shardID = None ->
     result = Some (inr ErrNilHardForkBlockProcessor, HardForkState mapBodies processors [])) /\
  (forall shardID rest hardForkBlockProcessor err processors',
     ShardIDs args = shardID :: rest ->
     mapHardForkBlockProcessor !! shardID = Some (Some hardForkBlockProcessor) ->
     processor_CreateBody hardForkBlockProcessor processors = (inr err, processors') ->
     result = Some (inr err, HardForkState mapBodies processors' [])) /\
  (forall shardID rest,
     ShardIDs args = shardID :: rest ->
     mapHardForkBlockProcessor !! shardID = Some None ->
     result = None) /\
  (forall shardID rest hardForkBlockProcessor postMbs processors',
     ShardIDs args = shardID :: rest ->
     mapHardForkBlockProcessor !! shardID = Some (Some hardForkBlockProcessor) ->
     processor_CreateBody hardForkBlockProcessor processors
       = (inl (None, postMbs), processors') ->
     result = None) /\
  (forall shardID rest hardForkBlockProcessor body postMbs processors',
     ShardIDs args = shardID :: rest ->
     mapHardForkBlockProcessor !! shardID = Some (Some hardForkBlockProcessor) ->
     processor_CreateBody hardForkBlockProcessor processors
       = (inl (Some body, postMbs), processors') ->
     mapBodies = None ->
     result = None) /\
  (forall shardID hardForkBlockProcessor body postMbs processors' bodies,
     ShardIDs args = [shardID] ->
     mapHardForkBlockProcessor !! shardID = Some (Some hardForkBlockProcessor) ->
     processor_CreateBody hardForkBlockProcessor processors
       = (inl (Some body, postMbs), processors') ->
     mapBodies = Some bodies ->
     check_IfNil (Hasher args) = true ->
     result = Some (inr ErrNilHasher,
                    HardForkState (Some (<[shardID := Some body]> bodies)) processors'
                      [body_created body postMbs])) /\
  (ShardIDs args = [] ->
   check_IfNil (Hasher args) = false -> check_IfNil (Marshalizer args) = false ->
   result = Some (inl [], HardForkState mapBodies processors [])).
Proof.
  intros result. subst result. unfold CreateBody. split_and!.
  - intros s rest Hs Hp. rewrite Hs. cbn [CreateBody_loop]. by rewrite Hp.
  - intros s rest p err x' Hs Hp Hrun. rewrite Hs.
    cbn [CreateBody_loop hf_processors hf_bodies hf_calls]. by rewrite Hp, Hrun.
  - intros s rest Hs Hp. rewrite Hs. cbn [CreateBody_loop]. by rewrite Hp.
  - intros s rest p postMbs x' Hs Hp Hrun. rewrite Hs.
    cbn [CreateBody_loop hf_processors]. by rewrite Hp, Hrun.
  - intros s rest p body postMbs x' Hs Hp Hrun ->. rewrite Hs.
    cbn [CreateBody_loop hf_processors hf_bodies]. by rewrite Hp, Hrun.
  - intros s p body postMbs x' bodies Hs Hp Hrun -> Hnil. rewrite Hs.
    cbn [CreateBody_loop hf_processors hf_bodies hf_calls]. rewrite Hp, Hrun.
    unfold CleanDuplicates. rewrite Hnil. reflexivity.
  - intros Hs Hh Hm. unfold CleanDuplicates. rewrite Hs. cbn [CreateBody_loop hashBodies].
    rewrite Hh, Hm. reflexivity.
Qed.

End HardForkProperties.

Lemma sample_bodies_hashed :
  bodies_hashed sample_CalculateHash sample_args [0; 1] sample_bodies sample_hashes.
Proof.
  split.
  - intros s Hs. apply elem_of_cons in Hs as [->|Hs];
      [|apply list_elem_of_singleton in Hs as ->].
    + exists sample_body0. split; [done|]. intros mb Hmb.
      apply elem_of_cons in Hmb as [->|Hmb];
        [|apply list_elem_of_singleton in Hmb as ->]; by eexists.
    + exists sample_body1. split; [done|]. intros mb Hmb.
      apply list_elem_of_singleton in Hmb as ->. by eexists.
  - intros s. unfold sample_hashes. rewrite !elem_of_union, !elem_of_singleton. split.
    + intros [[->| ->]| ->].
      * exists 0, sample_body0, "mb1"%string. eexists.
        split_and!; [apply list_elem_of_here | done | apply list_elem_of_here | done..].
      * exists 0, sample_body0, "mb2"%string. eexists.
        split_and!; [apply list_elem_of_here | done
                     | apply list_elem_of_further, list_elem_of_here | done..].
      * exists 1, sample_body1, "mb3"%string. eexists.
        split_and!; [apply list_elem_of_further, list_elem_of_here | done
                     | apply list_elem_of_here | done..].
    + intros (sid & body & mb & h & Hs & Hb & Hmb & Hh & ->).
      apply elem_of_cons in Hs as [->|Hs];
        [|apply list_elem_of_singleton in Hs as ->]; injection Hb as <-.
      * apply elem_of_cons in Hmb as [->|Hmb];
          [|apply list_elem_of_singleton in Hmb as ->]; injection Hh as <-; auto.
      * apply list_elem_of_singleton in Hmb as ->. injection Hh as <-. auto.
Qed.

Lemma CleanDuplicates_spec_witness :
  let infos := [sample_postMb "mb2"; sample_postMb "mb3"; sample_postMb "mb4"] in
  let kept :=
    filter (fun postMb => string_of_list_byte (MbInfo.MbHash postMb) ∉ sample_hashes) infos in
  let dropped :=
    filter (fun postMb => string_of_list_byte (MbInfo.MbHash postMb) ∈ sample_hashes) infos in
  CleanDuplicates sample_IfNil sample_CalculateHash sample_args sample_bodies (Some <$> infos)
    = Some (inl (Some <$> kept), duplicate_found <$> dropped) /\
  CleanDuplicates sample_IfNil sample_CalculateHash sample_args sample_bodies (Some <$> kept)
    = Some (inl (Some <$> kept), []).
Proof.
  apply (CleanDuplicates_spec sample_IfNil sample_CalculateHash sample_args sample_bodies
           sample_hashes); [reflexivity | reflexivity | apply sample_bodies_hashed].
Defined.

(** The sample run of [CreateBody]: both bodies are stored, the post mini
    blocks "mb2" and "mb3" are in them and dropped, "mb4" is kept. *)
Lemma sample_CreateBody :
  CreateBody sample_IfNil sample_CalculateHash sample_processor_CreateBody sample_args
    (Some ∅) sample_processors 0%nat
  = Some (inl [Some (sample_postMb "mb4")],
          HardForkState (Some sample_bodies) 2%nat
            [body_created sample_body0 [Some (sample_postMb "mb2"); Some (sample_postMb "mb3")];
             body_created sample_body1 [Some (sample_postMb "mb4")];
             duplicate_found (sample_postMb "mb2");
             duplicate_found (sample_postMb "mb3")]).
Proof. vm_compute. reflexivity. Qed.

(** The same run with a nil bodies map panics at the first store, and
    with a nil hasher the processors run before the hasher is looked
    at. *)
Lemma sample_CreateBody_nil :
  CreateBody sample_IfNil sample_CalculateHash sample_processor_CreateBody sample_args
    None sample_processors 0%nat = None /\
  CreateBody sample_IfNil sample_CalculateHash sample_processor_CreateBody
    sample_args_nil_hasher (Some ∅) sample_processors 0%nat
  = Some (inr ErrNilHasher,
          HardForkState (Some sample_bodies) 2%nat
            [body_created sample_body0 [Some (sample_postMb "mb2"); Some (sample_postMb "mb3")];
             body_created sample_body1 [Some (sample_postMb "mb4")]]).
Proof. split; vm_compute; reflexivity. Qed.


(** ** The genesis delegation *)

Section DelegationProperties.

Context {iface processorState : Type}.
Variable DelegationType : string.
Variable executor_GetNonce :
  iface -> list byte -> processorState -> (Z + string) * processorState.
Variable executor_ExecuteTransaction :
  iface -> Z -> list byte -> list byte -> Z -> list byte -> processorState ->
  option string * processorState.
Variable queryService_ExecuteQuery :
  iface -> SCQuery.t -> processorState -> (option VMOutput.t + string) * processorState.
Variable coordinator_SelfId : iface -> Z.
Variable coordinator_SameShard : iface -> list byte -> list byte -> bool.
Variable parser_GetInitialAccountsForDelegated :
  iface -> list byte -> list (option InitialAccount.t).
Variable parser_InitialSmartContractsSplitOnOwnersShards :
  iface -> iface -> gmap Z (list InitialSmartContract.t) + string.
Variable splitter_GetDelegatedNodes : iface -> list byte -> list GenesisNodeInfo.t.

Implicit Types (sdp : standardDelegationProcessor iface) (w : genesisWorld processorState)
  (sc : InitialSmartContract.t) (X : Type).

(** *** Runs and what they emit *)

Lemma gbind_Some {A B} (m : G processorState A) (f : A -> G processorState B) w (r : B) w' :
  gbind m f w = Some (r, w') <->
  exists a w1, m w = Some (a, w1) /\ f a w1 = Some (r, w').
Proof.
  unfold gbind. destruct (m w) as [[a w1]|]; split.
  - intros H. by exists a, w1.
  - by intros (? & ? & [= <- <-] & ?).
  - done.
  - by intros (? & ? & [=] & _).
Qed.

Lemma emits_ret {A X} (proj : event -> option X) (a : A) (Q : A -> list X -> Prop) :
  Q a [] -> emits proj (gret a : G processorState A) Q.
Proof. intros HQ w r w' [= <- <-]. exists []. by rewrite app_nil_r. Qed.

Lemma emits_panic {A X} (proj : event -> option X) (Q : A -> list X -> Prop) :
  emits proj (gpanic : G processorState A) Q.
Proof. by intros w r w'. Qed.

Lemma emits_bind {A B X} (proj : event -> option X) (m : G processorState A) (f : A -> G processorState B)
    (Q1 : A -> list X -> Prop) (Q : B -> list X -> Prop) :
  emits proj m Q1 ->
  (forall a xs1, Q1 a xs1 -> emits proj (f a) (fun r xs2 => Q r (xs1 ++ xs2))) ->
  emits proj (gbind m f) Q.
Proof.
  intros Hm Hf w r w' (a & w1 & Ha & Hr)%gbind_Some.
  destruct (Hm _ _ _ Ha) as (xs1 & E1 & H1).
  destruct (Hf a xs1 H1 _ _ _ Hr) as (xs2 & E2 & H2).
  exists (xs1 ++ xs2). split; [|done]. by rewrite E2, E1, <- app_assoc.
Qed.

Lemma emits_mono {A X} (proj : event -> option X) (m : G processorState A) (Q Q' : A -> list X -> Prop) :
  emits proj m Q -> (forall r xs, Q r xs -> Q' r xs) -> emits proj m Q'.
Proof.
  intros Hm HQ w r w' Hrun. destruct (Hm _ _ _ Hrun) as (xs & E & H).
  exists xs. split; [done | by apply HQ].
Qed.

Lemma emits_record {X} (proj : event -> option X) (e : event) :
  emits proj (record e : G processorState unit) (fun _ xs => xs = from_option (fun x => [x]) [] (proj e)).
Proof.
  intros w r w' [= <- <-]. cbn [gw_events]. rewrite omap_app. eexists. split; [done|].
  cbn [omap list_omap]. by destruct (proj e).
Qed.

Lemma emits_log {X} (proj : event -> option X) (level : logLevel) (message : string)
    (args : list (string * logValue)) :
  proj (Logged level message args) = None ->
  emits proj (record (Logged level message args) : G processorState unit) (fun _ xs => xs = []).
Proof.
  intros Hp. eapply emits_mono; [apply emits_record|]. intros _ xs ->. by rewrite Hp.
Qed.

Lemma emits_GetNonce {X} (proj : event -> option X) sdp (senderBytes : list byte) :
  proj (GetNonceCalled senderBytes) = None ->
  emits proj (GetNonce executor_GetNonce sdp senderBytes) (fun _ xs => xs = []).
Proof.
  intros Hp w r w'. unfold GetNonce. destruct (executor_GetNonce _ _ _) as [res st].
  intros [= <- <-]. cbn [gw_events]. rewrite omap_app. exists []. split; [|done].
  cbn [omap list_omap]. by rewrite Hp.
Qed.

Lemma emits_ExecuteTransaction sdp (nonce : Z) (sndAddr rcvAddress : list byte) (value : Z)
    (data : list byte) :
  emits transaction_of
    (ExecuteTransaction executor_ExecuteTransaction sdp nonce sndAddr rcvAddress value data)
    (fun _ xs => xs = [(sndAddr, rcvAddress, value, data)]).
Proof.
  intros w r w'. unfold ExecuteTransaction.
  destruct (executor_ExecuteTransaction _ _ _ _ _ _ _) as [err st].
  intros [= <- <-]. cbn [gw_events]. rewrite omap_app. by eexists.
Qed.

Lemma emits_ExecuteTransaction_queries sdp (nonce : Z) (sndAddr rcvAddress : list byte)
    (value : Z) (data : list byte) :
  emits query_of
    (ExecuteTransaction executor_ExecuteTransaction sdp nonce sndAddr rcvAddress value data)
    (fun _ xs => xs = []).
Proof.
  intros w r w'. unfold ExecuteTransaction.
  destruct (executor_ExecuteTransaction _ _ _ _ _ _ _) as [err st].
  intros [= <- <-]. cbn [gw_events]. rewrite omap_app. by exists [].
Qed.

Lemma emits_ExecuteQuery sdp (query : SCQuery.t) :
  emits query_of (ExecuteQuery queryService_ExecuteQuery sdp query)
    (fun _ xs => xs = [query]).
Proof.
  intros w r w'. unfold ExecuteQuery.
  destruct (queryService_ExecuteQuery _ _ _) as [res st].
  intros [= <- <-]. cbn [gw_events]. rewrite omap_app. by eexists.
Qed.

Lemma emits_ExecuteQuery_transactions sdp (query : SCQuery.t) :
  emits transaction_of (ExecuteQuery queryService_ExecuteQuery sdp query)
    (fun _ xs => xs = []).
Proof.
  intros w r w'. unfold ExecuteQuery.
  destruct (queryService_ExecuteQuery _ _ _) as [res st].
  intros [= <- <-]. cbn [gw_events]. rewrite omap_app. by exists [].
Qed.

(** *** The transactions of the phases *)

Local Abbreviation no_transactions := (fun (_ : option delegation_error)
  (xs : list (list byte * list byte * Z * list byte)) => xs = []).

Ltac emits_log_step :=
  eapply emits_bind; [by apply emits_log|]; intros _ ? ->; cbn [app].

Lemma getDelegationScOnCurrentShard_run sdp w
    (allSmartContracts : gmap Z (list InitialSmartContract.t)) :
  parser_InitialSmartContractsSplitOnOwnersShards (smartContractsParser sdp)
    (shardCoordinator sdp) = inl allSmartContracts ->
  let smartContracts :=
    delegation_contracts DelegationType coordinator_SelfId sdp allSmartContracts in
  getDelegationScOnCurrentShard DelegationType coordinator_SelfId
    parser_InitialSmartContractsSplitOnOwnersShards sdp w
  = Some (inl smartContracts,
          GenesisWorld (gw_state w)
            (gw_events w ++
             [Logged LogTrace "getDelegationScOnCurrentShard"
                [("num delegation SC"%string, LogInt (Z.of_nat (length smartContracts)));
                 ("shard ID"%string, LogInt (coordinator_SelfId (shardCoordinator sdp)))]])).
Proof.
  intros Hp smartContracts. unfold getDelegationScOnCurrentShard. rewrite Hp. cbv zeta.
  assert (forall l acc,
            foldl (fun smartContracts sc =>
                     if String.eqb (InitialSmartContract.GetType sc) DelegationType
                     then smartContracts ++ [sc] else smartContracts) acc l
            = acc ++ filter (fun sc => InitialSmartContract.GetType sc = DelegationType) l)
    as Hfold.
  { induction l as [|sc l IH]; intros acc; cbn [foldl].
    - by rewrite app_nil_r.
    - rewrite IH, filter_cons. destruct (String.eqb_spec (InitialSmartContract.GetType sc)
                                           DelegationType) as [He|Hne].
      + rewrite decide_True by done. by rewrite <- app_assoc.
      + by rewrite decide_False. }
  rewrite Hfold. cbn [app]. done.
Qed.

Lemma executeSetNodePrice_transactions sdp sc :
  emits transaction_of
    (executeSetNodePrice executor_GetNonce executor_ExecuteTransaction sdp sc)
    (fun err xs => err = None -> xs = [setStakePerNode_transaction sdp sc]).
Proof.
  unfold executeSetNodePrice. eapply emits_bind; [by apply emits_GetNonce|].
  intros [nonce|err] ? ->; cbn [app].
  - eapply emits_mono; [apply emits_ExecuteTransaction|]. by intros ? ? -> _.
  - by apply emits_ret.
Qed.

Lemma setDelegationStartParameters_transactions sdp
    (smartContracts : list InitialSmartContract.t) :
  emits transaction_of
    (setDelegationStartParameters executor_GetNonce executor_ExecuteTransaction
       coordinator_SelfId splitter_GetDelegatedNodes sdp smartContracts)
    (fun err xs => err = None -> xs = setStakePerNode_transaction sdp <$> smartContracts).
Proof.
  induction smartContracts as [|sc scs IH]; cbn [setDelegationStartParameters].
  - by apply emits_ret.
  - emits_log_step. eapply emits_bind; [apply executeSetNodePrice_transactions|].
    intros [err|] xs Hxs.
    + by apply emits_ret.
    + rewrite (Hxs eq_refl). eapply emits_mono; [apply IH|].
      intros r xs' Hr Hn. by rewrite (Hr Hn).
Qed.

Lemma concat_empty_cons (x : string) (l : list string) :
  String.concat "" (x :: l) = (x ++ String.concat "" l)%string.
Proof. destruct l; [by rewrite string_app_nil_r | done]. Qed.

Lemma concat_cons_sep (sep x : string) (l : list string) :
  String.concat sep (x :: l)
  = (x ++ String.concat "" ((fun s => sep ++ s) <$> l))%string.
Proof.
  revert x. induction l as [|y l IH]; intros x.
  - by rewrite string_app_nil_r.
  - change (String.concat sep (x :: y :: l))
      with (x ++ sep ++ String.concat sep (y :: l))%string.
    rewrite IH. cbn [fmap list_fmap]. rewrite concat_empty_cons.
    by rewrite !string_app_assoc.
Qed.

Lemma addNodes_arguments_eq (delegatedNodes : list GenesisNodeInfo.t) :
  strings_Join (addNodes_arguments delegatedNodes) "@" = addNodes_data delegatedNodes.
Proof.
  unfold strings_Join, addNodes_arguments, addNodes_data.
  assert (forall nodes acc,
            foldl (fun arguments node =>
                     (arguments ++ [hex_EncodeToString (GenesisNodeInfo.PubKeyBytes node)])
                       ++ [hex_EncodeToString genesisSignature]) acc nodes
            = acc ++ (nodes ≫= fun node =>
                        [hex_EncodeToString (GenesisNodeInfo.PubKeyBytes node);
                         hex_EncodeToString genesisSignature])) as Hfold.
  { induction nodes as [|node nodes IH]; intros acc; cbn [foldl].
    - by rewrite app_nil_r.
    - rewrite IH. cbn [mbind list_bind app]. by rewrite <- !app_assoc. }
  rewrite Hfold. cbn [app]. rewrite concat_cons_sep. f_equal.
  induction delegatedNodes as [|node nodes IH]; [done|].
  cbn [mbind list_bind app fmap list_fmap].
  rewrite !concat_empty_cons, IH. by rewrite !string_app_assoc.
Qed.

Lemma executeManageBlsKeys_loop_transactions sdp
    (smartContracts : list InitialSmartContract.t) (totalDelegated : Z) :
  emits transaction_of
    (executeManageBlsKeys_loop executor_GetNonce executor_ExecuteTransaction
       coordinator_SelfId splitter_GetDelegatedNodes sdp smartContracts totalDelegated)
    (fun '(total, err) xs =>
       match err with
       | None =>
           total = totalDelegated +
                   Z.of_nat (length (smartContracts ≫=
                                       delegated_nodes splitter_GetDelegatedNodes sdp)) /\
           xs = smartContracts ≫= addNodes_transactions splitter_GetDelegatedNodes sdp
       | Some _ => total = 0
       end).
Proof.
  revert totalDelegated.
  induction smartContracts as [|sc scs IH]; intros totalDelegated;
    cbn [executeManageBlsKeys_loop].
  - apply emits_ret. cbn. split; [lia | done].
  - cbv zeta. cbn [mbind list_bind]. unfold addNodes_transactions at 1.
    change (splitter_GetDelegatedNodes (nodesListSplitter sdp)
              (InitialSmartContract.AddressBytes sc))
      with (delegated_nodes splitter_GetDelegatedNodes sdp sc).
    destruct (delegated_nodes splitter_GetDelegatedNodes sdp sc) as [|node nodes] eqn:Hn.
    + cbn [length Z.of_nat Z.eqb]. emits_log_step.
      eapply emits_mono; [apply IH|]. by intros [total [err|]] xs.
    + rewrite (proj2 (Z.eqb_neq _ 0)) by (cbn [length]; lia).
      emits_log_step. eapply emits_bind; [by apply emits_GetNonce|].
      intros [nonce|err] ? ->; cbn [app]; [|by apply emits_ret].
      eapply emits_bind; [apply emits_ExecuteTransaction|].
      intros [err|] ? ->; [by apply emits_ret|].
      eapply emits_mono; [apply IH|]. intros [total [err|]] xs; [done|].
      intros [-> ->]. rewrite addNodes_arguments_eq. split; [|done].
      cbn [app length]. rewrite length_app. lia.
Qed.

Local Abbreviation stake_transaction sc := (fun ac : option InitialAccount.t =>
  match ac with
  | Some account =>
      (fun value =>
         (InitialAccount.AddressBytes account, InitialSmartContract.AddressBytes sc, 0,
          list_byte_of_string ("stakeGenesis@" ++ big_Text16 value)))
      <$> delegated_value ac
  | None => None
  end).

Lemma stake_transaction_sent sdp (ac : option InitialAccount.t) sc :
  emits transaction_of
    (stake executor_GetNonce executor_ExecuteTransaction coordinator_SameShard sdp ac sc)
    (fun err xs =>
       match err with
       | None => exists tx, stake_transaction sc ac = Some tx /\ xs = [tx]
       | Some _ => True
       end).
Proof.
  unfold stake. destruct ac as [[addr name [[[value|]]|]]|]; cbn;
    [| by apply emits_ret | by apply emits_ret | apply emits_panic].
  eapply emits_bind.
  { instantiate (1 := fun _ xs => xs = []).
    destruct (coordinator_SameShard _ _ _); [by apply emits_GetNonce | by apply emits_ret]. }
  intros [nonce|err] ? ->; cbn [app]; [|by apply emits_ret].
  eapply emits_mono; [apply emits_ExecuteTransaction|].
  intros [err|] xs ->; [done|]. by eexists.
Qed.

Lemma stake_accounts_transactions sdp sc (accounts : list (option InitialAccount.t))
    (totalDelegated : Z) :
  emits transaction_of
    (stake_accounts executor_GetNonce executor_ExecuteTransaction coordinator_SameShard
       sdp sc accounts totalDelegated)
    (fun result xs =>
       match result with
       | inl _ => xs = omap (stake_transaction sc) accounts /\ length xs = length accounts
       | inr _ => True
       end).
Proof.
  revert totalDelegated. induction accounts as [|ac accounts IH]; intros totalDelegated;
    cbn [stake_accounts].
  - by apply emits_ret.
  - eapply emits_bind; [apply stake_transaction_sent|].
    intros [err|] xs Hxs.
    + destruct ac; [by apply emits_ret | apply emits_panic].
    + destruct Hxs as (tx & Htx & ->).
      destruct ac as [[addr name [[[value|]]|]]|]; try apply emits_panic.
      eapply emits_mono; [apply IH|]. intros [total|err] xs; [|done].
      intros [-> Hlen]. cbn [omap list_omap]. rewrite Htx. cbn [app length].
      split; [done | by rewrite Hlen].
Qed.

Lemma executeStake_loop_transactions sdp (smartContracts : list InitialSmartContract.t)
    (stakedOnDelegation : Z) :
  emits transaction_of
    (executeStake_loop executor_GetNonce executor_ExecuteTransaction coordinator_SameShard
       parser_GetInitialAccountsForDelegated sdp smartContracts stakedOnDelegation)
    (fun '(staked, err) xs =>
       match err with
       | None =>
           staked = stakedOnDelegation +
                    Z.of_nat (length (smartContracts ≫=
                                        delegators parser_GetInitialAccountsForDelegated sdp)) /\
           xs = smartContracts ≫=
                  stake_transactions parser_GetInitialAccountsForDelegated sdp /\
           Z.of_nat (length xs) = staked - stakedOnDelegation
       | Some _ => staked = 0
       end).
Proof.
  revert stakedOnDelegation.
  induction smartContracts as [|sc scs IH]; intros stakedOnDelegation;
    cbn [executeStake_loop].
  - apply emits_ret. cbn. split_and!; [lia | done | lia].
  - cbv zeta. cbn [mbind list_bind]. unfold stake_transactions at 1.
    change (parser_GetInitialAccountsForDelegated (accuntsParser sdp)
              (InitialSmartContract.AddressBytes sc))
      with (delegators parser_GetInitialAccountsForDelegated sdp sc).
    case_decide as Hlen.
    + apply nil_length_inv in Hlen. rewrite Hlen. cbn [omap list_omap app].
      emits_log_step. eapply emits_mono; [apply IH|]. by intros [staked [err|]] xs.
    + eapply emits_bind; [apply stake_accounts_transactions|].
      intros [total|err] xs Hxs; [|by apply emits_ret].
      destruct Hxs as [-> Hl]. emits_log_step.
      eapply emits_mono; [apply IH|]. intros [staked [err|]] xs; [done|].
      intros (-> & -> & Hl'). split_and!; [|done|].
      * rewrite length_app. lia.
      * rewrite length_app, Hl. lia.
Qed.

Lemma executeActivation_loop_transactions sdp
    (smartContracts : list InitialSmartContract.t) :
  emits transaction_of
    (executeActivation_loop executor_GetNonce executor_ExecuteTransaction
       coordinator_SelfId sdp smartContracts)
    (fun err xs => err = None -> xs = activate_transaction <$> smartContracts).
Proof.
  induction smartContracts as [|sc scs IH]; cbn [executeActivation_loop].
  - by apply emits_ret.
  - emits_log_step. eapply emits_bind; [by apply emits_GetNonce|].
    intros [nonce|err] ? ->; cbn [app]; [|by apply emits_ret].
    eapply emits_bind; [apply emits_ExecuteTransaction|].
    intros [err|] ? ->; [by apply emits_ret|].
    eapply emits_mono; [apply IH|]. intros r xs Hr Hn. by rewrite (Hr Hn).
Qed.

(** *** The verification only asks *)

Lemma emits_bind_nil {A B X} (proj : event -> option X) (m : G processorState A)
    (f : A -> G processorState B) (Q : B -> list X -> Prop) :
  emits proj m (fun _ xs => xs = []) ->
  (forall a, emits proj (f a) Q) ->
  emits proj (gbind m f) Q.
Proof.
  intros Hm Hf. eapply emits_bind; [exact Hm|]. intros a ? ->. cbn [app]. apply Hf.
Qed.

Lemma checkDelegator_transactions sdp (delegator : InitialAccount.t) sc :
  emits transaction_of (checkDelegator queryService_ExecuteQuery sdp delegator sc)
    (fun _ xs => xs = []).
Proof.
  unfold checkDelegator. apply emits_bind_nil; [apply emits_ExecuteQuery_transactions|].
  intros [[out|]|err]; [| apply emits_panic | by apply emits_ret].
  destruct (VMOutput.ReturnData out) as [|data [|]]; [by apply emits_ret | | by apply emits_ret].
  destruct (InitialAccount.GetDelegationHandler delegator) as [[[value|]]|];
    [| apply emits_panic..].
  destruct (_ =? _); by apply emits_ret.
Qed.

Lemma verifyStakedValue_transactions sdp sc :
  emits transaction_of
    (verifyStakedValue queryService_ExecuteQuery parser_GetInitialAccountsForDelegated sdp sc)
    (fun _ xs => xs = []).
Proof.
  unfold verifyStakedValue. cbv zeta. generalize 0 as total.
  induction (parser_GetInitialAccountsForDelegated _ _) as [|[d|] ds IH]; intros total;
    cbn [verifyStakedValue_loop]; [by apply emits_ret | | apply IH].
  destruct (InitialAccount.GetDelegationHandler d) as [[[value|]]|]; [| apply IH..].
  cbn [DelegationData.GetValue]. apply emits_bind_nil; [apply checkDelegator_transactions|].
  intros [err|]; [by apply emits_ret | apply IH].
Qed.

Lemma verifyOneNode_transactions sdp sc (node : GenesisNodeInfo.t) :
  emits transaction_of (verifyOneNode queryService_ExecuteQuery sdp sc node)
    (fun _ xs => xs = []).
Proof.
  unfold verifyOneNode. cbv zeta.
  apply emits_bind_nil; [apply emits_ExecuteQuery_transactions|].
  intros [[out|]|err]; [| apply emits_panic | by apply emits_ret].
  destruct (VMOutput.ReturnData out) as [|data rest]; [by apply emits_ret|].
  destruct (negb _); by apply emits_ret.
Qed.

Lemma verifyRegisteredNodes_transactions sdp sc :
  emits transaction_of
    (verifyRegisteredNodes queryService_ExecuteQuery splitter_GetDelegatedNodes sdp sc)
    (fun _ xs => xs = []).
Proof.
  unfold verifyRegisteredNodes. cbv zeta. case_decide as Hlen.
  - apply emits_bind_nil; [by apply emits_log|]. intros _. by apply emits_ret.
  - clear Hlen. induction (splitter_GetDelegatedNodes _ _) as [|node nodes IH];
      cbn [verifyRegisteredNodes_loop]; [by apply emits_ret|].
    apply emits_bind_nil; [apply verifyOneNode_transactions|].
    intros [err|]; [by apply emits_ret | apply IH].
Qed.

Lemma executeVerify_transactions sdp (smartContracts : list InitialSmartContract.t) :
  emits transaction_of
    (executeVerify queryService_ExecuteQuery parser_GetInitialAccountsForDelegated
       splitter_GetDelegatedNodes sdp smartContracts)
    (fun _ xs => xs = []).
Proof.
  induction smartContracts as [|sc scs IH]; cbn [executeVerify]; [by apply emits_ret|].
  apply emits_bind_nil; [|intros [err|]; [by apply emits_ret | apply IH]].
  unfold verify. apply emits_bind_nil; [apply verifyStakedValue_transactions|].
  intros [err|]; [by apply emits_ret|].
  apply emits_bind_nil; [apply verifyRegisteredNodes_transactions|].
  intros [err|]; by apply emits_ret.
Qed.

(** *** [ExecuteDelegation] *)

Lemma getDelegationScOnCurrentShard_transactions sdp :
  emits transaction_of
    (getDelegationScOnCurrentShard (processorState := processorState) DelegationType
       coordinator_SelfId parser_InitialSmartContractsSplitOnOwnersShards sdp)
    (fun result xs =>
       xs = [] /\
       match parser_InitialSmartContractsSplitOnOwnersShards (smartContractsParser sdp)
               (shardCoordinator sdp) with
       | inl allSmartContracts =>
           result = inl (delegation_contracts DelegationType coordinator_SelfId sdp
                           allSmartContracts)
       | inr err => result = inr (ErrExternal err)
       end).
Proof.
  intros w r w' Hrun.
  destruct (parser_InitialSmartContractsSplitOnOwnersShards _ _) as [all|err] eqn:Hp.
  - rewrite (getDelegationScOnCurrentShard_run sdp w all Hp) in Hrun.
    injection Hrun as <- <-. cbn [gw_events]. rewrite omap_app. by exists [].
  - unfold getDelegationScOnCurrentShard in Hrun. rewrite Hp in Hrun.
    injection Hrun as <- <-. exists []. by rewrite app_nil_r.
Qed.

Lemma ExecuteDelegation_emits sdp :
  emits transaction_of
    (ExecuteDelegation DelegationType executor_GetNonce executor_ExecuteTransaction
       queryService_ExecuteQuery coordinator_SelfId coordinator_SameShard
       parser_GetInitialAccountsForDelegated
       parser_InitialSmartContractsSplitOnOwnersShards splitter_GetDelegatedNodes sdp)
    (fun '(dr, err) xs =>
       match err with
       | Some _ => dr = emptyDelegationResult
       | None =>
           exists allSmartContracts,
             parser_InitialSmartContractsSplitOnOwnersShards (smartContractsParser sdp)
               (shardCoordinator sdp) = inl allSmartContracts /\
             let smartContracts :=
               delegation_contracts DelegationType coordinator_SelfId sdp
                 allSmartContracts in
             dr = DelegationResult.Build
                    (Z.of_nat (length (smartContracts ≫=
                                 delegators parser_GetInitialAccountsForDelegated sdp)))
                    (Z.of_nat (length (smartContracts ≫=
                                 delegated_nodes splitter_GetDelegatedNodes sdp))) /\
             xs = (setStakePerNode_transaction sdp <$> smartContracts) ++
                  (smartContracts ≫= addNodes_transactions splitter_GetDelegatedNodes sdp) ++
                  (smartContracts ≫=
                     stake_transactions parser_GetInitialAccountsForDelegated sdp) ++
                  (activate_transaction <$> smartContracts) /\
             length (smartContracts ≫=
                       stake_transactions parser_GetInitialAccountsForDelegated sdp)
             = length (smartContracts ≫=
                         delegators parser_GetInitialAccountsForDelegated sdp)
       end).
Proof.
  unfold ExecuteDelegation.
  eapply emits_bind; [apply getDelegationScOnCurrentShard_transactions|].
  intros result ? [-> Hres]. cbn [app].
  destruct (parser_InitialSmartContractsSplitOnOwnersShards _ _) as [all|err] eqn:Hp;
    rewrite Hres; [|by apply emits_ret].
  set (scs := delegation_contracts DelegationType coordinator_SelfId sdp all).
  case_decide as Hlen.
  - apply emits_ret. exists all. split; [done|]. cbv zeta. fold scs.
    apply nil_length_inv in Hlen. by rewrite Hlen.
  - eapply emits_bind; [apply setDelegationStartParameters_transactions|].
    intros [err|] xs1 H1; [by apply emits_ret|]. rewrite (H1 eq_refl). clear H1.
    eapply emits_bind.
    { unfold executeManageBlsKeys. apply emits_bind_nil; [by apply emits_log|].
      intros _. apply executeManageBlsKeys_loop_transactions. }
    intros [numTotalDelegated [err|]] xs2 H2; [by apply emits_ret|].
    destruct H2 as [-> ->].
    eapply emits_bind; [apply executeStake_loop_transactions|].
    intros [numTotalStaked [err|]] xs3 H3; [by apply emits_ret|].
    destruct H3 as (-> & -> & H3).
    eapply emits_bind.
    { unfold executeActivation. apply emits_bind_nil; [by apply emits_log|].
      intros _. apply executeActivation_loop_transactions. }
    intros [err|] xs4 H4; [by apply emits_ret|]. rewrite (H4 eq_refl). clear H4.
    eapply emits_bind; [apply executeVerify_transactions|].
    intros [err|] ? ->; apply emits_ret; [done|].
    exists all. split; [done|]. cbv zeta. fold scs. split_and!.
    + f_equal; lia.
    + cbn [app]. by rewrite app_nil_r.
    + lia.
Qed.

(** X23.  A run of [ExecuteDelegation] that returns without error has
    sent, for the delegation contracts of the processor's shard in their
    order: one [setStakePerNode] transaction per contract, then one
    [addNodes] transaction per contract that has delegated nodes (with
    the public key and the genesis signature of every node), then one
    [stakeGenesis] transaction per delegating account, then one
    [activateGenesis] transaction per contract, all of value 0, from the
    owner (from the account, for a stake) to the contract; and the result
    counts the delegated nodes and the delegating accounts, every one of
    which has staked. *)
Theorem ExecuteDelegation_transactions sdp w (dr : DelegationResult.t) w' :
  ExecuteDelegation DelegationType executor_GetNonce executor_ExecuteTransaction
    queryService_ExecuteQuery coordinator_SelfId coordinator_SameShard
    parser_GetInitialAccountsForDelegated parser_InitialSmartContractsSplitOnOwnersShards
    splitter_GetDelegatedNodes sdp w = Some ((dr, None), w') ->
  exists allSmartContracts,
    parser_InitialSmartContractsSplitOnOwnersShards (smartContractsParser sdp)
      (shardCoordinator sdp) = inl allSmartContracts /\
    let smartContracts :=
      delegation_contracts DelegationType coordinator_SelfId sdp allSmartContracts in
    dr = DelegationResult.Build
           (Z.of_nat (length (smartContracts ≫=
                        delegators parser_GetInitialAccountsForDelegated sdp)))
           (Z.of_nat (length (smartContracts ≫=
                        delegated_nodes splitter_GetDelegatedNodes sdp))) /\
    transactions (gw_events w')
    = transactions (gw_events w) ++
      (setStakePerNode_transaction sdp <$> smartContracts) ++
      (smartContracts ≫= addNodes_transactions splitter_GetDelegatedNodes sdp) ++
      (smartContracts ≫= stake_transactions parser_GetInitialAccountsForDelegated sdp) ++
      (activate_transaction <$> smartContracts) /\
    length (smartContracts ≫= stake_transactions parser_GetInitialAccountsForDelegated sdp)
    = length (smartContracts ≫= delegators parser_GetInitialAccountsForDelegated sdp).
Proof.
  intros Hrun. destruct (ExecuteDelegation_emits sdp _ _ _ Hrun)
    as (xs & Hxs & all & Hp & Hdr & -> & Hlen).
  exists all. by split_and!.
Qed.

(** X24.  The ways out of [ExecuteDelegation] without a result: whenever
    it returns an error the result is the empty [DelegationResult]; an
    error of the smart contracts parser is handed back before anything is
    logged, asked or sent; and without a delegation contract on the
    processor's shard it returns the empty result and no error, having
    only logged the number of contracts found. *)
Theorem ExecuteDelegation_errors sdp w :
  let run :=
    ExecuteDelegation DelegationType executor_GetNonce executor_ExecuteTransaction
      queryService_ExecuteQuery coordinator_SelfId coordinator_SameShard
      parser_GetInitialAccountsForDelegated parser_InitialSmartContractsSplitOnOwnersShards
      splitter_GetDelegatedNodes sdp w in
  (forall dr err w', run = Some ((dr, Some err), w') -> dr = emptyDelegationResult) /\
  (forall msg,
     parser_InitialSmartContractsSplitOnOwnersShards (smartContractsParser sdp)
       (shardCoordinator sdp) = inr msg ->
     run = Some ((emptyDelegationResult, Some (ErrExternal msg)), w)) /\
  (forall allSmartContracts,
     parser_InitialSmartContractsSplitOnOwnersShards (smartContractsParser sdp)
       (shardCoordinator sdp) = inl allSmartContracts ->
     delegation_contracts DelegationType coordinator_SelfId sdp allSmartContracts = [] ->
     run = Some ((emptyDelegationResult, None),
                 GenesisWorld (gw_state w)
                   (gw_events w ++
                    [Logged LogTrace "getDelegationScOnCurrentShard"
                       [("num delegation SC"%string, LogInt 0);
                        ("shard ID"%string,
                         LogInt (coordinator_SelfId (shardCoordinator sdp)))]]))).
Proof.
  intros run. subst run. split_and!.
  - intros dr err w' Hrun. by destruct (ExecuteDelegation_emits sdp _ _ _ Hrun) as (xs & _ & ?).
  - intros msg Hp. unfold ExecuteDelegation, gbind, getDelegationScOnCurrentShard.
    by rewrite Hp.
  - intros all Hp Hnil. unfold ExecuteDelegation, gbind.
    rewrite (getDelegationScOnCurrentShard_run sdp w all Hp). cbv zeta. by rewrite Hnil.
Qed.

(** X25.  One [stake]: a nil account panics; a nil delegation handler and
    a nil value are refused, with [ErrNilDelegationHandler] and
    [ErrInvalidDelegationValue], before the executor is asked anything;
    across shards the executor is not asked for the nonce and the
    transaction goes out with nonce 0; within the shard the executor is
    asked for the account's nonce first, its error is handed back without
    a transaction, and otherwise the transaction carries that nonce.  The
    transaction is from the account to the contract, of value 0, with the
    data [stakeGenesis@] followed by the value in hexadecimal. *)
Theorem stake_spec sdp (account : InitialAccount.t) sc w :
  let stake := stake executor_GetNonce executor_ExecuteTransaction coordinator_SameShard in
  let sender := InitialAccount.AddressBytes account in
  let receiver := InitialSmartContract.AddressBytes sc in
  let send (nonce value : Z) (state : processorState) (events : list event) :=
    let data := list_byte_of_string ("stakeGenesis@" ++ big_Text16 value) in
    let '(err, state') :=
      executor_ExecuteTransaction (TxExecutionProcessor sdp) nonce sender receiver 0 data
        state in
    Some (ErrExternal <$> err,
          GenesisWorld state'
            (events ++ [TransactionExecuted nonce sender receiver 0 data])) in
  stake sdp None sc w = None /\
  (InitialAccount.GetDelegationHandler account = None ->
   stake sdp (Some account) sc w = Some (Some ErrNilDelegationHandler, w)) /\
  (InitialAccount.GetDelegationHandler account = Some (DelegationData.Build None) ->
   stake sdp (Some account) sc w = Some (Some ErrInvalidDelegationValue, w)) /\
  (forall value,
     InitialAccount.GetDelegationHandler account = Some (DelegationData.Build (Some value)) ->
     (coordinator_SameShard (shardCoordinator sdp) sender receiver = false ->
      stake sdp (Some account) sc w = send 0 value (gw_state w) (gw_events w)) /\
     (coordinator_SameShard (shardCoordinator sdp) sender receiver = true ->
      stake sdp (Some account) sc w
      = match executor_GetNonce (TxExecutionProcessor sdp) sender (gw_state w) with
        | (inr msg, state) =>
            Some (Some (ErrExternal msg),
                  GenesisWorld state (gw_events w ++ [GetNonceCalled sender]))
        | (inl nonce, state) =>
            send nonce value state (gw_events w ++ [GetNonceCalled sender])
        end)).
Proof.
  intros stake0 sender receiver send. subst stake0 send. unfold stake. split_and!.
  - done.
  - by intros ->.
  - by intros ->.
  - intros value ->. cbn [DelegationData.GetValue]. fold sender receiver. split.
    + intros ->. unfold gbind, gret, ExecuteTransaction. cbn [gw_state gw_events]. done.
    + intros ->. unfold gbind, GetNonce.
      destruct (executor_GetNonce _ _ _) as [[nonce|msg] state]; [|done].
      unfold ExecuteTransaction. cbn [gw_state gw_events]. done.
Qed.

(** *** The queries of the verification *)

Lemma checkDelegator_queries sdp (delegator : InitialAccount.t) sc :
  emits query_of (checkDelegator queryService_ExecuteQuery sdp delegator sc)
    (fun _ xs =>
       xs = [SCQuery.Build (InitialSmartContract.AddressBytes sc) "getUserStake"
               [InitialAccount.AddressBytes delegator]]).
Proof.
  unfold checkDelegator. cbv zeta. eapply emits_bind; [apply emits_ExecuteQuery|].
  intros [[out|]|err] ? ->; [| apply emits_panic | by apply emits_ret].
  destruct (VMOutput.ReturnData out) as [|data [|]]; [by apply emits_ret | | by apply emits_ret].
  destruct (InitialAccount.GetDelegationHandler delegator) as [[[value|]]|];
    [| apply emits_panic..].
  destruct (_ =? _); by apply emits_ret.
Qed.

Lemma verifyStakedValue_queries sdp sc :
  emits query_of
    (verifyStakedValue queryService_ExecuteQuery parser_GetInitialAccountsForDelegated sdp sc)
    (fun err xs =>
       err = None ->
       xs = omap (fun delegator =>
                    match delegator with
                    | Some account =>
                        (fun _ =>
                           SCQuery.Build (InitialSmartContract.AddressBytes sc) "getUserStake"
                             [InitialAccount.AddressBytes account])
                        <$> delegated_value delegator
                    | None => None
                    end) (delegators parser_GetInitialAccountsForDelegated sdp sc)).
Proof.
  unfold verifyStakedValue, delegators. cbv zeta. generalize 0 as total.
  induction (parser_GetInitialAccountsForDelegated _ _) as [|[d|] ds IH]; intros total;
    cbn [verifyStakedValue_loop omap list_omap]; [by apply emits_ret | | apply IH].
  unfold delegated_value at 1.
  destruct (InitialAccount.GetDelegationHandler d) as [[[value|]]|]; [| apply IH..].
  cbn [DelegationData.GetValue fmap option_fmap option_map].
  eapply emits_bind; [apply checkDelegator_queries|].
  intros [err|] ? ->; [by apply emits_ret|].
  eapply emits_mono; [apply IH|]. intros r xs Hr Hn. by rewrite (Hr Hn).
Qed.

Lemma verifyOneNode_queries sdp sc (node : GenesisNodeInfo.t) :
  emits query_of (verifyOneNode queryService_ExecuteQuery sdp sc node)
    (fun _ xs =>
       xs = [SCQuery.Build (InitialSmartContract.AddressBytes sc) "getNodeSignature"
               [GenesisNodeInfo.PubKeyBytes node]]).
Proof.
  unfold verifyOneNode. cbv zeta. eapply emits_bind; [apply emits_ExecuteQuery|].
  intros [[out|]|err] ? ->; [| apply emits_panic | by apply emits_ret].
  destruct (VMOutput.ReturnData out) as [|data rest]; [by apply emits_ret|].
  destruct (negb _); by apply emits_ret.
Qed.

Lemma verifyRegisteredNodes_queries sdp sc :
  emits query_of
    (verifyRegisteredNodes queryService_ExecuteQuery splitter_GetDelegatedNodes sdp sc)
    (fun err xs =>
       err = None ->
       xs = (fun node =>
               SCQuery.Build (InitialSmartContract.AddressBytes sc) "getNodeSignature"
                 [GenesisNodeInfo.PubKeyBytes node])
            <$> delegated_nodes splitter_GetDelegatedNodes sdp sc).
Proof.
  unfold verifyRegisteredNodes, delegated_nodes. cbv zeta. case_decide as Hlen.
  - apply nil_length_inv in Hlen. rewrite Hlen.
    apply emits_bind_nil; [by apply emits_log|]. intros _. by apply emits_ret.
  - clear Hlen. induction (splitter_GetDelegatedNodes _ _) as [|node nodes IH];
      cbn [verifyRegisteredNodes_loop]; [by apply emits_ret|].
    eapply emits_bind; [apply verifyOneNode_queries|].
    intros [err|] ? ->; [by apply emits_ret|].
    eapply emits_mono; [apply IH|]. intros r xs Hr Hn. by rewrite (Hr Hn).
Qed.

Lemma executeVerify_queries sdp (smartContracts : list InitialSmartContract.t) :
  emits query_of
    (executeVerify queryService_ExecuteQuery parser_GetInitialAccountsForDelegated
       splitter_GetDelegatedNodes sdp smartContracts)
    (fun err xs =>
       err = None ->
       xs = smartContracts ≫=
              verify_queries parser_GetInitialAccountsForDelegated
                splitter_GetDelegatedNodes sdp).
Proof.
  induction smartContracts as [|sc scs IH]; cbn [executeVerify]; [by apply emits_ret|].
  eapply emits_bind.
  { instantiate (1 := fun err xs =>
      err = None ->
      xs = verify_queries parser_GetInitialAccountsForDelegated splitter_GetDelegatedNodes
             sdp sc).
    unfold verify. eapply emits_bind; [apply verifyStakedValue_queries|].
    intros [err|] xs1 H1; [by apply emits_ret|]. rewrite (H1 eq_refl).
    eapply emits_bind; [apply verifyRegisteredNodes_queries|].
    intros [err|] xs2 H2; apply emits_ret; [done|]. intros _.
    rewrite (H2 eq_refl). by rewrite app_nil_r. }
  intros [err|] xs Hxs; [by apply emits_ret|]. rewrite (Hxs eq_refl).
  eapply emits_mono; [apply IH|]. intros r xs' Hr Hn. by rewrite (Hr Hn).
Qed.

(** X26.  The verification asks and never sends: a run of [executeVerify]
    that returns has executed no transaction, whatever it returns; when
    it returns no error it has asked, contract by contract, for the stake
    of every delegator that is not nil and delegates a value that is not
    nil, in their order, and then for the signature of every delegated
    node.  (The sum of the delegated values that [verifyStakedValue]
    builds is compared with nothing.) *)
Theorem executeVerify_asks sdp (smartContracts : list InitialSmartContract.t) w
    (err : option delegation_error) w' :
  executeVerify queryService_ExecuteQuery parser_GetInitialAccountsForDelegated
    splitter_GetDelegatedNodes sdp smartContracts w = Some (err, w') ->
  transactions (gw_events w') = transactions (gw_events w) /\
  (err = None ->
   queries (gw_events w')
   = queries (gw_events w) ++
     (smartContracts ≫=
        verify_queries parser_GetInitialAccountsForDelegated splitter_GetDelegatedNodes sdp)).
Proof.
  intros Hrun. unfold transactions, queries. split.
  - destruct (executeVerify_transactions sdp _ _ _ _ Hrun) as (xs & -> & ->).
    by rewrite app_nil_r.
  - intros ->. destruct (executeVerify_queries sdp _ _ _ _ Hrun) as (xs & -> & Hxs).
    by rewrite (Hxs eq_refl).
Qed.

(** X27.  What the two checks of the verification accept.  [verifyOneNode]
    returns no error exactly when the query service answers the query
    [getNodeSignature] of the node's public key with an output whose
    first return datum is the genesis signature, 32 zero bytes;
    [checkDelegator] returns no error exactly when the query service
    answers the query [getUserStake] of the delegator's address with an
    output of exactly one return datum that is, read as a big-endian
    unsigned integer, the value the delegator delegates. *)
Theorem verification_criteria sdp sc (node : GenesisNodeInfo.t)
    (delegator : InitialAccount.t) w (err1 err2 : option delegation_error) w1 w2 :
  verifyOneNode queryService_ExecuteQuery sdp sc node w = Some (err1, w1) ->
  checkDelegator queryService_ExecuteQuery sdp delegator sc w = Some (err2, w2) ->
  (err1 = None <->
   exists vmOutput returnData rest,
     (queryService_ExecuteQuery (queryService sdp)
        (SCQuery.Build (InitialSmartContract.AddressBytes sc) "getNodeSignature"
           [GenesisNodeInfo.PubKeyBytes node]) (gw_state w)).1 = inl (Some vmOutput) /\
     VMOutput.ReturnData vmOutput = returnData :: rest /\
     returnData = replicate 32 "000"%byte) /\
  (err2 = None <->
   exists vmOutput returnData,
     (queryService_ExecuteQuery (queryService sdp)
        (SCQuery.Build (InitialSmartContract.AddressBytes sc) "getUserStake"
           [InitialAccount.AddressBytes delegator]) (gw_state w)).1 = inl (Some vmOutput) /\
     VMOutput.ReturnData vmOutput = [returnData] /\
     delegated_value (Some delegator) = Some (big_SetBytes returnData)).
Proof.
  unfold verifyOneNode, checkDelegator, gbind, ExecuteQuery. cbv zeta.
  intros H1 H2. split.
  - clear H2. destruct (queryService_ExecuteQuery _ _ _) as [[[out|]|msg] st];
      cbn [fst]; [| done |].
    + destruct (VMOutput.ReturnData out) as [|data rest] eqn:Hdata.
      * injection H1 as <- _. split; [done|]. intros (? & ? & ? & [= <-] & ? & _). congruence.
      * unfold bytes_Equal in H1. case_bool_decide as Heq; cbn [negb] in H1;
          injection H1 as <- _.
        -- split; [intros _|done]. by exists out, data, rest.
        -- split; [done|]. intros (? & data0 & ? & [= <-] & Hd & Hsig).
           rewrite Hdata in Hd. injection Hd as <- _. by destruct Heq.
    + injection H1 as <- _. split; [done|]. by intros (? & ? & ? & [=] & _).
  - clear H1. destruct (queryService_ExecuteQuery _ _ _) as [[[out|]|msg] st];
      cbn [fst]; [| done |].
    + destruct (VMOutput.ReturnData out) as [|data [|data' rest]] eqn:Hdata.
      * injection H2 as <- _. split; [done|]. intros (? & ? & [= <-] & ? & _). congruence.
      * unfold delegated_value.
        destruct (InitialAccount.GetDelegationHandler delegator) as [[[value|]]|];
          [| done..]. cbn [DelegationData.GetValue].
        destruct (Z.eqb_spec (big_SetBytes data) value) as [He|Hne]; injection H2 as <- _.
        -- split; [intros _|done]. exists out, data. by rewrite He.
        -- split; [done|]. intros (? & ? & [= <-] & Hd & [= Hv]).
           rewrite Hdata in Hd. injection Hd as <-. by destruct Hne.
      * injection H2 as <- _. split; [done|]. intros (? & ? & [= <-] & Hd & _).
        by rewrite Hdata in Hd.
    + injection H2 as <- _. split; [done|]. by intros (? & ? & [=] & _).
Qed.

End DelegationProperties.

(** *** Concrete runs of the genesis delegation *)

Lemma sample_ExecuteDelegation_run :
  sample_ExecuteDelegation
  = Some ((DelegationResult.Build 2 2, None), sample_genesis_end).
Proof. vm_compute. reflexivity. Qed.

(** The four kinds of transactions of the sample run, in order. *)
Lemma sample_delegation_transactions :
  (fun '(_, _, _, data) => string_of_list_byte data) <$>
    transactions (gw_events sample_genesis_end)
  = ["setStakePerNode@9c4";
     "addNodes@6b31@0000000000000000000000000000000000000000000000000000000000000000@6b32@0000000000000000000000000000000000000000000000000000000000000000";
     "stakeGenesis@5"; "stakeGenesis@5"; "activateGenesis"]%string /\
  gw_state sample_genesis_end = 12.
Proof. split; vm_compute; reflexivity. Qed.

Lemma ExecuteDelegation_transactions_witness :
  exists allSmartContracts,
    sample_SplitOnOwnersShards (smartContractsParser sample_sdp)
      (shardCoordinator sample_sdp) = inl allSmartContracts /\
    let smartContracts :=
      delegation_contracts "delegation" sample_SelfId sample_sdp allSmartContracts in
    DelegationResult.Build 2 2
    = DelegationResult.Build
        (Z.of_nat (length (smartContracts ≫=
                     delegators sample_GetInitialAccountsForDelegated sample_sdp)))
        (Z.of_nat (length (smartContracts ≫=
                     delegated_nodes sample_GetDelegatedNodes sample_sdp))) /\
    transactions (gw_events sample_genesis_end)
    = transactions (gw_events sample_genesis) ++
      (setStakePerNode_transaction sample_sdp <$> smartContracts) ++
      (smartContracts ≫= addNodes_transactions sample_GetDelegatedNodes sample_sdp) ++
      (smartContracts ≫=
         stake_transactions sample_GetInitialAccountsForDelegated sample_sdp) ++
      (activate_transaction <$> smartContracts) /\
    length (smartContracts ≫=
              stake_transactions sample_GetInitialAccountsForDelegated sample_sdp)
    = length (smartContracts ≫=
                delegators sample_GetInitialAccountsForDelegated sample_sdp).
Proof.
  apply (ExecuteDelegation_transactions "delegation" sample_GetNonce
           sample_ExecuteTransaction sample_ExecuteQuery sample_SelfId sample_SameShard
           sample_GetInitialAccountsForDelegated sample_SplitOnOwnersShards
           sample_GetDelegatedNodes sample_sdp sample_genesis).
  apply sample_ExecuteDelegation_run.
Defined.

Lemma sample_executeVerify_run :
  executeVerify sample_ExecuteQuery sample_GetInitialAccountsForDelegated
    sample_GetDelegatedNodes sample_sdp [sample_sc] sample_genesis
  = Some (None,
          GenesisWorld 7
            (QueryExecuted <$>
               verify_queries sample_GetInitialAccountsForDelegated sample_GetDelegatedNodes
                 sample_sdp sample_sc)).
Proof. vm_compute. reflexivity. Qed.

Lemma executeVerify_asks_witness :
  let w' :=
    GenesisWorld 7
      (QueryExecuted <$>
         verify_queries sample_GetInitialAccountsForDelegated sample_GetDelegatedNodes
           sample_sdp sample_sc) in
  transactions (gw_events w') = transactions (gw_events sample_genesis) /\
  ((None : option delegation_error) = None ->
   queries (gw_events w')
   = queries (gw_events sample_genesis) ++
     ([sample_sc] ≫=
        verify_queries sample_GetInitialAccountsForDelegated sample_GetDelegatedNodes
          sample_sdp)).
Proof.
  apply (executeVerify_asks sample_ExecuteQuery sample_GetInitialAccountsForDelegated
           sample_GetDelegatedNodes sample_sdp [sample_sc] sample_genesis).
  apply sample_executeVerify_run.
Defined.

Lemma verification_criteria_witness :
  let node := GenesisNodeInfo.Build (list_byte_of_string "k1") in
  let delegator :=
    InitialAccount.Build (list_byte_of_string "erd1carol") "erd1carol"
      (Some (DelegationData.Build (Some 6))) in
  ((None : option delegation_error) = None <->
   exists vmOutput returnData rest,
     (sample_ExecuteQuery (queryService sample_sdp)
        (SCQuery.Build (InitialSmartContract.AddressBytes sample_sc) "getNodeSignature"
           [GenesisNodeInfo.PubKeyBytes node]) (gw_state sample_genesis)).1
     = inl (Some vmOutput) /\
     VMOutput.ReturnData vmOutput = returnData :: rest /\
     returnData = replicate 32 "000"%byte) /\
  (Some (Errorf ErrWhileVerifyingDelegation
           " staked data mismatch: from SC: 5, provided: 6, account erd1carol") = None <->
   exists vmOutput returnData,
     (sample_ExecuteQuery (queryService sample_sdp)
        (SCQuery.Build (InitialSmartContract.AddressBytes sample_sc) "getUserStake"
           [InitialAccount.AddressBytes delegator]) (gw_state sample_genesis)).1
     = inl (Some vmOutput) /\
     VMOutput.ReturnData vmOutput = [returnData] /\
     delegated_value (Some delegator) = Some (big_SetBytes returnData)).
Proof.
  eapply (verification_criteria sample_ExecuteQuery sample_sdp sample_sc
            (GenesisNodeInfo.Build (list_byte_of_string "k1"))
            (InitialAccount.Build (list_byte_of_string "erd1carol") "erd1carol"
               (Some (DelegationData.Build (Some 6))))
            sample_genesis); vm_compute; reflexivity.
Defined.

(** ** Package transactionAPI: the results of a transaction *)

Section TransactionAPIProperties.

Context {ApiLogs ApiReceipt Rest Storer : Type}.
Variable is_ErrNotFoundInStorage : string -> bool.
Variable SetStatusIfIsFailedESDTTransfer :
  Z -> ApiTransactionResult.t ApiLogs ApiReceipt Rest ->
  ApiTransactionResult.t ApiLogs ApiReceipt Rest.
Variable arp : apiTransactionResultsProcessor ApiLogs ApiReceipt Storer.

Implicit Types tx : ApiTransactionResult.t ApiLogs ApiReceipt Rest.

Lemma with_results_nil tx : with_results [] tx = tx.
Proof. destruct tx. unfold with_results. cbn. by rewrite app_nil_r. Qed.

Lemma with_results_app tx results1 results2 :
  with_results results2 (with_results results1 tx) = with_results (results1 ++ results2) tx.
Proof. unfold with_results. cbn. by rewrite app_assoc. Qed.

Lemma result_of_loads p r : result_of arp p r -> loads arp p.
Proof. intros (scr & Hscr & _). by exists scr. Qed.

Lemma stopped_at_not_loads p rest e : stopped_at arp (p :: rest) e -> ~ loads arp p.
Proof.
  intros (h & ep & rest' & cause & [= -> _] & Hf & _) [scr Hscr]. cbn in Hscr. congruence.
Qed.

(** One entry of the history: the results of the hashes before the first
    one that the storage does not hold are appended, in order. *)
Lemma putSmartContractResultsInTransactionByHashesAndEpoch_run tx scrsHashes epoch :
  exists done rest results calls err,
    putSmartContractResultsInTransactionByHashesAndEpoch arp tx scrsHashes epoch
      = (with_results results tx, calls, err) /\
    (fun scrHash => (scrHash, epoch)) <$> scrsHashes = done ++ rest /\
    Forall2 (result_of arp) done results /\
    match err with None => rest = [] | Some e => stopped_at arp rest e end.
Proof.
  revert tx. induction scrsHashes as [|scrHash scrsHashes IH]; intros tx.
  { exists [], [], [], [], None. cbn. by rewrite with_results_nil. }
  cbn [putSmartContractResultsInTransactionByHashesAndEpoch].
  destruct (getScrFromStorage arp scrHash epoch) as [scr|cause] eqn:Hscr.
  - destruct (adaptSmartContractResult arp scrHash scr) as [scrAPI calls1] eqn:Hadapt.
    cbv beta iota.
    destruct (loadLogsIntoContractResults arp scrHash epoch scrAPI) as [scrAPI' calls2]
      eqn:Hlogs.
    cbv beta iota zeta.
    destruct (IH (append_SmartContractResult scrAPI' tx))
      as (done & rest & results & calls & err & -> & Hsplit & Hres & Herr).
    exists ((scrHash, epoch) :: done), rest, (scrAPI' :: results),
      (calls1 ++ calls2 ++ calls), err.
    split_and!; [| by rewrite fmap_cons, Hsplit | | done].
    + change (append_SmartContractResult scrAPI' tx) with (with_results [scrAPI'] tx).
      by rewrite with_results_app.
    + constructor; [|done]. exists scr. cbn [fst snd]. split; [done|].
      rewrite Hadapt. cbn [fst]. by rewrite Hlogs.
  - exists [], ((scrHash, epoch) :: ((fun scrHash => (scrHash, epoch)) <$> scrsHashes)),
      [], [], (Some (CannotLoadContractResults cause (hex_EncodeToString scrHash))).
    rewrite with_results_nil. split_and!; [done..|].
    by exists scrHash, epoch, ((fun scrHash => (scrHash, epoch)) <$> scrsHashes), cause.
Qed.

Lemma putSmartContractResultsInTransactionByHashesAndEpoch_no_error tx scrsHashes epoch :
  (putSmartContractResultsInTransactionByHashesAndEpoch arp tx scrsHashes epoch).2 = None <->
  Forall (loads arp) ((fun scrHash => (scrHash, epoch)) <$> scrsHashes).
Proof.
  destruct (putSmartContractResultsInTransactionByHashesAndEpoch_run tx scrsHashes epoch)
    as (done & rest & results & calls & err & -> & Hsplit & Hres & Herr).
  cbn. rewrite Hsplit. split.
  - intros ->. subst rest. rewrite app_nil_r.
    clear Hsplit. induction Hres; constructor; eauto using result_of_loads.
  - intros Hall. destruct err as [e|]; [|done]. exfalso.
    apply Forall_app in Hall as [_ Hall].
    destruct rest as [|p rest]; [by destruct Herr as (? & ? & ? & ? & ? & _)|].
    apply Forall_cons in Hall as [Hp _]. by eapply stopped_at_not_loads.
Qed.

(** All entries: the loop of [putSmartContractResultsInTransaction]. *)
Lemma putSmartContractResults_loop_run tx groups :
  exists done rest results calls err,
    putSmartContractResults_loop arp tx (Some <$> groups)
      = Some (with_results results tx, calls, err) /\
    history_pairs groups = done ++ rest /\
    Forall2 (result_of arp) done results /\
    match err with None => rest = [] | Some e => stopped_at arp rest e end.
Proof.
  revert tx. induction groups as [|g groups IH]; intros tx.
  { exists [], [], [], [], None. cbn. by rewrite with_results_nil. }
  rewrite fmap_cons. cbn [putSmartContractResults_loop].
  destruct (putSmartContractResultsInTransactionByHashesAndEpoch_run tx
              (ScResultsHashesAndEpoch.ScResultsHashes g) (ScResultsHashesAndEpoch.Epoch g))
    as (done1 & rest1 & results1 & calls1 & err1 & -> & Hsplit1 & Hres1 & Herr1).
  destruct err1 as [e|].
  - exists done1, (rest1 ++ history_pairs groups), results1, calls1, (Some e).
    split_and!; [done| |done|].
    + unfold history_pairs. rewrite fmap_cons. cbn [concat].
      unfold group_pairs at 1. by rewrite Hsplit1, app_assoc.
    + destruct Herr1 as (h & ep & rest' & cause & -> & Hf & ->).
      by exists h, ep, (rest' ++ history_pairs groups), cause.
  - subst rest1. rewrite app_nil_r in Hsplit1.
    destruct (IH (with_results results1 tx))
      as (done2 & rest2 & results2 & calls2 & err2 & -> & Hsplit2 & Hres2 & Herr2).
    exists (done1 ++ done2), rest2, (results1 ++ results2), (calls1 ++ calls2), err2.
    split_and!; [by rewrite with_results_app| |by apply Forall2_app|done].
    unfold history_pairs. rewrite fmap_cons. cbn [concat].
    unfold group_pairs at 1. fold (history_pairs groups).
    by rewrite Hsplit1, Hsplit2, app_assoc.
Qed.

(** Whatever the entries, the loop only appends results. *)
Lemma putSmartContractResults_loop_writes tx scrHashesEpoch tx' calls err :
  putSmartContractResults_loop arp tx scrHashesEpoch = Some (tx', calls, err) ->
  exists results, tx' = with_results results tx.
Proof.
  revert tx tx' calls err. induction scrHashesEpoch as [|[g|] l IH]; intros tx tx' calls err.
  - intros [= <- _ _]. exists []. by rewrite with_results_nil.
  - cbn [putSmartContractResults_loop].
    destruct (putSmartContractResultsInTransactionByHashesAndEpoch_run tx
                (ScResultsHashesAndEpoch.ScResultsHashes g)
                (ScResultsHashesAndEpoch.Epoch g))
      as (done1 & rest1 & results1 & calls1 & err1 & -> & _).
    destruct err1 as [e|].
    + intros [= <- _ _]. by exists results1.
    + destruct (putSmartContractResults_loop arp _ l) as [[[tx2 calls2] err2]|] eqn:Hl;
        [|done].
      intros [= <- _ _]. apply IH in Hl as [results2 ->].
      exists (results1 ++ results2). by rewrite with_results_app.
  - done.
Qed.

(** The loop panics exactly when it reaches a nil entry. *)
Lemma putSmartContractResults_loop_panics tx scrHashesEpoch :
  putSmartContractResults_loop arp tx scrHashesEpoch = None <->
  exists groups more,
    scrHashesEpoch = (Some <$> groups) ++ None :: more /\
    Forall (loads arp) (history_pairs groups).
Proof.
  revert tx. induction scrHashesEpoch as [|[g|] l IH]; intros tx.
  - cbn. split; [done|]. intros (groups & more & Heq & _). by destruct groups.
  - cbn [putSmartContractResults_loop].
    pose proof (putSmartContractResultsInTransactionByHashesAndEpoch_no_error tx
                  (ScResultsHashesAndEpoch.ScResultsHashes g)
                  (ScResultsHashesAndEpoch.Epoch g)) as Hno.
    destruct (putSmartContractResultsInTransactionByHashesAndEpoch arp tx _ _)
      as [[tx' calls] [e|]]; cbn in Hno.
    + split; [done|]. intros (groups & more & Heq & Hall). exfalso.
      destruct groups as [|g' groups]; [done|]. rewrite fmap_cons in Heq.
      injection Heq as <- _. unfold history_pairs in Hall. rewrite fmap_cons in Hall.
      cbn [concat] in Hall. apply Forall_app in Hall as [Hall _].
      by apply Hno in Hall.
    + specialize (IH tx'). split.
      * intros Hnone.
        assert (putSmartContractResults_loop arp tx' l = None) as Hl.
        { destruct (putSmartContractResults_loop arp tx' l) as [[[? ?] ?]|]; done. }
        apply IH in Hl as (groups & more & -> & Hall).
        exists (g :: groups), more. split; [done|].
        unfold history_pairs. rewrite fmap_cons. cbn [concat].
        apply Forall_app. split; [|done]. by apply Hno.
      * intros (groups & more & Heq & Hall).
        destruct groups as [|g' groups]; [done|]. rewrite fmap_cons in Heq.
        injection Heq as <- ->. unfold history_pairs in Hall. rewrite fmap_cons in Hall.
        cbn [concat] in Hall. apply Forall_app in Hall as [_ Hall].
        assert (putSmartContractResults_loop arp tx' ((Some <$> groups) ++ None :: more)
                = None) as ->; [|done].
        apply IH. by exists groups, more.
  - cbn. split; [|done]. intros _. by exists [], l.
Qed.

(** X29: [putSmartContractResultsInTransaction], over a history without
    nil entries, visits the hashes of all entries in order, each with the
    epoch of its entry, and appends to the results of the transaction,
    for every hash up to the first one that the storage does not hold,
    the stored result adapted and given the logs of the facade; nothing
    else of the transaction is written.  When the storage holds all of
    them there is no error and the status filter is run on the
    transaction; at the first hash it does not hold, the method stops
    with [errCannotLoadContractResults] around the cause and the hash in
    hexadecimal, keeps what it has appended, and does not run the
    filter. *)
Theorem putSmartContractResultsInTransaction_spec tx groups :
  exists done rest results calls err,
    putSmartContractResultsInTransaction SetStatusIfIsFailedESDTTransfer arp tx
      (Some <$> groups)
      = Some (match err with
              | None =>
                  SetStatusIfIsFailedESDTTransfer (shardCoordinator_SelfId arp)
                    (with_results results tx)
              | Some _ => with_results results tx
              end, calls, err) /\
    history_pairs groups = done ++ rest /\
    Forall2 (result_of arp) done results /\
    match err with None => rest = [] | Some e => stopped_at arp rest e end.
Proof.
  destruct (putSmartContractResults_loop_run tx groups)
    as (done & rest & results & calls & err & Hrun & Hsplit & Hres & Herr).
  exists done, rest, results, calls, err. split_and!; [|done..].
  unfold putSmartContractResultsInTransaction. rewrite Hrun. by destruct err.
Qed.

(** X28: what [putResultsInTransaction] leaves behind when it returns,
    which it only does for a transaction that is not nil.
    The logs of the transaction are replaced first, by what the logs
    facade returns, and stay replaced when the method then fails: after
    an error the receipt and the rest of the transaction are as before,
    and its results are the former ones, possibly with more after them.
    A history that does not know the transaction is no error, and then
    only the logs have changed.  When the history has a receipt hash, the
    results are not loaded, whatever hashes of results the history has:
    the receipt is read from the storage and set, or the method fails
    with [errCannotLoadReceipts] around the cause and the hash in
    hexadecimal, with the receipt as before. *)
Theorem putResultsInTransaction_outcomes hash tx epoch tx' calls err
    (Hrun : putResultsInTransaction is_ErrNotFoundInStorage SetStatusIfIsFailedESDTTransfer
              arp hash (Some tx) epoch = Some (tx', calls, err)) :
  (forall e, err = Some e ->
     ApiTransactionResult.Logs tx' = (logsFacade_GetLog arp hash epoch).1 /\
     ApiTransactionResult.Receipt tx' = ApiTransactionResult.Receipt tx /\
     ApiTransactionResult.rest tx' = ApiTransactionResult.rest tx /\
     ApiTransactionResult.SmartContractResults tx
       `prefix_of` ApiTransactionResult.SmartContractResults tx') /\
  (forall cause,
     historyRepository_GetResultsHashesByTxHash arp hash epoch = inr cause ->
     if is_ErrNotFoundInStorage cause
     then err = None /\ tx' = set_Logs (logsFacade_GetLog arp hash epoch).1 tx
     else err = Some (ApiExternal cause)) /\
  (forall resultsHashes,
     historyRepository_GetResultsHashesByTxHash arp hash epoch = inl (Some resultsHashes) ->
     ResultsHashesByTxHash.ReceiptsHash resultsHashes <> [] ->
     ApiTransactionResult.Logs tx' = (logsFacade_GetLog arp hash epoch).1 /\
     ApiTransactionResult.SmartContractResults tx'
       = ApiTransactionResult.SmartContractResults tx /\
     ApiTransactionResult.rest tx' = ApiTransactionResult.rest tx /\
     match getReceiptFromStorage arp (ResultsHashesByTxHash.ReceiptsHash resultsHashes) epoch
     with
     | (rec, None) => err = None /\ ApiTransactionResult.Receipt tx' = rec
     | (_, Some cause) =>
         err = Some (CannotLoadReceipts cause
                       (hex_EncodeToString
                          (ResultsHashesByTxHash.ReceiptsHash resultsHashes))) /\
         ApiTransactionResult.Receipt tx' = ApiTransactionResult.Receipt tx
     end).
Proof.
  unfold putResultsInTransaction, loadLogsIntoTransaction in Hrun.
  destruct (logsFacade_GetLog arp hash epoch) as [logs lerr]. cbn [fst].
  destruct (historyRepository_GetResultsHashesByTxHash arp hash epoch)
    as [[resultsHashes|]|cause]; [| done |].
  - case_decide as Hlen.
    + unfold putReceiptInTransaction in Hrun.
      destruct (getReceiptFromStorage arp _ epoch) as [rec [rerr|]] eqn:Hrec;
        injection Hrun as <- <- <-.
      * split_and!; [by intros e _ | done |].
        intros ? [= <-] _. by rewrite Hrec.
      * split_and!; [done.. |].
        intros ? [= <-] _. by rewrite Hrec.
    + split_and!; [| done |].
      2:{ intros ? [= <-] Hne. destruct (ResultsHashesByTxHash.ReceiptsHash resultsHashes);
          [done | cbn in Hlen; lia]. }
      intros e ->.
      destruct (putSmartContractResultsInTransaction _ arp _ _) as [[[tx1 calls1] err1]|]
        eqn:Hput; [|done].
      injection Hrun as <- <- ->.
      unfold putSmartContractResultsInTransaction in Hput.
      destruct (putSmartContractResults_loop arp _ _) as [[[tx2 calls2] [e2|]]|] eqn:Hloop;
        [|done..].
      injection Hput as <- <- <-.
      apply putSmartContractResults_loop_writes in Hloop as [results ->].
      cbn. split_and!; [done..|]. by apply prefix_app_r.
  - destruct (is_ErrNotFoundInStorage cause) eqn:Hnf; injection Hrun as <- <- <-.
    + split_and!; [done| |done]. intros ? [= <-]. by rewrite Hnf.
    + split_and!; [by intros e _| |done]. intros ? [= <-]. by rewrite Hnf.
Qed.

(** X30: on a processor as its constructor builds it, whose
    collaborators return and hand out no nil storer or parse result
    (they are functions here, and their results values),
    [putResultsInTransaction] panics in three cases only: the
    transaction it is given is nil; the history repository returns
    neither an error nor an entry; or the entry has no receipt hash and a
    nil entry among its hashes of results, and the storage holds every
    result listed before it.  A nil entry after a result that the storage
    does not hold is never reached. *)
Theorem putResultsInTransaction_panics_iff hash
    (tx : option (ApiTransactionResult.t ApiLogs ApiReceipt Rest)) epoch :
  putResultsInTransaction is_ErrNotFoundInStorage SetStatusIfIsFailedESDTTransfer
    arp hash tx epoch = None <->
  tx = None \/
  historyRepository_GetResultsHashesByTxHash arp hash epoch = inl None \/
  exists resultsHashes groups more,
    historyRepository_GetResultsHashesByTxHash arp hash epoch = inl (Some resultsHashes) /\
    ResultsHashesByTxHash.ReceiptsHash resultsHashes = [] /\
    ResultsHashesByTxHash.ScResultsHashesAndEpoch resultsHashes
      = (Some <$> groups) ++ None :: more /\
    Forall (loads arp) (history_pairs groups).
Proof.
  unfold putResultsInTransaction, loadLogsIntoTransaction.
  destruct (logsFacade_GetLog arp hash epoch) as [logs lerr].
  destruct tx as [tx|]; [|split; [by left | done]].
  destruct (historyRepository_GetResultsHashesByTxHash arp hash epoch)
    as [[resultsHashes|]|cause].
  - case_decide as Hlen.
    + destruct (putReceiptInTransaction arp _ _ epoch) as [tx1 err1].
      split; [done|]. intros [[=]|[[=]|(rh & groups & more & [= <-] & Hnil & _)]].
      rewrite Hnil in Hlen. cbn in Hlen. lia.
    + assert (ResultsHashesByTxHash.ReceiptsHash resultsHashes = []) as Hnil.
      { destruct (ResultsHashesByTxHash.ReceiptsHash resultsHashes); [done|].
        cbn in Hlen. lia. }
      pose proof (putSmartContractResults_loop_panics (set_Logs logs tx)
                    (ResultsHashesByTxHash.ScResultsHashesAndEpoch resultsHashes)) as Hloop.
      unfold putSmartContractResultsInTransaction.
      destruct (putSmartContractResults_loop arp _ _) as [[[tx1 calls1] [e1|]]|].
      * split; [done|].
        intros [[=]|[[=]|(rh & groups & more & [= <-] & _ & Heq & Hall)]].
        assert (Some (tx1, calls1, Some e1) = None) as [=]. apply Hloop. eauto.
      * split; [done|].
        intros [[=]|[[=]|(rh & groups & more & [= <-] & _ & Heq & Hall)]].
        assert (Some (tx1, calls1, @None api_error) = None) as [=]. apply Hloop. eauto.
      * split; [|done]. intros _. right. right.
        destruct Hloop as [(groups & more & Heq & Hall) _]; [done|].
        by exists resultsHashes, groups, more.
  - split; [by right; left | done].
  - destruct (is_ErrNotFoundInStorage cause);
      (split; [done|]; by intros [[=]|[[=]|(rh & ? & ? & [=] & _)]]).
Qed.

End TransactionAPIProperties.

(** On the sample: the history of [01] lists [0a], [0b] in epoch 3 and
    [0c], [0d], [0e] in epoch 4; the storage does not hold [0d].  The
    receivers have the two bytes the converter takes, the senders one. *)
Lemma sample_putResultsInTransaction_run :
  exists tx' calls,
    putResultsInTransaction sample_is_ErrNotFoundInStorage sample_SetStatus sample_arp
      ["001"%byte] (Some sample_tx) 7
      = Some (tx', calls, Some (CannotLoadContractResults "key not found" "0d")) /\
    ApiSmartContractResult.Hash <$> ApiTransactionResult.SmartContractResults tx'
      = ["0a"; "0b"; "0c"]%string /\
    ApiSmartContractResult.Logs <$> ApiTransactionResult.SmartContractResults tx'
      = [Some "logs"; None; Some "logs"]%string /\
    ApiSmartContractResult.RcvAddr <$> ApiTransactionResult.SmartContractResults tx'
      = ["0a0a"; "0b0b"; "0c0c"]%string /\
    ApiSmartContractResult.SndAddr <$> ApiTransactionResult.SmartContractResults tx'
      = [EmptyString; EmptyString; EmptyString] /\
    ApiSmartContractResult.PrevTxHash <$> ApiTransactionResult.SmartContractResults tx'
      = ["0a"; "0b"; "0c"]%string /\
    ApiTransactionResult.rest tx' = "pending"%string /\
    calls = [LogLine LogTrace "loadLogsIntoContractResults()"
               [("hash"%string, LogBytes ["011"%byte]); ("epoch"%string, LogInt 3);
                ("err"%string, LogString "no logs")]].
Proof. do 2 eexists. vm_compute. split_and!; reflexivity. Qed.

Lemma putResultsInTransaction_outcomes_witness :
  exists tx' calls err,
    putResultsInTransaction sample_is_ErrNotFoundInStorage sample_SetStatus sample_arp
      ["002"%byte] (Some sample_tx) 7 = Some (tx', calls, err) /\
    ApiTransactionResult.Logs tx' = Some "logs"%string /\
    ApiTransactionResult.SmartContractResults tx' = [] /\
    ApiTransactionResult.rest tx' = "pending"%string /\
    err = None /\ ApiTransactionResult.Receipt tx' = Some "0f"%string.
Proof.
  do 3 eexists. split; [reflexivity|].
  destruct (putResultsInTransaction_outcomes sample_is_ErrNotFoundInStorage sample_SetStatus
              sample_arp ["002"%byte] sample_tx 7 _ _ _ eq_refl) as (_ & _ & Hreceipt).
  assert (["015"%byte] <> []) as Hne by discriminate.
  destruct (Hreceipt _ eq_refl Hne) as (Hlogs & Hresults & Hrest & Hrec).
  vm_compute in Hrec. destruct Hrec as [Herr Hset].
  split; [exact Hlogs|]. split; [exact Hresults|]. split; [exact Hrest|].
  split; [reflexivity | exact Hset].
Defined.
